(** * Symptom-to-disease prediction engines

    A shallow embedding of the prediction subsystem of the
    Personalized-Medical-Assistant repository:

    - [ml_prediction/dataset_overlap_engine.py]  (module [Overlap]),
    - [ml_prediction/rf_prediction_engine.py]    (module [RF]),
    - [ml_prediction/custom_prediction_engine.py]
      (modules [Custom] and [CustomData]),
    - [ml_prediction/views.py], the two views that call the engine, with
      [get_engine] (module [Api]).

    Modelling conventions.
    - A Python [str] is a [string]; a character is a code point below 256
      (Latin-1), and [isspace], [lower], [strip] follow CPython on that
      range.
    - A cell of a pandas frame is a [str], NaN or [None].
    - A Python [float] is modelled by a rational ([Q]).  A score (a ratio
      of set sizes) or a probability is the exact rational the float
      approximates.  Where the code turns one into a percentage rounded to
      one decimal, the model computes in binary64: [b64] rounds a rational
      to the nearest double, [fmul] is the product of two doubles,
      [round1] is [round(x, 1)] of a Python float on the exact value of
      the double, and [np_round1] is [round(x, 1)] of a NumPy float; the
      result is kept as the decimal it prints as.
    - A [dict] is a [gmap], a [set] is a [gset]; [sorted] of a set of
      strings is the code-point-lexicographic merge sort of its elements.
    - Methods that write [self._normalize_cache] or may raise run in a
      state-and-exception monad over the engine object.
    - scikit-learn is outside the model: a fitted classifier is a record
      of its classes and its [predict_proba], and the three calls of the
      training step (the split, the fit on the training part, the
      accuracy on the holdout) are the fields of a record [Fitting], a
      parameter of [RF.init] and of [CustomData.init].

    The first part of the file holds the embedding, the second its
    properties: the theorems named C1 to C10 are the numbered properties
    of the specification, those named X1 onwards further properties of
    the code. *)

From Stdlib Require Import QArith Qround Qabs Qminmax Qpower Lqa Ascii.
From stdpp Require Import base option list strings gmap sorting.

#[local] Set Warnings "-clear-no-such-hyp".

(** ** Python [str] primitives *)

Module Py.

(** [str.isspace] on one character: the Unicode whitespace code points
    below 256 are 9-13, 28-32, 0x85 and 0xA0.  The regular expression
    class [\s] accepts the same set. *)
Definition isspace (c : ascii) : bool :=
  let n := N_of_ascii c in
  ((9 <=? n) && (n <=? 13) || (28 <=? n) && (n <=? 32)
   || (n =? 133) || (n =? 160))%N.

(** One character of [str.lower]: A-Z and the Latin-1 capitals
    0xC0-0xDE (0xD7, the multiplication sign, excepted) move up by 32. *)
Definition lower_char (c : ascii) : ascii :=
  let n := N_of_ascii c in
  if ((65 <=? n) && (n <=? 90)
      || (192 <=? n) && (n <=? 222) && negb (n =? 215))%N
  then ascii_of_N (n + 32) else c.

(** Membership in the class [[_\s]] of [_SPACE_RE]. *)
Definition is_sep (c : ascii) : bool :=
  isspace c || bool_decide (c = "_"%char).

Fixpoint lower (s : string) : string :=
  match s with
  | EmptyString => EmptyString
  | String c s' => String (lower_char c) (lower s')
  end.

Fixpoint lstrip (s : string) : string :=
  match s with
  | EmptyString => EmptyString
  | String c s' => if isspace c then lstrip s' else s
  end.

Fixpoint rstrip (s : string) : string :=
  match s with
  | EmptyString => EmptyString
  | String c s' =>
      match rstrip s' with
      | EmptyString => if isspace c then EmptyString else String c EmptyString
      | r => String c r
      end
  end.

(** [s.strip()] *)
Definition strip (s : string) : string := lstrip (rstrip s).

(** [s.replace(a, b)] for one-character [a] and [b]. *)
Fixpoint replace (a b : ascii) (s : string) : string :=
  match s with
  | EmptyString => EmptyString
  | String c s' => String (if bool_decide (c = a) then b else c) (replace a b s')
  end.

(** [re.compile(r'[_\s]+').sub(' ', s)]: every maximal run of separator
    characters becomes one space.  [in_run] tells that the previous
    character already belonged to the run being replaced. *)
Fixpoint sub_space (in_run : bool) (s : string) : string :=
  match s with
  | EmptyString => EmptyString
  | String c s' =>
      if is_sep c
      then if in_run then sub_space true s' else String " "%char (sub_space true s')
      else String c (sub_space false s')
  end.

(** [s.split(sep)] for a one-character separator: never an empty list. *)
Fixpoint split (sep : ascii) (s : string) : list string :=
  match s with
  | EmptyString => [EmptyString]
  | String c s' =>
      if bool_decide (c = sep) then EmptyString :: split sep s'
      else match split sep s' with
           | h :: t => String c h :: t
           | [] => [String c EmptyString]
           end
  end.

(** [ch in s] *)
Fixpoint contains (ch : ascii) (s : string) : bool :=
  match s with
  | EmptyString => false
  | String c s' => bool_decide (c = ch) || contains ch s'
  end.

(** Truthiness of a [str]: non-empty. *)
Definition nonempty (s : string) : bool :=
  match s with EmptyString => false | _ => true end.

End Py.

(** ** Symptom normalisation

    Both engines define [_norm] with the same body; [norm_compute] is the
    part executed on a cache miss. *)

Definition norm_compute (s : string) : string :=
  let v := Py.lower (Py.strip s) in
  Py.replace " "%char "_"%char (Py.strip (Py.sub_space false v)).

(** What [_norm] returns when the cache holds no stale entry. *)
Definition norm (s : string) : string :=
  if Py.nonempty s then norm_compute s else EmptyString.


(** ** Exceptions, and the monad of the engine methods *)

Inductive exn : Type :=
  | IndexError
  | KeyError
  | ValueError
  | ZeroDivisionError.

Global Instance exn_eq_dec : EqDecision exn.
Proof. solve_decision. Defined.

(** Pure code that may raise. *)
Global Instance res_ret : MRet (sum exn) := λ A a, inr a.
Global Instance res_bind : MBind (sum exn) := λ A B f r,
  match r with inl e => inl e | inr a => f a end.

(** A method of an object of type [S]: it may raise, and whatever it wrote
    to the object before raising stays written. *)
Definition M (S A : Type) : Type := S → (exn + A) * S.

Global Instance M_ret {S} : MRet (M S) := λ A a σ, (inr a, σ).
Global Instance M_bind {S} : MBind (M S) := λ A B f m σ,
  match m σ with
  | (inr a, σ') => f a σ'
  | (inl e, σ') => (inl e, σ')
  end.

Definition gets {S A} (f : S → A) : M S A := λ σ, (inr (f σ), σ).
Definition modify {S} (f : S → S) : M S unit := λ σ, (inr tt, f σ).
Definition lift {S A} (r : exn + A) : M S A := λ σ, (r, σ).

Fixpoint mapM {S A B} (f : A → M S B) (l : list A) : M S (list B) :=
  match l with
  | [] => mret []
  | x :: l' => y ← f x; ys ← mapM f l'; mret (y :: ys)
  end.

Fixpoint foldM {S A B} (f : B → A → M S B) (b : B) (l : list A) : M S B :=
  match l with
  | [] => mret b
  | x :: l' => b' ← f b x; foldM f b' l'
  end.

(** The same loop for pure code that may raise. *)
Fixpoint fold_res {A B} (f : B → A → exn + B) (b : B) (l : list A) : exn + B :=
  match l with
  | [] => inr b
  | x :: l' => b' ← f b x; fold_res f b' l'
  end.

(** The object after a sequence of method calls, whatever they return or
    raise. *)
Fixpoint run_all {St A} (calls : list (M St A)) (σ : St) : St :=
  match calls with
  | [] => σ
  | m :: calls' => run_all calls' (m σ).2
  end.

(** ** Cell values of a data frame *)

Inductive pyval : Type :=
  | PNone
  | PNaN
  | PStr (s : string).

Global Instance pyval_eq_dec : EqDecision pyval.
Proof. solve_decision. Defined.

(** [str(v)] *)
Definition py_str (v : pyval) : string :=
  match v with
  | PNone => "None"
  | PNaN => "nan"
  | PStr s => s
  end.

(** A row is the mapping from column label to cell that [iterrows] yields;
    [rows] are in index order, so a row's index label is its position. *)
Record DataFrame : Type := {
  columns : list string;
  rows : list (gmap string pyval)
}.

(** [row.get(col, default)] *)
Definition row_get (row : gmap string pyval) (col : string) (dflt : pyval) : pyval :=
  default dflt (row !! col).

(** [for idx, row in df.iterrows()] *)
Definition iterrows (d : DataFrame) : list (nat * gmap string pyval) :=
  zip (seq 0 (length (rows d))) (rows d).

(** [sorted(X)] for a set of strings. *)
Definition py_sorted (X : gset string) : list string :=
  merge_sort String.le (elements X).

(** The nearest integer, ties to even. *)
Definition round_half_even (q : Q) : Z :=
  let f := Qfloor q in
  let r := (q - inject_Z f)%Q in
  match (r ?= 1 # 2)%Q with
  | Lt => f
  | Gt => (f + 1)%Z
  | Eq => if Z.even f then f else (f + 1)%Z
  end.

(** [round(x, 1)] for a Python float [x], given as the rational it is
    exactly: CPython rounds the exact value of the double to the nearest
    multiple of one tenth, ties to even, and returns the double nearest to
    that decimal, which prints as the decimal (here the result). *)
Definition round1 (q : Q) : Q := (round_half_even (q * 10) # 10)%Q.

(** *** Binary64

    The exponent of the binade of a positive rational: the floor of its
    base-2 logarithm. *)
Definition ilog2 (q : Q) : Z :=
  if Qle_bool 1 q then Z.log2 (Qfloor q)
  else (- Z.log2_up (Qceiling (/ q)))%Z.

(** The double nearest to a positive rational: a significand of 53 bits,
    ties to the even significand. *)
Definition b64_pos (q : Q) : Q :=
  let e := ilog2 q in
  (inject_Z (round_half_even (q * 2 ^ (52 - e))) * 2 ^ (e - 52))%Q.

(** The double nearest to a rational, as a rational in lowest terms: what
    a float operation returns when its exact result is [q].  The exponent
    range of the format is not modelled (no overflow, no subnormal
    numbers): the floats rounded here are percentages. *)
Definition b64 (q : Q) : Q :=
  match (q ?= 0)%Q with
  | Eq => 0%Q
  | Gt => Qred (b64_pos q)
  | Lt => Qred (- b64_pos (- q))
  end.

(** [x * y] on floats: the second factor is a literal, the first a float
    the model holds as the rational it approximates. *)
Definition fmul (x y : Q) : Q := b64 (b64 x * b64 y).

(** [round(x, 1)] for a [numpy.float64]: NumPy multiplies by ten, rounds
    to the nearest integer (ties to even) and divides by ten, all in
    binary64; the quotient is the double nearest to that many tenths,
    which prints as the decimal (here the result). *)
Definition np_round1 (x : Q) : Q := (round_half_even (fmul x 10) # 10)%Q.

Definition Qltb (x y : Q) : bool := negb (Qle_bool y x).

(** ** The normalisation cache *)

Class HasCache (S : Type) : Type := {
  get_cache : S → gmap string string;
  set_cache : gmap string string → S → S;
  get_set_cache c σ : get_cache (set_cache c σ) = c;
  set_get_cache σ : set_cache (get_cache σ) σ = σ;
  set_set_cache c c' σ : set_cache c (set_cache c' σ) = set_cache c σ
}.

Section cache.
Context {St : Type} `{!HasCache St}.

(** [_norm] of either engine on a [str]: the test [not s] for the empty
    string, then the cache. *)
Definition norm_cached (s : string) : M St string :=
  if negb (Py.nonempty s) then mret EmptyString
  else
    cache ← gets get_cache;
    match cache !! s with
    | Some v => mret v
    | None =>
        let v := norm_compute s in
        _ ← modify (λ σ, set_cache (<[s := v]> (get_cache σ)) σ);
        mret v
    end.

(** [_norm] of either engine: [not s] holds of [None] (and of the empty
    string), [s != s] of NaN; any other argument is a [str]. *)
Definition norm_any (s : pyval) : M St string :=
  match s with
  | PNone | PNaN => mret EmptyString
  | PStr s => norm_cached s
  end.

(** Every cached value is the one [norm_compute] gives for its key. *)
Definition cache_ok (c : gmap string string) : Prop :=
  map_Forall (λ k v, v = norm_compute k) c.

(** The cache after one call. *)
Definition memo (c : gmap string string) (s : string) : gmap string string :=
  if Py.nonempty s
  then match c !! s with Some _ => c | None => <[s := norm_compute s]> c end
  else c.

(** The cache after a call on each element of a list, in order. *)
Definition memos (c : gmap string string) (l : list string) : gmap string string :=
  foldl memo c l.

(** *** Reading the methods

    Three ways a method can behave towards the object, used to state what
    calls do to an engine. *)

(** A method is [stable] when, on a consistent cache, all it changes of the
    object is the cache, which it extends consistently, and its outcome
    does not depend on what the cache held. *)
Definition stable {A} (m : M St A) : Prop :=
  ∀ σ, cache_ok (get_cache σ) →
    (∃ c', (m σ).2 = set_cache c' σ ∧ get_cache σ ⊆ c' ∧ cache_ok c') ∧
    (∀ c, cache_ok c → (m (set_cache c σ)).1 = (m σ).1).

(** A method [computes] a value when, on a consistent cache, it returns
    that value without raising and is otherwise as in [stable]. *)
Definition computes {A} (m : M St A) (a : A) : Prop :=
  ∀ σ, cache_ok (get_cache σ) →
    ∃ c', m σ = (inr a, set_cache c' σ) ∧ get_cache σ ⊆ c' ∧ cache_ok c'.

(** A method is [readonly] when it never writes to the object. *)
Definition readonly {A} (m : M St A) : Prop := ∀ σ, (m σ).2 = σ.

End cache.

(** ** [dataset_overlap_engine.py] *)

Module Overlap.

(** One entry of [self._compiled_rows]. *)
Record CompiledRow : Type := {
  disease : pyval;
  symptoms : gset string;
  medicine : string;
  diet : string;
  row_index : nat
}.

(** The attributes of a [DatasetOverlapPredictionEngine]. *)
Record Engine : Type := {
  df : DataFrame;
  min_threshold : Q;
  symptom_columns : list string;
  _compiled_rows : list CompiledRow;
  _normalize_cache : gmap string string;
  available_symptoms : list string
}.

Definition with_cache (c : gmap string string) (σ : Engine) : Engine :=
  {| df := df σ; min_threshold := min_threshold σ;
     symptom_columns := symptom_columns σ;
     _compiled_rows := _compiled_rows σ;
     _normalize_cache := c;
     available_symptoms := available_symptoms σ |}.

Definition with_compiled_rows (rs : list CompiledRow) (σ : Engine) : Engine :=
  {| df := df σ; min_threshold := min_threshold σ;
     symptom_columns := symptom_columns σ;
     _compiled_rows := rs;
     _normalize_cache := _normalize_cache σ;
     available_symptoms := available_symptoms σ |}.

Definition with_available (l : list string) (σ : Engine) : Engine :=
  {| df := df σ; min_threshold := min_threshold σ;
     symptom_columns := symptom_columns σ;
     _compiled_rows := _compiled_rows σ;
     _normalize_cache := _normalize_cache σ;
     available_symptoms := l |}.

Global Program Instance engine_cache : HasCache Engine :=
  {| get_cache := _normalize_cache; set_cache := with_cache |}.
Next Obligation. done. Qed.
Next Obligation. by intros []. Qed.
Next Obligation. done. Qed.

Definition _norm (s : pyval) : M Engine string := norm_any s.

Definition _split_cell (cell : string) : M Engine (list string) :=
  if negb (Py.nonempty cell) then mret []
  else
    parts ← (if Py.contains ","%char cell
             then mapM (λ p, _norm (PStr p)) (Py.split ","%char cell)
             else p ← _norm (PStr cell); mret [p]);
    mret (filter (λ p, Py.nonempty p) parts).

(** The body of the row loop of [_prepare]. *)
Definition prepare_row (cols : list string) (idx : nat)
    (row : gmap string pyval) : M Engine CompiledRow :=
  symptom_set ← foldM (λ (sset : gset string) col,
      toks ← _split_cell (py_str (row_get row col PNone));
      mret (foldl (λ acc t, acc ∪ {[t]}) sset toks)) ∅ cols;
  mret {| disease := row_get row "Disease" PNone;
          symptoms := symptom_set;
          medicine := Py.strip (py_str
            (row_get row "Medicine Recommendation" (PStr EmptyString)));
          diet := Py.strip (py_str
            (row_get row "Diet Recommendation" (PStr EmptyString)));
          row_index := idx |}.

Definition _prepare : M Engine unit :=
  d ← gets df;
  cols ← gets symptom_columns;
  _ ← foldM (λ _ ir,
      r ← prepare_row cols ir.1 ir.2;
      modify (λ σ, with_compiled_rows (_compiled_rows σ ++ [r]) σ))
    tt (iterrows d);
  crs ← gets _compiled_rows;
  let all_symptoms := foldl (λ acc r, acc ∪ symptoms r) (∅ : gset string) crs in
  modify (with_available (py_sorted all_symptoms)).

(** The object [__init__] has set up when it calls [_prepare], from the
    frame [pd.read_csv] returned. *)
Definition blank (d : DataFrame) (thr : Q) : Engine :=
  {| df := d; min_threshold := thr;
     symptom_columns := filter (λ c, String.prefix "Symptom_" c) (columns d);
     _compiled_rows := [];
     _normalize_cache := ∅;
     available_symptoms := [] |}.

(** [__init__] *)
Definition init (d : DataFrame) (thr : Q) : exn + Engine :=
  match _prepare (blank d thr) with
  | (inr _, σ) => inr σ
  | (inl e, _) => inl e
  end.

Definition default_min_threshold : Q := 12 # 100.

Section display.
(** [str.title]; its case tables leave the modelled code points, and
    nothing below depends on what it returns. *)
Variable title : string → string.

Definition get_available_symptoms : M Engine (list string) :=
  av ← gets available_symptoms;
  mret ((λ s, title (Py.replace "_"%char " "%char s)) <$> av).
End display.

(** The [debug] entry of a result. *)
Inductive Debug : Type :=
  | DebugLow (score threshold : Q)
  | DebugMatch (score : Q) (matched_symptoms input_symptoms : list string)
      (row_index : nat).

Record Result : Type := {
  predicted_disease : pyval;
  confidence : Q;
  medicine_recommendation : string;
  diet_recommendation : string;
  status : string;
  debug : option Debug
}.

(** The row kept in [best]: [{**r, 'intersection': inter, 'score': score}] *)
Record Best : Type := {
  best_row : CompiledRow;
  intersection : gset string;
  score : Q
}.

(** [len(inter) / len(union)] *)
Definition py_truediv (a b : nat) : exn + Q :=
  if decide (b = 0) then inl ZeroDivisionError
  else inr (Z.of_nat a # Pos.of_nat b).

Definition epsilon : Q := 1 # 1000000000.

(** The first half of an iteration of the scoring loop of [predict]:
    [None] when the row is skipped by [continue], else the intersection
    and the score of the row. *)
Definition row_score (input_norm : gset string) (r : CompiledRow)
    : exn + option (gset string * Q) :=
  let inter := input_norm ∩ symptoms r in
  if decide (inter = ∅) then inr None
  else
    let union := input_norm ∪ symptoms r in
    sc ← py_truediv (size inter) (size union);
    inr (Some (inter, sc)).

(** The second half: the update of [best] and [best_score]. *)
Definition update_best (acc : option Best * Q) (r : CompiledRow)
    (inter : gset string) (sc : Q) : option Best * Q :=
  let cand := {| best_row := r; intersection := inter; score := sc |} in
  if Qltb acc.2 sc then (Some cand, sc)
  else if Qltb (Qabs (sc - acc.2)) epsilon then
    match acc.1 with
    | Some b =>
        if size (intersection b) <? size inter
        then (Some cand, acc.2) else acc
    | None => acc
    end
  else acc.

Definition scan_step (input_norm : gset string) (acc : option Best * Q)
    (r : CompiledRow) : exn + (option Best * Q) :=
  o ← row_score input_norm r;
  match o with
  | None => inr acc
  | Some (inter, sc) => inr (update_best acc r inter sc)
  end.

Definition scan (input_norm : gset string) (crs : list CompiledRow)
    : exn + (option Best * Q) :=
  fold_res (scan_step input_norm) (None, 0%Q) crs.

(** [x or fallback] on strings *)
Definition str_or (x fallback : string) : string :=
  if Py.nonempty x then x else fallback.

Definition em_dash : string := "—".

Definition no_symptoms_result : Result :=
  {| predicted_disease := PStr "Unknown"; confidence := 0;
     medicine_recommendation := "Provide at least one symptom";
     diet_recommendation := em_dash;
     status := "no_symptoms"; debug := None |}.

Definition unrecognized_result : Result :=
  {| predicted_disease := PStr "Unknown"; confidence := 0;
     medicine_recommendation := "Symptoms not recognized in dataset";
     diet_recommendation := em_dash;
     status := "unrecognized"; debug := None |}.

Definition low_match_result (best_score thr : Q) : Result :=
  {| predicted_disease := PStr "Unknown";
     confidence := round1 (fmul best_score 100);
     medicine_recommendation := "Insufficient dataset match. Refine symptoms.";
     diet_recommendation := "General balanced diet, hydration, rest.";
     status := "low_match";
     debug := Some (DebugLow best_score thr) |}.

Definition success_result (input_norm : gset string) (b : Best)
    (best_score : Q) : Result :=
  {| predicted_disease := disease (best_row b);
     confidence := round1 (fmul best_score 100);
     medicine_recommendation :=
       str_or (medicine (best_row b)) "Consult a healthcare provider";
     diet_recommendation :=
       str_or (diet (best_row b)) "Maintain balanced diet";
     status := "success";
     debug := Some (DebugMatch best_score (py_sorted (intersection b))
                      (py_sorted input_norm) (row_index (best_row b))) |}.

Definition predict (symptoms : list string) : M Engine Result :=
  match symptoms with
  | [] => mret no_symptoms_result
  | _ =>
      ns ← mapM (λ s, _norm (PStr s)) (filter (λ s, Py.nonempty s) symptoms);
      let input_norm : gset string := list_to_set ns in
      if decide (input_norm = ∅) then mret unrecognized_result
      else
        crs ← gets _compiled_rows;
        thr ← gets min_threshold;
        found ← lift (scan input_norm crs);
        match found.1 with
        | None => mret (low_match_result found.2 thr)
        | Some b =>
            if Qltb found.2 thr then mret (low_match_result found.2 thr)
            else mret (success_result input_norm b found.2)
        end
  end.

(** A call from the web layer, and what it answers. *)
Inductive Call : Type :=
  | CallPredict (symptoms : list string)
  | CallGetAvailableSymptoms.

Definition run_call (title : string → string) (c : Call)
    : M Engine (Result + list string) :=
  match c with
  | CallPredict symptoms => r ← predict symptoms; mret (inl r)
  | CallGetAvailableSymptoms => l ← get_available_symptoms title; mret (inr l)
  end.

End Overlap.

(** ** numpy arrays, as far as the engines use them *)

Module Np.

(** [np.zeros(n, dtype=np.uint8)] *)
Definition zeros (n : nat) : list N := replicate n 0%N.

(** [vec[idx] = 1]; an index past the end raises. *)
Definition set_one (vec : list N) (idx : nat) : exn + list N :=
  if decide (idx < length vec) then inr (<[idx := 1%N]> vec)
  else inl IndexError.

(** [vec.sum()]: numpy accumulates a [uint8] array in a 64-bit unsigned
    integer, so the sum of a 0/1 vector does not wrap. *)
Definition sum (vec : list N) : N := foldr N.add 0%N vec.

(** [a[i]] *)
Definition item {A} (a : list A) (i : nat) : exn + A :=
  match a !! i with
  | Some x => inr x
  | None => inl IndexError
  end.

Fixpoint argmax_from (i best_i : nat) (best : Q) (l : list Q) : nat :=
  match l with
  | [] => best_i
  | x :: l' =>
      if Qltb best x then argmax_from (S i) i x l'
      else argmax_from (S i) best_i best l'
  end.

(** [np.argmax(a)]: the first index of the maximum; an empty array
    raises. *)
Definition argmax (a : list Q) : exn + nat :=
  match a with
  | [] => inl ValueError
  | x :: l => inr (argmax_from 1 0 x l)
  end.

Global Instance Qle_fst_dec (x y : Q * nat) : Decision (x.1 <= y.1)%Q.
Proof.
  destruct (Qlt_le_dec y.1 x.1) as [Hlt|Hle]; [right|left; exact Hle].
  intros Hle. exact (Qlt_not_le _ _ Hlt Hle).
Defined.

(** [np.argsort(a)], ascending.  numpy's default sort is not stable, so
    the order among equal entries is one of the orders it may produce. *)
Definition argsort (a : list Q) : list nat :=
  snd <$> merge_sort (λ x y : Q * nat, (x.1 <= y.1)%Q)
            (zip a (seq 0 (length a))).

End Np.

(** ** [rf_prediction_engine.py] *)

Module RF.

Definition _SYM_COL_PREFIX : string := "Symptom ".

(** A fitted [sklearn.ensemble.RandomForestClassifier], seen through the
    two members the engine reads; [predict_proba] is applied to one
    sample. *)
Record RandomForestClassifier : Type := {
  classes_ : list pyval;
  predict_proba : list N → list Q
}.

(** The attributes of a [RandomForestDatasetEngine]. *)
Record Engine : Type := {
  df : DataFrame;
  n_estimators : Z;
  random_state : Z;
  symptom_columns : list string;
  _normalize_cache : gmap string string;
  symptom_vocab : list string;
  symptom_index : gmap string nat;
  model : option RandomForestClassifier;
  _row_symptom_sets : list (gset string)
}.

Definition with_cache (c : gmap string string) (σ : Engine) : Engine :=
  {| df := df σ; n_estimators := n_estimators σ;
     random_state := random_state σ;
     symptom_columns := symptom_columns σ;
     _normalize_cache := c;
     symptom_vocab := symptom_vocab σ;
     symptom_index := symptom_index σ;
     model := model σ;
     _row_symptom_sets := _row_symptom_sets σ |}.

Definition with_prepared (vocab : list string) (idx : gmap string nat)
    (sets : list (gset string)) (σ : Engine) : Engine :=
  {| df := df σ; n_estimators := n_estimators σ;
     random_state := random_state σ;
     symptom_columns := symptom_columns σ;
     _normalize_cache := _normalize_cache σ;
     symptom_vocab := vocab;
     symptom_index := idx;
     model := model σ;
     _row_symptom_sets := sets |}.

Definition with_model (m : option RandomForestClassifier) (σ : Engine) : Engine :=
  {| df := df σ; n_estimators := n_estimators σ;
     random_state := random_state σ;
     symptom_columns := symptom_columns σ;
     _normalize_cache := _normalize_cache σ;
     symptom_vocab := symptom_vocab σ;
     symptom_index := symptom_index σ;
     model := m;
     _row_symptom_sets := _row_symptom_sets σ |}.

Global Program Instance engine_cache : HasCache Engine :=
  {| get_cache := _normalize_cache; set_cache := with_cache |}.
Next Obligation. done. Qed.
Next Obligation. by intros []. Qed.
Next Obligation. done. Qed.

Definition _norm (s : pyval) : M Engine string := norm_any s.

(** [not cell or cell != cell] *)
Definition absent (cell : pyval) : bool :=
  match cell with
  | PNone | PNaN => true
  | PStr s => negb (Py.nonempty s)
  end.

(** [p and p.lower() != 'nan'] *)
Definition keeps (p : string) : bool :=
  Py.nonempty p && negb (String.eqb (Py.lower p) "nan").

Definition _split_cell (cell : pyval) : M Engine (list string) :=
  if absent cell then mret []
  else
    let s := py_str cell in
    let parts := if Py.contains ","%char s
                 then Py.strip <$> Py.split ","%char s
                 else [Py.strip s] in
    mapM (λ p, _norm (PStr p)) (filter (λ p, keeps p) parts).

(** [{s: i for i, s in enumerate(l)}], the index counting from [i]. *)
Fixpoint enumerate_index (i : nat) (l : list string)
    (m : gmap string nat) : gmap string nat :=
  match l with
  | [] => m
  | s :: l' => enumerate_index (S i) l' (<[s := i]> m)
  end.

(** The symptom set of one row, in the row loop of [_prepare]. *)
Definition prepare_row (cols : list string) (row : gmap string pyval)
    : M Engine (gset string) :=
  foldM (λ (sset : gset string) col,
      toks ← _split_cell (row_get row col PNone);
      mret (foldl (λ acc t, if Py.nonempty t then acc ∪ {[t]} else acc)
              sset toks)) ∅ cols.

Definition _prepare : M Engine unit :=
  d ← gets df;
  cols ← gets symptom_columns;
  acc ← foldM (λ (acc : gset string * list (gset string)) ir,
      sset ← prepare_row cols ir.2;
      mret (acc.1 ∪ sset, acc.2 ++ [sset]))
    (∅, []) (iterrows d);
  let vocab := py_sorted acc.1 in
  modify (with_prepared vocab (enumerate_index 0 vocab ∅) acc.2).

(** The body of the loop of [_vectorize]. *)
Definition vectorize_step (vec : list N) (s : string) : M Engine (list N) :=
  ns ← _norm (PStr s);
  idx ← gets (λ σ, symptom_index σ !! ns);
  match idx with
  | Some i => lift (Np.set_one vec i)
  | None => mret vec
  end.

Definition _vectorize (symptoms : list string) : M Engine (list N) :=
  n ← gets (λ σ, length (symptom_vocab σ));
  foldM vectorize_step (Np.zeros n) symptoms.

(** [_row_vector]; the set is visited in the order of [elements]. *)
Definition _row_vector (sset : gset string) : M Engine (list N) :=
  n ← gets (λ σ, length (symptom_vocab σ));
  index ← gets symptom_index;
  lift (fold_res (λ vec s,
      match index !! s with
      | Some i => Np.set_one vec i
      | None => inr vec
      end) (Np.zeros n) (elements sset)).

(** ['Disease ' if 'Disease ' in self.df.columns else 'Disease'] *)
Definition disease_col (d : DataFrame) : string :=
  if bool_decide ("Disease " ∈ columns d) then "Disease " else "Disease".

(** [row[col]] *)
Definition row_item (row : gmap string pyval) (col : string) : exn + pyval :=
  match row !! col with
  | Some v => inr v
  | None => inl KeyError
  end.

(** The object [__init__] has set up when it calls [_prepare], with the
    default settings, from the frame after its column labels were
    stripped and renamed. *)
Definition blank (d : DataFrame) : Engine :=
  {| df := d; n_estimators := 300; random_state := 42;
     symptom_columns :=
       filter (λ c, String.prefix _SYM_COL_PREFIX c) (columns d);
     _normalize_cache := ∅;
     symptom_vocab := [];
     symptom_index := ∅;
     model := None;
     _row_symptom_sets := [] |}.

(** The calls into scikit-learn at the end of [_train]; each may raise.
    [train_test_split ts rs X y] stands for the class counts, the choice
    of stratification they decide and [train_test_split(X, y,
    test_size=ts, random_state=rs, stratify=...)]; it returns [(X_train,
    X_test, y_train, y_test)].  [fit_forest ne rs X_train y_train] stands for
    [RandomForestClassifier(n_estimators=ne, random_state=rs,
    class_weight='balanced_subsample', n_jobs=-1)] and its [fit(X_train,
    y_train)]; [accuracy_score m X_test y_test] for
    [accuracy_score(y_test, m.predict(X_test))]. *)
Record Fitting : Type := {
  train_test_split : Q → Z → list (list N) → list pyval →
    exn + (list (list N) * list (list N) * list pyval * list pyval);
  fit_forest : Z → Z → list (list N) → list pyval →
    exn + RandomForestClassifier;
  accuracy_score : RandomForestClassifier → list (list N) → list pyval →
    exn + Q
}.

Section training.
Variable fit : Fitting.

Definition _train : M Engine unit :=
  d ← gets df;
  sets ← gets _row_symptom_sets;
  xy ← foldM (λ (xy : list (list N) * list pyval) rs,
      if decide (rs.2 = (∅ : gset string)) then mret xy
      else
        x ← _row_vector rs.2;
        y ← lift (row_item rs.1.2 (disease_col d));
        mret (xy.1 ++ [x], xy.2 ++ [y]))
    ([], []) (zip (iterrows d) sets);
  if decide (length xy.1 = 0) then lift (inl ValueError)
  else
    rs ← gets random_state;
    parts ← lift (train_test_split fit (25 # 100) rs xy.1 xy.2);
    let '(X_train, X_test, y_train, y_test) := parts in
    ne ← gets n_estimators;
    m ← lift (fit_forest fit ne rs X_train y_train);
    _ ← modify (with_model (Some m));
    acc ← lift (accuracy_score fit m X_test y_test);
    mret tt.

(** [__init__] with the default settings. *)
Definition init (d : DataFrame) : exn + Engine :=
  match (_ ← _prepare; _train) (blank d) with
  | (inr _, σ) => inr σ
  | (inl e, _) => inl e
  end.
End training.

Record Result : Type := {
  predicted_disease : pyval;
  confidence : Q;
  medicine_recommendation : string;
  diet_recommendation : string;
  foods_to_avoid : string;
  status : string;
  candidates : option (list (pyval * Q))
}.

(** [a != b] on cell values: NaN differs from everything, itself
    included. *)
Definition py_ne (a b : pyval) : bool :=
  match a, b with
  | PNaN, _ | _, PNaN => true
  | _, _ => negb (bool_decide (a = b))
  end.

(** [str(row.get(col, '')).strip()], replaced by [fallback] when it is
    empty or reads nan or none in any letter case. *)
Definition recommendation (row : gmap string pyval) (col fallback : string)
    : string :=
  let v := Py.strip (py_str (row_get row col (PStr EmptyString))) in
  if negb (Py.nonempty v)
     || bool_decide (Py.lower v ∈ ["nan"; "none"; EmptyString])
  then fallback else v.

Definition recommendations (row : gmap string pyval) : string * string * string :=
  (recommendation row "Medicine" "Consult a healthcare provider",
   recommendation row "Diet Recommendation" "Maintain a balanced diet",
   recommendation row "Foods To Avoid" "No specific foods to avoid mentioned").

(** The row loop of [_best_recommendations]: the first row of the disease
    with the largest overlap, [None] when the disease has no row. *)
Definition best_row_step (d_col : string) (disease : pyval)
    (input_norm : gset string)
    (acc : option (gmap string pyval) * Z)
    (rs : nat * gmap string pyval * gset string)
    : exn + (option (gmap string pyval) * Z) :=
  label ← row_item rs.1.2 d_col;
  if py_ne label disease then inr acc
  else
    let inter_size := Z.of_nat (size (input_norm ∩ rs.2)) in
    if (acc.2 <? inter_size)%Z then inr (Some rs.1.2, inter_size)
    else inr acc.

Definition _best_recommendations (disease : pyval)
    (input_symptoms : list string) : M Engine (string * string * string) :=
  ns ← mapM (λ s, _norm (PStr s))
         (filter (λ s, Py.nonempty s) input_symptoms);
  let input_norm : gset string := list_to_set ns in
  d ← gets df;
  sets ← gets _row_symptom_sets;
  found ← lift (fold_res (best_row_step (disease_col d) disease input_norm)
                  (None, (-1)%Z) (zip (iterrows d) sets));
  match found.1 with
  | Some row => mret (recommendations row)
  | None =>
      (* [self.df[self.df[disease_col] == disease].iloc[0]]: no row of
         the frame carries the label, so the selection is empty. *)
      if bool_decide (disease_col d ∈ columns d) then lift (inl IndexError)
      else lift (inl KeyError)
  end.

Definition em_dash : string := "—".

Definition no_symptoms_result : Result :=
  {| predicted_disease := PStr "Unknown"; confidence := 0;
     medicine_recommendation := "Provide at least one symptom";
     diet_recommendation := em_dash; foods_to_avoid := em_dash;
     status := "no_symptoms"; candidates := None |}.

Definition error_result : Result :=
  {| predicted_disease := PStr "Unknown"; confidence := 0;
     medicine_recommendation := "Model not ready";
     diet_recommendation := em_dash; foods_to_avoid := em_dash;
     status := "error"; candidates := None |}.

Definition unrecognized_result : Result :=
  {| predicted_disease := PStr "Unknown"; confidence := 0;
     medicine_recommendation := "Symptoms not found in dataset vocabulary";
     diet_recommendation := em_dash; foods_to_avoid := em_dash;
     status := "unrecognized"; candidates := None |}.

(** [round(float(p * 100), 1)] *)
Definition percent (p : Q) : Q := round1 (fmul p 100).

Definition predict (symptoms : list string) : M Engine Result :=
  match symptoms with
  | [] => mret no_symptoms_result
  | _ =>
      mdl ← gets model;
      match mdl with
      | None => mret error_result
      | Some m =>
          vec ← _vectorize symptoms;
          if decide (Np.sum vec = 0%N) then mret unrecognized_result
          else
            let proba := predict_proba m vec in
            let classes := classes_ m in
            top_idx ← lift (Np.argmax proba);
            top_disease ← lift (Np.item classes top_idx);
            p ← lift (Np.item proba top_idx);
            let confidence := percent p in
            let order := take 3 (reverse (Np.argsort proba)) in
            top_candidates ← lift (fold_res (λ acc i,
                c ← Np.item classes i;
                q ← Np.item proba i;
                inr (acc ++ [(c, percent q)])) [] order);
            recs ← _best_recommendations top_disease symptoms;
            mret {| predicted_disease := top_disease;
                    confidence := confidence;
                    medicine_recommendation := recs.1.1;
                    diet_recommendation := recs.1.2;
                    foods_to_avoid := recs.2;
                    status := "success";
                    candidates := Some top_candidates |}
      end
  end.

Section display.
(** [str.title], as for the overlap engine. *)
Variable title : string → string.

Definition get_available_symptoms : M Engine (list string) :=
  vocab ← gets symptom_vocab;
  mret ((λ s, title (Py.replace "_"%char " "%char s)) <$> vocab).
End display.

(** A call from the web layer, and what it answers. *)
Inductive Call : Type :=
  | CallPredict (symptoms : list string)
  | CallGetAvailableSymptoms.

Definition run_call (title : string → string) (c : Call)
    : M Engine (Result + list string) :=
  match c with
  | CallPredict symptoms => r ← predict symptoms; mret (inl r)
  | CallGetAvailableSymptoms => l ← get_available_symptoms title; mret (inr l)
  end.

End RF.

(** ** [custom_prediction_engine.py]: the feature vector *)

Module Custom.

(** The two attributes of a [CustomDiseasePredictionEngine] that
    [_create_feature_vector] reads. *)
Record Engine : Type := {
  symptoms_list : list string;
  symptom_to_encoded : gmap string nat
}.

Definition _normalize_symptom (symptom : string) : string :=
  if negb (Py.nonempty symptom) || String.eqb symptom "nan" then EmptyString
  else
    let v := Py.lower (Py.strip symptom) in
    Py.replace " "%char "_"%char (Py.sub_space false v).

(** [feature_vector[idx] = 1] on the float array of [np.zeros(n)]. *)
Definition set_one (vec : list Q) (idx : nat) : exn + list Q :=
  if decide (idx < length vec) then inr (<[idx := 1%Q]> vec)
  else inl IndexError.

Definition feature_step (e : Engine) (vec : list Q) (symptom : string)
    : exn + list Q :=
  match symptom_to_encoded e !! symptom with
  | Some idx => set_one vec idx
  | None => inr vec
  end.

Definition _create_feature_vector (e : Engine) (symptoms : list string)
    : exn + list Q :=
  let feature_vector := replicate (length (symptoms_list e)) 0%Q in
  let normalized_symptoms := _normalize_symptom <$> symptoms in
  fold_res (feature_step e) feature_vector normalized_symptoms.

End Custom.

(** ** Vocabulary of the properties

    What the statements about the engines are written with.  Nothing here
    is run by the engines; every notion is tied to their code by a lemma
    of the second part. *)

(** *** Shapes of normalised strings *)

(** Shape of a string in which separators have been collapsed to single
    spaces; [prev_sp] tells that the previous character was a space. *)
Fixpoint spaced (prev_sp : bool) (s : string) : Prop :=
  match s with
  | EmptyString => True
  | String c s' =>
      if bool_decide (c = " "%char)
      then prev_sp = false ∧ spaced true s'
      else Py.is_sep c = false ∧ spaced false s'
  end.

(** Every character is its own lower case. *)
Fixpoint lowered (s : string) : Prop :=
  match s with
  | EmptyString => True
  | String c s' => Py.lower_char c = c ∧ lowered s'
  end.

(** The first character, if any, is not whitespace. *)
Definition hd_ok (s : string) : Prop :=
  match s with
  | EmptyString => True
  | String c _ => Py.isspace c = false
  end.

(** The last character, if any, is not whitespace. *)
Fixpoint last_ok (s : string) : Prop :=
  match s with
  | EmptyString => True
  | String c EmptyString => Py.isspace c = false
  | String _ s' => last_ok s'
  end.

(** No character is whitespace. *)
Fixpoint no_space (s : string) : Prop :=
  match s with
  | EmptyString => True
  | String c s' => Py.isspace c = false ∧ no_space s'
  end.

(** *** Sorting and presence vectors *)

(** The strict code-point order of [sorted]. *)
Definition str_lt (a b : string) : Prop := String.ltb a b = true.

(** One step of a vectorising loop, on a token already normalised. *)
Definition vec_step (index : gmap string nat) (vec : list N) (t : string)
    : exn + list N :=
  match index !! t with
  | Some i => Np.set_one vec i
  | None => inr vec
  end.

Module OverlapSpec.
Import Overlap.

(** Specification side: the Jaccard similarity of two symptom sets,
    the size of the intersection over the size of the union ([0] when
    both are empty). *)
Definition jaccard (A B : gset string) : Q :=
  Z.of_nat (size (A ∩ B)) # Pos.of_nat (size (A ∪ B)).

(** Specification side: the best per-row Jaccard score is the maximum of
    the scores of the rows.  [scan_run] below shows that the [best_score]
    of the loop of [predict] is this maximum. *)
Definition best_jaccard (input_norm : gset string) (crs : list CompiledRow) : Q :=
  foldl (λ m r, Qmax m (jaccard input_norm (symptoms r))) 0%Q crs.

(** What [predict] normalises its argument to. *)
Definition input_set (symptoms : list string) : gset string :=
  list_to_set (norm <$> filter (λ s, Py.nonempty s) symptoms).

(** The raw symptom strings a call hands to the engine. *)
Definition raw_symptoms (c : Call) : list string :=
  match c with
  | CallPredict symptoms => symptoms
  | CallGetAvailableSymptoms => []
  end.

(** What the loop maintains about [best] and [best_score]. *)
Definition acc_ok (acc : option Best * Q) : Prop :=
  (0 <= acc.2 <= 1)%Q ∧ (acc.1 = None → acc.2 = 0%Q).

(** The result [predict] builds once the rows are scored. *)
Definition verdict (thr : Q) (input_norm : gset string)
    (found : option Best * Q) : Result :=
  match found.1 with
  | None => low_match_result found.2 thr
  | Some b =>
      if Qltb found.2 thr then low_match_result found.2 thr
      else success_result input_norm b found.2
  end.

(** The tokens [_split_cell] extracts from the text of a cell. *)
Definition cell_tokens (cell : string) : list string :=
  filter (λ p, Py.nonempty p) (norm <$> Py.split ","%char cell).

(** The symptom set [_prepare] builds for a row. *)
Definition row_symptoms (cols : list string) (row : gmap string pyval)
    : gset string :=
  foldl (λ sset col,
      foldl (λ acc t, acc ∪ {[t]}) sset
        (cell_tokens (py_str (row_get row col PNone)))) ∅ cols.

(** The entry of [_compiled_rows] for a row of the frame. *)
Definition compiled (cols : list string) (ir : nat * gmap string pyval)
    : CompiledRow :=
  {| disease := row_get ir.2 "Disease" PNone;
     symptoms := row_symptoms cols ir.2;
     medicine := Py.strip (py_str
       (row_get ir.2 "Medicine Recommendation" (PStr EmptyString)));
     diet := Py.strip (py_str
       (row_get ir.2 "Diet Recommendation" (PStr EmptyString)));
     row_index := ir.1 |}.

(** The set [_prepare] sorts into [available_symptoms]. *)
Definition all_symptoms (crs : list CompiledRow) : gset string :=
  foldl (λ acc r, acc ∪ symptoms r) ∅ crs.

(** Specification side: the symptoms a cell of the dataset lists.  A cell
    that holds text lists the non-empty tokens of its comma-separated
    parts; a cell left blank in the file, which the frame holds as NaN,
    lists none. *)
Definition listed (cell : pyval) : list string :=
  match cell with
  | PStr s => cell_tokens s
  | PNone | PNaN => []
  end.

(** Specification side: the full symptom set of a row of the dataset. *)
Definition listed_symptoms (cols : list string) (row : gmap string pyval)
    : gset string :=
  list_to_set (cols ≫= λ col, listed (row_get row col PNone)).

(** Specification side: the distinct symptom tokens across all rows. *)
Definition dataset_symptoms (d : DataFrame) : gset string :=
  ⋃ (listed_symptoms (filter (λ c, String.prefix "Symptom_" c) (columns d))
       <$> rows d).

(** No symptom cell of the row is missing: each holds text. *)
Definition filled (cols : list string) (row : gmap string pyval) : Prop :=
  ∀ col, col ∈ cols → ∃ s, row_get row col PNone = PStr s.

End OverlapSpec.

Module RFSpec.
Import RF.

(** The tokens [_split_cell] extracts from a cell. *)
Definition cell_tokens (cell : pyval) : list string :=
  if absent cell then []
  else norm <$> filter (λ p, keeps p)
                  (Py.strip <$> Py.split ","%char (py_str cell)).

(** The inner loop of [_prepare]: non-empty tokens join the set. *)
Definition add_tokens (sset : gset string) (toks : list string) : gset string :=
  foldl (λ acc t, if Py.nonempty t then acc ∪ {[t]} else acc) sset toks.

(** The symptom set [_prepare] builds for a row. *)
Definition row_symptoms (cols : list string) (row : gmap string pyval)
    : gset string :=
  foldl (λ sset col, add_tokens sset (cell_tokens (row_get row col PNone)))
    ∅ cols.

(** The accumulator of the row loop of [_prepare]: the vocabulary so far
    and the row sets so far. *)
Definition collect (cols : list string)
    (acc : gset string * list (gset string))
    (irs : list (nat * gmap string pyval)) : gset string * list (gset string) :=
  foldl (λ acc ir, (acc.1 ∪ row_symptoms cols ir.2,
                    acc.2 ++ [row_symptoms cols ir.2])) acc irs.

(** The raw symptom strings a call hands to the engine. *)
Definition raw_symptoms (c : Call) : list string :=
  match c with
  | CallPredict symptoms => symptoms
  | CallGetAvailableSymptoms => []
  end.

(** What [__init__] establishes and every call keeps. *)
Definition wf (σ : Engine) : Prop :=
  cache_ok (get_cache σ) ∧
  NoDup (symptom_vocab σ) ∧
  (∀ s i, symptom_index σ !! s = Some i ↔ symptom_vocab σ !! i = Some s) ∧
  is_Some (model σ).

(** The classifier's contract the engine relies on for its confidence:
    [predict_proba] yields probabilities. *)
Definition proba_ok (m : RandomForestClassifier) : Prop :=
  ∀ vec p, p ∈ predict_proba m vec → (0 <= p <= 1)%Q.

(** The frame has a disease column, filled in every row, and one row set
    per row. *)
Definition frame_ok (σ : Engine) : Prop :=
  length (_row_symptom_sets σ) = length (rows (df σ)) ∧
  ∀ row, row ∈ rows (df σ) → is_Some (row !! disease_col (df σ)).

(** The contract of the fitted classifier: it yields one probability per
    class, and its classes are labels of the frame it was fitted on. *)
Definition classifier_ok (σ : Engine) (m : RandomForestClassifier) : Prop :=
  proba_ok m ∧
  classes_ m ≠ [] ∧
  (∀ vec, length (predict_proba m vec) = length (classes_ m)) ∧
  (∀ c, c ∈ classes_ m →
     c ≠ PNaN ∧
     ∃ row, row ∈ rows (df σ) ∧ row !! disease_col (df σ) = Some c).

End RFSpec.

(** ** A small dataset

    Two diseases: Flu (fever, cough, fatigue) and Cold (cough, sneezing),
    laid out once with the column labels of each engine. *)

Module Demo.

Definition overlap_row (d s1 s2 : string) : gmap string pyval :=
  <["Disease" := PStr d]> (<["Symptom_1" := PStr s1]>
  (<["Symptom_2" := PStr s2]> (<["Medicine Recommendation" := PStr "Rest"]>
  (<["Diet Recommendation" := PStr "Fluids"]> ∅)))).

Definition overlap_df : DataFrame :=
  {| columns := ["Disease"; "Symptom_1"; "Symptom_2";
                 "Medicine Recommendation"; "Diet Recommendation"];
     rows := [overlap_row "Flu" "Fever, cough" "fatigue";
              overlap_row "Cold" "cough" "Sneezing"] |}.

Definition rf_row (d s1 s2 : string) : gmap string pyval :=
  <["Disease" := PStr d]> (<["Symptom 1" := PStr s1]>
  (<["Symptom 2" := PStr s2]> (<["Medicine" := PStr "Rest"]>
  (<["Diet Recommendation" := PStr "Fluids"]>
  (<["Foods To Avoid" := PNaN]> ∅))))).

Definition rf_df : DataFrame :=
  {| columns := ["Disease"; "Symptom 1"; "Symptom 2"; "Medicine";
                 "Diet Recommendation"; "Foods To Avoid"];
     rows := [rf_row "Flu" "Fever, cough" "fatigue";
              rf_row "Cold" "cough" "Sneezing"] |}.

(** A stand-in for a fitted forest: it votes Flu when fever (index 2 of
    the vocabulary) is present, Cold otherwise. *)
Definition forest : RF.RandomForestClassifier :=
  {| RF.classes_ := [PStr "Cold"; PStr "Flu"];
     RF.predict_proba := λ vec,
       match vec !! 2%nat with
       | Some 1%N => [(1 # 4)%Q; (3 # 4)%Q]
       | _ => [(2 # 3)%Q; (1 # 3)%Q]
       end |}.

(** A stand-in for scikit-learn: the split keeps every sample for
    training, the fit returns [forest], and the accuracy is 1. *)
Definition fit : RF.Fitting :=
  {| RF.train_test_split := λ _ _ X y, inr (X, [], y, []);
     RF.fit_forest := λ _ _ _ _, inr forest;
     RF.accuracy_score := λ _ _ _, inr 1%Q |}.

(** The same frame with the second symptom of Cold left blank in the
    file, which [pd.read_csv] loads as NaN. *)
Definition gappy_df : DataFrame :=
  {| columns := columns overlap_df;
     rows := [overlap_row "Flu" "Fever, cough" "fatigue";
              <["Symptom_2" := PNaN]> (overlap_row "Cold" "cough" "x")] |}.

(** The frame of the random-forest engine with the same blank cell. *)
Definition rf_gappy_df : DataFrame :=
  {| columns := columns rf_df;
     rows := [rf_row "Flu" "Fever, cough" "fatigue";
              <["Symptom 2" := PNaN]> (rf_row "Cold" "cough" "x")] |}.

Definition title (s : string) : string := s.

(** The two engines built from it. *)
Definition overlap_engine : Overlap.Engine :=
  (Overlap._prepare (Overlap.blank overlap_df Overlap.default_min_threshold)).2.

Definition rf_engine : RF.Engine :=
  ((_ ← RF._prepare; RF._train fit) (RF.blank rf_df)).2.

(** The two engines built from the frames with the blank cell. *)
Definition gappy_engine : Overlap.Engine :=
  (Overlap._prepare (Overlap.blank gappy_df Overlap.default_min_threshold)).2.

Definition rf_gappy_engine : RF.Engine :=
  ((_ ← RF._prepare; RF._train fit) (RF.blank rf_gappy_df)).2.

Definition custom_engine : Custom.Engine :=
  {| Custom.symptoms_list := ["cough"; "fatigue"; "fever"; "sneezing"];
     Custom.symptom_to_encoded :=
       <["cough" := 0]> (<["fatigue" := 1]> (<["fever" := 2]>
       (<["sneezing" := 3]> ∅))) |}.

End Demo.

(** ** Further definitions

    The callers of the engines, and the notions the further properties
    are stated with. *)

(** Underscores of a token: none at either end, no two in a row;
    [prev_us] tells that the previous character was an underscore (or
    that the string starts here). *)
Fixpoint inner_us (prev_us : bool) (s : string) : Prop :=
  match s with
  | EmptyString => True
  | String c s' =>
      if bool_decide (c = "_"%char)
      then prev_us = false ∧ s' ≠ EmptyString ∧ inner_us true s'
      else inner_us false s'
  end.

(** The normal form of a symptom: lower case, free of whitespace, with
    single underscores between its words. *)
Definition token (t : string) : Prop :=
  lowered t ∧ no_space t ∧ inner_us true t.

Module OverlapBest.
Import Overlap OverlapSpec.

(** The entry the scoring loop keeps in [best] when it retains a row. *)
Definition candidate (input_norm : gset string) (r : CompiledRow) : Best :=
  {| best_row := r;
     intersection := input_norm ∩ symptoms r;
     score := jaccard input_norm (symptoms r) |}.

(** What the loop holds in [best] and [best_score] after the rows
    [seen]: nothing while no row shares a symptom with the input, else a
    row that does, scored within [epsilon] of the best score. *)
Definition best_ok (input_norm : gset string) (seen : list CompiledRow)
    (acc : option Best * Q) : Prop :=
  match acc.1 with
  | None => acc.2 = 0%Q ∧ ∀ r, r ∈ seen → input_norm ∩ symptoms r = ∅
  | Some b =>
      ∃ r, r ∈ seen ∧ b = candidate input_norm r ∧
           input_norm ∩ symptoms r ≠ ∅ ∧
           (score b <= acc.2)%Q ∧ (acc.2 - score b < epsilon)%Q
  end.

End OverlapBest.

Module Samples.

(** Two rows that tie on any input naming only their shared symptom. *)
Definition tie_df : DataFrame :=
  {| columns := columns Demo.overlap_df;
     rows := [Demo.overlap_row "Flu" "fever" "cough";
              Demo.overlap_row "Cold" "cough" "sneezing"] |}.

Definition tie_engine : Overlap.Engine :=
  (Overlap._prepare (Overlap.blank tie_df Overlap.default_min_threshold)).2.

End Samples.

Module RFTraining.
Import RF.

(** A training sample built from a row of the frame paired with its
    symptom set: the label is the row's disease cell, the features are the
    indicator vector of the set over the vocabulary. *)
Definition sample_of (σ : Engine)
    (z : nat * gmap string pyval * gset string) (s : list N * pyval) : Prop :=
  z.1.2 !! disease_col (df σ) = Some s.2 ∧
  length s.1 = length (symptom_vocab σ) ∧
  ∀ j t, symptom_vocab σ !! j = Some t →
    s.1 !! j = Some (if decide (t ∈ z.2) then 1%N else 0%N).

(** The rows [_train] keeps: those with a non-empty symptom set. *)
Definition kept_rows (σ : Engine) : list (nat * gmap string pyval * gset string) :=
  filter (λ z, z.2 ≠ ∅) (zip (iterrows (df σ)) (_row_symptom_sets σ)).

End RFTraining.

Module RFChoice.
Import RF.

(** The row carries the disease label: [row[disease_col] != disease] is
    false. *)
Definition labelled (d_col : string) (disease : pyval)
    (row : gmap string pyval) : Prop :=
  ∃ label, row !! d_col = Some label ∧ py_ne label disease = false.

(** Position [k] holds the first row of the disease among those that share
    the most symptoms with the input. *)
Definition chosen (d_col : string) (disease : pyval) (input_norm : gset string)
    (zs : list (nat * gmap string pyval * gset string)) (k : nat) : Prop :=
  ∃ z, zs !! k = Some z ∧ labelled d_col disease z.1.2 ∧
    ∀ j z', zs !! j = Some z' → labelled d_col disease z'.1.2 →
      size (input_norm ∩ z'.2) ≤ size (input_norm ∩ z.2) ∧
      (j < k → size (input_norm ∩ z'.2) < size (input_norm ∩ z.2)).

(** What the row loop of [_best_recommendations] holds after the rows
    [pre]. *)
Definition best_inv (d_col : string) (disease : pyval) (input_norm : gset string)
    (pre : list (nat * gmap string pyval * gset string))
    (acc : option (gmap string pyval) * Z) : Prop :=
  match acc.1 with
  | None => acc.2 = (-1)%Z ∧ ∀ z, z ∈ pre → ¬ labelled d_col disease z.1.2
  | Some row =>
      ∃ k z, chosen d_col disease input_norm pre k ∧ pre !! k = Some z ∧
             z.1.2 = row ∧ acc.2 = Z.of_nat (size (input_norm ∩ z.2))
  end.

End RFChoice.

(** [try: m except Exception as e: h e]; what [m] wrote before raising
    stays written. *)
Definition catch {S A} (m : M S A) (h : exn → M S A) : M S A := λ σ,
  match m σ with
  | (inl e, σ') => h e σ'
  | (inr a, σ') => (inr a, σ')
  end.

(** ** [get_engine] and the two views of [ml_prediction/views.py] that use
    it

    The views are modelled behind [login_required], on a request that
    passed it.  Of a request they read the method and the body; the body
    is given by the outcome of [json.loads(request.body)] followed by
    [data.get('symptoms', [])]: an exception, no usable entry (the key is
    absent, or its value is empty), or a list of strings, which is what
    the page sends. *)
Module Api.

(** The module-level [_engine_singleton]. *)
Definition Singleton : Type := option RF.Engine.

(** The dictionary handed to [JsonResponse]. *)
Inductive Payload : Type :=
  | Symptoms (names : list string)
  | Prediction (result : RF.Result)
  | Error (message : string)
  | ErrorOf (e : exn).

Record JsonResponse : Type := {
  content : Payload;
  status_code : nat
}.

Section engine.
(** [RandomForestDatasetEngine()]: locating and reading the data file and
    fitting the forest happen there; the call yields an engine or
    raises. *)
Variable construct : exn + RF.Engine.
Variable title : string → string.

Definition get_engine : M Singleton RF.Engine := λ st,
  match st with
  | Some e => (inr e, st)
  | None =>
      match construct with
      | inr e => (inr e, Some e)
      | inl x => (inl x, None)
      end
  end.

(** A method call on the engine [get_engine] returned: the engine is the
    object the singleton names, so what the method writes to it is written
    there. *)
Definition invoke {A} (engine : RF.Engine) (m : M RF.Engine A) : M Singleton A :=
  λ _, ((m engine).1, Some (m engine).2).

Definition get_symptoms_api : M Singleton JsonResponse :=
  engine ← get_engine;
  symptoms ← invoke engine (RF.get_available_symptoms title);
  mret {| content := Symptoms symptoms; status_code := 200 |}.

Definition predict_disease_api (method : string)
    (body : exn + option (list string)) : M Singleton JsonResponse :=
  if String.eqb method "POST" then
    catch
      (data ← lift body;
       let symptoms := default [] data in
       match symptoms with
       | [] => mret {| content := Error "No symptoms provided";
                       status_code := 400 |}
       | _ =>
           engine ← get_engine;
           result ← invoke engine (RF.predict symptoms);
           mret {| content := Prediction result; status_code := 200 |}
       end)
      (λ e, mret {| content := ErrorOf e; status_code := 500 |})
  else mret {| content := Error "Method not allowed"; status_code := 405 |}.

(** A request to one of the two views. *)
Inductive Request : Type :=
  | GetSymptoms
  | PostPredict (method : string) (body : exn + option (list string)).

Definition serve (q : Request) : M Singleton JsonResponse :=
  match q with
  | GetSymptoms => get_symptoms_api
  | PostPredict method body => predict_disease_api method body
  end.

End engine.
End Api.

(** ** [custom_prediction_engine.py]: preparation, training and
    prediction

    [find_similar_symptoms], which calls [difflib], is left out. *)
Module CustomData.
Import Custom.

(** An exception of this engine: one of [exn], or the [TypeError] that
    [sorted] raises on labels that do not compare. *)
Inductive raised : Type :=
  | Builtin (e : exn)
  | TypeError.

Global Instance raised_ret : MRet (sum raised) := λ A a, inr a.
Global Instance raised_bind : MBind (sum raised) := λ A B f r,
  match r with inl e => inl e | inr a => f a end.

Definition builtin {A} (r : exn + A) : raised + A :=
  match r with inl e => inl (Builtin e) | inr a => inr a end.

Definition symptom_columns (d : DataFrame) : list string :=
  filter (λ c, String.prefix "Symptom_" c) (columns d).

(** [self.df[col].dropna().astype(str)]: the string cells of a column, in
    row order. *)
Definition column_text (d : DataFrame) (col : string) : list string :=
  omap (λ row, match row_get row col PNaN with
               | PStr s => Some s
               | _ => None
               end) (rows d).

(** What one cell adds to [all_symptoms]. *)
Definition cell_parts (symptom_row : string) : list string :=
  if Py.contains ","%char symptom_row
  then Py.strip <$> Py.split ","%char symptom_row
  else [Py.strip symptom_row].

Definition all_symptoms (d : DataFrame) : gset string :=
  foldl (λ acc col,
      foldl (λ acc symptom_row, acc ∪ list_to_set (cell_parts symptom_row))
        acc (column_text d col))
    ∅ (symptom_columns d).

(** [s and s.strip() and s != 'nan'] *)
Definition keeps (s : string) : bool :=
  Py.nonempty s && Py.nonempty (Py.strip s) && negb (String.eqb s "nan").

(** [self.df[col]] *)
Definition column (d : DataFrame) (col : string) : exn + list pyval :=
  if bool_decide (col ∈ columns d)
  then inr ((λ row, row_get row col PNaN) <$> rows d)
  else inl KeyError.

(** [Series.unique()]: the values in order of first appearance. *)
Fixpoint unique_from (seen l : list pyval) : list pyval :=
  match l with
  | [] => []
  | v :: l' =>
      if bool_decide (v ∈ seen) then unique_from seen l'
      else v :: unique_from (v :: seen) l'
  end.

Definition unique (l : list pyval) : list pyval := unique_from [] l.

Definition as_str (v : pyval) : option string :=
  match v with PStr s => Some s | _ => None end.

(** [sorted] on distinct cell values: strings compare with each other and
    with nothing else. *)
Definition sorted_values (l : list pyval) : raised + list pyval :=
  match l with
  | [] | [_] => inr l
  | _ =>
      if forallb (λ v, bool_decide (is_Some (as_str v))) l
      then inr (PStr <$> merge_sort String.le (omap as_str l))
      else inl TypeError
  end.

Definition _prepare_data (d : DataFrame) : raised + (Engine * list pyval) :=
  let symptoms_list :=
    merge_sort String.le
      (_normalize_symptom <$> filter (λ s, keeps s) (elements (all_symptoms d))) in
  labels ← builtin (column d "Disease");
  diseases_list ← sorted_values (unique labels);
  inr ({| symptoms_list := symptoms_list;
          symptom_to_encoded := RF.enumerate_index 0 symptoms_list ∅ |},
       diseases_list).

(** The symptoms [_prepare_training_data] reads off a row. *)
Definition row_symptoms (cols : list string) (row : gmap string pyval)
    : exn + list string :=
  fold_res (λ acc col,
      cell ← RF.row_item row col;
      match cell with
      | PStr s =>
          let symptom_value := Py.strip s in
          if Py.nonempty symptom_value && negb (String.eqb symptom_value "nan")
          then if Py.contains ","%char symptom_value
               then inr (acc ++ (Py.strip <$> Py.split ","%char symptom_value))
               else inr (acc ++ [symptom_value])
          else inr acc
      | _ => inr acc
      end) [] cols.

Definition _prepare_training_data (e : Engine) (d : DataFrame)
    : exn + (list (list Q) * list pyval) :=
  fold_res (λ (xy : list (list Q) * list pyval) (ir : nat * gmap string pyval),
      rs ← row_symptoms (symptom_columns d) ir.2;
      match rs with
      | [] => inr xy
      | _ =>
          feature_vector ← _create_feature_vector e rs;
          label ← RF.row_item ir.2 "Disease";
          inr (xy.1 ++ [feature_vector], xy.2 ++ [label])
      end) ([], []) (iterrows d).

(** A fitted classifier of this engine; its samples are float vectors. *)
Record Classifier : Type := {
  classes_ : list pyval;
  predict_proba : list Q → list Q
}.

(** The attributes of a [CustomDiseasePredictionEngine] once
    initialised. *)
Record Trained : Type := {
  base : Engine;
  diseases_list : list pyval;
  df : DataFrame;
  model : Classifier
}.

(** The calls into scikit-learn of [_train_model]; each may raise.
    [train_test_split ts rs X y] stands for [train_test_split(X, y,
    test_size=ts, random_state=rs)] and returns [(X_train, X_test,
    y_train, y_test)]; [fit_forest ne rs X_train y_train] for
    [RandomForestClassifier(n_estimators=ne, random_state=rs)] and its
    [fit(X_train, y_train)]; [accuracy_score m X_test y_test] for
    [accuracy_score(y_test, m.predict(X_test))]. *)
Record Fitting : Type := {
  train_test_split : Q → Z → list (list Q) → list pyval →
    exn + (list (list Q) * list (list Q) * list pyval * list pyval);
  fit_forest : Z → Z → list (list Q) → list pyval → exn + Classifier;
  accuracy_score : Classifier → list (list Q) → list pyval → exn + Q
}.

Section training.
Variable fit : Fitting.

Definition _train_model (e : Engine) (d : DataFrame) : exn + Classifier :=
  xy ← _prepare_training_data e d;
  if decide (length xy.1 = 0) then inl ValueError
  else
    parts ← train_test_split fit (2 # 10) 42 xy.1 xy.2;
    let '(X_train, X_test, y_train, y_test) := parts in
    m ← fit_forest fit 100 42 X_train y_train;
    accuracy ← accuracy_score fit m X_test y_test;
    inr m.

(** [__init__], from the frame [_load_dataset] read. *)
Definition init (d : DataFrame) : raised + Trained :=
  prepared ← _prepare_data d;
  m ← builtin (_train_model prepared.1 d);
  inr {| base := prepared.1; diseases_list := prepared.2; df := d; model := m |}.
End training.

Record Result : Type := {
  disease : pyval;
  confidence : Q;
  medicines : string;
  diet : string
}.

Definition default_medicine : string := "Consult a healthcare provider".
Definition default_diet : string := "Maintain a balanced diet".

(** One comparison of [self.df['Disease'] == disease]: a missing value
    on either side compares unequal. *)
Definition cell_eq (cell disease : pyval) : bool :=
  match cell, disease with
  | PStr a, PStr b => String.eqb a b
  | _, _ => false
  end.

Definition _get_recommendations (t : Trained) (disease : pyval)
    : exn + (string * string) :=
  labels ← column (df t) "Disease";
  let disease_rows :=
    filter (λ row, cell_eq (row_get row "Disease" PNaN) disease)
      (rows (df t)) in
  match disease_rows with
  | row :: _ =>
      inr (py_str (row_get row "Medicine Recommendation" (PStr default_medicine)),
           py_str (row_get row "Diet Recommendation" (PStr default_diet)))
  | [] => inr (default_medicine, default_diet)
  end.

Definition predict_disease (t : Trained) (symptoms : list string) : exn + Result :=
  match symptoms with
  | [] => inr {| disease := PStr "Unknown"; confidence := 0;
                 medicines := default_medicine; diet := default_diet |}
  | _ =>
      let normalized_symptoms := _normalize_symptom <$> symptoms in
      feature_vector ← _create_feature_vector (base t) normalized_symptoms;
      let predictions := predict_proba (model t) feature_vector in
      predicted_class_idx ← Np.argmax predictions;
      predicted_disease ← Np.item (classes_ (model t)) predicted_class_idx;
      p ← Np.item predictions predicted_class_idx;
      let confidence := fmul p 100 in
      recs ← _get_recommendations t predicted_disease;
      inr {| disease := predicted_disease; confidence := np_round1 confidence;
             medicines := recs.1; diet := recs.2 |}
  end.

Section display.
Variable title : string → string.

Definition get_available_symptoms (t : Trained) : list string :=
  (λ symptom, title (Py.replace "_"%char " "%char symptom))
    <$> symptoms_list (base t).
End display.

End CustomData.

(** What the statements about training are written with. *)
Module CustomSpec.
Import Custom CustomData.

(** Every index of the mapping is a position of the vocabulary. *)
Definition in_range (e : Engine) : Prop :=
  ∀ t i, symptom_to_encoded e !! t = Some i → i < length (symptoms_list e).

(** The rows [_prepare_training_data] keeps: those off which it reads at
    least one symptom. *)
Definition kept (cols : list string) (row : gmap string pyval) : bool :=
  match row_symptoms cols row with
  | inr (_ :: _) => true
  | _ => false
  end.

Definition kept_rows (d : DataFrame) : list (gmap string pyval) :=
  filter (λ row, kept (symptom_columns d) row) (rows d).

(** A training sample built from a row: the label is the row's disease
    cell, the features mark the positions the mapping gives to the row's
    symptoms. *)
Definition sample_of (e : Engine) (cols : list string)
    (row : gmap string pyval) (s : list Q * pyval) : Prop :=
  row !! "Disease" = Some s.2 ∧
  length s.1 = length (symptoms_list e) ∧
  ∃ rs, row_symptoms cols row = inr rs ∧
    ∀ j, j < length (symptoms_list e) →
      s.1 !! j =
        Some (if decide (Exists (λ part, symptom_to_encoded e !! _normalize_symptom part
                                           = Some j) rs)
              then 1%Q else 0%Q).

(** A symptom cell off which [_prepare_training_data] reads nothing:
    missing, blank, or reading nan. *)
Definition blank (cell : pyval) : Prop :=
  match cell with
  | PStr s => Py.strip s = EmptyString ∨ Py.strip s = "nan"
  | _ => True
  end.

(** The first row of the frame whose disease cell equals the label. *)
Definition first_match (d : DataFrame) (label : pyval) (k : nat)
    (row : gmap string pyval) : Prop :=
  rows d !! k = Some row ∧
  cell_eq (row_get row "Disease" PNaN) label = true ∧
  ∀ j r, j < k → rows d !! j = Some r →
    cell_eq (row_get r "Disease" PNaN) label = false.

End CustomSpec.

Module CustomSamples.

(** A frame in which two cells spell the same symptom differently. *)
Definition twice_df : DataFrame :=
  {| columns := columns Demo.overlap_df;
     rows := [Demo.overlap_row "Flu" "Fever" "cough";
              Demo.overlap_row "Cold" "fever" "sneezing"] |}.

(** The frame of [Demo] with the disease of its second row left blank in
    the file. *)
Definition unlabelled_df : DataFrame :=
  {| columns := columns Demo.overlap_df;
     rows := [Demo.overlap_row "Flu" "Fever, cough" "fatigue";
              <["Disease" := PNaN]> (Demo.overlap_row "Cold" "cough" "Sneezing")] |}.

(** A stand-in for the fitted classifier: it votes Flu when the last
    fever column (index 2) is set, Cold otherwise. *)
Definition forest : CustomData.Classifier :=
  {| CustomData.classes_ := [PStr "Cold"; PStr "Flu"];
     CustomData.predict_proba := λ vec,
       match vec !! 2%nat with
       | Some q => if Qeq_bool q 1 then [(1 # 4)%Q; (3 # 4)%Q]
                   else [(2 # 3)%Q; (1 # 3)%Q]
       | None => [(2 # 3)%Q; (1 # 3)%Q]
       end |}.

(** A stand-in for scikit-learn: the split keeps every sample for
    training, the fit returns [forest], and the accuracy is 1. *)
Definition fit : CustomData.Fitting :=
  {| CustomData.train_test_split := λ _ _ X y, inr (X, [], y, []);
     CustomData.fit_forest := λ _ _ _ _, inr forest;
     CustomData.accuracy_score := λ _ _ _, inr 1%Q |}.

(** The custom engine built from the frame of [Demo]. *)
Definition trained : CustomData.Trained :=
  {| CustomData.base := Demo.custom_engine;
     CustomData.diseases_list := [PStr "Cold"; PStr "Flu"];
     CustomData.df := Demo.overlap_df;
     CustomData.model := forest |}.

End CustomSamples.

(** ** [custom_prediction_engine.py]: [get_disease_info] *)
Module CustomInfo.
Import Custom CustomData.

Record Info : Type := {
  disease : pyval;
  symptoms : list string;
  medicines : string;
  diet : string
}.

Definition get_disease_info (t : Trained) (disease : pyval) : exn + Info :=
  labels ← column (df t) "Disease";
  let disease_rows :=
    filter (λ row, cell_eq (row_get row "Disease" PNaN) disease)
      (rows (df t)) in
  match disease_rows with
  | row :: _ =>
      common_symptoms ← row_symptoms (symptom_columns (df t)) row;
      inr {| disease := disease; symptoms := common_symptoms;
             medicines :=
               py_str (row_get row "Medicine Recommendation" (PStr default_medicine));
             diet := py_str (row_get row "Diet Recommendation" (PStr default_diet)) |}
  | [] => inr {| disease := disease; symptoms := [];
                 medicines := default_medicine; diet := default_diet |}
  end.

End CustomInfo.

(** A list of strings with the last one stripped on the right: what
    splitting a right-stripped string gives. *)
Fixpoint rstrip_last (l : list string) : list string :=
  match l with
  | [] => []
  | [x] => [Py.rstrip x]
  | x :: l' => x :: rstrip_last l'
  end.

(** * Properties *)

(** ** Normalisation is idempotent *)

Section norm_facts.

Lemma lower_char_idem c : Py.lower_char (Py.lower_char c) = Py.lower_char c.
Proof. by destruct c as [[] [] [] [] [] [] [] []]. Qed.

Lemma isspace_sep c : Py.is_sep c = false → Py.isspace c = false.
Proof. unfold Py.is_sep. by intros [? _]%orb_false_elim. Qed.

Lemma spaced_sub_space b s : spaced b (Py.sub_space b s).
Proof.
  revert b. induction s as [|c s IH]; intros b; simpl; [done|].
  destruct (Py.is_sep c) eqn:Hc.
  - destruct b; simpl; auto.
  - simpl. case_bool_decide as Hsp; [by subst|]. auto.
Qed.

Lemma lowered_lower s : lowered (Py.lower s).
Proof. induction s; simpl; auto using lower_char_idem. Qed.

Lemma lowered_lstrip s : lowered s → lowered (Py.lstrip s).
Proof. induction s as [|c s IH]; simpl; [done|]. destruct (Py.isspace c); simpl; tauto. Qed.

Lemma lowered_rstrip s : lowered s → lowered (Py.rstrip s).
Proof.
  induction s as [|c s IH]; simpl; [done|]. intros [Hc Hs].
  destruct (Py.rstrip s) eqn:Hr.
  - destruct (Py.isspace c); simpl; auto.
  - simpl in *. auto.
Qed.

Lemma lowered_strip s : lowered s → lowered (Py.strip s).
Proof. intros. by apply lowered_lstrip, lowered_rstrip. Qed.

Lemma lowered_sub_space b s : lowered s → lowered (Py.sub_space b s).
Proof.
  revert b. induction s as [|c s IH]; intros b; simpl; [done|]. intros [Hc Hs].
  destruct (Py.is_sep c), b; simpl; auto.
Qed.

Lemma lower_replace s : lowered s → Py.lower (Py.replace " "%char "_"%char s) = Py.replace " "%char "_"%char s.
Proof.
  induction s as [|c s IH]; simpl; [done|]. intros [Hc Hs].
  rewrite IH by done. case_bool_decide; by rewrite ?Hc.
Qed.

Lemma spaced_lstrip b s : spaced b s → spaced false (Py.lstrip s).
Proof.
  revert b. induction s as [|c s IH]; intros b; simpl; [done|].
  case_bool_decide as Hsp.
  - subst. simpl. intros [_ Hs]. eauto.
  - intros [Hc Hs]. rewrite (isspace_sep _ Hc). simpl.
    by rewrite bool_decide_eq_false_2.
Qed.

Lemma spaced_rstrip b s : spaced b s → spaced b (Py.rstrip s).
Proof.
  revert b. induction s as [|c s IH]; intros b; simpl; [done|].
  case_bool_decide as Hsp.
  - subst. intros [-> Hs]. apply IH in Hs.
    destruct (Py.rstrip s); simpl; [done|]. simpl in Hs. done.
  - intros [Hc Hs]. apply IH in Hs. rewrite (isspace_sep _ Hc).
    destruct (Py.rstrip s); simpl; rewrite bool_decide_eq_false_2; auto.
Qed.

Lemma hd_ok_lstrip s : hd_ok (Py.lstrip s).
Proof. induction s as [|c s IH]; simpl; [done|]. by destruct (Py.isspace c) eqn:?. Qed.

Lemma last_ok_rstrip s : last_ok (Py.rstrip s).
Proof.
  induction s as [|c s IH]; simpl; [done|].
  destruct (Py.rstrip s) eqn:Hr; [by destruct (Py.isspace c) eqn:?|done].
Qed.

Lemma last_ok_lstrip s : last_ok s → last_ok (Py.lstrip s).
Proof.
  induction s as [|c s IH]; [done|]. intros Hl. simpl.
  destruct (Py.isspace c) eqn:Hc; [|done].
  destruct s; [done|]. by apply IH.
Qed.

Lemma lstrip_id s : hd_ok s → Py.lstrip s = s.
Proof. destruct s; simpl; [done|]. by intros ->. Qed.

Lemma rstrip_id s : last_ok s → Py.rstrip s = s.
Proof.
  induction s as [|c s IH]; [done|]. intros Hl. simpl.
  destruct s as [|c' s]; [simpl in *; by rewrite Hl|].
  rewrite IH by done. done.
Qed.

Lemma strip_id s : hd_ok s → last_ok s → Py.strip s = s.
Proof. intros. unfold Py.strip. rewrite rstrip_id by done. by apply lstrip_id. Qed.

Lemma no_space_hd s : no_space s → hd_ok s.
Proof. destruct s; simpl; tauto. Qed.

Lemma no_space_last s : no_space s → last_ok s.
Proof.
  induction s as [|c s IH]; [done|]. intros [Hc Hs].
  destruct s; [done|]. by apply IH.
Qed.

Lemma no_space_replace b s : spaced b s → no_space (Py.replace " "%char "_"%char s).
Proof.
  revert b. induction s as [|c s IH]; intros b; simpl; [done|].
  case_bool_decide.
  - intros [_ Hs]. eauto.
  - intros [Hc Hs]. eauto using isspace_sep.
Qed.

Lemma sub_space_replace b s :
  spaced b s → Py.sub_space b (Py.replace " "%char "_"%char s) = s.
Proof.
  revert b. induction s as [|c s IH]; intros b; simpl; [done|].
  case_bool_decide as Hsp.
  - subst. intros [-> Hs]. simpl. by rewrite IH.
  - intros [Hc Hs]. rewrite Hc. by rewrite IH.
Qed.

(** The value computed on a cache miss is a fixed point of the
    computation. *)
Lemma norm_compute_idem s : norm_compute (norm_compute s) = norm_compute s.
Proof.
  unfold norm_compute.
  set (m := Py.sub_space false (Py.lower (Py.strip s))).
  assert (Hsp : spaced false (Py.strip m)).
  { unfold Py.strip. eapply spaced_lstrip, spaced_rstrip, spaced_sub_space. }
  assert (Hlo : lowered (Py.strip m)).
  { apply lowered_strip, lowered_sub_space, lowered_lower. }
  assert (Hns := no_space_replace _ _ Hsp).
  rewrite (strip_id (Py.replace _ _ _)) by auto using no_space_hd, no_space_last.
  rewrite lower_replace by done.
  rewrite sub_space_replace by done.
  rewrite strip_id; [done|apply hd_ok_lstrip|].
  apply last_ok_lstrip, last_ok_rstrip.
Qed.

Lemma norm_eq s : norm s = norm_compute s.
Proof. by destruct s. Qed.

Lemma norm_idem s : norm (norm s) = norm s.
Proof. by rewrite !norm_eq, norm_compute_idem. Qed.

End norm_facts.

(** ** The cache is a memo table *)

Section cache_facts.
Context {St : Type} `{!HasCache St}.

Lemma cache_ok_empty : cache_ok ∅.
Proof. intros k v. by rewrite lookup_empty. Qed.

Lemma memo_subseteq c s : c ⊆ memo c s.
Proof.
  unfold memo. destruct (Py.nonempty s); [|done].
  destruct (c !! s) eqn:Hs; [done|]. by apply insert_subseteq.
Qed.

Lemma memo_ok c s : cache_ok c → cache_ok (memo c s).
Proof.
  intros Hc. unfold memo. destruct (Py.nonempty s); [|done].
  destruct (c !! s) eqn:Hs; [done|].
  intros k v. rewrite lookup_insert. case_decide; [|by apply Hc].
  subst. by intros [= <-].
Qed.

Lemma memos_subseteq c l : c ⊆ memos c l.
Proof.
  revert c. induction l as [|s l IH]; intros c; simpl; [done|].
  etrans; [apply (memo_subseteq c s)|apply IH].
Qed.

Lemma memos_ok c l : cache_ok c → cache_ok (memos c l).
Proof. revert c. induction l; simpl; auto using memo_ok. Qed.

(** One call of [_norm] on a consistent cache: the token, and the cache
    it leaves. *)
Lemma norm_cached_run s σ :
  cache_ok (get_cache σ) →
  norm_cached s σ = (inr (norm s), set_cache (memo (get_cache σ) s) σ).
Proof.
  intros Hc. unfold norm_cached, norm, memo.
  destruct (Py.nonempty s); simpl; [|by rewrite set_get_cache].
  unfold mbind, M_bind, gets; simpl.
  destruct (get_cache σ !! s) as [v|] eqn:Hs; simpl.
  - by rewrite (Hc _ _ Hs), set_get_cache.
  - done.
Qed.

Lemma mapM_norm_run l σ :
  cache_ok (get_cache σ) →
  mapM norm_cached l σ = (inr (norm <$> l), set_cache (memos (get_cache σ) l) σ).
Proof.
  revert σ. induction l as [|s l IH]; intros σ Hc; simpl.
  - by rewrite set_get_cache.
  - unfold mbind, M_bind. rewrite norm_cached_run by done.
    rewrite IH by (rewrite get_set_cache; by apply memo_ok).
    by rewrite get_set_cache, set_set_cache.
Qed.

End cache_facts.

(** ** Reasoning about methods *)

Section method_facts.
Context {St : Type} `{!HasCache St}.

Lemma bind_run {A B} (m : M St A) (f : A → M St B) σ a σ' :
  m σ = (inr a, σ') → (m ≫= f) σ = f a σ'.
Proof. unfold mbind, M_bind. by intros ->. Qed.

Lemma bind_raise {A B} (m : M St A) (f : A → M St B) σ e σ' :
  m σ = (inl e, σ') → (m ≫= f) σ = (inl e, σ').
Proof. unfold mbind, M_bind. by intros ->. Qed.

Lemma stable_ret {A} (a : A) : stable (mret a : M St A).
Proof.
  intros σ Hc. split; [|done].
  exists (get_cache σ). by rewrite set_get_cache.
Qed.

Lemma stable_lift {A} (r : exn + A) : stable (lift r : M St A).
Proof.
  intros σ Hc. split; [|done].
  exists (get_cache σ). by rewrite set_get_cache.
Qed.

Lemma stable_gets {A} (f : St → A) :
  (∀ c σ, f (set_cache c σ) = f σ) → stable (gets f).
Proof.
  intros Hf σ Hc. split.
  - exists (get_cache σ). by rewrite set_get_cache.
  - intros c _. unfold gets; simpl. by rewrite Hf.
Qed.

Lemma stable_norm s : stable (norm_cached s).
Proof.
  intros σ Hc. rewrite norm_cached_run by done. split.
  - eexists. split; [done|]. auto using memo_subseteq, memo_ok.
  - intros c Hc'. rewrite norm_cached_run by (by rewrite get_set_cache). done.
Qed.

Lemma stable_bind {A B} (m : M St A) (f : A → M St B) :
  stable m → (∀ a, stable (f a)) → stable (m ≫= f).
Proof.
  intros Hm Hf σ Hc.
  destruct (Hm σ Hc) as [(c1 & Hs1 & Hsub1 & Hok1) Hind1].
  destruct (m σ) as [[e|a] σ1] eqn:Hmσ; simpl in Hs1; subst σ1.
  - split.
    + rewrite (bind_raise _ _ _ _ _ Hmσ). eauto.
    + intros c Hc'. specialize (Hind1 c Hc'). simpl in Hind1.
      destruct (m (set_cache c σ)) as [r σ2] eqn:Hm2. simpl in Hind1. subst r.
      by rewrite (bind_raise _ _ _ _ _ Hm2), (bind_raise _ _ _ _ _ Hmσ).
  - assert (Hok1' : cache_ok (get_cache (set_cache c1 σ)))
      by (by rewrite get_set_cache).
    destruct (Hf a _ Hok1') as [(c2 & Hs2 & Hsub2 & Hok2) _].
    destruct (Hf a σ Hc) as [_ Hind]. split.
    + rewrite (bind_run _ _ _ _ _ Hmσ), Hs2, set_set_cache.
      exists c2. split_and!; [done| |done].
      rewrite get_set_cache in Hsub2. by etrans.
    + intros c Hc'. specialize (Hind1 c Hc'). simpl in Hind1.
      assert (Hc'' : cache_ok (get_cache (set_cache c σ)))
        by (by rewrite get_set_cache).
      destruct (Hm _ Hc'') as [(c3 & Hs3 & _ & Hok3) _].
      destruct (m (set_cache c σ)) as [r σ2] eqn:Hm2.
      simpl in Hind1, Hs3. subst r σ2. rewrite set_set_cache in Hm2.
      rewrite (bind_run _ _ _ _ _ Hm2), (bind_run _ _ _ _ _ Hmσ).
      by rewrite !Hind.
Qed.

Lemma stable_mapM {A B} (f : A → M St B) l :
  (∀ x, stable (f x)) → stable (mapM f l).
Proof.
  intros Hf. induction l as [|x l IH]; simpl; [apply stable_ret|].
  apply stable_bind; [done|]. intros y.
  apply stable_bind; [done|]. intros ys. apply stable_ret.
Qed.

Lemma stable_foldM {A B} (f : B → A → M St B) b l :
  (∀ b x, stable (f b x)) → stable (foldM f b l).
Proof.
  intros Hf. revert b. induction l as [|x l IH]; intros b; simpl;
    [apply stable_ret|].
  apply stable_bind; auto.
Qed.

(** A sequence of stable calls leaves the object as it was but for a
    cache that grew, and a later call answers as it would have at the
    start. *)
Lemma stable_run_all {A} (calls : list (M St A)) σ :
  Forall stable calls → cache_ok (get_cache σ) →
  ∃ c', run_all calls σ = set_cache c' σ ∧ get_cache σ ⊆ c' ∧ cache_ok c'.
Proof.
  intros Hcalls. revert σ.
  induction Hcalls as [|m calls Hm _ IH]; intros σ Hc; simpl.
  - exists (get_cache σ). by rewrite set_get_cache.
  - destruct (Hm σ Hc) as [(c1 & -> & Hsub1 & Hok1) _].
    destruct (IH (set_cache c1 σ)) as (c2 & -> & Hsub2 & Hok2);
      [by rewrite get_set_cache|].
    exists c2. rewrite set_set_cache. split_and!; [done| |done].
    rewrite get_set_cache in Hsub2. by etrans.
Qed.

Lemma stable_after {A B} (calls : list (M St A)) (m : M St B) σ :
  Forall stable calls → stable m → cache_ok (get_cache σ) →
  (m (run_all calls σ)).1 = (m σ).1.
Proof.
  intros Hcalls Hm Hc.
  destruct (stable_run_all calls σ Hcalls Hc) as (c' & -> & _ & Hok).
  by apply Hm.
Qed.

Lemma computes_ret {A} (a : A) : computes (mret a : M St A) a.
Proof. intros σ Hc. exists (get_cache σ). by rewrite set_get_cache. Qed.

Lemma computes_norm s : computes (norm_cached s) (norm s).
Proof.
  intros σ Hc. rewrite norm_cached_run by done.
  eexists. split; [done|]. auto using memo_subseteq, memo_ok.
Qed.

Lemma computes_bind {A B} (m : M St A) (f : A → M St B) a b :
  computes m a → computes (f a) b → computes (m ≫= f) b.
Proof.
  intros Hm Hf σ Hc. destruct (Hm σ Hc) as (c1 & Hr1 & Hsub1 & Hok1).
  rewrite (bind_run _ _ _ _ _ Hr1).
  destruct (Hf (set_cache c1 σ)) as (c2 & Hr2 & Hsub2 & Hok2);
    [by rewrite get_set_cache|].
  rewrite Hr2, set_set_cache. exists c2. split_and!; [done| |done].
  rewrite get_set_cache in Hsub2. by etrans.
Qed.

Lemma computes_mapM {A B} (f : A → M St B) (g : A → B) l :
  (∀ x, computes (f x) (g x)) → computes (mapM f l) (g <$> l).
Proof.
  intros Hf. induction l as [|x l IH]; simpl; [apply computes_ret|].
  eapply computes_bind; [apply Hf|].
  eapply computes_bind; [apply IH|]. apply computes_ret.
Qed.

Lemma computes_foldM {A B} (f : B → A → M St B) (g : B → A → B) b l :
  (∀ b x, computes (f b x) (g b x)) → computes (foldM f b l) (foldl g b l).
Proof.
  intros Hf. revert b. induction l as [|x l IH]; intros b; simpl;
    [apply computes_ret|].
  eapply computes_bind; [apply Hf|]. apply IH.
Qed.

Lemma readonly_ret {A} (a : A) : readonly (mret a : M St A).
Proof. done. Qed.

Lemma readonly_lift {A} (r : exn + A) : readonly (lift r : M St A).
Proof. done. Qed.

Lemma readonly_gets {A} (f : St → A) : readonly (gets f).
Proof. done. Qed.

Lemma readonly_bind {A B} (m : M St A) (f : A → M St B) :
  readonly m → (∀ a, readonly (f a)) → readonly (m ≫= f).
Proof.
  intros Hm Hf σ. specialize (Hm σ). unfold mbind, M_bind.
  destruct (m σ) as [[e|a] σ']; simpl in *; subst; [done|apply Hf].
Qed.

Lemma readonly_foldM {A B} (f : B → A → M St B) b l :
  (∀ b x, readonly (f b x)) → readonly (foldM f b l).
Proof.
  intros Hf. revert b. induction l as [|x l IH]; intros b; simpl;
    [apply readonly_ret|].
  apply readonly_bind; auto.
Qed.

End method_facts.

(** A loop whose steps commute visits a list in any order to the same
    effect. *)
Lemma fold_res_perm {A B} (f : B → A → exn + B) l1 l2 :
  (∀ b x y, (f b x ≫= λ b', f b' y) = (f b y ≫= λ b', f b' x)) →
  l1 ≡ₚ l2 → ∀ b, fold_res f b l1 = fold_res f b l2.
Proof.
  intros Hcomm. induction 1 as [|x l1 l2 _ IH|x y l|l1 l2 l3 _ IH1 _ IH2];
    intros b; simpl.
  - done.
  - destruct (f b x); simpl; [done|apply IH].
  - specialize (Hcomm b y x). unfold mbind, res_bind in *.
    destruct (f b y) as [e|b1], (f b x) as [e'|b2]; simpl in *;
      try done; try (by rewrite <- Hcomm); by rewrite Hcomm.
  - by rewrite IH1.
Qed.

(** Steps that are moreover idempotent see only the set of elements. *)
Lemma fold_res_elem {A B} (f : B → A → exn + B) x l :
  (∀ b x y, (f b x ≫= λ b', f b' y) = (f b y ≫= λ b', f b' x)) →
  (∀ b x, (f b x ≫= λ b', f b' x) = f b x) →
  x ∈ l → ∀ b, fold_res f b (x :: l) = fold_res f b l.
Proof.
  intros Hcomm Hidem Hx b.
  apply list_elem_of_split in Hx as (l1 & l2 & ->).
  rewrite (fold_res_perm f (x :: l1 ++ x :: l2) (x :: x :: l1 ++ l2) Hcomm).
  2:{ constructor. by rewrite Permutation_middle. }
  rewrite (fold_res_perm f (l1 ++ x :: l2) (x :: l1 ++ l2) Hcomm).
  2:{ by rewrite Permutation_middle. }
  simpl. specialize (Hidem b x). unfold mbind, res_bind in *.
  destruct (f b x) as [e|b1]; simpl in *; [done|].
  destruct (f b1 x) as [e|b2]; simpl in *; [done|]. by simplify_eq.
Qed.

Lemma fold_res_set `{Countable A} {B} (f : B → A → exn + B) l1 l2 :
  (∀ b x y, (f b x ≫= λ b', f b' y) = (f b y ≫= λ b', f b' x)) →
  (∀ b x, (f b x ≫= λ b', f b' x) = f b x) →
  (list_to_set l1 : gset A) = list_to_set l2 →
  ∀ b, fold_res f b l1 = fold_res f b l2.
Proof.
  intros Hcomm Hidem Hset.
  assert (Hnd : ∀ l b, fold_res f b l = fold_res f b (remove_dups l)).
  { induction l as [|x l IH]; intros b; simpl; [done|].
    destruct (decide_rel _ x l) as [Hx|Hx].
    - rewrite <- IH. by apply (fold_res_elem f x l Hcomm Hidem).
    - simpl. destruct (f b x); simpl; [done|apply IH]. }
  intros b. rewrite (Hnd l1), (Hnd l2).
  apply fold_res_perm; [done|].
  apply NoDup_Permutation; [apply NoDup_remove_dups..|].
  intros x. rewrite !elem_of_remove_dups.
  by rewrite <- !(elem_of_list_to_set (C := gset A)), Hset.
Qed.

(** ** Rationals: comparison and rounding *)

Lemma Qltb_lt x y : Qltb x y = true ↔ (x < y)%Q.
Proof.
  unfold Qltb. rewrite negb_true_iff. split.
  - intros Hb. apply Qnot_le_lt. intros Hle%Qle_bool_iff. congruence.
  - intros Hlt. destruct (Qle_bool y x) eqn:Hb; [|done].
    apply Qle_bool_iff in Hb. destruct (Qlt_not_le _ _ Hlt Hb).
Qed.

Lemma Qltb_ge x y : Qltb x y = false ↔ (y <= x)%Q.
Proof.
  unfold Qltb. rewrite negb_false_iff. apply Qle_bool_iff.
Qed.

Lemma round_half_even_range q :
  (Qfloor q ≤ round_half_even q ≤ Qfloor q + 1)%Z.
Proof.
  unfold round_half_even.
  destruct (_ ?= _)%Q; [destruct (Z.even _)|..]; lia.
Qed.

Lemma round_half_even_nonneg q : (0 <= q)%Q → (0 ≤ round_half_even q)%Z.
Proof.
  intros Hq. pose proof (round_half_even_range q) as [Hlo _].
  apply Qfloor_resp_le in Hq. change (Qfloor 0) with 0%Z in Hq. lia.
Qed.

Lemma round_half_even_le q (n : Z) :
  (q <= inject_Z n)%Q → (round_half_even q ≤ n)%Z.
Proof.
  intros Hq. pose proof (round_half_even_range q) as [_ Hhi].
  pose proof (Qfloor_resp_le _ _ Hq) as Hf. rewrite Qfloor_Z in Hf.
  destruct (decide (Qfloor q = n)) as [Heq|Hne]; [|lia].
  unfold round_half_even. rewrite Heq.
  destruct (Qcompare_spec (q - inject_Z n) (1 # 2)) as [He|Hl|Hg];
    [lra|lia|lra].
Qed.

Lemma round1_range q : (0 <= q <= 100)%Q → (0 <= round1 q <= 100)%Q.
Proof.
  intros [Hlo Hhi]. unfold round1.
  assert (H0 : (0 ≤ round_half_even (q * 10))%Z).
  { apply round_half_even_nonneg. lra. }
  assert (H1 : (round_half_even (q * 10) ≤ 1000)%Z).
  { apply round_half_even_le. change (inject_Z 1000) with 1000%Q. lra. }
  unfold Qle; simpl. lia.
Qed.

Lemma round_half_even_mono q1 q2 :
  (q1 <= q2)%Q → (round_half_even q1 ≤ round_half_even q2)%Z.
Proof.
  intros Hle.
  pose proof (Qfloor_resp_le _ _ Hle) as Hfl.
  pose proof (round_half_even_range q1) as [H1l H1u].
  pose proof (round_half_even_range q2) as [H2l H2u].
  destruct (decide (Qfloor q1 = Qfloor q2)) as [Heq|Hne]; [|lia].
  unfold round_half_even in *. rewrite Heq in *.
  set (f := Qfloor q2) in *.
  destruct (Qcompare_spec (q1 - inject_Z f) (1 # 2)) as [E1|L1|G1];
    destruct (Qcompare_spec (q2 - inject_Z f) (1 # 2)) as [E2|L2|G2];
    try lia; try lra; destruct (Z.even f); lia.
Qed.

(** ** Binary64 rounding *)

Lemma round_half_even_ge q (n : Z) :
  (inject_Z n <= q)%Q → (n ≤ round_half_even q)%Z.
Proof.
  intros Hq. pose proof (round_half_even_range q) as [Hlo _].
  pose proof (Qfloor_resp_le _ _ Hq) as Hf. rewrite Qfloor_Z in Hf. lia.
Qed.

Lemma round_half_even_Z (n : Z) : round_half_even (inject_Z n) = n.
Proof.
  apply Z.le_antisymm.
  - apply round_half_even_le. lra.
  - apply round_half_even_ge. lra.
Qed.

Lemma pow2_pos z : (0 < 2 ^ z)%Q.
Proof. by apply Qpower_0_lt. Qed.

Lemma pow2_plus a b : (2 ^ (a + b) == 2 ^ a * 2 ^ b)%Q.
Proof. by apply Qpower_plus. Qed.

Lemma pow2_le a b : (a ≤ b)%Z → (2 ^ a <= 2 ^ b)%Q.
Proof. intros Hab. apply Qpower_le_compat_l; [done|]. by unfold Qle. Qed.

Lemma pow2_succ a : (2 ^ (a + 1) == 2 * 2 ^ a)%Q.
Proof. rewrite pow2_plus. change (2 ^ 1)%Q with 2%Q. ring. Qed.

Lemma pow2_nat (n : Z) : (0 ≤ n)%Z → (inject_Z (2 ^ n) == 2 ^ n)%Q.
Proof. intros Hn. by rewrite Zpower_Qpower. Qed.

(** [ilog2 q] is the exponent of the binade of [q]. *)
Lemma ilog2_spec q :
  (0 < q)%Q → (2 ^ ilog2 q <= q)%Q ∧ (q < 2 ^ (ilog2 q + 1))%Q.
Proof.
  intros Hq. unfold ilog2. destruct (Qle_bool 1 q) eqn:Hb.
  - apply Qle_bool_iff in Hb.
    pose proof (Qfloor_resp_le _ _ Hb) as Hf. change (Qfloor 1) with 1%Z in Hf.
    destruct (Z.log2_spec (Qfloor q)) as [Hlo Hhi]; [lia|].
    pose proof (Z.log2_nonneg (Qfloor q)) as Hnn.
    split.
    + rewrite <- pow2_nat by done.
      apply Qle_trans with (inject_Z (Qfloor q)); [by rewrite <- Zle_Qle|].
      apply Qfloor_le.
    + rewrite <- pow2_nat by lia.
      apply Qlt_le_trans with (inject_Z (Qfloor q + 1)); [apply Qlt_floor|].
      rewrite <- Zle_Qle. rewrite <- Z.add_1_r in Hhi. lia.
  - assert (Hlt : (q < 1)%Q).
    { apply Qnot_le_lt. intros Hle%Qle_bool_iff. congruence. }
    assert (Hinv : (1 < / q)%Q).
    { apply Qlt_shift_inv_l; [done|]. by rewrite Qmult_1_l. }
    set (N := Qceiling (/ q)).
    assert (HN : (1 < N)%Z).
    { pose proof (Qle_ceiling (/ q)) as Hc. fold N in Hc.
      rewrite Zlt_Qlt. by apply Qlt_le_trans with (/ q). }
    destruct (Z.log2_up_spec N HN) as [Hlo Hhi].
    pose proof (Z.log2_up_nonneg N) as Hnn.
    assert (Hpos : (0 < Z.log2_up N)%Z) by by apply Z.log2_up_pos.
    set (k := Z.log2_up N) in *.
    split.
    + rewrite Qpower_opp.
      apply Qle_shift_inv_r; [apply pow2_pos|].
      assert (Hk : (/ q <= 2 ^ k)%Q).
      { apply Qle_trans with (inject_Z N); [apply Qle_ceiling|].
        rewrite <- pow2_nat by done. by rewrite <- Zle_Qle. }
      apply (Qmult_le_r _ _ q) in Hk; [|done].
      rewrite (Qmult_comm (/ q)), Qmult_inv_r in Hk by lra.
      by rewrite Qmult_comm.
    + replace (- k + 1)%Z with (- (k - 1))%Z by lia. rewrite Qpower_opp.
      apply Qlt_shift_inv_l; [apply pow2_pos|].
      assert (Hk : (2 ^ (k - 1) < / q)%Q).
      { rewrite <- pow2_nat by lia.
        pose proof (Qceiling_lt (/ q)) as Hc. fold N in Hc.
        apply Qle_lt_trans with (inject_Z (N - 1)); [|done].
        rewrite <- Zle_Qle. replace (Z.pred k) with (k - 1)%Z in Hlo by lia. lia. }
      apply (Qmult_lt_r _ _ q) in Hk; [|done].
      rewrite (Qmult_comm (/ q)), Qmult_inv_r in Hk by lra.
      by rewrite Qmult_comm.
Qed.

Lemma pow2_lt_inv a b : (2 ^ a < 2 ^ (b + 1))%Q → (a ≤ b)%Z.
Proof.
  intros Hlt. destruct (Z_le_gt_dec a b) as [?|Hgt]; [done|].
  exfalso. apply (Qlt_not_le _ _ Hlt). apply pow2_le. lia.
Qed.

Lemma ilog2_unique q e :
  (2 ^ e <= q)%Q → (q < 2 ^ (e + 1))%Q → ilog2 q = e.
Proof.
  intros Hlo Hhi.
  assert (Hq : (0 < q)%Q) by (eapply Qlt_le_trans; [apply (pow2_pos e)|done]).
  destruct (ilog2_spec q Hq) as [Hlo' Hhi'].
  apply Z.le_antisymm; apply pow2_lt_inv.
  - by eapply Qle_lt_trans.
  - by eapply Qle_lt_trans.
Qed.

Lemma ilog2_mono q1 q2 : (0 < q1)%Q → (q1 <= q2)%Q → (ilog2 q1 ≤ ilog2 q2)%Z.
Proof.
  intros Hq1 Hle.
  assert (Hq2 : (0 < q2)%Q) by by eapply Qlt_le_trans.
  destruct (ilog2_spec q1 Hq1) as [Hlo1 _].
  destruct (ilog2_spec q2 Hq2) as [_ Hhi2].
  apply pow2_lt_inv. eapply Qle_lt_trans; [|done]. by eapply Qle_trans.
Qed.

Lemma ilog2_proper q1 q2 : (0 < q1)%Q → q1 == q2 → ilog2 q1 = ilog2 q2.
Proof.
  intros Hq1 Heq. assert (Hq2 : (0 < q2)%Q) by by rewrite <- Heq.
  apply Z.le_antisymm; apply ilog2_mono; try done; lra.
Qed.

(** The significand: an integer of 53 bits, or [2 ^ 53] when rounding
    carries into the next binade. *)
Lemma significand_range q :
  (0 < q)%Q →
  (2 ^ 52 ≤ round_half_even (q * 2 ^ (52 - ilog2 q)) ≤ 2 ^ 53)%Z.
Proof.
  intros Hq. destruct (ilog2_spec q Hq) as [Hlo Hhi].
  set (e := ilog2 q) in *.
  pose proof (pow2_pos (52 - e)) as Hs.
  assert (H52 : (2 ^ 52 == 2 ^ e * 2 ^ (52 - e))%Q).
  { rewrite <- pow2_plus. by replace (e + (52 - e))%Z with 52%Z by lia. }
  assert (H53 : (2 ^ 53 == 2 ^ (e + 1) * 2 ^ (52 - e))%Q).
  { rewrite <- pow2_plus. by replace (e + 1 + (52 - e))%Z with 53%Z by lia. }
  split.
  - apply round_half_even_ge. rewrite pow2_nat by done. rewrite H52.
    by apply Qmult_le_compat_r; [|apply Qlt_le_weak].
  - apply round_half_even_le. rewrite pow2_nat by done. rewrite H53.
    apply Qlt_le_weak. by apply Qmult_lt_compat_r.
Qed.

Lemma b64_pos_range q :
  (0 < q)%Q → (2 ^ ilog2 q <= b64_pos q)%Q ∧ (b64_pos q <= 2 ^ (ilog2 q + 1))%Q.
Proof.
  intros Hq. destruct (significand_range q Hq) as [Hlo Hhi].
  unfold b64_pos. set (e := ilog2 q) in *.
  set (m := round_half_even _) in *.
  pose proof (pow2_pos (e - 52)) as Hs.
  assert (He : (2 ^ e == inject_Z (2 ^ 52) * 2 ^ (e - 52))%Q).
  { rewrite pow2_nat by done. rewrite <- pow2_plus.
    by replace (52 + (e - 52))%Z with e by lia. }
  assert (He1 : (2 ^ (e + 1) == inject_Z (2 ^ 53) * 2 ^ (e - 52))%Q).
  { rewrite pow2_nat by done. rewrite <- pow2_plus.
    by replace (53 + (e - 52))%Z with (e + 1)%Z by lia. }
  split.
  - rewrite He. apply Qmult_le_compat_r; [|by apply Qlt_le_weak].
    by rewrite <- Zle_Qle.
  - rewrite He1. apply Qmult_le_compat_r; [|by apply Qlt_le_weak].
    by rewrite <- Zle_Qle.
Qed.

Lemma b64_pos_pos q : (0 < q)%Q → (0 < b64_pos q)%Q.
Proof.
  intros Hq. destruct (b64_pos_range q Hq) as [Hlo _].
  eapply Qlt_le_trans; [apply (pow2_pos (ilog2 q))|done].
Qed.

Lemma b64_pos_mono q1 q2 :
  (0 < q1)%Q → (q1 <= q2)%Q → (b64_pos q1 <= b64_pos q2)%Q.
Proof.
  intros Hq1 Hle.
  assert (Hq2 : (0 < q2)%Q) by by eapply Qlt_le_trans.
  pose proof (ilog2_mono q1 q2 Hq1 Hle) as He.
  destruct (decide (ilog2 q1 = ilog2 q2)) as [Heq|Hne].
  - unfold b64_pos. rewrite Heq. set (e := ilog2 q2).
    apply Qmult_le_compat_r; [|apply Qlt_le_weak, pow2_pos].
    rewrite <- Zle_Qle. apply round_half_even_mono.
    apply Qmult_le_compat_r; [done|apply Qlt_le_weak, pow2_pos].
  - destruct (b64_pos_range q1 Hq1) as [_ Hhi].
    destruct (b64_pos_range q2 Hq2) as [Hlo _].
    eapply Qle_trans; [exact Hhi|]. eapply Qle_trans; [|exact Hlo].
    apply pow2_le. lia.
Qed.

Lemma b64_Qeq_pos q : (0 < q)%Q → b64 q == b64_pos q.
Proof.
  intros Hq. unfold b64. destruct (Qcompare_spec q 0); [lra|lra|].
  apply Qred_correct.
Qed.

Lemma b64_Qeq_neg q : (q < 0)%Q → b64 q == - b64_pos (- q).
Proof.
  intros Hq. unfold b64. destruct (Qcompare_spec q 0); [lra| |lra].
  apply Qred_correct.
Qed.

Lemma b64_Qeq_0 q : q == 0 → b64 q = 0%Q.
Proof. intros Hq. unfold b64. destruct (Qcompare_spec q 0); [done|lra..]. Qed.

(** Rounding to binary64 keeps the order. *)
Lemma b64_mono q1 q2 : (q1 <= q2)%Q → (b64 q1 <= b64 q2)%Q.
Proof.
  intros Hle.
  destruct (Q_dec q1 0) as [[Hn1|Hp1]|Hz1], (Q_dec q2 0) as [[Hn2|Hp2]|Hz2].
  - rewrite !b64_Qeq_neg by done. apply Qopp_le_compat.
    apply b64_pos_mono; lra.
  - rewrite b64_Qeq_neg, b64_Qeq_pos by done.
    assert (0 < b64_pos (- q1))%Q by (apply b64_pos_pos; lra).
    assert (0 < b64_pos q2)%Q by by apply b64_pos_pos.
    lra.
  - rewrite b64_Qeq_neg, (b64_Qeq_0 q2) by done.
    assert (0 < b64_pos (- q1))%Q by (apply b64_pos_pos; lra). lra.
  - lra.
  - rewrite !b64_Qeq_pos by done. by apply b64_pos_mono.
  - lra.
  - rewrite (b64_Qeq_0 q1), b64_Qeq_neg by done. lra.
  - rewrite (b64_Qeq_0 q1), b64_Qeq_pos by done.
    by apply Qlt_le_weak, b64_pos_pos.
  - by rewrite (b64_Qeq_0 q1), (b64_Qeq_0 q2).
Qed.

Lemma b64_proper q1 q2 : q1 == q2 → b64 q1 = b64 q2.
Proof.
  intros Heq. unfold b64.
  destruct (Qcompare_spec q1 0), (Qcompare_spec q2 0); try lra; [done|..].
  - apply Qred_complete.
    assert (b64_pos (- q1) == b64_pos (- q2)); [|lra].
    apply Qle_antisym; apply b64_pos_mono; lra.
  - apply Qred_complete.
    apply Qle_antisym; apply b64_pos_mono; lra.
Qed.

(** A double is its own nearest double. *)
Lemma b64_pos_idem q : (0 < q)%Q → b64_pos (b64_pos q) == b64_pos q.
Proof.
  intros Hq. destruct (significand_range q Hq) as [Hlo Hhi].
  pose proof (b64_pos_range q Hq) as [Hrl Hrh].
  unfold b64_pos in Hrl, Hrh |- * at 2. unfold b64_pos at 2.
  set (e := ilog2 q) in *. set (m := round_half_even (q * _)) in *.
  set (y := (inject_Z m * 2 ^ (e - 52))%Q) in *.
  destruct (decide (m = 2 ^ 53)%Z) as [Hm|Hm].
  - assert (Hy : y == 2 ^ (e + 1)).
    { unfold y. rewrite Hm, pow2_nat by done. rewrite <- pow2_plus.
      by replace (53 + (e - 52))%Z with (e + 1)%Z by lia. }
    assert (He : ilog2 y = (e + 1)%Z).
    { apply ilog2_unique; rewrite Hy; [lra|].
      rewrite (pow2_succ (e + 1)). pose proof (pow2_pos (e + 1)). lra. }
    unfold b64_pos. rewrite He.
    assert (Hs : y * 2 ^ (52 - (e + 1)) == inject_Z (2 ^ 52)).
    { rewrite Hy, <- pow2_plus, pow2_nat by done.
      by replace (e + 1 + (52 - (e + 1)))%Z with 52%Z by lia. }
    assert (Hr : round_half_even (y * 2 ^ (52 - (e + 1))) = (2 ^ 52)%Z).
    { apply Z.le_antisymm; [apply round_half_even_le|apply round_half_even_ge]; lra. }
    rewrite Hr, Hy, pow2_nat by done. rewrite <- pow2_plus.
    by replace (52 + (e + 1 - 52))%Z with (e + 1)%Z by lia.
  - assert (He : ilog2 y = e).
    { apply ilog2_unique; [done|]. unfold y.
      assert (H1 : 2 ^ (e + 1) == inject_Z (2 ^ 53) * 2 ^ (e - 52)).
      { rewrite pow2_nat by done. rewrite <- pow2_plus.
        by replace (53 + (e - 52))%Z with (e + 1)%Z by lia. }
      rewrite H1. apply Qmult_lt_compat_r; [apply pow2_pos|].
      rewrite <- Zlt_Qlt. lia. }
    unfold b64_pos. rewrite He.
    assert (Hs : y * 2 ^ (52 - e) == inject_Z m).
    { unfold y. rewrite <- Qmult_assoc, <- pow2_plus.
      replace (e - 52 + (52 - e))%Z with 0%Z by lia. change (2 ^ 0) with 1. ring. }
    assert (Hr : round_half_even (y * 2 ^ (52 - e)) = m).
    { apply Z.le_antisymm; [apply round_half_even_le|apply round_half_even_ge]; lra. }
    by rewrite Hr.
Qed.

Lemma b64_pos_proper q1 q2 : (0 < q1)%Q → q1 == q2 → b64_pos q1 == b64_pos q2.
Proof. intros Hq Heq. apply Qle_antisym; apply b64_pos_mono; lra. Qed.

Lemma b64_idem q : b64 (b64 q) = b64 q.
Proof.
  destruct (Q_dec q 0) as [[Hn|Hp]|Hz].
  - assert (Hpp : (0 < b64_pos (- q))%Q) by (apply b64_pos_pos; lra).
    assert (Hb : b64 q = Qred (- b64_pos (- q))).
    { unfold b64. destruct (Qcompare_spec q 0); [lra|done|lra]. }
    rewrite Hb. set (z := Qred (- b64_pos (- q))).
    assert (Hz : z == - b64_pos (- q)) by apply Qred_correct.
    unfold b64. destruct (Qcompare_spec z 0); [lra| |lra].
    unfold z at 2. apply Qred_complete.
    assert (b64_pos (- z) == b64_pos (- q)); [|lra].
    rewrite <- (b64_pos_idem (- q)) by lra.
    apply b64_pos_proper; lra.
  - assert (Hpp : (0 < b64_pos q)%Q) by by apply b64_pos_pos.
    assert (Hb : b64 q = Qred (b64_pos q)).
    { unfold b64. destruct (Qcompare_spec q 0); [lra|lra|done]. }
    rewrite Hb. set (z := Qred (b64_pos q)).
    assert (Hz : z == b64_pos q) by apply Qred_correct.
    unfold b64. destruct (Qcompare_spec z 0); [lra|lra|].
    unfold z at 2. apply Qred_complete.
    rewrite <- (b64_pos_idem q) by done.
    apply b64_pos_proper; lra.
  - by rewrite (b64_Qeq_0 q Hz).
Qed.

Lemma b64_0 : b64 0 = 0%Q.
Proof. done. Qed.

Lemma b64_1 : b64 1 = 1%Q.
Proof. by vm_compute. Qed.

Lemma b64_100 : b64 100 = 100%Q.
Proof. by vm_compute. Qed.

Lemma b64_nonneg q : (0 <= q)%Q → (0 <= b64 q)%Q.
Proof. intros Hq. rewrite <- b64_0. by apply b64_mono. Qed.

Lemma fmul_mono_l x1 x2 y : (0 <= y)%Q → (x1 <= x2)%Q → (fmul x1 y <= fmul x2 y)%Q.
Proof.
  intros Hy Hle. unfold fmul. apply b64_mono.
  apply Qmult_le_compat_r; [by apply b64_mono|by apply b64_nonneg].
Qed.

Lemma fmul_proper x1 x2 y : x1 == x2 → fmul x1 y = fmul x2 y.
Proof.
  intros Heq. unfold fmul. by rewrite (b64_proper x1 x2).
Qed.

(** Percentages of a number between 0 and 1. *)
Lemma fmul_100_range p : (0 <= p <= 1)%Q → (0 <= fmul p 100 <= 100)%Q.
Proof.
  intros [Hlo Hhi]. split.
  - apply Qle_trans with (fmul 0 100); [by vm_compute|].
    by apply fmul_mono_l.
  - apply Qle_trans with (fmul 1 100); [|by vm_compute].
    by apply fmul_mono_l.
Qed.

Lemma np_round1_range x : (0 <= x <= 100)%Q → (0 <= np_round1 x <= 100)%Q.
Proof.
  intros [Hlo Hhi]. unfold np_round1.
  assert (H0 : (0 ≤ round_half_even (fmul x 10))%Z).
  { apply round_half_even_nonneg.
    apply Qle_trans with (fmul 0 10); [by vm_compute|]. by apply fmul_mono_l. }
  assert (H1 : (round_half_even (fmul x 10) ≤ 1000)%Z).
  { apply round_half_even_le.
    apply Qle_trans with (fmul 100 10); [by apply fmul_mono_l|by vm_compute]. }
  unfold Qle; simpl. lia.
Qed.

Lemma round1_mono q1 q2 : (q1 <= q2)%Q → (round1 q1 <= round1 q2)%Q.
Proof.
  intros Hle. unfold round1, Qle. simpl.
  assert (round_half_even (q1 * 10) ≤ round_half_even (q2 * 10))%Z; [|lia].
  apply round_half_even_mono. lra.
Qed.

Lemma percent_range p : (0 <= p <= 1)%Q → (0 <= round1 (fmul p 100) <= 100)%Q.
Proof. intros ?. by apply round1_range, fmul_100_range. Qed.

(** ** The overlap engine: scoring *)

Module OverlapFacts.
Import Overlap OverlapSpec.

Lemma jaccard_range A B : (0 <= jaccard A B <= 1)%Q.
Proof.
  unfold jaccard, Qle; simpl.
  assert (size (A ∩ B) ≤ size (A ∪ B)) by (apply subseteq_size; set_solver).
  destruct (size (A ∪ B)) as [|n] eqn:Hn; [|rewrite <- Hn in *]; lia.
Qed.

Lemma jaccard_zero A B : A ∩ B = ∅ → jaccard A B == 0.
Proof. intros Hz. unfold jaccard. by rewrite Hz, size_empty. Qed.

Lemma jaccard_same A : A ≠ ∅ → jaccard A A == 1.
Proof.
  intros Hne. unfold jaccard.
  replace (A ∩ A) with A by set_solver. replace (A ∪ A) with A by set_solver.
  assert (Hs : size A ≠ 0).
  { intros Hz. by apply size_empty_inv, leibniz_equiv in Hz. }
  unfold Qeq; simpl. lia.
Qed.

(** The division of the loop never raises: a row that is not skipped
    shares a symptom with the input, so the union is not empty. *)
Lemma row_score_run input_norm r :
  row_score input_norm r =
    inr (if decide (input_norm ∩ symptoms r = ∅) then None
         else Some (input_norm ∩ symptoms r, jaccard input_norm (symptoms r))).
Proof.
  unfold row_score. case_decide as Hi; [done|].
  unfold py_truediv. case_decide as Hu; [|done].
  apply size_empty_inv, leibniz_equiv in Hu. set_solver.
Qed.

Lemma update_best_ok acc r inter sc :
  acc_ok acc → (0 <= sc <= 1)%Q →
  acc_ok (update_best acc r inter sc) ∧
  (update_best acc r inter sc).2 == Qmax acc.2 sc.
Proof.
  intros Hacc Hsc. pose proof Hacc as [Hr Hn]. unfold update_best.
  destruct (Qltb acc.2 sc) eqn:Hlt.
  - apply Qltb_lt in Hlt. split; [by split|]. simpl.
    symmetry. apply Q.max_r. by apply Qlt_le_weak.
  - apply Qltb_ge in Hlt.
    assert (Hmax : acc.2 == Qmax acc.2 sc) by (symmetry; by apply Q.max_l).
    destruct (Qltb _ epsilon); [|done].
    destruct acc.1 as [b|] eqn:Hb; [|done].
    destruct (_ <? _); [|done].
    split; [by split|done].
Qed.

Lemma scan_step_run input_norm acc r :
  acc_ok acc →
  ∃ acc', scan_step input_norm acc r = inr acc' ∧ acc_ok acc' ∧
          acc'.2 == Qmax acc.2 (jaccard input_norm (symptoms r)).
Proof.
  intros Hacc. unfold scan_step. rewrite row_score_run. simpl.
  case_decide as Hi.
  - exists acc. split_and!; [done..|].
    symmetry. apply Q.max_l. rewrite jaccard_zero by done. apply Hacc.
  - eexists. split; [done|]. apply update_best_ok; [done|apply jaccard_range].
Qed.

Lemma best_jaccard_proper input_norm crs (x y : Q) :
  x == y →
  foldl (λ m r, Qmax m (jaccard input_norm (symptoms r))) x crs ==
  foldl (λ m r, Qmax m (jaccard input_norm (symptoms r))) y crs.
Proof.
  revert x y. induction crs as [|r crs IH]; intros x y Hxy; simpl; [done|].
  apply IH. by rewrite Hxy.
Qed.

Lemma fold_scan_run input_norm crs acc :
  acc_ok acc →
  ∃ found, fold_res (scan_step input_norm) acc crs = inr found ∧
    acc_ok found ∧
    found.2 == foldl (λ m r, Qmax m (jaccard input_norm (symptoms r))) acc.2 crs.
Proof.
  revert acc. induction crs as [|r crs IH]; intros acc Hacc; simpl.
  - by exists acc.
  - destruct (scan_step_run input_norm acc r Hacc) as (acc' & -> & Hok & Hmax).
    simpl. destruct (IH acc' Hok) as (found & -> & Hfok & Hfmax).
    exists found. split_and!; [done..|].
    rewrite Hfmax. by apply best_jaccard_proper.
Qed.

(** The scoring loop returns, with [best_score] the maximal Jaccard score
    of the rows. *)
Lemma scan_run input_norm crs :
  ∃ found, scan input_norm crs = inr found ∧ acc_ok found ∧
           found.2 == best_jaccard input_norm crs.
Proof. apply fold_scan_run. split; [done|done]. Qed.

Lemma fold_max_ge_init input_norm crs (x : Q) :
  (x <= foldl (λ m r, Qmax m (jaccard input_norm (symptoms r))) x crs)%Q.
Proof.
  revert x. induction crs as [|r crs IH]; intros x; simpl; [apply Qle_refl|].
  eapply Qle_trans; [apply Q.le_max_l|apply IH].
Qed.

Lemma best_jaccard_ge input_norm crs r :
  r ∈ crs →
  (jaccard input_norm (symptoms r) <= best_jaccard input_norm crs)%Q.
Proof.
  unfold best_jaccard. generalize 0%Q.
  induction crs as [|r' crs IH]; intros x Hr; [by inversion Hr|].
  apply elem_of_cons in Hr as [->|Hr]; simpl.
  - eapply Qle_trans; [apply Q.le_max_r|apply fold_max_ge_init].
  - by apply IH.
Qed.

(** A row whose symptom set is the input set brings the best score of
    the loop to 1. *)
Lemma scan_exact input_norm crs r :
  r ∈ crs → input_norm ≠ ∅ → input_norm = symptoms r →
  ∃ found, scan input_norm crs = inr found ∧ found.2 == 1.
Proof.
  intros Hr Hne Heq.
  destruct (scan_run input_norm crs) as (found & Hscan & [[_ Hle] _] & Hbest).
  exists found. split; [done|]. apply Qle_antisym; [done|].
  rewrite Hbest. eapply Qle_trans; [|by apply best_jaccard_ge].
  rewrite <- Heq, jaccard_same by done. apply Qle_refl.
Qed.

Lemma scan_step_skip input_norm acc r :
  input_norm ∩ symptoms r = ∅ → scan_step input_norm acc r = inr acc.
Proof.
  intros Hd. unfold scan_step. rewrite row_score_run.
  by rewrite decide_True.
Qed.

(** No row shares a symptom with the input: nothing is kept. *)
Lemma scan_disjoint input_norm crs :
  (∀ r, r ∈ crs → input_norm ∩ symptoms r = ∅) →
  scan input_norm crs = inr (None, 0%Q).
Proof.
  unfold scan. generalize (None : option Best, 0%Q).
  induction crs as [|r crs IH]; intros acc Hd; cbn [fold_res]; [done|].
  rewrite scan_step_skip by (apply Hd; left). simpl.
  apply IH. intros r' Hr'. apply Hd. by right.
Qed.

(** [predict] on a consistent cache, branch by branch. *)
Lemma predict_empty σ : predict [] σ = (inr no_symptoms_result, σ).
Proof. done. Qed.

Lemma predict_run σ symptoms :
  cache_ok (get_cache σ) → symptoms ≠ [] →
  ∃ c', get_cache σ ⊆ c' ∧ cache_ok c' ∧
    ((input_set symptoms = ∅ ∧
      predict symptoms σ = (inr unrecognized_result, with_cache c' σ)) ∨
     (input_set symptoms ≠ ∅ ∧
      ∃ found, scan (input_set symptoms) (_compiled_rows σ) = inr found ∧
        predict symptoms σ =
          (inr (verdict (min_threshold σ) (input_set symptoms) found),
           with_cache c' σ))).
Proof.
  intros Hc Hne. destruct symptoms as [|s0 l]; [done|].
  pose proof (mapM_norm_run (filter (λ s, Py.nonempty s) (s0 :: l)) σ Hc) as Hrun.
  eexists. split; [apply memos_subseteq|]. split; [by apply memos_ok|].
  unfold predict, _norm. rewrite (bind_run _ _ _ _ _ Hrun).
  fold (input_set (s0 :: l)).
  case_decide as He; [left; by split|right; split; [done|]].
  destruct (scan_run (input_set (s0 :: l)) (_compiled_rows σ))
    as (found & Hscan & _ & _).
  exists found. split; [done|].
  unfold mbind, M_bind, gets, lift; simpl. rewrite Hscan. unfold verdict.
  destruct found.1; [destruct (Qltb _ _)|]; done.
Qed.

End OverlapFacts.

(** ** Strings: splitting and sorting *)

Lemma split_no_sep ch s : Py.contains ch s = false → Py.split ch s = [s].
Proof.
  induction s as [|c s IH]; simpl; [done|].
  intros [Hc Hs]%orb_false_elim. rewrite Hc, IH by done. done.
Qed.

Lemma str_le_ne_lt a b : String.le a b → a ≠ b → str_lt a b.
Proof.
  unfold String.le, str_lt, String.leb, String.ltb. intros Hle Hne.
  destruct (String.compare a b) eqn:Hcmp; [|done|done].
  by apply String.compare_eq_iff in Hcmp.
Qed.

Lemma py_sorted_perm X : py_sorted X ≡ₚ elements X.
Proof. apply merge_sort_Permutation. Qed.

Lemma elem_of_py_sorted X t : t ∈ py_sorted X ↔ t ∈ X.
Proof. by rewrite py_sorted_perm, elem_of_elements. Qed.

Lemma NoDup_py_sorted X : NoDup (py_sorted X).
Proof. rewrite py_sorted_perm. apply NoDup_elements. Qed.

Lemma py_sorted_sorted X : StronglySorted str_lt (py_sorted X).
Proof.
  pose proof (NoDup_py_sorted X) as Hnd.
  pose proof (StronglySorted_merge_sort String.le (elements X)) as Hs.
  fold (py_sorted X) in Hs.
  induction Hs as [|a l Hs IH Hall]; [constructor|].
  apply NoDup_cons in Hnd as [Ha Hnd]. constructor; [by apply IH|].
  rewrite Forall_forall in Hall |- *. intros b Hb.
  apply str_le_ne_lt; [by apply Hall|]. intros ->. done.
Qed.

Lemma elem_of_foldl_add (l : list string) (s : gset string) t :
  t ∈ foldl (λ acc x, acc ∪ {[x]}) s l ↔ t ∈ s ∨ t ∈ l.
Proof.
  revert s. induction l as [|x l IH]; intros s; simpl; [set_solver|].
  rewrite IH. set_solver.
Qed.

Lemma elem_of_iterrows d ir : ir ∈ iterrows d → ir.2 ∈ rows d.
Proof.
  unfold iterrows. destruct ir as [i row]. intros Hin.
  by apply elem_of_zip_r in Hin.
Qed.

Lemma iterrows_snd d : (iterrows d).*2 = rows d.
Proof. unfold iterrows. apply snd_zip. by rewrite length_seq. Qed.

(** ** The overlap engine: preparation *)

Module OverlapPrepare.
Import Overlap OverlapSpec OverlapFacts.

Lemma ov_elem_of_cell_tokens cell t :
  t ∈ cell_tokens cell ↔
  t ≠ EmptyString ∧ ∃ p, p ∈ Py.split ","%char cell ∧ t = norm p.
Proof.
  unfold cell_tokens. rewrite list_elem_of_filter, list_elem_of_fmap.
  assert (Py.nonempty t ↔ t ≠ EmptyString) as -> by (by destruct t).
  naive_solver.
Qed.

Lemma ov_split_cell_computes cell : computes (_split_cell cell) (cell_tokens cell).
Proof.
  unfold _split_cell, cell_tokens. destruct cell as [|c s]; [apply computes_ret|].
  cbn [Py.nonempty negb].
  destruct (Py.contains _ _) eqn:Hc.
  - eapply computes_bind; [apply computes_mapM, computes_norm|].
    apply computes_ret.
  - rewrite (split_no_sep _ _ Hc).
    eapply computes_bind.
    + eapply computes_bind; [apply computes_norm|apply computes_ret].
    + apply computes_ret.
Qed.

Lemma ov_prepare_row_computes cols idx row :
  computes (prepare_row cols idx row) (compiled cols (idx, row)).
Proof.
  unfold prepare_row. eapply computes_bind; [|apply computes_ret].
  apply (computes_foldM _ (λ sset col,
      foldl (λ acc t, acc ∪ {[t]}) sset
        (cell_tokens (py_str (row_get row col PNone))))).
  intros sset col. eapply computes_bind; [apply ov_split_cell_computes|].
  apply computes_ret.
Qed.

Lemma ov_elem_of_row_symptoms cols row t :
  t ∈ row_symptoms cols row ↔
  ∃ col, col ∈ cols ∧ t ∈ cell_tokens (py_str (row_get row col PNone)).
Proof.
  unfold row_symptoms.
  assert (Hgen : ∀ s0 : gset string,
    t ∈ foldl (λ sset col, foldl (λ acc t, acc ∪ {[t]}) sset
                (cell_tokens (py_str (row_get row col PNone)))) s0 cols ↔
    t ∈ s0 ∨ ∃ col, col ∈ cols ∧
      t ∈ cell_tokens (py_str (row_get row col PNone))).
  { induction cols as [|col cols IH]; intros s0; simpl.
    - split; [auto|]. intros [?|(col & Hcol & _)]; [done|]. by inversion Hcol.
    - rewrite IH, elem_of_foldl_add. split.
      + intros [[?|?]|(col' & ? & ?)]; [by left|right..].
        * exists col. split; [left|done].
        * exists col'. split; [by right|done].
      + intros [?|(col' & [->|?]%elem_of_cons & ?)]; [by left; left| |].
        * left. by right.
        * right. by exists col'. }
  rewrite Hgen. set_solver.
Qed.

(** The row loop of [_prepare] appends one compiled row per frame row. *)
Lemma prepare_rows_run cols irs σ :
  cache_ok (get_cache σ) →
  ∃ c', cache_ok c' ∧
    foldM (λ _ ir,
        r ← prepare_row cols ir.1 ir.2;
        modify (λ σ, with_compiled_rows (_compiled_rows σ ++ [r]) σ)) tt irs σ
    = (inr tt, with_cache c'
         (with_compiled_rows (_compiled_rows σ ++ (compiled cols <$> irs)) σ)).
Proof.
  revert σ. induction irs as [|[idx row] irs IH]; intros σ Hc; simpl.
  - exists (get_cache σ). split; [done|]. rewrite app_nil_r. by destruct σ.
  - destruct (ov_prepare_row_computes cols idx row σ Hc) as (c1 & Hrun & _ & Hok1).
    unfold mbind at 1, M_bind at 1.
    unfold mbind at 1, M_bind at 1. simpl. rewrite Hrun. unfold modify at 1.
    set (σ1 := with_compiled_rows _ _).
    destruct (IH σ1) as (c2 & Hok2 & ->); [done|].
    exists c2. split; [done|]. subst σ1. simpl.
    by rewrite <- app_assoc.
Qed.

Lemma elem_of_all_symptoms crs t :
  t ∈ all_symptoms crs ↔ ∃ r, r ∈ crs ∧ t ∈ symptoms r.
Proof.
  unfold all_symptoms.
  assert (Hgen : ∀ s0 : gset string,
    t ∈ foldl (λ acc r, acc ∪ symptoms r) s0 crs ↔
    t ∈ s0 ∨ ∃ r, r ∈ crs ∧ t ∈ symptoms r).
  { induction crs as [|r crs IH]; intros s0; simpl.
    - split; [auto|]. intros [?|(r & Hr & _)]; [done|]. by inversion Hr.
    - rewrite IH, elem_of_union. split.
      + intros [[?|?]|(r' & ? & ?)]; [by left|right..].
        * exists r. split; [left|done].
        * exists r'. split; [by right|done].
      + intros [?|(r' & [->|?]%elem_of_cons & ?)]; [by left; left| |].
        * left. by right.
        * right. by exists r'. }
  rewrite Hgen. set_solver.
Qed.

(** [__init__] never fails on a frame, and this is the engine it
    builds. *)
Lemma init_run d thr :
  ∃ σ, init d thr = inr σ ∧
    cache_ok (get_cache σ) ∧
    df σ = d ∧ min_threshold σ = thr ∧
    symptom_columns σ = filter (λ c, String.prefix "Symptom_" c) (columns d) ∧
    _compiled_rows σ = compiled (symptom_columns σ) <$> iterrows d ∧
    available_symptoms σ = py_sorted (all_symptoms (_compiled_rows σ)).
Proof.
  unfold init. set (σ0 := blank d thr).
  destruct (prepare_rows_run (symptom_columns σ0) (iterrows d) σ0)
    as (c' & Hok & Hrun); [apply cache_ok_empty|].
  unfold _prepare, mbind, M_bind, gets; simpl.
  simpl in Hrun. unfold mbind, M_bind in Hrun. rewrite Hrun. simpl.
  eexists. split; [done|]. by simpl.
Qed.

End OverlapPrepare.

(** ** Presence vectors *)

Ltac set_one_cases :=
  repeat (case_decide; simpl; try rewrite length_insert in *; try lia);
  try done.

Lemma set_one_comm vec i j :
  (Np.set_one vec i ≫= λ v, Np.set_one v j) =
  (Np.set_one vec j ≫= λ v, Np.set_one v i).
Proof.
  unfold Np.set_one, mbind, res_bind. set_one_cases.
  destruct (decide (i = j)) as [->|Hne]; [done|].
  by rewrite list_insert_insert_ne.
Qed.

Lemma set_one_idem vec i :
  (Np.set_one vec i ≫= λ v, Np.set_one v i) = Np.set_one vec i.
Proof.
  unfold Np.set_one, mbind, res_bind. set_one_cases.
  by rewrite list_insert_insert_eq.
Qed.

Lemma vec_step_comm index vec x y :
  (vec_step index vec x ≫= λ v, vec_step index v y) =
  (vec_step index vec y ≫= λ v, vec_step index v x).
Proof.
  unfold vec_step.
  destruct (index !! x) as [i|] eqn:Hx, (index !! y) as [j|] eqn:Hy; simpl.
  - apply set_one_comm.
  - by destruct (Np.set_one vec i).
  - by destruct (Np.set_one vec j).
  - done.
Qed.

Lemma vec_step_idem index vec x :
  (vec_step index vec x ≫= λ v, vec_step index v x) = vec_step index vec x.
Proof.
  unfold vec_step. destruct (index !! x) as [i|] eqn:Hx; simpl.
  - apply set_one_idem.
  - done.
Qed.

Lemma fold_vec_step_none index vec l :
  (∀ t, t ∈ l → index !! t = None) → fold_res (vec_step index) vec l = inr vec.
Proof.
  induction l as [|t l IH]; intros Hl; cbn [fold_res]; [done|].
  assert (Ht : vec_step index vec t = inr vec).
  { unfold vec_step. by rewrite Hl by left. }
  rewrite Ht. simpl. apply IH.
  intros t' Ht'. apply Hl. by right.
Qed.

Lemma sum_zeros n : Np.sum (Np.zeros n) = 0%N.
Proof. unfold Np.sum, Np.zeros. induction n as [|n IH]; simpl; done. Qed.

(** ** The random-forest engine *)

Module RFFacts.
Import RF RFSpec.

Lemma vectorize_step_run vec s σ :
  cache_ok (get_cache σ) →
  vectorize_step vec s σ =
    (vec_step (symptom_index σ) vec (norm s),
     with_cache (memo (get_cache σ) s) σ).
Proof.
  intros Hc. pose proof (norm_cached_run s σ Hc) as Hn.
  unfold vectorize_step, _norm. rewrite (bind_run _ _ _ _ _ Hn).
  unfold mbind, M_bind, gets, vec_step. simpl.
  by destruct (symptom_index σ !! norm s).
Qed.

(** [_vectorize] on a consistent cache: the loop over the normalised
    tokens, and a cache that grew. *)
Lemma vectorize_loop_run l vec σ :
  cache_ok (get_cache σ) →
  ∃ c', get_cache σ ⊆ c' ∧ cache_ok c' ∧
    foldM vectorize_step vec l σ
    = (fold_res (vec_step (symptom_index σ)) vec (norm <$> l), with_cache c' σ).
Proof.
  revert vec σ. induction l as [|s l IH]; intros vec σ Hc.
  - exists (get_cache σ). split_and!; [done..|]. by destruct σ.
  - cbn [foldM fmap list_fmap fold_res].
    unfold mbind at 1, M_bind at 1. rewrite vectorize_step_run by done.
    assert (Hc1 : cache_ok (memo (get_cache σ) s)) by (by apply memo_ok).
    destruct (vec_step (symptom_index σ) vec (norm s)) as [e|vec'].
    + exists (memo (get_cache σ) s).
      split_and!; [apply memo_subseteq|done..].
    + destruct (IH vec' (with_cache (memo (get_cache σ) s) σ))
        as (c' & Hsub & Hok & Hrun); [done|].
      exists c'. split_and!; [|done|].
      * etrans; [apply (memo_subseteq _ s)|done].
      * rewrite Hrun. done.
Qed.

Lemma vectorize_run l σ :
  cache_ok (get_cache σ) →
  ∃ c', get_cache σ ⊆ c' ∧ cache_ok c' ∧
    _vectorize l σ =
      (fold_res (vec_step (symptom_index σ))
         (Np.zeros (length (symptom_vocab σ))) (norm <$> l),
       with_cache c' σ).
Proof.
  intros Hc. unfold _vectorize, mbind, M_bind, gets. simpl.
  apply (vectorize_loop_run l _ σ Hc).
Qed.

(** The dictionary built from the vocabulary. *)
Lemma enumerate_index_lookup l k m s i :
  NoDup l →
  enumerate_index k l m !! s = Some i ↔
    (∃ j, l !! j = Some s ∧ i = (k + j)%nat) ∨ ((s ∉ l) ∧ m !! s = Some i).
Proof.
  revert k m. induction l as [|x l IH]; intros k m Hnd; simpl.
  - split; [right; split; [apply not_elem_of_nil|done]|].
    intros [(j & Hj & _)|[_ ?]]; [by rewrite lookup_nil in Hj|done].
  - apply NoDup_cons in Hnd as [Hx Hnd]. rewrite IH by done. split.
    + intros [(j & Hj & ->)|[Hs Hm]].
      * left. exists (S j). split; [done|lia].
      * rewrite lookup_insert in Hm. case_decide as Hxs.
        -- subst. injection Hm as <-. left. exists 0. split; [done|lia].
        -- right. split; [|done]. rewrite not_elem_of_cons. by split.
    + intros [(j & Hj & ->)|[Hs Hm]].
      * destruct j as [|j]; simpl in Hj.
        -- injection Hj as ->. right. split; [done|].
           rewrite lookup_insert_eq. f_equal. lia.
        -- left. exists j. split; [done|lia].
      * apply not_elem_of_cons in Hs as [Hne Hs]. right. split; [done|].
        by rewrite lookup_insert_ne.
Qed.

Lemma enumerate_index_spec l s i :
  NoDup l → enumerate_index 0 l ∅ !! s = Some i ↔ l !! i = Some s.
Proof.
  intros Hnd. rewrite enumerate_index_lookup by done. split.
  - intros [(j & Hj & ->)|[_ Hm]]; [done|by rewrite lookup_empty in Hm].
  - intros Hi. left. by exists i.
Qed.

End RFFacts.

(** ** The random-forest engine: preparation and training *)

Module RFPrepare.
Import RF RFSpec RFFacts.

Lemma rf_split_cell_computes cell : computes (_split_cell cell) (cell_tokens cell).
Proof.
  unfold _split_cell, cell_tokens. destruct (absent cell); [apply computes_ret|].
  cbv zeta. destruct (Py.contains _ _) eqn:Hc.
  - apply computes_mapM, computes_norm.
  - rewrite (split_no_sep _ _ Hc). apply computes_mapM, computes_norm.
Qed.

Lemma rf_prepare_row_computes cols row :
  computes (prepare_row cols row) (row_symptoms cols row).
Proof.
  unfold prepare_row, row_symptoms.
  apply (computes_foldM _ (λ sset col,
    add_tokens sset (cell_tokens (row_get row col PNone)))).
  intros sset col. eapply computes_bind; [apply rf_split_cell_computes|].
  apply computes_ret.
Qed.

Lemma elem_of_add_tokens sset toks t :
  t ∈ add_tokens sset toks ↔ t ∈ sset ∨ (t ≠ EmptyString ∧ t ∈ toks).
Proof.
  unfold add_tokens. revert sset.
  induction toks as [|x toks IH]; intros sset; simpl.
  - split; [auto|]. intros [?|[_ Hin]]; [done|by inversion Hin].
  - rewrite IH. destruct x as [|c x]; cbn [Py.nonempty].
    + rewrite elem_of_cons. naive_solver.
    + rewrite elem_of_union, elem_of_singleton, elem_of_cons. naive_solver.
Qed.

Lemma rf_elem_of_row_symptoms cols row t :
  t ∈ row_symptoms cols row ↔
  t ≠ EmptyString ∧
  ∃ col, col ∈ cols ∧ t ∈ cell_tokens (row_get row col PNone).
Proof.
  unfold row_symptoms.
  assert (Hgen : ∀ s0 : gset string,
    t ∈ foldl (λ sset col,
          add_tokens sset (cell_tokens (row_get row col PNone))) s0 cols ↔
    t ∈ s0 ∨ (t ≠ EmptyString ∧
      ∃ col, col ∈ cols ∧ t ∈ cell_tokens (row_get row col PNone))).
  { induction cols as [|col cols IH]; intros s0; simpl.
    - split; [auto|]. intros [?|(_ & col & Hcol & _)]; [done|].
      by inversion Hcol.
    - rewrite IH, elem_of_add_tokens. split.
      + intros [[?|[? ?]]|(? & col' & ? & ?)]; [by left|right..].
        * split; [done|]. exists col. split; [left|done].
        * split; [done|]. exists col'. split; [by right|done].
      + intros [?|(? & col' & [->|?]%elem_of_cons & ?)]; [by left; left| |].
        * left. right. by split.
        * right. split; [done|]. by exists col'. }
  rewrite Hgen. set_solver.
Qed.

Lemma collect_snd cols acc irs :
  (collect cols acc irs).2 = acc.2 ++ (row_symptoms cols <$> irs.*2).
Proof.
  unfold collect. revert acc.
  induction irs as [|ir irs IH]; intros acc; simpl; [by rewrite app_nil_r|].
  rewrite IH. simpl. by rewrite <- app_assoc.
Qed.

Lemma elem_of_collect_fst cols acc irs t :
  t ∈ (collect cols acc irs).1 ↔
  t ∈ acc.1 ∨ ∃ ir, ir ∈ irs ∧ t ∈ row_symptoms cols ir.2.
Proof.
  unfold collect. revert acc.
  induction irs as [|ir irs IH]; intros acc; simpl.
  - split; [auto|]. intros [?|(ir & Hir & _)]; [done|by inversion Hir].
  - rewrite IH. simpl. rewrite elem_of_union. split.
    + intros [[?|?]|(ir' & ? & ?)]; [by left|right..].
      * exists ir. split; [left|done].
      * exists ir'. split; [by right|done].
    + intros [?|(ir' & [->|?]%elem_of_cons & ?)]; [by left; left| |].
      * left. by right.
      * right. by exists ir'.
Qed.

(** [_prepare] on a consistent cache. *)
Lemma prepare_run σ :
  cache_ok (get_cache σ) →
  ∃ c', get_cache σ ⊆ c' ∧ cache_ok c' ∧
    let acc := collect (symptom_columns σ) (∅, []) (iterrows (df σ)) in
    _prepare σ =
      (inr tt,
       with_prepared (py_sorted acc.1)
         (enumerate_index 0 (py_sorted acc.1) ∅) acc.2 (with_cache c' σ)).
Proof.
  intros Hc. unfold _prepare.
  unfold mbind at 1, M_bind at 1, gets at 1.
  unfold mbind at 1, M_bind at 1, gets at 1.
  assert (Hloop : computes
    (foldM (λ (acc : gset string * list (gset string))
              (ir : nat * gmap string pyval),
        sset ← prepare_row (symptom_columns σ) ir.2;
        mret (acc.1 ∪ sset, acc.2 ++ [sset])) (∅, []) (iterrows (df σ)))
    (collect (symptom_columns σ) (∅, []) (iterrows (df σ)))).
  { apply computes_foldM. intros acc ir.
    eapply computes_bind; [apply rf_prepare_row_computes|]. apply computes_ret. }
  destruct (Hloop σ Hc) as (c' & Hrun & Hsub & Hok).
  exists c'. split_and!; [done..|]. cbv zeta.
  rewrite (bind_run _ _ _ _ _ Hrun). done.
Qed.

Lemma row_vector_readonly sset : readonly (_row_vector sset).
Proof.
  unfold _row_vector.
  apply readonly_bind; [apply readonly_gets|intros n].
  apply readonly_bind; [apply readonly_gets|intros index].
  apply readonly_lift.
Qed.

Section training.
Variable fit : Fitting.

(** [_train] writes nothing but the fitted model, which it stores
    before it computes the accuracy. *)
Lemma train_inv σ r σ' :
  _train fit σ = (r, σ') →
  (∃ m, r = inr tt ∧ σ' = with_model (Some m) σ) ∨
  (∃ e, r = inl e ∧ (σ' = σ ∨ ∃ m, σ' = with_model (Some m) σ)).
Proof.
  unfold _train.
  unfold mbind at 1, M_bind at 1, gets at 1.
  unfold mbind at 1, M_bind at 1, gets at 1.
  unfold mbind at 1, M_bind at 1.
  match goal with |- context [foldM ?f ?b ?l σ] =>
    assert (Hro : readonly (foldM f b l));
    [|specialize (Hro σ); destruct (foldM f b l σ) as [[e|xy] σ1] eqn:Hloop]
  end.
  - apply readonly_foldM. intros xy rs. case_decide; [apply readonly_ret|].
    apply readonly_bind; [apply row_vector_readonly|intros x].
    apply readonly_bind; [apply readonly_lift|intros y]. apply readonly_ret.
  - simpl in Hro. subst σ1. intros [= <- <-]. right. exists e. by split; [|left].
  - simpl in Hro. subst σ1. case_decide.
    + intros [= <- <-]. right. exists ValueError. by split; [|left].
    + unfold mbind, M_bind, gets, lift, modify, mret, M_ret. simpl.
      destruct (train_test_split fit _ _ _ _) as [e|[[[X_train X_test] y_train] y_test]];
        simpl; [intros [= <- <-]; right; exists e; by split; [|left]|].
      destruct (fit_forest fit _ _ _ _) as [e|m]; simpl;
        [intros [= <- <-]; right; exists e; by split; [|left]|].
      destruct (accuracy_score fit _ _ _) as [e|acc]; intros [= <- <-].
      * right. exists e. split; [done|]. right. by exists m.
      * left. by exists m.
Qed.

(** The engine [__init__] returns. *)
Lemma init_inv d σ :
  init fit d = inr σ →
  let cols := filter (λ c, String.prefix _SYM_COL_PREFIX c) (columns d) in
  let acc := collect cols (∅, []) (iterrows d) in
  cache_ok (get_cache σ) ∧
  df σ = d ∧
  symptom_columns σ = cols ∧
  symptom_vocab σ = py_sorted acc.1 ∧
  symptom_index σ = enumerate_index 0 (py_sorted acc.1) ∅ ∧
  _row_symptom_sets σ = acc.2 ∧
  is_Some (model σ).
Proof.
  unfold init. set (σ0 := blank d).
  destruct (prepare_run σ0) as (c' & _ & Hok & Hprep); [apply cache_ok_empty|].
  cbv zeta in Hprep. rewrite (bind_run _ _ _ _ _ Hprep).
  destruct (_train fit _) as [r σ'] eqn:Htrain.
  apply train_inv in Htrain as [(m & -> & ->)|(e & -> & _)]; [|done].
  intros [= <-]. simpl. by split_and!.
Qed.

(** [_prepare] stores one symptom set per row of the frame. *)
Lemma init_row_sets d σ :
  init fit d = inr σ → length (_row_symptom_sets σ) = length (rows (df σ)).
Proof.
  intros Hinit. apply init_inv in Hinit.
  destruct Hinit as (_ & -> & _ & _ & _ & -> & _).
  rewrite collect_snd, iterrows_snd. simpl. by rewrite length_fmap.
Qed.

End training.

End RFPrepare.

(** ** Calls after initialisation *)

Ltac stable_step :=
  first
    [ apply stable_ret
    | apply stable_lift
    | apply stable_norm
    | apply stable_gets; done
    | apply stable_mapM; intros
    | apply stable_foldM; intros
    | apply stable_bind; [|intros] ].

Ltac stable_auto :=
  repeat first
    [ stable_step
    | match goal with
      | |- stable (if decide _ then _ else _) => case_decide
      | |- stable (if ?b then _ else _) => destruct b
      | |- stable (match ?x with _ => _ end) => destruct x
      end ].

Module OverlapCalls.
Import Overlap OverlapSpec OverlapFacts.

Lemma ov_predict_stable symptoms : stable (predict symptoms).
Proof.
  unfold predict, _norm. destruct symptoms as [|s l]; stable_auto.
Qed.

Lemma ov_get_available_symptoms_stable title :
  stable (get_available_symptoms title).
Proof. unfold get_available_symptoms. repeat stable_step. Qed.

End OverlapCalls.

Module RFCalls.
Import RF RFSpec RFFacts RFPrepare.

Lemma init_wf fit d σ : init fit d = inr σ → wf σ.
Proof.
  intros Hinit. apply init_inv in Hinit.
  destruct Hinit as (Hc & _ & _ & Hv & Hi & _ & Hm).
  split_and!; [done| | |done].
  - rewrite Hv. apply NoDup_py_sorted.
  - intros s i. rewrite Hi, Hv. apply enumerate_index_spec, NoDup_py_sorted.
Qed.

Lemma wf_index_none σ t :
  wf σ → t ∉ symptom_vocab σ → symptom_index σ !! t = None.
Proof.
  intros (_ & _ & Hi & _) Ht.
  destruct (symptom_index σ !! t) as [i|] eqn:Hl; [|done].
  apply Hi in Hl. destruct Ht. by eapply list_elem_of_lookup_2.
Qed.

Lemma wf_index_lt σ t i :
  wf σ → symptom_index σ !! t = Some i → i < length (symptom_vocab σ).
Proof. intros (_ & _ & Hi & _) Hl. apply Hi in Hl. by eapply lookup_lt_Some. Qed.

Lemma vectorize_stable symptoms : stable (_vectorize symptoms).
Proof.
  unfold _vectorize, vectorize_step, _norm. stable_auto.
Qed.

Lemma best_recommendations_stable disease symptoms :
  stable (_best_recommendations disease symptoms).
Proof.
  unfold _best_recommendations, _norm. stable_auto.
Qed.

Lemma rf_predict_stable symptoms : stable (predict symptoms).
Proof.
  unfold predict. destruct symptoms as [|s l]; [apply stable_ret|].
  apply stable_bind; [by apply stable_gets|]. intros [m|]; [|apply stable_ret].
  stable_step; [apply vectorize_stable|].
  case_decide; [apply stable_ret|].
  do 4 (stable_step; [apply stable_lift|]).
  stable_step; [apply best_recommendations_stable|].
  apply stable_ret.
Qed.

Lemma rf_get_available_symptoms_stable title :
  stable (get_available_symptoms title).
Proof. unfold get_available_symptoms. repeat stable_step. Qed.

(** Out-of-vocabulary input: the vector stays zero and the model is not
    consulted. *)
Lemma predict_unrecognized σ m symptoms :
  cache_ok (get_cache σ) → model σ = Some m → symptoms ≠ [] →
  (∀ s, s ∈ symptoms → symptom_index σ !! norm s = None) →
  ∃ c', get_cache σ ⊆ c' ∧ cache_ok c' ∧
    predict symptoms σ = (inr unrecognized_result, with_cache c' σ).
Proof.
  intros Hc Hm Hne Hnone. destruct symptoms as [|s0 l]; [done|].
  destruct (vectorize_run (s0 :: l) σ Hc) as (c' & Hsub & Hok & Hv).
  rewrite fold_vec_step_none in Hv.
  2:{ intros t (s & -> & Hs)%list_elem_of_fmap. by apply Hnone. }
  exists c'. split_and!; [done..|].
  unfold predict. unfold mbind at 1, M_bind at 1, gets at 1. rewrite Hm.
  rewrite (bind_run _ _ _ _ _ Hv).
  by rewrite decide_True by apply sum_zeros.
Qed.

Lemma bind_inr_inv {St A B} (m : M St A) (f : A → M St B) σ b σ' :
  (m ≫= f) σ = (inr b, σ') →
  ∃ a σ1, m σ = (inr a, σ1) ∧ f a σ1 = (inr b, σ').
Proof.
  unfold mbind, M_bind. destruct (m σ) as [[e|a] σ1]; [done|]. eauto.
Qed.

Lemma item_elem_of {A} (a : list A) i x : Np.item a i = inr x → x ∈ a.
Proof.
  unfold Np.item. destruct (a !! i) eqn:Hl; [|done].
  intros [= <-]. by eapply list_elem_of_lookup_2.
Qed.

Lemma predict_confidence σ symptoms r σ' :
  (∀ m, model σ = Some m → proba_ok m) →
  predict symptoms σ = (inr r, σ') →
  (0 <= confidence r <= 100)%Q.
Proof.
  intros Hm Hrun. destruct symptoms as [|s0 l].
  { injection Hrun as <- _. done. }
  unfold predict in Hrun.
  unfold mbind at 1, M_bind at 1, gets at 1 in Hrun.
  destruct (model σ) as [m|] eqn:Hmodel; [|by injection Hrun as <- _].
  apply bind_inr_inv in Hrun as (vec & σ1 & _ & Hrun).
  case_decide; [by injection Hrun as <- _|].
  apply bind_inr_inv in Hrun as (top_idx & σ2 & _ & Hrun).
  apply bind_inr_inv in Hrun as (top_disease & σ3 & _ & Hrun).
  apply bind_inr_inv in Hrun as (p & σ4 & Hp & Hrun).
  apply bind_inr_inv in Hrun as (cands & σ5 & _ & Hrun).
  apply bind_inr_inv in Hrun as (recs & σ6 & _ & Hrun).
  injection Hrun as <- _. simpl.
  injection Hp as Hp. apply item_elem_of in Hp.
  apply percent_range. by eapply Hm.
Qed.

End RFCalls.

(** ** The vocabulary after initialisation *)

Lemma elem_of_iterrows_rows d row :
  row ∈ rows d ↔ ∃ ir, ir ∈ iterrows d ∧ ir.2 = row.
Proof.
  rewrite <- (iterrows_snd d), list_elem_of_fmap. naive_solver.
Qed.

Module OverlapVocabulary.
Import Overlap OverlapSpec OverlapFacts OverlapPrepare.

Lemma elem_of_available d thr σ t :
  init d thr = inr σ →
  t ∈ available_symptoms σ ↔
  t ≠ EmptyString ∧
  ∃ row col p, row ∈ rows d ∧ col ∈ columns d ∧
    String.prefix "Symptom_" col = true ∧
    p ∈ Py.split ","%char (py_str (row_get row col PNone)) ∧ t = norm p.
Proof.
  intros Hinit. destruct (init_run d thr) as (σ' & Hinit' & _ & _ & _ & Hcols & Hrows & Hav).
  rewrite Hinit in Hinit'. injection Hinit' as <-.
  rewrite Hav, elem_of_py_sorted, elem_of_all_symptoms, Hrows, Hcols.
  split.
  - intros (r & (ir & -> & Hir)%list_elem_of_fmap & Ht). simpl in Ht.
    apply ov_elem_of_row_symptoms in Ht as (col & Hcol & Ht).
    apply list_elem_of_filter in Hcol as [Hpre Hcol].
    apply ov_elem_of_cell_tokens in Ht as (Hne & p & Hp & ->).
    split; [done|]. exists ir.2, col, p. split_and!; try done.
    + by apply elem_of_iterrows.
    + by apply Is_true_true.
  - intros (Hne & row & col & p & Hrow & Hcol & Hpre & Hp & ->).
    apply elem_of_iterrows_rows in Hrow as (ir & Hir & <-).
    eexists. split; [apply list_elem_of_fmap; by exists ir|]. simpl.
    apply ov_elem_of_row_symptoms. exists col. split.
    + apply list_elem_of_filter. split; [by apply Is_true_true|done].
    + apply ov_elem_of_cell_tokens. split; [done|]. by exists p.
Qed.

Lemma available_sorted d thr σ :
  init d thr = inr σ →
  StronglySorted str_lt (available_symptoms σ) ∧ NoDup (available_symptoms σ).
Proof.
  intros Hinit. destruct (init_run d thr) as (σ' & Hinit' & _ & _ & _ & _ & _ & Hav).
  rewrite Hinit in Hinit'. injection Hinit' as <-. rewrite Hav.
  split; [apply py_sorted_sorted|apply NoDup_py_sorted].
Qed.

End OverlapVocabulary.

Module RFVocabulary.
Import RF RFSpec RFFacts RFPrepare RFCalls.

Lemma rf_elem_of_cell_tokens cell t :
  t ∈ cell_tokens cell ↔
  ∃ s p, cell = PStr s ∧ p ∈ Py.split ","%char s ∧
         keeps (Py.strip p) = true ∧ t = norm (Py.strip p).
Proof.
  unfold cell_tokens. destruct cell as [| |s]; simpl.
  - split; [by intros ?%elem_of_nil|]. by intros (s & p & ? & _).
  - split; [by intros ?%elem_of_nil|]. by intros (s & p & ? & _).
  - destruct s as [|c s]; simpl.
    + split; [by intros ?%elem_of_nil|].
      intros (s & p & [= <-] & Hp & Hk & _). simpl in Hp.
      apply list_elem_of_singleton in Hp as ->. done.
    + rewrite list_elem_of_fmap. split.
      * intros (p' & -> & Hp'). apply list_elem_of_filter in Hp' as [Hk Hp'].
        apply list_elem_of_fmap in Hp' as (p & -> & Hp).
        exists (String c s), p. split_and!; try done. by apply Is_true_true.
      * intros (s' & p & [= <-] & Hp & Hk & ->).
        exists (Py.strip p). split; [done|].
        apply list_elem_of_filter. split; [by apply Is_true_true|].
        apply list_elem_of_fmap. by exists p.
Qed.

Lemma elem_of_vocab fit d σ t :
  init fit d = inr σ →
  t ∈ symptom_vocab σ ↔
  t ≠ EmptyString ∧
  ∃ row col s p, row ∈ rows d ∧ col ∈ columns d ∧
    String.prefix _SYM_COL_PREFIX col = true ∧
    row_get row col PNone = PStr s ∧ p ∈ Py.split ","%char s ∧
    keeps (Py.strip p) = true ∧ t = norm (Py.strip p).
Proof.
  intros Hinit. apply init_inv in Hinit.
  destruct Hinit as (_ & _ & _ & -> & _ & _ & _).
  rewrite elem_of_py_sorted, elem_of_collect_fst. simpl. split.
  - intros [?|(ir & Hir & Ht)]; [set_solver|].
    apply rf_elem_of_row_symptoms in Ht as (Hne & col & Hcol & Ht).
    apply list_elem_of_filter in Hcol as [Hpre Hcol].
    apply rf_elem_of_cell_tokens in Ht as (s & p & Hs & Hp & Hk & ->).
    split; [done|]. exists ir.2, col, s, p. split_and!; try done.
    + by apply elem_of_iterrows.
    + by apply Is_true_true.
  - intros (Hne & row & col & s & p & Hrow & Hcol & Hpre & Hs & Hp & Hk & ->).
    apply elem_of_iterrows_rows in Hrow as (ir & Hir & <-).
    right. exists ir. split; [done|].
    apply rf_elem_of_row_symptoms. split; [done|]. exists col. split.
    + apply list_elem_of_filter. split; [by apply Is_true_true|done].
    + apply rf_elem_of_cell_tokens. by exists s, p.
Qed.

Lemma vocab_sorted fit d σ :
  init fit d = inr σ →
  StronglySorted str_lt (symptom_vocab σ) ∧ NoDup (symptom_vocab σ).
Proof.
  intros Hinit. apply init_inv in Hinit.
  destruct Hinit as (_ & _ & _ & -> & _ & _ & _).
  split; [apply py_sorted_sorted|apply NoDup_py_sorted].
Qed.

(** The index is one-to-one from the vocabulary onto [0, N). *)
Lemma index_bijection σ :
  wf σ →
  (∀ s i, symptom_index σ !! s = Some i ↔ symptom_vocab σ !! i = Some s) ∧
  (∀ s, s ∈ symptom_vocab σ ↔ is_Some (symptom_index σ !! s)) ∧
  (∀ s i, symptom_index σ !! s = Some i → i < length (symptom_vocab σ)) ∧
  (∀ s1 s2 i, symptom_index σ !! s1 = Some i →
              symptom_index σ !! s2 = Some i → s1 = s2) ∧
  (∀ i, i < length (symptom_vocab σ) → ∃ s, symptom_index σ !! s = Some i).
Proof.
  intros Hwf. pose proof Hwf as (_ & Hnd & Hi & _). split_and!.
  - done.
  - intros s. rewrite list_elem_of_lookup. split.
    + intros (i & Hl). exists i. by apply Hi.
    + intros (i & Hl). exists i. by apply Hi.
  - intros s i. by apply wf_index_lt.
  - intros s1 s2 i H1%Hi H2%Hi. congruence.
  - intros i Hlt. apply lookup_lt_is_Some in Hlt as (s & Hs).
    exists s. by apply Hi.
Qed.

(** [_vectorize] on an initialised engine returns a vector over the
    vocabulary. *)
Lemma fold_vec_step_total index vec l :
  (∀ t i, index !! t = Some i → i < length vec) →
  ∃ vec', fold_res (vec_step index) vec l = inr vec' ∧ length vec' = length vec.
Proof.
  revert vec. induction l as [|t l IH]; intros vec Hlt; cbn [fold_res].
  - by exists vec.
  - assert (Hstep : ∃ v, vec_step index vec t = inr v ∧ length v = length vec).
    { unfold vec_step. destruct (index !! t) as [i|] eqn:Hi; [|by exists vec].
      unfold Np.set_one. rewrite decide_True by eauto.
      eexists. split; [done|]. by rewrite length_insert. }
    destruct Hstep as (v & -> & Hlen). simpl.
    destruct (IH v) as (vec' & -> & Hlen').
    + intros t' i Hi. rewrite Hlen. eauto.
    + exists vec'. split; [done|]. congruence.
Qed.

Lemma vectorize_total σ l :
  wf σ →
  ∃ vec c', _vectorize l σ = (inr vec, with_cache c' σ) ∧
            length vec = length (symptom_vocab σ) ∧
            get_cache σ ⊆ c' ∧ cache_ok c'.
Proof.
  intros Hwf. pose proof Hwf as (Hc & _).
  destruct (vectorize_run l σ Hc) as (c' & Hsub & Hok & Hrun).
  destruct (fold_vec_step_total (symptom_index σ)
    (Np.zeros (length (symptom_vocab σ))) (norm <$> l)) as (vec & Hvec & Hlen).
  - intros t i Hi. unfold Np.zeros. rewrite length_replicate.
    by eapply wf_index_lt.
  - exists vec, c'. rewrite Hrun, Hvec. split_and!; [done| |done..].
    rewrite Hlen. unfold Np.zeros. by rewrite length_replicate.
Qed.

Lemma vectorize_perm σ l1 l2 :
  cache_ok (get_cache σ) → l1 ≡ₚ l2 →
  (_vectorize l1 σ).1 = (_vectorize l2 σ).1.
Proof.
  intros Hc Hp.
  destruct (vectorize_run l1 σ Hc) as (c1 & _ & _ & ->).
  destruct (vectorize_run l2 σ Hc) as (c2 & _ & _ & ->). simpl.
  apply fold_res_perm; [intros; apply vec_step_comm|].
  by apply fmap_Permutation.
Qed.

Lemma vectorize_set σ l1 l2 :
  cache_ok (get_cache σ) →
  (list_to_set (norm <$> l1) : gset string) = list_to_set (norm <$> l2) →
  (_vectorize l1 σ).1 = (_vectorize l2 σ).1.
Proof.
  intros Hc Hs.
  destruct (vectorize_run l1 σ Hc) as (c1 & _ & _ & ->).
  destruct (vectorize_run l2 σ Hc) as (c2 & _ & _ & ->). simpl.
  apply fold_res_set; [intros; apply vec_step_comm|
                       intros; apply vec_step_idem|done].
Qed.

End RFVocabulary.

(** ** The feature vector of the custom engine *)

Module CustomFacts.
Import Custom.

Lemma feature_step_comm e vec x y :
  (feature_step e vec x ≫= λ v, feature_step e v y) =
  (feature_step e vec y ≫= λ v, feature_step e v x).
Proof.
  unfold feature_step.
  destruct (symptom_to_encoded e !! x) as [i|],
           (symptom_to_encoded e !! y) as [j|]; simpl.
  - unfold set_one, mbind, res_bind. set_one_cases.
    destruct (decide (i = j)) as [->|Hne]; [done|].
    by rewrite list_insert_insert_ne.
  - by destruct (set_one vec i).
  - by destruct (set_one vec j).
  - done.
Qed.

Lemma feature_step_idem e vec x :
  (feature_step e vec x ≫= λ v, feature_step e v x) = feature_step e vec x.
Proof.
  unfold feature_step. destruct (symptom_to_encoded e !! x) as [i|]; simpl.
  - unfold set_one, mbind, res_bind. set_one_cases.
    by rewrite list_insert_insert_eq.
  - done.
Qed.

Lemma create_feature_vector_perm e l1 l2 :
  l1 ≡ₚ l2 → _create_feature_vector e l1 = _create_feature_vector e l2.
Proof.
  intros Hp. unfold _create_feature_vector.
  apply fold_res_perm; [intros; apply feature_step_comm|].
  by apply fmap_Permutation.
Qed.

Lemma create_feature_vector_set e l1 l2 :
  (list_to_set (_normalize_symptom <$> l1) : gset string) =
    list_to_set (_normalize_symptom <$> l2) →
  _create_feature_vector e l1 = _create_feature_vector e l2.
Proof.
  intros Hs. unfold _create_feature_vector.
  apply fold_res_set; [intros; apply feature_step_comm|
                       intros; apply feature_step_idem|done].
Qed.

End CustomFacts.

(** ** Missing values *)

Module RFMissing.
Import RF RFSpec RFFacts RFPrepare RFCalls RFVocabulary.

Lemma split_cell_absent σ cell :
  absent cell = true → _split_cell cell σ = (inr [], σ).
Proof. intros Ha. unfold _split_cell. by rewrite Ha. Qed.

(** A cell that reads nan, in any letter case and with blanks around it,
    yields no token. *)
Lemma split_cell_marker σ s :
  Py.contains ","%char s = false → Py.lower (Py.strip s) = "nan" →
  _split_cell (PStr s) σ = (inr [], σ).
Proof.
  intros Hc Hnan. unfold _split_cell. destruct (absent (PStr s)); [done|].
  cbv zeta. simpl py_str. rewrite Hc.
  assert (Hk : keeps (Py.strip s) = false).
  { unfold keeps. rewrite Hnan.
    replace (negb (String.eqb "nan" "nan")) with false by done.
    apply andb_false_r. }
  rewrite filter_cons_False; [done|].
  intros Hk'. apply Is_true_true in Hk'. congruence.
Qed.

Lemma empty_not_in_vocab fit d σ :
  init fit d = inr σ → EmptyString ∉ symptom_vocab σ.
Proof. intros Hinit Hin. by apply (elem_of_vocab fit d σ) in Hin as [? _]. Qed.

Lemma vectorize_empty_tokens fit d σ l :
  init fit d = inr σ → (∀ s, s ∈ l → norm s = EmptyString) →
  ∃ c', _vectorize l σ =
          (inr (Np.zeros (length (symptom_vocab σ))), with_cache c' σ).
Proof.
  intros Hinit Hl. pose proof (init_wf _ _ _ Hinit) as Hwf.
  pose proof Hwf as (Hc & _).
  destruct (vectorize_run l σ Hc) as (c' & _ & _ & Hrun).
  exists c'. rewrite Hrun, fold_vec_step_none; [done|].
  intros t (s & -> & Hs)%list_elem_of_fmap. rewrite Hl by done.
  apply wf_index_none; [done|]. by eapply empty_not_in_vocab.
Qed.

End RFMissing.

(** ** Sequences of calls *)

Lemma ov_run_call_stable title c : stable (Overlap.run_call title c).
Proof.
  destruct c; simpl.
  - apply stable_bind; [apply OverlapCalls.ov_predict_stable|].
    intros. apply stable_ret.
  - apply stable_bind; [apply OverlapCalls.ov_get_available_symptoms_stable|].
    intros. apply stable_ret.
Qed.

Lemma rf_run_call_stable title c : stable (RF.run_call title c).
Proof.
  destruct c; simpl.
  - apply stable_bind; [apply RFCalls.rf_predict_stable|].
    intros. apply stable_ret.
  - apply stable_bind; [apply RFCalls.rf_get_available_symptoms_stable|].
    intros. apply stable_ret.
Qed.

(** ** The random-forest engine returns *)

Module RFTotal.
Import RF RFSpec RFFacts RFPrepare RFCalls RFVocabulary.

Lemma argmax_from_lt l i best_i best :
  best_i < i → Np.argmax_from i best_i best l < i + length l.
Proof.
  revert i best_i best. induction l as [|x l IH]; intros i best_i best Hlt; simpl.
  - lia.
  - destruct (Qltb best x).
    + specialize (IH (S i) i x). lia.
    + specialize (IH (S i) best_i best). lia.
Qed.

Lemma argmax_lt a i : Np.argmax a = inr i → i < length a.
Proof.
  destruct a as [|x l]; simpl; [done|]. intros [= <-].
  pose proof (argmax_from_lt l 1 0 x). lia.
Qed.

Lemma argmax_total a : a ≠ [] → ∃ i, Np.argmax a = inr i.
Proof. destruct a; [done|]. intros _. by eexists. Qed.

Lemma argsort_lt a i : i ∈ Np.argsort a → i < length a.
Proof.
  unfold Np.argsort. intros (xi & -> & Hin)%list_elem_of_fmap.
  rewrite merge_sort_Permutation in Hin. destruct xi as [x i].
  apply elem_of_zip_r in Hin. apply elem_of_seq in Hin. simpl. lia.
Qed.

Lemma item_total {A} (a : list A) i : i < length a → ∃ x, Np.item a i = inr x.
Proof.
  intros (x & Hx)%lookup_lt_is_Some. exists x. unfold Np.item. by rewrite Hx.
Qed.

(** The list of candidates is built without an index error. *)
Lemma candidates_total (classes : list pyval) (proba : list Q) order acc :
  length proba = length classes →
  (∀ i, i ∈ order → i < length proba) →
  ∃ cands, fold_res (λ acc i,
      c ← Np.item classes i;
      q ← Np.item proba i;
      inr (acc ++ [(c, percent q)])) acc order = inr cands.
Proof.
  intros Hlen. revert acc.
  induction order as [|i order IH]; intros acc Hlt; cbn [fold_res].
  - by exists acc.
  - assert (Hi : i < length proba) by (apply Hlt; left).
    destruct (item_total classes i) as (c & ->); [lia|].
    destruct (item_total proba i) as (q & ->); [done|]. simpl.
    apply IH. intros j Hj. apply Hlt. by right.
Qed.

Lemma py_ne_refl c : c ≠ PNaN → py_ne c c = false.
Proof.
  intros Hc. destruct c as [| |s]; [done|done|].
  unfold py_ne. by rewrite bool_decide_eq_true_2.
Qed.

(** The row loop of [_best_recommendations]: no key error when every row
    has the column, and a row once found is never dropped. *)
Lemma best_rows_total d_col disease input_norm zs acc :
  (∀ z, z ∈ zs → is_Some (z.1.2 !! d_col)) →
  ((acc.1 = None → acc.2 = (-1)%Z) ∧ (-1 ≤ acc.2)%Z) →
  ∃ found,
    fold_res (best_row_step d_col disease input_norm) acc zs = inr found ∧
    (is_Some acc.1 → is_Some found.1) ∧
    (disease ≠ PNaN → (∃ z, z ∈ zs ∧ z.1.2 !! d_col = Some disease) →
     is_Some found.1).
Proof.
  revert acc. induction zs as [|z zs IH]; intros acc Hcol [Hnone Hge];
    cbn [fold_res].
  - exists acc. split_and!; [done..|]. intros _ (z & Hz & _). by inversion Hz.
  - destruct (Hcol z) as (label & Hlabel); [left|].
    assert (Hstep : ∃ acc',
      best_row_step d_col disease input_norm acc z = inr acc' ∧
      ((acc'.1 = None → acc'.2 = (-1)%Z) ∧ (-1 ≤ acc'.2)%Z) ∧
      (is_Some acc.1 → is_Some acc'.1) ∧
      (py_ne label disease = false → is_Some acc'.1)).
    { unfold best_row_step, row_item. rewrite Hlabel. simpl.
      destruct (py_ne label disease) eqn:Hne.
      - exists acc. by split_and!.
      - destruct (acc.2 <? _)%Z eqn:Hlt.
        + eexists. split; [done|]. simpl. split_and!; [done|lia|eauto..].
        + exists acc. split_and!; [done..|]. intros _.
          destruct acc.1 eqn:Hacc; [done|].
          apply Z.ltb_ge in Hlt. specialize (Hnone eq_refl). lia. }
    destruct Hstep as (acc' & -> & Hinv & Hkeep & Hhit). simpl.
    destruct (IH acc') as (found & -> & Hkeep' & Hfind); [|done|].
    { intros z' Hz'. apply Hcol. by right. }
    exists found. split_and!; [done|by auto|].
    intros Hnan (z' & [->|Hz']%elem_of_cons & Hz'l).
    + apply Hkeep', Hhit. rewrite Hz'l in Hlabel. injection Hlabel as <-.
      by apply py_ne_refl.
    + apply Hfind; [done|]. by exists z'.
Qed.

Lemma zip_rows_elem d (sets : list (gset string)) row :
  length sets = length (rows d) → row ∈ rows d →
  ∃ z, z ∈ zip (iterrows d) sets ∧ z.1.2 = row.
Proof.
  intros Hlen (k & Hk)%list_elem_of_lookup.
  destruct (lookup_lt_is_Some_2 sets k) as (sset & Hs).
  { rewrite Hlen. by eapply lookup_lt_Some. }
  exists ((k, row), sset). split; [|done].
  apply list_elem_of_lookup. exists k.
  apply lookup_zip_with_Some. exists (k, row), sset. split_and!; [done| |done].
  unfold iterrows. apply lookup_zip_with_Some. exists k, row.
  split_and!; [done| |done]. apply lookup_seq. split; [done|].
  by eapply lookup_lt_Some.
Qed.

Lemma zip_rows_col d (sets : list (gset string)) col z :
  (∀ row, row ∈ rows d → is_Some (row !! col)) →
  z ∈ zip (iterrows d) sets → is_Some (z.1.2 !! col).
Proof.
  intros Hcol Hz. destruct z as [[i row] sset].
  apply elem_of_zip_l, elem_of_iterrows in Hz. by apply Hcol.
Qed.

Lemma best_recommendations_total σ disease symptoms :
  cache_ok (get_cache σ) → frame_ok σ → disease ≠ PNaN →
  (∃ row, row ∈ rows (df σ) ∧ row !! disease_col (df σ) = Some disease) →
  ∃ recs c', _best_recommendations disease symptoms σ =
    (inr recs, with_cache c' σ).
Proof.
  intros Hc [Hlen Hcol] Hnan (row & Hrow & Hlabel).
  pose proof (mapM_norm_run (filter (λ s, Py.nonempty s) symptoms) σ Hc) as Hrun.
  unfold _best_recommendations, _norm. rewrite (bind_run _ _ _ _ _ Hrun).
  unfold mbind, M_bind, gets, lift. simpl.
  match goal with |- context [fold_res ?f ?acc ?zs] =>
    destruct (best_rows_total (disease_col (df σ)) disease
      (list_to_set (norm <$> filter (λ s, Py.nonempty s) symptoms)) zs acc)
      as (found & Hfold & _ & Hfind)
  end.
  - intros z Hz. by eapply zip_rows_col.
  - done.
  - rewrite Hfold. destruct Hfind as (r & Hr); [done| |].
    + destruct (zip_rows_elem (df σ) (_row_symptom_sets σ) row Hlen Hrow)
        as (z & Hz & Hzr).
      exists z. split; [done|]. by rewrite Hzr.
    + rewrite Hr. by eexists _, _.
Qed.

(** On an initialised engine whose frame has its disease column and whose
    classifier keeps its contract, [predict] returns a result. *)
Lemma predict_total σ m symptoms :
  wf σ → model σ = Some m → frame_ok σ → classifier_ok σ m →
  ∃ r c', predict symptoms σ = (inr r, with_cache c' σ).
Proof.
  intros Hwf Hm Hframe (Hp & Hcl & Hlen & Hlabels).
  destruct symptoms as [|s0 l].
  { exists no_symptoms_result, (get_cache σ). by destruct σ. }
  destruct (vectorize_total σ (s0 :: l) Hwf) as (vec & c1 & Hrun & _ & _ & Hok1).
  unfold predict. unfold mbind at 1, M_bind at 1, gets at 1. rewrite Hm.
  rewrite (bind_run _ _ _ _ _ Hrun).
  case_decide; [by eexists _, _|].
  set (proba := predict_proba m vec).
  assert (Hne : proba ≠ []).
  { intros Hnil. apply (f_equal length) in Hnil. unfold proba in Hnil.
    rewrite Hlen in Hnil. by destruct (classes_ m). }
  destruct (argmax_total proba Hne) as (top_idx & Htop).
  pose proof (argmax_lt _ _ Htop) as Hlt.
  destruct (item_total (classes_ m) top_idx) as (top & Htopd).
  { unfold proba in Hlt. by rewrite Hlen in Hlt. }
  destruct (item_total proba top_idx Hlt) as (p & Hpi).
  destruct (candidates_total (classes_ m) proba
    (take 3 (reverse (Np.argsort proba))) []) as (cands & Hcands).
  { apply Hlen. }
  { intros i Hi. apply subseteq_take in Hi.
    rewrite elem_of_reverse in Hi. by apply argsort_lt. }
  destruct (Hlabels top) as (Hnan & Hrow).
  { unfold Np.item in Htopd. destruct (classes_ m !! top_idx) eqn:Hl; [|done].
    injection Htopd as <-. by eapply list_elem_of_lookup_2. }
  destruct (best_recommendations_total (with_cache c1 σ) top (s0 :: l))
    as (recs & c2 & Hrec); [done..|].
  unfold mbind, M_bind, lift in Hcands |- *.
  rewrite Htop, Htopd, Hpi, Hcands, Hrec. by eexists _, _.
Qed.

End RFTotal.

(** ** Where the overlap engine departs from its sibling *)

Module OverlapMisses.
Import Overlap OverlapSpec OverlapFacts OverlapPrepare OverlapVocabulary.

(** Symptoms outside the vocabulary: the normalised input set is not
    empty, so the [unrecognized] branch is passed; no row overlaps, and
    the answer is [low_match] with score 0. *)
Lemma ov_predict_out_of_vocabulary d thr σ syms :
  init d thr = inr σ →
  (∃ s, s ∈ syms ∧ s ≠ EmptyString) →
  (∀ s, s ∈ syms → norm s ∉ available_symptoms σ) →
  ∃ c', predict syms σ =
          (inr (low_match_result 0 thr), with_cache c' σ).
Proof.
  intros Hinit (s0 & Hs0 & Hne0) Hout.
  destruct (init_run d thr) as (σ' & Hinit' & Hc & _ & Hthr & _ & _ & Hav).
  rewrite Hinit in Hinit'. injection Hinit' as <-.
  assert (Hne : syms ≠ []) by (intros ->; by inversion Hs0).
  assert (Hin : input_set syms ≠ ∅).
  { intros He. assert (Hmem : norm s0 ∈ input_set syms).
    { unfold input_set. apply elem_of_list_to_set, list_elem_of_fmap.
      exists s0. split; [done|]. apply list_elem_of_filter. split; [|done].
      by destruct s0. }
    rewrite He in Hmem. by apply not_elem_of_empty in Hmem. }
  assert (Hdis : ∀ r, r ∈ _compiled_rows σ → input_set syms ∩ symptoms r = ∅).
  { intros r Hr. apply leibniz_equiv. apply elem_of_equiv_empty. intros t Ht.
    apply elem_of_intersection in Ht as [Ht1 Ht2].
    unfold input_set in Ht1.
    apply elem_of_list_to_set, list_elem_of_fmap in Ht1 as (s & -> & Hs).
    apply list_elem_of_filter in Hs as [_ Hs].
    apply (Hout s Hs). rewrite Hav, elem_of_py_sorted, elem_of_all_symptoms.
    by exists r. }
  destruct (predict_run σ syms Hc Hne)
    as (c' & _ & _ & [[He _]|(_ & found & Hscan & Hrun)]); [done|].
  rewrite (scan_disjoint _ _ Hdis) in Hscan. injection Hscan as <-.
  exists c'. rewrite Hrun, Hthr. done.
Qed.

(** A blank symptom cell reaches [_split_cell] as the text of NaN and
    puts the token nan into the vocabulary. *)
Lemma ov_blank_cell_token :
  ∃ σ, init Demo.gappy_df default_min_threshold = inr σ ∧
       available_symptoms σ = ["cough"; "fatigue"; "fever"; "nan"].
Proof. eexists. split; by vm_compute. Qed.

End OverlapMisses.
(** ** The symptoms a row lists and the set compiled for it *)

Lemma iterrows_lookup d i row :
  rows d !! i = Some row → iterrows d !! i = Some (i, row).
Proof.
  intros Hrow. unfold iterrows. apply lookup_zip_with_Some.
  exists i, row. split_and!; [done| |done].
  apply lookup_seq. split; [done|]. by apply lookup_lt_Some in Hrow.
Qed.

Module OverlapListed.
Import Overlap OverlapSpec OverlapFacts OverlapPrepare.

Lemma elem_of_listed_symptoms cols row t :
  t ∈ listed_symptoms cols row ↔
  ∃ col, col ∈ cols ∧ t ∈ listed (row_get row col PNone).
Proof.
  unfold listed_symptoms. rewrite elem_of_list_to_set, list_elem_of_bind.
  naive_solver.
Qed.

(** The text [_prepare] hands to [_split_cell]: that of a cell holding
    text gives the tokens the cell lists, that of NaN the token nan, that
    of [None] the token none. *)
Lemma cell_text_tokens cell t :
  t ∈ cell_tokens (py_str cell) ↔
  t ∈ listed cell ∨ (cell = PNaN ∧ t = "nan") ∨ (cell = PNone ∧ t = "none").
Proof.
  destruct cell as [| |s]; simpl.
  - change (cell_tokens "None") with ["none"]. rewrite list_elem_of_singleton.
    split; [intros ->; by right; right|].
    intros [Hin|[[? _]|[_ ->]]]; [by inversion Hin|done..].
  - change (cell_tokens "nan") with ["nan"]. rewrite list_elem_of_singleton.
    split; [intros ->; by right; left|].
    intros [Hin|[[_ ->]|[? _]]]; [by inversion Hin|done..].
  - split; [by left|]. by intros [?|[[? _]|[? _]]].
Qed.

(** The set compiled for a row: what the row lists, and a token for each
    kind of missing cell among its symptom cells. *)
Lemma elem_of_row_symptoms_listed cols row t :
  t ∈ row_symptoms cols row ↔
  t ∈ listed_symptoms cols row ∨
  (t = "nan" ∧ ∃ col, col ∈ cols ∧ row_get row col PNone = PNaN) ∨
  (t = "none" ∧ ∃ col, col ∈ cols ∧ row_get row col PNone = PNone).
Proof.
  rewrite ov_elem_of_row_symptoms, elem_of_listed_symptoms. split.
  - intros (col & Hcol & [Ht|[[Hc ->]|[Hc ->]]]%cell_text_tokens).
    + left. by exists col.
    + right; left. split; [done|]. by exists col.
    + right; right. split; [done|]. by exists col.
  - intros [(col & Hcol & Ht)|[[-> (col & Hcol & Hc)]|[-> (col & Hcol & Hc)]]];
      exists col; (split; [done|]); apply cell_text_tokens.
    + by left.
    + right; left. done.
    + right; right. done.
Qed.

Lemma listed_subseteq cols row : listed_symptoms cols row ⊆ row_symptoms cols row.
Proof. intros t Ht. apply elem_of_row_symptoms_listed. by left. Qed.

(** With no symptom cell missing the compiled set is the listed one. *)
Lemma row_symptoms_filled cols row :
  filled cols row → row_symptoms cols row = listed_symptoms cols row.
Proof.
  intros Hf. apply set_eq. intros t. rewrite elem_of_row_symptoms_listed.
  split; [|by left].
  intros [?|[[_ (col & Hcol & Hc)]|[_ (col & Hcol & Hc)]]]; [done|..];
    destruct (Hf col Hcol) as [s Hs]; congruence.
Qed.

Lemma compiled_lookup d thr σ i row :
  init d thr = inr σ → rows d !! i = Some row →
  _compiled_rows σ !! i = Some (compiled (symptom_columns σ) (i, row)).
Proof.
  intros Hinit Hrow.
  destruct (init_run d thr) as (σ' & Hinit' & _ & _ & _ & _ & Hrows & _).
  rewrite Hinit in Hinit'. injection Hinit' as <-.
  rewrite Hrows at 1. by rewrite list_lookup_fmap, (iterrows_lookup _ _ _ Hrow).
Qed.

Lemma elem_of_dataset_symptoms d t :
  t ∈ dataset_symptoms d ↔
  ∃ row, row ∈ rows d ∧
    t ∈ listed_symptoms
          (filter (λ c, String.prefix "Symptom_" c) (columns d)) row.
Proof.
  unfold dataset_symptoms. rewrite elem_of_union_list. split.
  - intros (X & (row & -> & Hrow)%list_elem_of_fmap & Ht). by exists row.
  - intros (row & Hrow & Ht). eexists. split; [|done].
    apply list_elem_of_fmap. by exists row.
Qed.

(** The listed tokens, part by part. *)
Lemma elem_of_dataset_symptoms_parts d t :
  t ∈ dataset_symptoms d ↔
  t ≠ EmptyString ∧
  ∃ row col s p, row ∈ rows d ∧ col ∈ columns d ∧
    String.prefix "Symptom_" col = true ∧
    row_get row col PNone = PStr s ∧
    p ∈ Py.split ","%char s ∧ t = norm p.
Proof.
  rewrite elem_of_dataset_symptoms. split.
  - intros (row & Hrow & (col & Hcol & Ht)%elem_of_listed_symptoms).
    apply list_elem_of_filter in Hcol as [Hpre Hcol].
    destruct (row_get row col PNone) as [| |s] eqn:Hcell;
      [by inversion Ht..|].
    simpl in Ht. apply ov_elem_of_cell_tokens in Ht as (Hne & p & Hp & ->).
    split; [done|]. exists row, col, s, p. split_and!; try done.
    by apply Is_true_true.
  - intros (Hne & row & col & s & p & Hrow & Hcol & Hpre & Hcell & Hp & ->).
    exists row. split; [done|]. apply elem_of_listed_symptoms.
    exists col. split.
    + apply list_elem_of_filter. split; [by apply Is_true_true|done].
    + rewrite Hcell. simpl. apply ov_elem_of_cell_tokens. split; [done|].
      by exists p.
Qed.

(** The vocabulary: the listed tokens of the dataset, and a token for
    each kind of missing symptom cell in it. *)
Lemma elem_of_available_listed d thr σ t :
  init d thr = inr σ →
  t ∈ available_symptoms σ ↔
  t ∈ dataset_symptoms d ∨
  (t = "nan" ∧ ∃ row col, row ∈ rows d ∧ col ∈ symptom_columns σ ∧
                          row_get row col PNone = PNaN) ∨
  (t = "none" ∧ ∃ row col, row ∈ rows d ∧ col ∈ symptom_columns σ ∧
                           row_get row col PNone = PNone).
Proof.
  intros Hinit.
  destruct (init_run d thr) as (σ' & Hinit' & _ & _ & _ & Hcols & Hrows & Hav).
  rewrite Hinit in Hinit'. injection Hinit' as <-.
  rewrite Hav, elem_of_py_sorted, elem_of_all_symptoms, Hrows.
  rewrite elem_of_dataset_symptoms, <- Hcols. split.
  - intros (r & (ir & -> & Hir)%list_elem_of_fmap & Ht). simpl in Ht.
    apply elem_of_iterrows in Hir.
    apply elem_of_row_symptoms_listed in Ht
      as [Ht|[[-> (col & Hcol & Hc)]|[-> (col & Hcol & Hc)]]].
    + left. by exists ir.2.
    + right; left. split; [done|]. by exists ir.2, col.
    + right; right. split; [done|]. by exists ir.2, col.
  - intros Hcase.
    assert (∃ row, row ∈ rows d ∧ t ∈ row_symptoms (symptom_columns σ) row)
      as (row & Hrow & Ht).
    { destruct Hcase as [(row & Hrow & Ht)|
        [[-> (row & col & Hrow & Hcol & Hc)]|[-> (row & col & Hrow & Hcol & Hc)]]];
        exists row; (split; [done|]); apply elem_of_row_symptoms_listed.
      - by left.
      - right; left. split; [done|]. by exists col.
      - right; right. split; [done|]. by exists col. }
    apply elem_of_iterrows_rows in Hrow as (ir & Hir & <-).
    eexists. split; [apply list_elem_of_fmap; by exists ir|]. done.
Qed.

End OverlapListed.
(** ** What the calls write to the cache *)

Section memo_facts.

Lemma memo_lookup (c : gmap string string) s k :
  memo c s !! k =
    match c !! k with
    | Some v => Some v
    | None => if decide (k = s ∧ k ≠ EmptyString) then Some (norm_compute k) else None
    end.
Proof.
  unfold memo. destruct (Py.nonempty s) eqn:Hs.
  - destruct (c !! s) as [v|] eqn:Hcs.
    + destruct (c !! k) as [w|] eqn:Hck; [done|].
      rewrite decide_False; [done|]. intros [-> _]. congruence.
    + rewrite lookup_insert. case_decide as Hks.
      * subst k. rewrite Hcs. rewrite decide_True; [done|].
        split; [done|]. by intros ->.
      * destruct (c !! k); [done|]. rewrite decide_False; [done|].
        intros [-> _]. done.
  - destruct (c !! k); [done|]. rewrite decide_False; [done|].
    intros [-> Hne]. by destruct s.
Qed.

Lemma memos_lookup (c : gmap string string) l k :
  memos c l !! k =
    match c !! k with
    | Some v => Some v
    | None => if decide (k ∈ l ∧ k ≠ EmptyString) then Some (norm_compute k) else None
    end.
Proof.
  unfold memos. revert c. induction l as [|s l IH]; intros c; cbn [foldl].
  - destruct (c !! k); [done|].
    destruct (decide (k ∈ [] ∧ k ≠ EmptyString)) as [[H _]|_]; [by inversion H|done].
  - rewrite IH, memo_lookup. destruct (c !! k) as [v|]; [done|].
    destruct (decide (k = s ∧ k ≠ EmptyString)) as [[-> Hne]|Hn].
    + rewrite decide_True; [done|]. split; [by left|done].
    + destruct (decide (k ∈ l ∧ k ≠ EmptyString)) as [[Hin Hne]|Hn'].
      * rewrite decide_True; [done|]. split; [by right|done].
      * rewrite decide_False; [done|]. intros [[->|Hin]%elem_of_cons Hne]; tauto.
Qed.

Lemma memos_lookup_norm (c : gmap string string) l k :
  memos c l !! k =
    match c !! k with
    | Some v => Some v
    | None => if decide (k ∈ l ∧ k ≠ EmptyString) then Some (norm k) else None
    end.
Proof.
  rewrite memos_lookup. destruct (c !! k); [done|].
  case_decide as Hk; [|done]. destruct Hk as [_ Hk]. by destruct k.
Qed.

Lemma memos_app (c : gmap string string) l1 l2 :
  memos c (l1 ++ l2) = memos (memos c l1) l2.
Proof. unfold memos. by rewrite foldl_app. Qed.

(** Strings that were already looked up leave the cache as it is. *)
Lemma memos_absorb (c : gmap string string) l l' :
  (∀ k, k ∈ l' → k ≠ EmptyString → k ∈ l) → memos (memos c l) l' = memos c l.
Proof.
  intros Hsub. apply map_eq. intros k. rewrite (memos_lookup (memos c l) l').
  destruct (memos c l !! k) as [v|] eqn:Hk; [done|].
  rewrite decide_False; [done|]. intros [Hin Hne].
  rewrite memos_lookup in Hk. destruct (c !! k); [done|].
  rewrite decide_True in Hk; [done|]. split; [by apply Hsub|done].
Qed.

Lemma memos_filter (c : gmap string string) l :
  memos c (filter (λ s, Py.nonempty s) l) = memos c l.
Proof.
  apply map_eq. intros k. rewrite !memos_lookup. destruct (c !! k); [done|].
  destruct (decide (k ∈ l ∧ k ≠ EmptyString)) as [[Hin Hne]|Hn].
  - rewrite decide_True; [done|]. split; [|done].
    apply list_elem_of_filter. split; [|done]. by destruct k.
  - rewrite decide_False; [done|]. intros [[_ Hin]%list_elem_of_filter Hne]. tauto.
Qed.

End memo_facts.

Module OverlapCache.
Import Overlap OverlapSpec OverlapFacts OverlapCalls.

(** The object after [predict]: each raw symptom has been looked up. *)
Lemma ov_predict_state σ symptoms :
  cache_ok (get_cache σ) →
  (predict symptoms σ).2 = with_cache (memos (_normalize_cache σ) symptoms) σ.
Proof.
  intros Hc. destruct symptoms as [|s0 l]; [by destruct σ|].
  pose proof (mapM_norm_run (filter (λ s, Py.nonempty s) (s0 :: l)) σ Hc) as Hrun.
  rewrite memos_filter in Hrun.
  unfold predict, _norm. rewrite (bind_run _ _ _ _ _ Hrun).
  case_decide; [done|].
  unfold mbind, M_bind, gets, lift; simpl.
  destruct (scan _ _) as [e|found]; [done|].
  destruct found.1; [destruct (Qltb _ _)|]; done.
Qed.

Lemma ov_run_call_state title c σ :
  cache_ok (get_cache σ) →
  (run_call title c σ).2 = with_cache (memos (_normalize_cache σ) (raw_symptoms c)) σ.
Proof.
  intros Hc. destruct c as [l|]; simpl.
  - pose proof (ov_predict_state σ l Hc) as Hst.
    unfold mbind, M_bind. destruct (predict l σ) as [[e|r] σ1]; simpl in *; by subst.
  - by destruct σ.
Qed.

Lemma ov_run_all_state title calls σ :
  cache_ok (get_cache σ) →
  run_all (run_call title <$> calls) σ =
    with_cache (memos (_normalize_cache σ) (concat (raw_symptoms <$> calls))) σ.
Proof.
  revert σ. induction calls as [|c calls IH]; intros σ Hc; simpl.
  - by destruct σ.
  - rewrite (ov_run_call_state title c σ Hc). rewrite IH.
    + simpl. by rewrite memos_app.
    + simpl. by apply memos_ok.
Qed.

End OverlapCache.

Module RFCache.
Import RF RFSpec RFFacts RFPrepare RFCalls RFVocabulary.

(** The loop of [_vectorize] looks the raw symptoms up one after the
    other, and stops at the one that raises, if any. *)
Lemma vectorize_loop_state l vec σ :
  cache_ok (get_cache σ) →
  ∃ l', l' `prefix_of` l ∧
    (foldM vectorize_step vec l σ).2 = with_cache (memos (_normalize_cache σ) l') σ ∧
    (∀ v, (foldM vectorize_step vec l σ).1 = inr v → l' = l).
Proof.
  revert vec σ. induction l as [|s l IH]; intros vec σ Hc.
  - exists []. split_and!; [done|by destruct σ|done].
  - cbn [foldM]. unfold mbind at 1 2, M_bind at 1 2.
    rewrite vectorize_step_run by done.
    assert (Hc1 : cache_ok (memo (get_cache σ) s)) by (by apply memo_ok).
    destruct (vec_step (symptom_index σ) vec (norm s)) as [e|vec'].
    + exists [s]. split_and!; [by apply prefix_cons, prefix_nil|done|done].
    + destruct (IH vec' (with_cache (memo (get_cache σ) s) σ))
        as (l' & Hpre & Hst & Hall); [done|].
      exists (s :: l'). split_and!; [by apply prefix_cons|by rewrite Hst|].
      intros v Hv. f_equal. by eapply Hall.
Qed.

Lemma vectorize_state l σ :
  cache_ok (get_cache σ) →
  ∃ l', l' `prefix_of` l ∧
    (_vectorize l σ).2 = with_cache (memos (_normalize_cache σ) l') σ ∧
    (∀ v, (_vectorize l σ).1 = inr v → l' = l).
Proof.
  intros Hc. unfold _vectorize, mbind, M_bind, gets. simpl.
  apply (vectorize_loop_state l _ σ Hc).
Qed.

Lemma best_recommendations_state disease l σ :
  cache_ok (get_cache σ) →
  (_best_recommendations disease l σ).2 =
    with_cache (memos (_normalize_cache σ) l) σ.
Proof.
  intros Hc.
  pose proof (mapM_norm_run (filter (λ s, Py.nonempty s) l) σ Hc) as Hrun.
  rewrite memos_filter in Hrun.
  unfold _best_recommendations, _norm. rewrite (bind_run _ _ _ _ _ Hrun).
  unfold mbind, M_bind, gets, lift; simpl.
  destruct (fold_res _ _ _) as [e|found]; [done|].
  destruct found.1; [done|]. by case_bool_decide.
Qed.

(** The object after [predict]. *)
Lemma rf_predict_state σ symptoms :
  cache_ok (get_cache σ) →
  ∃ l', l' `prefix_of` symptoms ∧
    (predict symptoms σ).2 = with_cache (memos (_normalize_cache σ) l') σ ∧
    (wf σ → l' = symptoms).
Proof.
  intros Hc. destruct symptoms as [|s0 l].
  { exists []. split_and!; [done|by destruct σ|done]. }
  unfold predict. unfold mbind at 1, M_bind at 1, gets at 1.
  destruct (model σ) as [m|] eqn:Hm.
  2:{ exists []. split_and!; [apply prefix_nil|by destruct σ|].
      intros (_ & _ & _ & [? Hs]). congruence. }
  destruct (vectorize_state (s0 :: l) σ Hc) as (l' & Hpre & Hst & Hall).
  unfold mbind at 1, M_bind at 1.
  destruct (_vectorize (s0 :: l) σ) as [[e|vec] σ1] eqn:Hv; simpl in Hst, Hall.
  { exists l'. split_and!; [done|done|]. intros Hwf.
    destruct (vectorize_total σ (s0 :: l) Hwf) as (vec & c' & Hrun & _).
    congruence. }
  specialize (Hall vec eq_refl). subst l' σ1.
  exists (s0 :: l). split_and!; [done| |done].
  case_decide; [done|].
  unfold mbind at 1, M_bind at 1, lift at 1.
  destruct (Np.argmax _) as [e|top_idx]; [done|].
  unfold mbind at 1, M_bind at 1, lift at 1.
  destruct (Np.item (classes_ m) top_idx) as [e|top_disease]; [done|].
  unfold mbind at 1, M_bind at 1, lift at 1.
  destruct (Np.item (predict_proba m vec) top_idx) as [e|p]; [done|].
  unfold mbind at 1, M_bind at 1, lift at 1.
  destruct (fold_res _ _ _) as [e|cands]; [done|].
  unfold mbind at 1, M_bind at 1.
  pose proof (best_recommendations_state top_disease (s0 :: l)
    (with_cache (memos (_normalize_cache σ) (s0 :: l)) σ)) as Hb.
  assert (Hok : cache_ok (memos (_normalize_cache σ) (s0 :: l)))
    by (by apply memos_ok).
  specialize (Hb Hok).
  change (_normalize_cache (with_cache ?c σ)) with c in Hb.
  rewrite memos_absorb in Hb by done.
  destruct (_best_recommendations _ _ _) as [[e|recs] σ2]; cbn [snd] in Hb |- *;
    by rewrite Hb.
Qed.

Lemma wf_with_cache c σ : wf σ → cache_ok c → wf (with_cache c σ).
Proof. intros (_ & ? & ? & ?) Hc. by split_and!. Qed.

Lemma rf_run_call_state title c σ :
  cache_ok (get_cache σ) →
  ∃ l', l' `prefix_of` raw_symptoms c ∧
    (run_call title c σ).2 = with_cache (memos (_normalize_cache σ) l') σ ∧
    (wf σ → l' = raw_symptoms c).
Proof.
  intros Hc. destruct c as [l|]; simpl.
  - destruct (rf_predict_state σ l Hc) as (l' & Hpre & Hst & Hall).
    exists l'. split_and!; [done| |done].
    unfold mbind, M_bind. destruct (predict l σ) as [[e|r] σ1]; simpl in *; by subst.
  - exists []. split_and!; [done|by destruct σ|done].
Qed.

Lemma rf_run_all_state title calls σ :
  cache_ok (get_cache σ) →
  ∃ touched,
    (∀ k, k ∈ touched → k ∈ concat (raw_symptoms <$> calls)) ∧
    run_all (run_call title <$> calls) σ =
      with_cache (memos (_normalize_cache σ) touched) σ ∧
    (wf σ → touched = concat (raw_symptoms <$> calls)).
Proof.
  revert σ. induction calls as [|c calls IH]; intros σ Hc.
  - exists []. split_and!; [done|by destruct σ|done].
  - rewrite !fmap_cons. cbn [run_all concat].
    destruct (rf_run_call_state title c σ Hc) as (l' & Hpre & Hst & Hall).
    rewrite Hst.
    assert (Hok : cache_ok (memos (_normalize_cache σ) l')) by by apply memos_ok.
    destruct (IH (with_cache (memos (_normalize_cache σ) l') σ) Hok)
      as (touched & Hin & Hrun & Hwf).
    change (_normalize_cache (with_cache ?c σ)) with c in Hrun.
    exists (l' ++ touched). split_and!.
    + intros k [Hk|Hk]%elem_of_app; apply elem_of_app.
      * left. destruct Hpre as [rest ->]. apply elem_of_app. by left.
      * right. by apply Hin.
    + rewrite Hrun. by rewrite memos_app.
    + intros Hw. rewrite (Hall Hw). f_equal. apply Hwf.
      by apply wf_with_cache.
Qed.

End RFCache.

(** * The numbered properties of the specification *)

(** C1, at the input where the two engines part.  On the two-disease
    dataset the symptom "headache" is in neither vocabulary.  The
    random-forest engine answers [unrecognized]; the overlap engine, whose
    test for that answer looks only at whether the normalised input set is
    empty, scores the rows, finds no overlap and answers [low_match]. *)
Theorem C1_out_of_vocabulary_status :
  (∃ σ r σ',
     Overlap.init Demo.overlap_df Overlap.default_min_threshold = inr σ ∧
     (norm "headache" ∉ Overlap.available_symptoms σ) ∧
     Overlap.predict ["headache"] σ = (inr r, σ') ∧
     Overlap.status r = "low_match" ∧ Overlap.confidence r == 0) ∧
  (∃ σ r σ',
     RF.init Demo.fit Demo.rf_df = inr σ ∧
     (norm "headache" ∉ RF.symptom_vocab σ) ∧
     RF.predict ["headache"] σ = (inr r, σ') ∧
     RF.status r = "unrecognized").
Proof.
  split.
  - exists Demo.overlap_engine,
      (Overlap.low_match_result 0 Overlap.default_min_threshold),
      (Overlap.predict ["headache"] Demo.overlap_engine).2.
    split_and!.
    + vm_compute. reflexivity.
    + vm_compute. intros Hin. by repeat (apply elem_of_cons in Hin as [Hin|Hin]; [done|]); inversion Hin.
    + vm_compute. reflexivity.
    + reflexivity.
    + reflexivity.
  - exists Demo.rf_engine, RF.unrecognized_result,
      (RF.predict ["headache"] Demo.rf_engine).2.
    split_and!.
    + vm_compute. reflexivity.
    + vm_compute. intros Hin. by repeat (apply elem_of_cons in Hin as [Hin|Hin]; [done|]); inversion Hin.
    + vm_compute. reflexivity.
    + reflexivity.
Qed.

(** C2, as the code has it.  After any sequence of [predict] and
    [get_available_symptoms] calls on an engine whose cache is a memo
    table (as [__init__] leaves it), the engine is the one before the
    calls but for its normalisation cache: frame, columns, rows or row
    sets, vocabulary, index, model and settings are unchanged, and any
    call answers after the sequence what it would have answered before
    it.  The cache afterwards is the cache before with one entry more,
    raw string to normalised token, for each non-empty raw symptom that
    the calls of [predict] were given and the cache did not hold: the
    entries it held are kept, and no other key is added.  For the
    random-forest engine this is so once the model is trained, as
    [__init__] leaves it; in general its calls write the entries of some
    of those strings. *)
Theorem C2_calls_only_extend_cache (title : string → string) :
  (∀ (σ : Overlap.Engine) (calls : list Overlap.Call) (c : Overlap.Call),
     cache_ok (get_cache σ) →
     let σ' := run_all (Overlap.run_call title <$> calls) σ in
     let given := concat (OverlapSpec.raw_symptoms <$> calls) in
     let cache' := memos (Overlap._normalize_cache σ) given in
     σ' = Overlap.with_cache cache' σ ∧
     Overlap._normalize_cache σ ⊆ cache' ∧ cache_ok cache' ∧
     (∀ k, cache' !! k =
        match Overlap._normalize_cache σ !! k with
        | Some v => Some v
        | None => if decide (k ∈ given ∧ k ≠ EmptyString)
                  then Some (norm k) else None
        end) ∧
     Overlap.df σ' = Overlap.df σ ∧
     Overlap.min_threshold σ' = Overlap.min_threshold σ ∧
     Overlap.symptom_columns σ' = Overlap.symptom_columns σ ∧
     Overlap._compiled_rows σ' = Overlap._compiled_rows σ ∧
     Overlap.available_symptoms σ' = Overlap.available_symptoms σ ∧
     (Overlap.run_call title c σ').1 = (Overlap.run_call title c σ).1) ∧
  (∀ (σ : RF.Engine) (calls : list RF.Call) (c : RF.Call),
     cache_ok (get_cache σ) →
     let σ' := run_all (RF.run_call title <$> calls) σ in
     let given := concat (RFSpec.raw_symptoms <$> calls) in
     (∃ touched,
        let cache' := memos (RF._normalize_cache σ) touched in
        (∀ k, k ∈ touched → k ∈ given) ∧
        (RFSpec.wf σ → touched = given) ∧
        σ' = RF.with_cache cache' σ ∧
        RF._normalize_cache σ ⊆ cache' ∧ cache_ok cache' ∧
        (∀ k, cache' !! k =
           match RF._normalize_cache σ !! k with
           | Some v => Some v
           | None => if decide (k ∈ touched ∧ k ≠ EmptyString)
                     then Some (norm k) else None
           end)) ∧
     RF.df σ' = RF.df σ ∧
     RF.n_estimators σ' = RF.n_estimators σ ∧
     RF.random_state σ' = RF.random_state σ ∧
     RF.symptom_columns σ' = RF.symptom_columns σ ∧
     RF.symptom_vocab σ' = RF.symptom_vocab σ ∧
     RF.symptom_index σ' = RF.symptom_index σ ∧
     RF.model σ' = RF.model σ ∧
     RF._row_symptom_sets σ' = RF._row_symptom_sets σ ∧
     (RF.run_call title c σ').1 = (RF.run_call title c σ).1) ∧
  (∀ d thr σ, Overlap.init d thr = inr σ → cache_ok (get_cache σ)) ∧
  (∀ fit d σ, RF.init fit d = inr σ →
     cache_ok (get_cache σ) ∧ RFSpec.wf σ).
Proof.
  split_and!.
  - intros σ calls c Hc σ' given cache'.
    assert (Hst : Forall stable (Overlap.run_call title <$> calls)).
    { apply Forall_fmap, Forall_forall. intros c' _. apply ov_run_call_stable. }
    pose proof (OverlapCache.ov_run_all_state title calls σ Hc) as Heq.
    fold σ' given cache' in Heq.
    assert (Hlook : ∀ k, cache' !! k =
        match Overlap._normalize_cache σ !! k with
        | Some v => Some v
        | None => if decide (k ∈ given ∧ k ≠ EmptyString)
                  then Some (norm k) else None
        end) by apply memos_lookup_norm.
    split_and!; try (by rewrite Heq).
    + apply map_subseteq_spec. intros k v Hk. by rewrite Hlook, Hk.
    + by apply memos_ok.
    + done.
    + apply stable_after; [done|apply ov_run_call_stable|done].
  - intros σ calls c Hc σ' given.
    assert (Hst : Forall stable (RF.run_call title <$> calls)).
    { apply Forall_fmap, Forall_forall. intros c' _. apply rf_run_call_stable. }
    destruct (RFCache.rf_run_all_state title calls σ Hc)
      as (touched & Hin & Heq & Hwf).
    fold σ' in Heq.
    assert (Hlook : ∀ k, memos (RF._normalize_cache σ) touched !! k =
        match RF._normalize_cache σ !! k with
        | Some v => Some v
        | None => if decide (k ∈ touched ∧ k ≠ EmptyString)
                  then Some (norm k) else None
        end) by apply memos_lookup_norm.
    split_and!; try (by rewrite Heq).
    + exists touched. cbv zeta. split_and!; try done.
      * apply map_subseteq_spec. intros k v Hk. by rewrite Hlook, Hk.
      * by apply memos_ok.
    + apply stable_after; [done|apply rf_run_call_stable|done].
  - intros d thr σ Hinit.
    destruct (OverlapPrepare.init_run d thr) as (σ0 & Hinit' & Hc & _).
    rewrite Hinit in Hinit'. by injection Hinit' as <-.
  - intros fit d σ Hinit. pose proof (RFCalls.init_wf _ _ _ Hinit) as Hwf.
    split; [apply Hwf|done].
Qed.

Lemma C2_witness :
  let σ' := run_all (Overlap.run_call Demo.title <$>
              [Overlap.CallPredict ["Chills"];
               Overlap.CallGetAvailableSymptoms]) Demo.overlap_engine in
  Overlap._normalize_cache Demo.overlap_engine !! "Chills" = None ∧
  Overlap._normalize_cache σ' !! "Chills" = Some "chills" ∧
  Overlap._compiled_rows σ' = Overlap._compiled_rows Demo.overlap_engine ∧
  Overlap.available_symptoms σ' = Overlap.available_symptoms Demo.overlap_engine ∧
  (Overlap.run_call Demo.title (Overlap.CallPredict ["cough"]) σ').1 =
  (Overlap.run_call Demo.title (Overlap.CallPredict ["cough"])
     Demo.overlap_engine).1.
Proof.
  assert (Hok : cache_ok (get_cache Demo.overlap_engine)) by by compute_done.
  destruct (C2_calls_only_extend_cache Demo.title) as (Hov & _ & _ & _).
  destruct (Hov Demo.overlap_engine
    [Overlap.CallPredict ["Chills"]; Overlap.CallGetAvailableSymptoms]
    (Overlap.CallPredict ["cough"]) Hok)
    as (Heq & _ & _ & Hlook & _ & _ & _ & Hrows & Hav & Hres).
  split; [vm_compute; reflexivity|].
  split; [|split; [exact Hrows|split; [exact Hav|exact Hres]]].
  cbv zeta. rewrite Heq.
  exact (eq_trans (Hlook "Chills") ltac:(vm_compute; reflexivity)).
Defined.

(** C2 as stated fails: a call of [predict] with a raw symptom the cache
    has not seen writes it to [_normalize_cache]. *)
Lemma C2_counterexample :
  Overlap.init Demo.overlap_df Overlap.default_min_threshold
    = inr Demo.overlap_engine ∧
  (Overlap.predict ["Chills"] Demo.overlap_engine).2 ≠ Demo.overlap_engine ∧
  Overlap._normalize_cache Demo.overlap_engine !! "Chills" = None ∧
  Overlap._normalize_cache
    (Overlap.predict ["Chills"] Demo.overlap_engine).2 !! "Chills"
    = Some "chills" ∧
  RF.init Demo.fit Demo.rf_df = inr Demo.rf_engine ∧
  (RF.predict ["Chills"] Demo.rf_engine).2 ≠ Demo.rf_engine.
Proof.
  split_and!.
  - by vm_compute.
  - intros Heq.
    apply (f_equal (λ σ, Overlap._normalize_cache σ !! "Chills")) in Heq.
    by vm_compute in Heq.
  - by vm_compute.
  - by vm_compute.
  - by vm_compute.
  - intros Heq.
    apply (f_equal (λ σ, RF._normalize_cache σ !! "Chills")) in Heq.
    by vm_compute in Heq.
Qed.

(** C3.  [_norm] gives the empty string for the empty string, for [None]
    and for NaN, without touching the object.  In the random-forest
    engine [_split_cell] drops a missing cell ([None], NaN, the empty
    string) and every comma-separated part of a cell that is empty or
    reads nan once trimmed, in any letter case, so no token comes from
    them; after initialisation of either engine the empty string is not in
    the vocabulary, and in the random-forest engine it has no index and a
    list of symptoms that all normalise to it leaves the presence vector
    at zero.  On the dataset with a blank symptom cell the random-forest
    vocabulary has no token for the blank.  The overlap engine built from
    the same rows has one: [_prepare] hands [_split_cell] the text of the
    cell, NaN arrives as the string nan, which the tests for a missing
    value let through, and nan is in the symptoms of the row and in the
    vocabulary. *)
Theorem C3_empty_token_excluded :
  norm EmptyString = EmptyString ∧
  (∀ σ v, v = PStr EmptyString ∨ v = PNone ∨ v = PNaN →
     Overlap._norm v σ = (inr EmptyString, σ)) ∧
  (∀ σ v, v = PStr EmptyString ∨ v = PNone ∨ v = PNaN →
     RF._norm v σ = (inr EmptyString, σ)) ∧
  (∀ σ cell, cell = PNone ∨ cell = PNaN ∨ cell = PStr EmptyString →
     RF._split_cell cell σ = (inr [], σ)) ∧
  (∀ σ cell, cache_ok (get_cache σ) →
     ∃ c', RF._split_cell cell σ =
             (inr (RFSpec.cell_tokens cell), RF.with_cache c' σ)) ∧
  (∀ cell t, t ∈ RFSpec.cell_tokens cell ↔
     ∃ s p, cell = PStr s ∧ p ∈ Py.split ","%char s ∧
            RF.keeps (Py.strip p) = true ∧ t = norm (Py.strip p)) ∧
  (∀ p, RF.keeps p = true ↔ p ≠ EmptyString ∧ Py.lower p ≠ "nan") ∧
  (∀ d thr σ, Overlap.init d thr = inr σ →
     EmptyString ∉ Overlap.available_symptoms σ) ∧
  (∀ fit d σ, RF.init fit d = inr σ →
     (EmptyString ∉ RF.symptom_vocab σ) ∧
     RF.symptom_index σ !! EmptyString = None ∧
     ∀ l, (∀ s, s ∈ l → norm s = EmptyString) →
       ∃ c', RF._vectorize l σ =
               (inr (Np.zeros (length (RF.symptom_vocab σ))),
                RF.with_cache c' σ)) ∧
  (RF.init Demo.fit Demo.rf_gappy_df = inr Demo.rf_gappy_engine ∧
   rows Demo.rf_gappy_df !! 1 =
     Some (<["Symptom 2" := PNaN]> (Demo.rf_row "Cold" "cough" "x")) ∧
   RF._row_symptom_sets Demo.rf_gappy_engine !! 1 = Some {["cough"]} ∧
   RF.symptom_vocab Demo.rf_gappy_engine = ["cough"; "fatigue"; "fever"]) ∧
  (Overlap.init Demo.gappy_df Overlap.default_min_threshold
     = inr Demo.gappy_engine ∧
   rows Demo.gappy_df !! 1 =
     Some (<["Symptom_2" := PNaN]> (Demo.overlap_row "Cold" "cough" "x")) ∧
   py_str PNaN = "nan" ∧
   (Overlap._split_cell (py_str PNaN) Demo.gappy_engine).1 = inr ["nan"] ∧
   Overlap.symptoms <$> Overlap._compiled_rows Demo.gappy_engine !! 1
     = Some {["cough"; "nan"]} ∧
   Overlap.available_symptoms Demo.gappy_engine
     = ["cough"; "fatigue"; "fever"; "nan"]).
Proof.
  split_and!.
  - done.
  - by intros σ v [-> | [-> | ->]].
  - by intros σ v [-> | [-> | ->]].
  - intros σ cell [-> | [-> | ->]]; by apply RFMissing.split_cell_absent.
  - intros σ cell Hc.
    destruct (RFPrepare.rf_split_cell_computes cell σ Hc) as (c' & Hrun & _).
    by exists c'.
  - apply RFVocabulary.rf_elem_of_cell_tokens.
  - intros p. unfold RF.keeps. rewrite andb_true_iff, negb_true_iff.
    assert (Py.nonempty p = true ↔ p ≠ EmptyString) as -> by (by destruct p).
    by rewrite String.eqb_neq.
  - intros d thr σ Hinit Hin.
    by apply (OverlapVocabulary.elem_of_available d thr σ) in Hin as [? _].
  - intros fit d σ Hinit.
    pose proof (RFMissing.empty_not_in_vocab fit d σ Hinit) as Hnot.
    split_and!; [done| |].
    + apply RFCalls.wf_index_none; [by eapply RFCalls.init_wf|done].
    + intros l Hl. by eapply RFMissing.vectorize_empty_tokens.
  - vm_compute. reflexivity.
  - reflexivity.
  - vm_compute. reflexivity.
  - vm_compute. reflexivity.
  - vm_compute. reflexivity.
  - reflexivity.
  - reflexivity.
  - vm_compute. reflexivity.
  - vm_compute. reflexivity.
  - vm_compute. reflexivity.
Qed.

Lemma C3_witness :
  RF._split_cell (PStr "cough, NaN ,") Demo.rf_engine
    = (inr ["cough"], Demo.rf_engine) ∧
  (EmptyString ∉ RF.symptom_vocab Demo.rf_engine) ∧
  ∃ c', RF._vectorize [EmptyString; " _ "] Demo.rf_engine =
          (inr (Np.zeros (length (RF.symptom_vocab Demo.rf_engine))),
           RF.with_cache c' Demo.rf_engine).
Proof.
  assert (Hok : cache_ok (get_cache Demo.rf_engine)) by by compute_done.
  assert (Hinit : RF.init Demo.fit Demo.rf_df = inr Demo.rf_engine)
    by (vm_compute; reflexivity).
  destruct C3_empty_token_excluded
    as (_ & _ & _ & _ & Hsplit & _ & _ & _ & Hrf & _).
  destruct (Hrf Demo.fit Demo.rf_df Demo.rf_engine Hinit) as (Hnot & _ & Hvec).
  destruct (Hsplit Demo.rf_engine (PStr "cough, NaN ,") Hok) as (c' & Hrun).
  split; [|split; [exact Hnot|]].
  - vm_compute. reflexivity.
  - apply Hvec. intros s Hs.
    repeat (apply elem_of_cons in Hs as [->|Hs]; [by vm_compute|]).
    by inversion Hs.
Defined.

(** C4: the score the overlap scorer computes for a row.  The loop never
    fails to divide; it skips exactly the rows that share no symptom with
    the input; every score it computes lies between 0 and 1.  For a row
    of the dataset none of whose symptom cells is missing, the set
    compiled at initialisation is the set of symptoms the row lists, and
    an input whose normalised set, which [predict] has checked to be
    non-empty before the loop, is that set scores 1 on the row:
    intersection and union coincide, and the best score of the loop
    is 1.  For a row with a blank symptom cell the compiled set also
    holds the token nan, from the text of the blank cell: on the dataset
    whose second row lists cough alone and leaves its second symptom
    blank, the input cough scores one half on that row, and [predict]
    reports a confidence of 50. *)
Theorem C4_jaccard_score :
  (∀ (symptoms : list string) (r : Overlap.CompiledRow),
     let input_norm := OverlapSpec.input_set symptoms in
     (∃ o, Overlap.row_score input_norm r = inr o ∧
           (o = None ↔ input_norm ∩ Overlap.symptoms r = ∅)) ∧
     (∀ inter sc, Overlap.row_score input_norm r = inr (Some (inter, sc)) →
        (0 <= sc <= 1)%Q)) ∧
  (∀ d thr σ i row, Overlap.init d thr = inr σ → rows d !! i = Some row →
     ∃ r, Overlap._compiled_rows σ !! i = Some r ∧
          OverlapSpec.listed_symptoms (Overlap.symptom_columns σ) row
            ⊆ Overlap.symptoms r ∧
          (OverlapSpec.filled (Overlap.symptom_columns σ) row →
           Overlap.symptoms r =
             OverlapSpec.listed_symptoms (Overlap.symptom_columns σ) row)) ∧
  (∀ d thr σ i row (symptoms : list string),
     let input_norm := OverlapSpec.input_set symptoms in
     Overlap.init d thr = inr σ → rows d !! i = Some row →
     OverlapSpec.filled (Overlap.symptom_columns σ) row →
     input_norm ≠ ∅ →
     input_norm = OverlapSpec.listed_symptoms (Overlap.symptom_columns σ) row →
     ∃ r sc found,
       Overlap._compiled_rows σ !! i = Some r ∧
       Overlap.row_score input_norm r = inr (Some (input_norm, sc)) ∧
       sc == 1 ∧
       input_norm ∩ Overlap.symptoms r = input_norm ∪ Overlap.symptoms r ∧
       Overlap.scan input_norm (Overlap._compiled_rows σ) = inr found ∧
       found.2 == 1) ∧
  (let σ := Demo.gappy_engine in
   let row := <["Symptom_2" := PNaN]> (Demo.overlap_row "Cold" "cough" "x") in
   Overlap.init Demo.gappy_df Overlap.default_min_threshold = inr σ ∧
   rows Demo.gappy_df !! 1 = Some row ∧
   OverlapSpec.listed_symptoms (Overlap.symptom_columns σ) row
     = OverlapSpec.input_set ["cough"] ∧
   ∃ r inter sc res,
     Overlap._compiled_rows σ !! 1 = Some r ∧
     Overlap.symptoms r = {["cough"; "nan"]} ∧
     Overlap.row_score (OverlapSpec.input_set ["cough"]) r
       = inr (Some (inter, sc)) ∧
     sc == 1 # 2 ∧
     (Overlap.predict ["cough"] σ).1 = inr res ∧
     Overlap.predicted_disease res = PStr "Cold" ∧
     Overlap.confidence res == 50).
Proof.
  split_and!.
  - intros symptoms r input_norm. rewrite OverlapFacts.row_score_run. split.
    + eexists. split; [done|]. case_decide; naive_solver.
    + intros inter sc. case_decide; [done|]. intros [= _ <-].
      apply OverlapFacts.jaccard_range.
  - intros d thr σ i row Hinit Hrow.
    eexists. split; [by eapply OverlapListed.compiled_lookup|]. simpl. split.
    + apply OverlapListed.listed_subseteq.
    + apply OverlapListed.row_symptoms_filled.
  - intros d thr σ i row symptoms input_norm Hinit Hrow Hf Hne Heq.
    pose proof (OverlapListed.compiled_lookup d thr σ i row Hinit Hrow) as Hr.
    set (r := OverlapSpec.compiled (Overlap.symptom_columns σ) (i, row)) in Hr.
    assert (Hsym : input_norm = Overlap.symptoms r).
    { rewrite Heq. symmetry. by apply OverlapListed.row_symptoms_filled. }
    destruct (OverlapFacts.scan_exact input_norm (Overlap._compiled_rows σ) r)
      as (found & Hscan & Hone); [by eapply list_elem_of_lookup_2|done..|].
    exists r, (OverlapSpec.jaccard input_norm (Overlap.symptoms r)), found.
    split_and!; [done| | | |done..].
    + rewrite OverlapFacts.row_score_run, <- Hsym.
      replace (input_norm ∩ input_norm) with input_norm by set_solver.
      by rewrite decide_False.
    + rewrite <- Hsym. by apply OverlapFacts.jaccard_same.
    + rewrite <- Hsym. set_solver.
  - cbv zeta. split_and!; [vm_compute; reflexivity|done|by vm_compute|].
    eexists _, _, _, _. split_and!;
      [vm_compute; reflexivity|by vm_compute|vm_compute; reflexivity|done
      |vm_compute; reflexivity|done|by vm_compute].
Qed.

Lemma C4_witness :
  ∃ r sc, Overlap._compiled_rows Demo.overlap_engine !! 1 = Some r ∧
          Overlap.row_score (OverlapSpec.input_set ["Cough"; " sneezing"]) r
            = inr (Some (OverlapSpec.input_set ["Cough"; " sneezing"], sc)) ∧
          sc == 1.
Proof.
  assert (Hinit : Overlap.init Demo.overlap_df Overlap.default_min_threshold
                  = inr Demo.overlap_engine) by (vm_compute; reflexivity).
  assert (Hrow : rows Demo.overlap_df !! 1
                 = Some (Demo.overlap_row "Cold" "cough" "Sneezing")) by done.
  assert (Hf : OverlapSpec.filled (Overlap.symptom_columns Demo.overlap_engine)
                 (Demo.overlap_row "Cold" "cough" "Sneezing")).
  { intros col Hcol. change (col ∈ ["Symptom_1"; "Symptom_2"]) in Hcol.
    apply elem_of_cons in Hcol as [->|Hcol]; [by eexists|].
    apply list_elem_of_singleton in Hcol as ->. by eexists. }
  assert (Hne : OverlapSpec.input_set ["Cough"; " sneezing"] ≠ ∅)
    by by compute_done.
  assert (Heq : OverlapSpec.input_set ["Cough"; " sneezing"] =
                OverlapSpec.listed_symptoms
                  (Overlap.symptom_columns Demo.overlap_engine)
                  (Demo.overlap_row "Cold" "cough" "Sneezing"))
    by by compute_done.
  destruct C4_jaccard_score as (_ & _ & Hexact & _).
  destruct (Hexact Demo.overlap_df Overlap.default_min_threshold
    Demo.overlap_engine 1 (Demo.overlap_row "Cold" "cough" "Sneezing")
    ["Cough"; " sneezing"] Hinit Hrow Hf Hne Heq)
    as (r & sc & found & Hr & Hsc & Hone & _).
  exists r, sc. split; [exact Hr|]. split; [exact Hsc|exact Hone].
Defined.

(** C5: an input that reaches the scoring loop of the overlap engine and
    whose best per-row Jaccard score is below the threshold gets status
    [low_match], never [success], and the result carries that best score
    raw in its debug entry and, as its confidence, the score times 100 as
    a float, rounded to one decimal. *)
Theorem C5_low_match_below_threshold (σ : Overlap.Engine)
    (symptoms : list string) :
  let input_norm := OverlapSpec.input_set symptoms in
  let thr := Overlap.min_threshold σ in
  cache_ok (get_cache σ) → symptoms ≠ [] → input_norm ≠ ∅ →
  (OverlapSpec.best_jaccard input_norm (Overlap._compiled_rows σ) < thr)%Q →
  ∃ r c' best_score,
    Overlap.predict symptoms σ = (inr r, Overlap.with_cache c' σ) ∧
    Overlap.status r = "low_match" ∧ Overlap.status r ≠ "success" ∧
    best_score == OverlapSpec.best_jaccard input_norm (Overlap._compiled_rows σ) ∧
    Overlap.debug r = Some (Overlap.DebugLow best_score thr) ∧
    Overlap.confidence r = round1 (fmul best_score 100).
Proof.
  intros input_norm thr Hc Hne Hin Hlt.
  destruct (OverlapFacts.predict_run σ symptoms Hc Hne)
    as (c' & _ & _ & [[He _]|(_ & found & Hscan & Hrun)]); [done|].
  destruct (OverlapFacts.scan_run input_norm (Overlap._compiled_rows σ))
    as (found' & Hscan' & _ & Hbest).
  fold input_norm in Hscan. rewrite Hscan in Hscan'. injection Hscan' as <-.
  assert (Hb : Qltb found.2 thr = true).
  { apply Qltb_lt. by rewrite Hbest. }
  exists (Overlap.low_match_result found.2 thr), c', found.2.
  split_and!; try done.
  rewrite Hrun. f_equal. f_equal. unfold OverlapSpec.verdict.
  fold thr. rewrite Hb. by destruct found.1.
Qed.

Lemma C5_witness :
  ∃ r c', Overlap.predict
            ["cough"; "a"; "b"; "c"; "d"; "e"; "f"; "g"; "h"; "i"]
            Demo.overlap_engine
            = (inr r, Overlap.with_cache c' Demo.overlap_engine) ∧
          Overlap.status r = "low_match".
Proof.
  destruct (C5_low_match_below_threshold Demo.overlap_engine
    ["cough"; "a"; "b"; "c"; "d"; "e"; "f"; "g"; "h"; "i"])
    as (r & c' & _ & Hrun & Hst & _).
  - by compute_done.
  - done.
  - by compute_done.
  - by vm_compute.
  - exists r, c'. split; [exact Hrun|exact Hst].
Defined.

(** C6: on the empty list, [predict] of either engine returns at once the
    same [no_symptoms] result with confidence 0, whatever the engine
    holds: it does not raise, and it reads neither the model nor the rows
    nor anything else of the object, which it leaves as it was. *)
Theorem C6_no_symptoms :
  (∀ σ, Overlap.predict [] σ = (inr Overlap.no_symptoms_result, σ)) ∧
  (∀ σ, RF.predict [] σ = (inr RF.no_symptoms_result, σ)) ∧
  Overlap.status Overlap.no_symptoms_result = "no_symptoms" ∧
  Overlap.confidence Overlap.no_symptoms_result = 0%Q ∧
  RF.status RF.no_symptoms_result = "no_symptoms" ∧
  RF.confidence RF.no_symptoms_result = 0%Q.
Proof. by split_and!. Qed.

(** C7: normalisation is idempotent.  The token [_norm] computes is a
    fixed point of the computation, and on an engine whose cache is a
    memo table, as [__init__] leaves it and every call keeps it, calling
    [_norm] on its own answer gives that answer again. *)
Theorem C7_norm_idempotent :
  (∀ s, norm (norm s) = norm s) ∧
  (∀ (σ : Overlap.Engine) s, cache_ok (get_cache σ) →
     ∃ t σ1 σ2, Overlap._norm (PStr s) σ = (inr t, σ1) ∧
                Overlap._norm (PStr t) σ1 = (inr t, σ2) ∧ t = norm s) ∧
  (∀ (σ : RF.Engine) s, cache_ok (get_cache σ) →
     ∃ t σ1 σ2, RF._norm (PStr s) σ = (inr t, σ1) ∧
                RF._norm (PStr t) σ1 = (inr t, σ2) ∧ t = norm s).
Proof.
  split_and!; [apply norm_idem|..]; intros σ s Hc.
  - unfold Overlap._norm, norm_any. eexists _, _, _.
    rewrite norm_cached_run by done. split; [done|].
    rewrite norm_cached_run, norm_idem; [done|].
    rewrite get_set_cache. by apply memo_ok.
  - unfold RF._norm, norm_any. eexists _, _, _.
    rewrite norm_cached_run by done. split; [done|].
    rewrite norm_cached_run, norm_idem; [done|].
    rewrite get_set_cache. by apply memo_ok.
Qed.

Lemma C7_witness :
  ∃ t σ1 σ2, RF._norm (PStr "  Skin__Rash ") Demo.rf_engine = (inr t, σ1) ∧
             RF._norm (PStr t) σ1 = (inr t, σ2) ∧ t = "skin_rash".
Proof.
  destruct C7_norm_idempotent as (_ & _ & Hrf).
  destruct (Hrf Demo.rf_engine "  Skin__Rash ") as (t & σ1 & σ2 & H1 & H2 & Ht).
  - by compute_done.
  - exists t, σ1, σ2. split; [exact H1|]. split; [exact H2|].
    rewrite Ht. by vm_compute.
Defined.

(** C8: [vectorize] does not depend on the order of the symptom list, nor
    on repetitions in it: two lists with the same set of normalised
    symptoms give the same feature vector.  This holds for [_vectorize] of
    the random-forest engine, which on an initialised engine returns a
    vector as long as the vocabulary, and for [_create_feature_vector] of
    the custom engine. *)
Theorem C8_vectorize_order_independent :
  (∀ (σ : RF.Engine) l1 l2, cache_ok (get_cache σ) →
     (l1 ≡ₚ l2 → (RF._vectorize l1 σ).1 = (RF._vectorize l2 σ).1) ∧
     ((list_to_set (norm <$> l1) : gset string) = list_to_set (norm <$> l2) →
      (RF._vectorize l1 σ).1 = (RF._vectorize l2 σ).1)) ∧
  (∀ (σ : RF.Engine) l, RFSpec.wf σ →
     ∃ vec c', RF._vectorize l σ = (inr vec, RF.with_cache c' σ) ∧
               length vec = length (RF.symptom_vocab σ)) ∧
  (∀ (e : Custom.Engine) l1 l2,
     (l1 ≡ₚ l2 →
      Custom._create_feature_vector e l1 = Custom._create_feature_vector e l2) ∧
     ((list_to_set (Custom._normalize_symptom <$> l1) : gset string) =
        list_to_set (Custom._normalize_symptom <$> l2) →
      Custom._create_feature_vector e l1 = Custom._create_feature_vector e l2)).
Proof.
  split_and!.
  - intros σ l1 l2 Hc. split.
    + by apply RFVocabulary.vectorize_perm.
    + by apply RFVocabulary.vectorize_set.
  - intros σ l Hwf.
    destruct (RFVocabulary.vectorize_total σ l Hwf) as (vec & c' & ? & ? & _).
    by exists vec, c'.
  - intros e l1 l2. split.
    + apply CustomFacts.create_feature_vector_perm.
    + apply CustomFacts.create_feature_vector_set.
Qed.

Lemma C8_witness :
  (RF._vectorize ["Fever"; "cough"; "fever "] Demo.rf_engine).1 =
  (RF._vectorize ["cough"; "fever "; "Fever"] Demo.rf_engine).1 ∧
  (RF._vectorize ["Fever"; "cough"; "fever "] Demo.rf_engine).1 =
  (RF._vectorize ["cough"; "Fever"] Demo.rf_engine).1 ∧
  Custom._create_feature_vector Demo.custom_engine ["Fever"; "cough"] =
  Custom._create_feature_vector Demo.custom_engine ["cough"; "Fever"].
Proof.
  destruct C8_vectorize_order_independent as (Hrf & _ & Hcu).
  split; [|split; [|apply (proj1 (Hcu _ _ _)), perm_swap]].
  - destruct (Hrf Demo.rf_engine ["Fever"; "cough"; "fever "]
      ["cough"; "fever "; "Fever"]) as [Hperm _]; [by compute_done|].
    apply Hperm. etrans; [apply perm_swap|]. apply perm_skip, perm_swap.
  - destruct (Hrf Demo.rf_engine ["Fever"; "cough"; "fever "]
      ["cough"; "Fever"]) as [_ Hset]; [by compute_done|].
    apply Hset. by compute_done.
Defined.

(** C9: after initialisation the vocabulary is strictly increasing in the
    code-point order of strings, hence sorted and free of duplicates.  In
    the random-forest engine it holds exactly the non-empty normalised
    tokens of the comma-separated parts of the cells of the symptom
    columns that hold text, without the parts that read nan, and the
    symptom index sends each token to its position: it is one-to-one from
    the vocabulary onto the integers below the vocabulary size.  In the
    overlap engine the vocabulary holds every symptom token the rows
    list, and when no symptom cell of the dataset is missing it holds
    exactly those, as many entries as there are distinct tokens.  A
    missing cell adds to it the token of its text: on the dataset with a
    blank cell the rows list three distinct symptoms and the vocabulary
    has four entries, nan among them. *)
Theorem C9_vocabulary :
  (∀ d thr σ, Overlap.init d thr = inr σ →
     let vocab := Overlap.available_symptoms σ in
     let cols := Overlap.symptom_columns σ in
     StronglySorted str_lt vocab ∧ NoDup vocab ∧
     (∀ t, t ∈ OverlapSpec.dataset_symptoms d → t ∈ vocab) ∧
     (∀ t, t ∈ vocab ↔
        t ∈ OverlapSpec.dataset_symptoms d ∨
        (t = "nan" ∧ ∃ row col, row ∈ rows d ∧ col ∈ cols ∧
                                row_get row col PNone = PNaN) ∨
        (t = "none" ∧ ∃ row col, row ∈ rows d ∧ col ∈ cols ∧
                                 row_get row col PNone = PNone)) ∧
     ((∀ row, row ∈ rows d → OverlapSpec.filled cols row) →
      (∀ t, t ∈ vocab ↔ t ∈ OverlapSpec.dataset_symptoms d) ∧
      length vocab = size (OverlapSpec.dataset_symptoms d))) ∧
  (∀ d t, t ∈ OverlapSpec.dataset_symptoms d ↔
     t ≠ EmptyString ∧
     ∃ row col s p, row ∈ rows d ∧ col ∈ columns d ∧
       String.prefix "Symptom_" col = true ∧
       row_get row col PNone = PStr s ∧ p ∈ Py.split ","%char s ∧
       t = norm p) ∧
  (∀ fit d σ, RF.init fit d = inr σ →
     let vocab := RF.symptom_vocab σ in
     let index := RF.symptom_index σ in
     StronglySorted str_lt vocab ∧ NoDup vocab ∧
     (∀ t, t ∈ vocab ↔
        t ≠ EmptyString ∧
        ∃ row col s p, row ∈ rows d ∧ col ∈ columns d ∧
          String.prefix RF._SYM_COL_PREFIX col = true ∧
          row_get row col PNone = PStr s ∧ p ∈ Py.split ","%char s ∧
          RF.keeps (Py.strip p) = true ∧ t = norm (Py.strip p)) ∧
     (∀ s i, index !! s = Some i ↔ vocab !! i = Some s) ∧
     (∀ s, s ∈ vocab ↔ is_Some (index !! s)) ∧
     (∀ s i, index !! s = Some i → i < length vocab) ∧
     (∀ s1 s2 i, index !! s1 = Some i → index !! s2 = Some i → s1 = s2) ∧
     (∀ i, i < length vocab → ∃ s, index !! s = Some i)) ∧
  (Overlap.init Demo.gappy_df Overlap.default_min_threshold
     = inr Demo.gappy_engine ∧
   py_sorted (OverlapSpec.dataset_symptoms Demo.gappy_df)
     = ["cough"; "fatigue"; "fever"] ∧
   size (OverlapSpec.dataset_symptoms Demo.gappy_df) = 3 ∧
   Overlap.available_symptoms Demo.gappy_engine
     = ["cough"; "fatigue"; "fever"; "nan"] ∧
   length (Overlap.available_symptoms Demo.gappy_engine) = 4).
Proof.
  split_and!.
  - intros d thr σ Hinit vocab cols. subst vocab cols.
    destruct (OverlapVocabulary.available_sorted d thr σ Hinit) as [Hs Hnd].
    pose proof (λ t, OverlapListed.elem_of_available_listed d thr σ t Hinit)
      as Hmem.
    split_and!; [done..| |exact Hmem|].
    + intros t Ht. apply Hmem. by left.
    + intros Hf.
      assert (Hex : ∀ t, t ∈ Overlap.available_symptoms σ ↔
                         t ∈ OverlapSpec.dataset_symptoms d).
      { intros t. rewrite (Hmem t). split; [|by left].
        intros [?|[[_ (row & col & Hrow & Hcol & Hc)]
                  |[_ (row & col & Hrow & Hcol & Hc)]]]; [done|..];
          destruct (Hf row Hrow col Hcol) as [s Hs']; congruence. }
      split; [done|]. unfold size, set_size. simpl.
      apply Permutation_length, NoDup_Permutation;
        [done|apply NoDup_elements|].
      intros t. by rewrite Hex, elem_of_elements.
  - apply OverlapListed.elem_of_dataset_symptoms_parts.
  - intros fit d σ Hinit vocab index.
    destruct (RFVocabulary.vocab_sorted fit d σ Hinit) as [Hs Hnd].
    destruct (RFVocabulary.index_bijection σ (RFCalls.init_wf _ _ _ Hinit))
      as (H1 & H2 & H3 & H4 & H5).
    split_and!; try done. intros t. by eapply RFVocabulary.elem_of_vocab.
  - vm_compute. reflexivity.
  - vm_compute. reflexivity.
  - vm_compute. reflexivity.
  - vm_compute. reflexivity.
  - vm_compute. reflexivity.
Qed.

Lemma C9_witness :
  RF.symptom_vocab Demo.rf_engine = ["cough"; "fatigue"; "fever"; "sneezing"] ∧
  StronglySorted str_lt (RF.symptom_vocab Demo.rf_engine) ∧
  (∀ s i, RF.symptom_index Demo.rf_engine !! s = Some i ↔
          RF.symptom_vocab Demo.rf_engine !! i = Some s) ∧
  length (Overlap.available_symptoms Demo.overlap_engine)
    = size (OverlapSpec.dataset_symptoms Demo.overlap_df).
Proof.
  assert (Hrfi : RF.init Demo.fit Demo.rf_df = inr Demo.rf_engine)
    by (vm_compute; reflexivity).
  assert (Hovi : Overlap.init Demo.overlap_df Overlap.default_min_threshold
                 = inr Demo.overlap_engine) by (vm_compute; reflexivity).
  assert (Hf : ∀ row, row ∈ rows Demo.overlap_df →
            OverlapSpec.filled (Overlap.symptom_columns Demo.overlap_engine) row).
  { intros row Hrow col Hcol.
    change (col ∈ ["Symptom_1"; "Symptom_2"]) in Hcol.
    apply elem_of_cons in Hrow as [->|Hrow];
      [|apply list_elem_of_singleton in Hrow as ->];
      (apply elem_of_cons in Hcol as [->|Hcol];
        [|apply list_elem_of_singleton in Hcol as ->]); by eexists. }
  destruct C9_vocabulary as (Hov & _ & Hrf & _).
  destruct (Hrf Demo.fit Demo.rf_df Demo.rf_engine Hrfi) as (Hs & _ & _ & Hi & _).
  destruct (Hov Demo.overlap_df Overlap.default_min_threshold
    Demo.overlap_engine Hovi) as (_ & _ & _ & _ & Hfill).
  destruct (Hfill Hf) as [_ Hlen].
  split; [vm_compute; reflexivity|].
  split; [exact Hs|]. split; [exact Hi|exact Hlen].
Defined.

(** C10: the confidence of a result of [predict] lies between 0 and 100.
    For the overlap engine [predict] always returns, and whichever of
    [no_symptoms], [unrecognized], [low_match] and [success] it answers,
    the confidence is 0 or the rounded percentage of a score between 0
    and 1.  For the random-forest engine the confidence of a returned
    result is 0 in [no_symptoms], [error] and [unrecognized], and in
    [success] the rounded percentage of an entry of [predict_proba], a
    probability by scikit-learn's contract. *)
Theorem C10_confidence_range :
  (∀ (σ : Overlap.Engine) symptoms, cache_ok (get_cache σ) →
     ∃ r σ', Overlap.predict symptoms σ = (inr r, σ') ∧
             (0 <= Overlap.confidence r <= 100)%Q) ∧
  (∀ (σ : RF.Engine) symptoms r σ',
     (∀ m, RF.model σ = Some m → RFSpec.proba_ok m) →
     RF.predict symptoms σ = (inr r, σ') →
     (0 <= RF.confidence r <= 100)%Q) ∧
  (∀ (σ : RF.Engine) m symptoms,
     RFSpec.wf σ → RF.model σ = Some m →
     RFSpec.frame_ok σ → RFSpec.classifier_ok σ m →
     ∃ r σ', RF.predict symptoms σ = (inr r, σ') ∧
             (0 <= RF.confidence r <= 100)%Q).
Proof.
  split_and!; [|apply RFCalls.predict_confidence|].
  - intros σ symptoms Hc. destruct symptoms as [|s0 l].
    { eexists _, _. split; [apply OverlapFacts.predict_empty|done]. }
    destruct (OverlapFacts.predict_run σ (s0 :: l) Hc)
      as (c' & _ & _ & [[_ Hrun]|(_ & found & Hscan & Hrun)]); [done|..].
    { eexists _, _. split; [exact Hrun|done]. }
    eexists _, _. split; [exact Hrun|].
    destruct (OverlapFacts.scan_run (OverlapSpec.input_set (s0 :: l))
      (Overlap._compiled_rows σ)) as (found' & Hscan' & [Hr _] & _).
    rewrite Hscan in Hscan'. injection Hscan' as <-.
    unfold OverlapSpec.verdict.
    destruct found.1; [destruct (Qltb _ _)|]; simpl; by apply percent_range.
  - intros σ m symptoms Hwf Hm Hframe Hcl.
    destruct (RFTotal.predict_total σ m symptoms Hwf Hm Hframe Hcl)
      as (r & c' & Hrun).
    exists r, (RF.with_cache c' σ). split; [done|].
    eapply RFCalls.predict_confidence; [|exact Hrun].
    intros m' Hm'. rewrite Hm in Hm'. injection Hm' as <-. apply Hcl.
Qed.

Lemma C10_witness :
  (∃ r σ', Overlap.predict ["cough"; "fever"] Demo.overlap_engine = (inr r, σ') ∧
           (0 <= Overlap.confidence r <= 100)%Q) ∧
  (∃ r σ', RF.predict ["cough"; "fever"] Demo.rf_engine = (inr r, σ') ∧
           (0 <= RF.confidence r <= 100)%Q).
Proof.
  destruct C10_confidence_range as (Hov & _ & Hrf). split.
  - apply Hov. by compute_done.
  - assert (Hp : RFSpec.proba_ok Demo.forest).
    { intros vec p. simpl. repeat case_match;
        intros Hp; repeat (apply elem_of_cons in Hp as [->|Hp]; [by compute|]);
        by inversion Hp. }
    apply (Hrf Demo.rf_engine Demo.forest).
    + apply (RFCalls.init_wf Demo.fit Demo.rf_df). by vm_compute.
    + by vm_compute.
    + split; [by vm_compute|]. apply Forall_forall. by compute_done.
    + split_and!; [exact Hp|done|..].
      * intros vec. simpl. by repeat case_match.
      * intros c Hc. split.
        -- repeat (apply elem_of_cons in Hc as [->|Hc]; [done|]).
           by inversion Hc.
        -- apply elem_of_cons in Hc as [->|Hc].
           { exists (Demo.rf_row "Cold" "cough" "Sneezing").
             split; [by compute_done|by vm_compute]. }
           apply elem_of_cons in Hc as [->|Hc]; [|by inversion Hc].
           exists (Demo.rf_row "Flu" "Fever, cough" "fatigue").
           split; [by compute_done|by vm_compute].
Defined.


(** * Further properties of the code *)

Lemma isspace_lower_char c : Py.isspace (Py.lower_char c) = Py.isspace c.
Proof. by destruct c as [[] [] [] [] [] [] [] []]. Qed.

Lemma is_sep_lower_char c : Py.is_sep (Py.lower_char c) = Py.is_sep c.
Proof. by destruct c as [[] [] [] [] [] [] [] []]. Qed.

Lemma lower_char_sep c : Py.is_sep c = true → Py.lower_char c = c.
Proof. by destruct c as [[] [] [] [] [] [] [] []]. Qed.

Lemma lower_lower s : Py.lower (Py.lower s) = Py.lower s.
Proof. induction s; simpl; [done|]. by rewrite lower_char_idem, IHs. Qed.

Lemma lower_id s : lowered s → Py.lower s = s.
Proof. induction s; simpl; [done|]. intros [-> ?]. by rewrite IHs. Qed.

Lemma lstrip_lower s : Py.lstrip (Py.lower s) = Py.lower (Py.lstrip s).
Proof.
  induction s as [|c s IH]; simpl; [done|].
  rewrite isspace_lower_char. by destruct (Py.isspace c).
Qed.

Lemma rstrip_lower s : Py.rstrip (Py.lower s) = Py.lower (Py.rstrip s).
Proof.
  induction s as [|c s IH]; simpl; [done|].
  rewrite IH, isspace_lower_char.
  destruct (Py.rstrip s); simpl; [by destruct (Py.isspace c)|done].
Qed.

Lemma strip_lower s : Py.strip (Py.lower s) = Py.lower (Py.strip s).
Proof. unfold Py.strip. by rewrite rstrip_lower, lstrip_lower. Qed.

Lemma sub_space_lower b s :
  Py.sub_space b (Py.lower s) = Py.lower (Py.sub_space b s).
Proof.
  revert b. induction s as [|c s IH]; intros b; simpl; [done|].
  rewrite is_sep_lower_char. destruct (Py.is_sep c), b; simpl; by rewrite IH.
Qed.

(** Whitespace at the left end does not survive [strip]. *)
Lemma strip_cons_space c s : Py.isspace c = true → Py.strip (String c s) = Py.strip s.
Proof.
  intros Hc. unfold Py.strip. simpl. rewrite Hc.
  destruct (Py.rstrip s); simpl; by rewrite ?Hc.
Qed.

Lemma isspace_space : Py.isspace " "%char = true.
Proof. done. Qed.

Lemma strip_sub_space b s :
  Py.strip (Py.sub_space b s) = Py.strip (Py.sub_space false s).
Proof.
  destruct b; [|done]. destruct s as [|c s]; simpl; [done|].
  destruct (Py.is_sep c); [|done]. by rewrite strip_cons_space.
Qed.

Lemma strip_sub_space_lstrip s :
  Py.strip (Py.sub_space false (Py.lstrip s)) = Py.strip (Py.sub_space false s).
Proof.
  induction s as [|c s IH]; simpl; [done|].
  destruct (Py.isspace c) eqn:Hc; [|done].
  rewrite IH. unfold Py.is_sep. rewrite Hc. simpl.
  by rewrite strip_cons_space, (strip_sub_space true).
Qed.

Lemma rstrip_sub_space_rstrip b s :
  Py.rstrip (Py.sub_space b (Py.rstrip s)) = Py.rstrip (Py.sub_space b s).
Proof.
  revert b. induction s as [|c s IH]; intros b; [done|].
  cbn [Py.rstrip]. destruct (Py.rstrip s) as [|c' r] eqn:Hr.
  - assert (He : ∀ b', Py.rstrip (Py.sub_space b' s) = EmptyString).
    { intros b'. rewrite <- IH. by destruct b'. }
    cbn [Py.sub_space]. unfold Py.is_sep.
    destruct (Py.isspace c) eqn:Hc; cbn [orb].
    + destruct b; cbn [Py.rstrip]; rewrite ?He; [done|]. by simpl.
    + case_bool_decide as Hu; cbn [Py.sub_space]; unfold Py.is_sep;
        rewrite Hc; cbn [orb].
      * rewrite bool_decide_eq_true_2 by done.
        destruct b; cbn [Py.rstrip Py.sub_space]; rewrite ?He; done.
      * rewrite bool_decide_eq_false_2 by done.
        cbn [Py.rstrip Py.sub_space]. by rewrite He, Hc.
  - remember (String c' r) as x eqn:Hx.
    cbn [Py.sub_space]. destruct (Py.is_sep c).
    + destruct b; cbn [Py.rstrip]; by rewrite (IH true).
    + cbn [Py.rstrip]. by rewrite (IH false).
Qed.

Lemma strip_sub_space_strip s :
  Py.strip (Py.sub_space false (Py.strip s)) = Py.strip (Py.sub_space false s).
Proof.
  unfold Py.strip at 2. rewrite strip_sub_space_lstrip.
  unfold Py.strip. by rewrite rstrip_sub_space_rstrip.
Qed.

(** The first [strip] of [_norm] is subsumed by the second. *)
Lemma norm_compute_alt s :
  norm_compute s =
  Py.replace " "%char "_"%char (Py.strip (Py.sub_space false (Py.lower s))).
Proof.
  unfold norm_compute. by rewrite <- strip_lower, strip_sub_space_strip.
Qed.

Lemma nonempty_lower s : Py.nonempty (Py.lower s) = Py.nonempty s.
Proof. by destruct s. Qed.

Lemma norm_lower_eq s1 s2 : Py.lower s1 = Py.lower s2 → norm s1 = norm s2.
Proof.
  intros He. rewrite !norm_eq, !norm_compute_alt. by rewrite He.
Qed.

Lemma sub_space_replace_us b s :
  Py.sub_space b (Py.replace "_"%char " "%char s) = Py.sub_space b s.
Proof.
  revert b. induction s as [|c s IH]; intros b; simpl; [done|].
  case_bool_decide as Hc.
  - subst. simpl. by rewrite !IH.
  - destruct (Py.is_sep c), b; by rewrite IH.
Qed.

Lemma sub_space_replace_sp b s :
  Py.sub_space b (Py.replace " "%char "_"%char s) = Py.sub_space b s.
Proof.
  revert b. induction s as [|c s IH]; intros b; simpl; [done|].
  case_bool_decide as Hc.
  - subst. simpl. by rewrite !IH.
  - destruct (Py.is_sep c), b; by rewrite IH.
Qed.

Lemma lower_replace_us s :
  Py.lower (Py.replace "_"%char " "%char s) = Py.replace "_"%char " "%char (Py.lower s).
Proof.
  induction s as [|c s IH]; simpl; [done|]. rewrite IH. f_equal.
  by destruct c as [[] [] [] [] [] [] [] []].
Qed.

Lemma lower_replace_sp s :
  Py.lower (Py.replace " "%char "_"%char s) = Py.replace " "%char "_"%char (Py.lower s).
Proof.
  induction s as [|c s IH]; simpl; [done|]. rewrite IH. f_equal.
  by destruct c as [[] [] [] [] [] [] [] []].
Qed.

Lemma norm_lower s : norm (Py.lower s) = norm s.
Proof. apply norm_lower_eq, lower_lower. Qed.

Lemma norm_strip s : norm (Py.strip s) = norm s.
Proof.
  rewrite !norm_eq. unfold norm_compute.
  rewrite (strip_id (Py.strip s)); [done|apply hd_ok_lstrip|].
  apply last_ok_lstrip, last_ok_rstrip.
Qed.

Lemma norm_replace_us s : norm (Py.replace "_"%char " "%char s) = norm s.
Proof.
  rewrite !norm_eq, !norm_compute_alt.
  by rewrite lower_replace_us, sub_space_replace_us.
Qed.

Lemma norm_replace_sp s : norm (Py.replace " "%char "_"%char s) = norm s.
Proof.
  rewrite !norm_eq, !norm_compute_alt.
  by rewrite lower_replace_sp, sub_space_replace_sp.
Qed.

(* normal form *)

Lemma spaced_hd s : spaced true s → hd_ok s.
Proof.
  destruct s as [|c s]; simpl; [done|].
  case_bool_decide; [by intros [? _]|]. intros [Hc _]. by apply isspace_sep.
Qed.

Lemma inner_us_replace b p s :
  spaced b s → (p = true → hd_ok s) → last_ok s →
  inner_us p (Py.replace " "%char "_"%char s).
Proof.
  revert b p. induction s as [|c s IH]; intros b p; simpl; [done|].
  intros Hsp Hhd Hl. case_bool_decide as Hc.
  - subst. rewrite bool_decide_eq_true_2 by done. destruct Hsp as [-> Hsp].
    split_and!.
    + destruct p; [|done]. by specialize (Hhd eq_refl).
    + destruct s; [done|]. done.
    + destruct s as [|c' s]; [done|].
      apply (IH true true); [done|intros _; by apply spaced_hd|done].
  - destruct Hsp as [Hsep Hsp].
    rewrite bool_decide_eq_false_2.
    + destruct s as [|c' s]; [done|]. by apply (IH false false).
    + intros ->. done.
Qed.

Lemma norm_compute_fixed v :
  spaced false v → lowered v → hd_ok v → last_ok v →
  norm_compute (Py.replace " "%char "_"%char v) = Py.replace " "%char "_"%char v.
Proof.
  intros Hsp Hlo Hhd Hl. unfold norm_compute.
  assert (Hns := no_space_replace _ _ Hsp).
  rewrite (strip_id (Py.replace _ _ _)) by auto using no_space_hd, no_space_last.
  rewrite lower_replace by done.
  rewrite sub_space_replace by done.
  by rewrite strip_id.
Qed.

Lemma token_norm s : token (norm s).
Proof.
  rewrite norm_eq. unfold norm_compute.
  set (m := Py.sub_space false (Py.lower (Py.strip s))).
  assert (Hsp : spaced false (Py.strip m)).
  { unfold Py.strip. eapply spaced_lstrip, spaced_rstrip, spaced_sub_space. }
  assert (Hlo : lowered (Py.strip m)).
  { apply lowered_strip, lowered_sub_space, lowered_lower. }
  split_and!.
  - rewrite <- lower_replace by done. apply lowered_lower.
  - by eapply no_space_replace.
  - eapply inner_us_replace; [done|intros _; apply hd_ok_lstrip|].
    apply last_ok_lstrip, last_ok_rstrip.
Qed.

(* a token comes from a spaced string *)
Lemma replace_back s :
  no_space s → Py.replace " "%char "_"%char (Py.replace "_"%char " "%char s) = s.
Proof.
  induction s as [|c s IH]; simpl; [done|]. intros [Hc Hs]. rewrite IH by done.
  f_equal. destruct (decide (c = "_"%char)) as [->|Hu]; [done|].
  rewrite (bool_decide_eq_false_2 (c = "_"%char)) by done.
  case_bool_decide as Hsp; [|done]. by subst.
Qed.

Lemma spaced_of_token p s :
  no_space s → inner_us p s → spaced p (Py.replace "_"%char " "%char s).
Proof.
  revert p. induction s as [|c s IH]; intros p; simpl; [done|].
  intros [Hc Hs]. case_bool_decide as Hu.
  - subst. intros (-> & _ & Hi). simpl. split; [done|]. by apply IH.
  - intros Hi. rewrite bool_decide_eq_false_2.
    + split; [|by apply IH]. unfold Py.is_sep.
      by rewrite Hc, bool_decide_eq_false_2.
    + intros ->. done.
Qed.

Lemma lowered_replace_us s : lowered s → lowered (Py.replace "_"%char " "%char s).
Proof.
  induction s as [|c s IH]; simpl; [done|]. intros [Hc Hs].
  split; [|by apply IH]. by case_bool_decide.
Qed.

Lemma hd_ok_of_token s :
  no_space s → inner_us true s → hd_ok (Py.replace "_"%char " "%char s).
Proof.
  destruct s as [|c s]; simpl; [done|]. intros [Hc _].
  case_bool_decide; [by intros [? _]|done].
Qed.

Lemma last_ok_of_token p s :
  no_space s → inner_us p s → last_ok (Py.replace "_"%char " "%char s).
Proof.
  revert p. induction s as [|c s IH]; intros p; [done|].
  intros [Hc Hs]. cbn [inner_us Py.replace].
  case_bool_decide as Hu.
  - intros (_ & Hne & Hi). destruct s as [|c' s]; [done|].
    specialize (IH true Hs Hi). by simpl in *.
  - intros Hi. destruct s as [|c' s]; [done|].
    specialize (IH false Hs Hi). by simpl in *.
Qed.

Lemma spaced_weaken s : spaced true s → spaced false s.
Proof. destruct s; simpl; [done|]. case_bool_decide; [by intros [? _]|done]. Qed.

Lemma norm_token t : token t → norm t = t.
Proof.
  intros (Hlo & Hns & Hus). rewrite norm_eq.
  rewrite <- (replace_back t) by done.
  apply norm_compute_fixed.
  - by apply spaced_weaken, spaced_of_token.
  - by apply lowered_replace_us.
  - by apply hd_ok_of_token.
  - by eapply last_ok_of_token.
Qed.

Lemma fold_res_app {A B} (f : B → A → exn + B) l1 l2 b :
  fold_res f b (l1 ++ l2) = fold_res f b l1 ≫= λ b', fold_res f b' l2.
Proof.
  revert b. induction l1 as [|x l1 IH]; intros b; simpl; [done|].
  destruct (f b x) as [e|b']; simpl; [done|]. apply IH.
Qed.

Module OverlapWinner.
Import Overlap OverlapSpec OverlapFacts OverlapBest.

Lemma jaccard_pos A B : A ∩ B ≠ ∅ → (0 < jaccard A B)%Q.
Proof.
  intros Hne. unfold jaccard, Qlt. simpl.
  assert (size (A ∩ B) ≠ 0).
  { intros Hs. apply size_empty_inv in Hs. apply Hne. by apply leibniz_equiv. }
  lia.
Qed.

Lemma epsilon_pos : (0 < epsilon)%Q.
Proof. done. Qed.

Lemma best_ok_snoc input_norm seen r b q :
  best_ok input_norm seen (Some b, q) → best_ok input_norm (seen ++ [r]) (Some b, q).
Proof.
  intros (r0 & Hr0 & ?). exists r0. split; [|done]. apply elem_of_app. by left.
Qed.

Lemma scan_step_best input_norm seen acc r :
  acc_ok acc → best_ok input_norm seen acc →
  ∃ acc', scan_step input_norm acc r = inr acc' ∧
          acc_ok acc' ∧ best_ok input_norm (seen ++ [r]) acc'.
Proof.
  intros Hacc Hb.
  destruct (scan_step_run input_norm acc r Hacc) as (acc' & Hrun & Hacc' & _).
  exists acc'. split_and!; [done..|].
  unfold scan_step in Hrun. rewrite row_score_run in Hrun. simpl in Hrun.
  destruct acc as [o q]. case_decide as Hi; injection Hrun as <-.
  - destruct o as [b|]; [by apply best_ok_snoc|].
    destruct Hb as [H0 Hd]. split; [done|]. intros r' Hr'.
    apply elem_of_app in Hr' as [Hr'|Hr']; [by apply Hd|].
    by apply list_elem_of_singleton in Hr' as ->.
  - pose proof (jaccard_pos _ _ Hi) as Hpos.
    unfold update_best. fold (candidate input_norm r). cbn [fst snd].
    destruct (Qltb q _) eqn:Hlt.
    + exists r. split_and!; try done.
      * apply elem_of_app. right. by apply list_elem_of_singleton.
      * cbn [fst snd score candidate]. apply Qle_refl.
      * cbn [fst snd score candidate]. pose proof epsilon_pos. lra.
    + apply Qltb_ge in Hlt.
      destruct o as [b|]; [|destruct Hb as [H0 _]; simpl in H0; subst q; lra].
      destruct (Qltb (Qabs _) epsilon) eqn:Heps; [|by apply best_ok_snoc].
      destruct (_ <? _); [|by apply best_ok_snoc].
      apply Qltb_lt in Heps. exists r. split_and!; try done.
      * apply elem_of_app. right. by apply list_elem_of_singleton.
      * cbn [fst snd score candidate]. rewrite Qabs_neg in Heps by lra. lra.
Qed.

Lemma fold_scan_best input_norm crs seen acc :
  acc_ok acc → best_ok input_norm seen acc →
  ∃ found, fold_res (scan_step input_norm) acc crs = inr found ∧
           acc_ok found ∧ best_ok input_norm (seen ++ crs) found.
Proof.
  revert seen acc. induction crs as [|r crs IH]; intros seen acc Hacc Hb.
  - exists acc. by rewrite app_nil_r.
  - destruct (scan_step_best input_norm seen acc r Hacc Hb)
      as (acc' & Hstep & Hacc' & Hb').
    destruct (IH _ _ Hacc' Hb') as (found & Hrun & ? & ?).
    exists found. cbn [fold_res]. rewrite Hstep. simpl.
    by rewrite <- app_assoc in *.
Qed.

Lemma scan_best input_norm crs :
  ∃ found, scan input_norm crs = inr found ∧ acc_ok found ∧
           best_ok input_norm crs found ∧
           found.2 == best_jaccard input_norm crs.
Proof.
  destruct (fold_scan_best input_norm crs [] (None, 0%Q)) as (found & Hrun & Hacc & Hb).
  - split; [simpl; lra|done].
  - split; [done|]. intros r Hr. by inversion Hr.
  - destruct (scan_run input_norm crs) as (found' & Hrun' & _ & Hmax).
    unfold scan in Hrun'. rewrite Hrun in Hrun'. injection Hrun' as <-.
    by exists found.
Qed.

Lemma fold_max_lt input_norm crs (x y : Q) :
  (x < y)%Q → (∀ r, r ∈ crs → (jaccard input_norm (symptoms r) < y)%Q) →
  (foldl (λ m r, Qmax m (jaccard input_norm (symptoms r))) x crs < y)%Q.
Proof.
  revert x. induction crs as [|r crs IH]; intros x Hx Hall; simpl; [done|].
  apply IH.
  - apply Q.max_lub_lt; [done|]. apply Hall. by left.
  - intros r' Hr'. apply Hall. by right.
Qed.

(** Rows that do not beat the kept row leave it in place. *)
Lemma fold_scan_keep input_norm r crs :
  (∀ x, x ∈ crs →
     (jaccard input_norm (symptoms x) <= jaccard input_norm (symptoms r))%Q ∧
     ((jaccard input_norm (symptoms r) - jaccard input_norm (symptoms x)
         < epsilon)%Q →
      size (input_norm ∩ symptoms x) ≤ size (input_norm ∩ symptoms r))) →
  fold_res (scan_step input_norm)
    (Some (candidate input_norm r), jaccard input_norm (symptoms r)) crs
  = inr (Some (candidate input_norm r), jaccard input_norm (symptoms r)).
Proof.
  induction crs as [|x crs IH]; intros Hall; cbn [fold_res]; [done|].
  assert (Hstep : scan_step input_norm
            (Some (candidate input_norm r), jaccard input_norm (symptoms r)) x
          = inr (Some (candidate input_norm r), jaccard input_norm (symptoms r))).
  { destruct (Hall x) as [Hle Hsz]; [by left|].
    unfold scan_step. rewrite row_score_run. simpl.
    case_decide as Hi; [done|]. f_equal. unfold update_best. cbn [fst snd].
    destruct (Qltb _ _) eqn:Hlt; [apply Qltb_lt in Hlt; lra|].
    destruct (Qltb (Qabs _) epsilon) eqn:Heps; [|done].
    apply Qltb_lt in Heps. rewrite Qabs_neg in Heps by lra.
    cbn [intersection candidate].
    destruct (_ <? _) eqn:Hsize; [|done].
    apply Nat.ltb_lt in Hsize. assert (Hs := Hsz ltac:(lra)). lia. }
  rewrite Hstep. simpl. apply IH. intros x' Hx'. apply Hall. by right.
Qed.

(** The tie-break of the loop: the first row that beats every earlier row
    and is not beaten by a later one, neither on score nor, within
    [epsilon] of its score, on the size of the intersection. *)
Lemma scan_first input_norm l1 r l2 :
  input_norm ∩ symptoms r ≠ ∅ →
  (∀ x, x ∈ l1 →
     (jaccard input_norm (symptoms x) < jaccard input_norm (symptoms r))%Q) →
  (∀ x, x ∈ l2 →
     (jaccard input_norm (symptoms x) <= jaccard input_norm (symptoms r))%Q ∧
     ((jaccard input_norm (symptoms r) - jaccard input_norm (symptoms x)
         < epsilon)%Q →
      size (input_norm ∩ symptoms x) ≤ size (input_norm ∩ symptoms r))) →
  scan input_norm (l1 ++ r :: l2)
  = inr (Some (candidate input_norm r), jaccard input_norm (symptoms r)).
Proof.
  intros Hi H1 H2. unfold scan. rewrite fold_res_app.
  destruct (fold_scan_run input_norm l1 (None, 0%Q)) as (acc & -> & Hacc & Hmax).
  { split; [simpl; lra|done]. }
  simpl. cbn [fold_res].
  assert (Hlt : (acc.2 < jaccard input_norm (symptoms r))%Q).
  { rewrite Hmax. apply fold_max_lt; [by apply jaccard_pos|done]. }
  assert (Hstep : scan_step input_norm acc r
            = inr (Some (candidate input_norm r), jaccard input_norm (symptoms r))).
  { unfold scan_step. rewrite row_score_run. simpl.
    rewrite decide_False by done. f_equal. unfold update_best.
    apply Qltb_lt in Hlt. by rewrite Hlt. }
  rewrite Hstep. simpl. by apply fold_scan_keep.
Qed.

Lemma input_set_empty symptoms :
  input_set symptoms = ∅ ↔ ∀ s, s ∈ symptoms → s = EmptyString.
Proof.
  unfold input_set. split.
  - intros He s Hs. destruct s as [|c s]; [done|]. exfalso.
    assert (Hin : norm (String c s) ∈ (∅ : gset string)).
    { rewrite <- He. apply elem_of_list_to_set, list_elem_of_fmap.
      eexists. split; [done|]. by apply list_elem_of_filter. }
    by apply not_elem_of_empty in Hin.
  - intros Hall.
    replace (filter (λ s, Py.nonempty s) symptoms) with (@nil string); [done|].
    symmetry. induction symptoms as [|s l IH]; [done|].
    rewrite filter_cons. rewrite (Hall s) by left. simpl.
    apply IH. intros s' Hs'. apply Hall. by right.
Qed.

Lemma predict_all_empty σ symptoms :
  symptoms ≠ [] → (∀ s, s ∈ symptoms → s = EmptyString) →
  predict symptoms σ = (inr unrecognized_result, σ).
Proof.
  intros Hne Hall.
  assert (Hf : filter (λ s, Py.nonempty s) symptoms = []).
  { induction symptoms as [|s l IH]; [done|].
    rewrite filter_cons. rewrite (Hall s) by left. simpl.
    destruct l as [|s' l]; [done|]. apply IH; [done|].
    intros s'' Hs''. apply Hall. by right. }
  unfold predict. destruct symptoms as [|s0 l]; [done|]. by rewrite Hf.
Qed.

End OverlapWinner.


(** X6.  The input is all empty strings exactly when [predict] of the overlap
    engine answers [unrecognized], which it does without touching the
    object; any other non-empty list is scored and answered [low_match] or
    [success]. *)
Theorem X6_overlap_unrecognized_iff_blank (σ : Overlap.Engine) (symptoms : list string) :
  symptoms ≠ [] →
  ((∀ s, s ∈ symptoms → s = EmptyString) →
   Overlap.predict symptoms σ = (inr Overlap.unrecognized_result, σ)) ∧
  (cache_ok (get_cache σ) → (∃ s, s ∈ symptoms ∧ s ≠ EmptyString) →
   ∃ r c', Overlap.predict symptoms σ = (inr r, Overlap.with_cache c' σ) ∧
           (Overlap.status r = "low_match" ∨ Overlap.status r = "success")).
Proof.
  intros Hne. split; [by apply OverlapWinner.predict_all_empty|].
  intros Hc (s & Hs & Hsne).
  destruct (OverlapFacts.predict_run σ symptoms Hc Hne)
    as (c' & _ & _ & [[He _]|(_ & found & _ & Hrun)]).
  - exfalso. apply Hsne. by apply (OverlapWinner.input_set_empty symptoms).
  - eexists _, c'. split; [exact Hrun|]. unfold OverlapSpec.verdict.
    destruct found.1; [destruct (Qltb _ _)|]; auto.
Qed.

Lemma X6_overlap_unrecognized_iff_blank_witness :
  Overlap.predict [EmptyString; EmptyString] Demo.overlap_engine
    = (inr Overlap.unrecognized_result, Demo.overlap_engine) ∧
  ∃ r c', Overlap.predict [" "] Demo.overlap_engine
            = (inr r, Overlap.with_cache c' Demo.overlap_engine) ∧
          (Overlap.status r = "low_match" ∨ Overlap.status r = "success").
Proof.
  split.
  - apply (X6_overlap_unrecognized_iff_blank Demo.overlap_engine
             [EmptyString; EmptyString]); [done|].
    intros s Hs. repeat (apply elem_of_cons in Hs as [->|Hs]; [done|]).
    by inversion Hs.
  - apply (X6_overlap_unrecognized_iff_blank Demo.overlap_engine [" "]);
      [done|by compute_done|].
    exists " ". split; [by left|done].
Defined.


(** X7.  An input with at least one non-empty symptom is answered [success]
    exactly when some compiled row shares a symptom with it and the best
    Jaccard score reaches the threshold; when no row shares a symptom the
    answer is [low_match] with score 0, whatever the threshold. *)
Theorem X7_overlap_success_iff (σ : Overlap.Engine) (symptoms : list string) :
  let input_norm := OverlapSpec.input_set symptoms in
  let crs := Overlap._compiled_rows σ in
  cache_ok (get_cache σ) → (∃ s, s ∈ symptoms ∧ s ≠ EmptyString) →
  ∃ r c', Overlap.predict symptoms σ = (inr r, Overlap.with_cache c' σ) ∧
    (Overlap.status r = "success" ↔
       (∃ row, row ∈ crs ∧ input_norm ∩ Overlap.symptoms row ≠ ∅) ∧
       (Overlap.min_threshold σ <= OverlapSpec.best_jaccard input_norm crs)%Q) ∧
    ((∀ row, row ∈ crs → input_norm ∩ Overlap.symptoms row = ∅) →
     r = Overlap.low_match_result 0 (Overlap.min_threshold σ)).
Proof.
  intros input_norm crs Hc (s & Hs & Hsne).
  assert (Hne : symptoms ≠ []) by (intros ->; by inversion Hs).
  destruct (OverlapFacts.predict_run σ symptoms Hc Hne)
    as (c' & _ & _ & [[He _]|(_ & found & Hscan & Hrun)]).
  { exfalso. apply Hsne. by apply (OverlapWinner.input_set_empty symptoms). }
  destruct (OverlapWinner.scan_best input_norm crs)
    as (found' & Hscan' & Hacc & Hbest & Hmax).
  fold input_norm crs in Hscan. rewrite Hscan in Hscan'. injection Hscan' as <-.
  eexists _, c'. split; [exact Hrun|]. fold input_norm.
  unfold OverlapSpec.verdict, OverlapBest.best_ok in *.
  destruct found as [[b|] q]; cbn [fst snd] in *.
  - destruct Hbest as (row & Hrow & _ & Hi & _). split.
    + destruct (Qltb q _) eqn:Hlt; simpl.
      * split; [done|]. intros [_ Hthr]. apply Qltb_lt in Hlt. rewrite <- Hmax in Hthr. lra.
      * split; [|done]. intros _. split; [by exists row|].
        apply Qltb_ge in Hlt. by rewrite <- Hmax.
    + intros Hd. by specialize (Hd row Hrow).
  - destruct Hbest as [-> Hd]. split.
    + simpl. split; [done|]. intros [(row & Hrow & Hi) _]. by specialize (Hd row Hrow).
    + done.
Qed.

Lemma X7_overlap_success_iff_witness :
  ∃ r c', Overlap.predict ["headache"] Demo.overlap_engine
            = (inr r, Overlap.with_cache c' Demo.overlap_engine) ∧
          r = Overlap.low_match_result 0 (Overlap.min_threshold Demo.overlap_engine).
Proof.
  destruct (X7_overlap_success_iff Demo.overlap_engine ["headache"])
    as (r & c' & Hrun & _ & Hlow).
  - by compute_done.
  - exists "headache". split; [by left|done].
  - exists r, c'. split; [exact Hrun|]. apply Hlow.
    intros row Hrow.
    repeat (apply elem_of_cons in Hrow as [->|Hrow]; [by compute_done|]).
    by inversion Hrow.
Defined.

(** X8.  What a [success] of the overlap engine reports: the disease, the
    recommendations and the index of one compiled row that shares a
    symptom with the input and whose Jaccard score is within [epsilon] of
    the best score; that best score, which reaches the threshold, as the
    raw score and, multiplied by 100 as a float and rounded to one
    decimal, as the confidence; the shared symptoms and the normalised
    input, both sorted. *)
Theorem X8_overlap_success_row (σ : Overlap.Engine) (symptoms : list string)
    (r : Overlap.Result) (σ' : Overlap.Engine) :
  let input_norm := OverlapSpec.input_set symptoms in
  let crs := Overlap._compiled_rows σ in
  cache_ok (get_cache σ) →
  Overlap.predict symptoms σ = (inr r, σ') →
  Overlap.status r = "success" →
  ∃ row best,
    row ∈ crs ∧ input_norm ∩ Overlap.symptoms row ≠ ∅ ∧
    best == OverlapSpec.best_jaccard input_norm crs ∧
    (Overlap.min_threshold σ <= best)%Q ∧
    (OverlapSpec.jaccard input_norm (Overlap.symptoms row) <= best)%Q ∧
    (best - OverlapSpec.jaccard input_norm (Overlap.symptoms row)
       < Overlap.epsilon)%Q ∧
    Overlap.predicted_disease r = Overlap.disease row ∧
    Overlap.confidence r = round1 (fmul best 100) ∧
    Overlap.medicine_recommendation r =
      Overlap.str_or (Overlap.medicine row) "Consult a healthcare provider" ∧
    Overlap.diet_recommendation r =
      Overlap.str_or (Overlap.diet row) "Maintain balanced diet" ∧
    Overlap.debug r =
      Some (Overlap.DebugMatch best
              (py_sorted (input_norm ∩ Overlap.symptoms row))
              (py_sorted input_norm) (Overlap.row_index row)).
Proof.
  intros input_norm crs Hc Hrun Hst.
  destruct symptoms as [|s0 l].
  { rewrite OverlapFacts.predict_empty in Hrun. injection Hrun as <- _. done. }
  destruct (OverlapFacts.predict_run σ (s0 :: l) Hc)
    as (c' & _ & _ & [[_ Hrun']|(_ & found & Hscan & Hrun')]); [done|..].
  { rewrite Hrun in Hrun'. injection Hrun' as -> _. done. }
  rewrite Hrun in Hrun'. injection Hrun' as -> _.
  destruct (OverlapWinner.scan_best input_norm crs)
    as (found' & Hscan' & Hacc & Hbest & Hmax).
  fold input_norm crs in Hscan. rewrite Hscan in Hscan'. injection Hscan' as <-.
  fold input_norm in Hst |- *.
  unfold OverlapSpec.verdict, OverlapBest.best_ok in *.
  destruct found as [[b|] q]; cbn [fst snd] in *; [|done].
  destruct (Qltb q _) eqn:Hlt; [done|]. apply Qltb_ge in Hlt.
  destruct Hbest as (row & Hrow & -> & Hi & Hle & Heps).
  exists row, q. by split_and!.
Qed.

Lemma X8_overlap_success_row_witness :
  ∃ r σ' row,
    Overlap.predict ["Cough"; "sneezing"] Demo.overlap_engine = (inr r, σ') ∧
    row ∈ Overlap._compiled_rows Demo.overlap_engine ∧
    Overlap.predicted_disease r = Overlap.disease row ∧
    Overlap.predicted_disease r = PStr "Cold".
Proof.
  pose (res := Overlap.predict ["Cough"; "sneezing"] Demo.overlap_engine).
  assert (Hres : ∃ r σ', res = (inr r, σ') ∧ Overlap.status r = "success"
                         ∧ Overlap.predicted_disease r = PStr "Cold").
  { eexists _, _. by vm_compute. }
  destruct Hres as (r & σ' & Hrun & Hst & Hd).
  destruct (X8_overlap_success_row Demo.overlap_engine ["Cough"; "sneezing"] r σ')
    as (row & best & Hrow & _ & _ & _ & _ & _ & Hdis & _).
  - by compute_done.
  - exact Hrun.
  - exact Hst.
  - exists r, σ', row. by split_and!.
Defined.

(** X9.  The tie-break of the overlap engine.  A compiled row that shares a
    symptom with the input, scores strictly above every earlier row, at
    least as high as every later row, and whose intersection is not
    smaller than that of a later row scoring within [epsilon] of it, is
    the row a [success] reports once its score reaches the threshold: on
    ties the larger intersection wins, then the first occurrence.  The
    result is the [success] built from that row and its score, whose
    confidence is the score times 100 as a float, rounded to one
    decimal. *)
Theorem X9_overlap_tie_break (σ : Overlap.Engine) (symptoms : list string)
    (l1 l2 : list Overlap.CompiledRow) (row : Overlap.CompiledRow) :
  let input_norm := OverlapSpec.input_set symptoms in
  let J := λ x, OverlapSpec.jaccard input_norm (Overlap.symptoms x) in
  cache_ok (get_cache σ) →
  Overlap._compiled_rows σ = l1 ++ row :: l2 →
  input_norm ∩ Overlap.symptoms row ≠ ∅ →
  (∀ x, x ∈ l1 → (J x < J row)%Q) →
  (∀ x, x ∈ l2 →
     (J x <= J row)%Q ∧
     ((J row - J x < Overlap.epsilon)%Q →
      size (input_norm ∩ Overlap.symptoms x)
        ≤ size (input_norm ∩ Overlap.symptoms row))) →
  (Overlap.min_threshold σ <= J row)%Q →
  ∃ c', Overlap.predict symptoms σ =
          (inr (Overlap.success_result input_norm
                  (OverlapBest.candidate input_norm row) (J row)),
           Overlap.with_cache c' σ).
Proof.
  intros input_norm J Hc Hrows Hi H1 H2 Hthr.
  assert (Hne : symptoms ≠ []).
  { intros ->. apply Hi. unfold input_norm, OverlapSpec.input_set. simpl.
    set_solver. }
  destruct (OverlapFacts.predict_run σ symptoms Hc Hne)
    as (c' & _ & _ & [[He _]|(_ & found & Hscan & Hrun)]).
  { exfalso. apply Hi. fold input_norm in He. rewrite He. set_solver. }
  fold input_norm in Hscan. rewrite Hrows in Hscan.
  rewrite (OverlapWinner.scan_first input_norm l1 row l2 Hi H1 H2) in Hscan.
  injection Hscan as <-. exists c'. rewrite Hrun. fold input_norm.
  unfold OverlapSpec.verdict. cbn [fst snd].
  assert (Hlt : Qltb (J row) (Overlap.min_threshold σ) = false) by by apply Qltb_ge.
  unfold J in Hlt. by rewrite Hlt.
Qed.

Lemma X9_overlap_tie_break_witness :
  ∃ r c', Overlap.predict ["cough"] Samples.tie_engine
            = (inr r, Overlap.with_cache c' Samples.tie_engine) ∧
          Overlap.predicted_disease r = PStr "Flu".
Proof.
  pose (flu := OverlapSpec.compiled ["Symptom_1"; "Symptom_2"]
                 (0, Demo.overlap_row "Flu" "fever" "cough")).
  pose (cold := OverlapSpec.compiled ["Symptom_1"; "Symptom_2"]
                  (1, Demo.overlap_row "Cold" "cough" "sneezing")).
  destruct (X9_overlap_tie_break Samples.tie_engine ["cough"] [] [cold] flu)
    as (c' & Hrun).
  - by compute_done.
  - by vm_compute.
  - by compute_done.
  - intros x Hx. by inversion Hx.
  - intros x Hx. apply list_elem_of_singleton in Hx as ->.
    split; [by vm_compute|]. intros _. by vm_compute.
  - by vm_compute.
  - eexists _, c'. split; [exact Hrun|]. by vm_compute.
Defined.

(** X4.  Initialisation of the overlap engine never raises.  It compiles one
    entry per row of the frame, in order: entry [i] carries the index [i],
    the row's disease cell, its two recommendation cells as trimmed text,
    and as symptoms exactly the non-empty normalised tokens of the
    comma-separated parts of the row's symptom cells.  The vocabulary is
    the union of the symptom sets, and the cache is left a memo table. *)
Theorem X4_overlap_init_rows (d : DataFrame) (thr : Q) :
  ∃ σ, Overlap.init d thr = inr σ ∧
    Overlap.df σ = d ∧ Overlap.min_threshold σ = thr ∧
    cache_ok (get_cache σ) ∧
    length (Overlap._compiled_rows σ) = length (rows d) ∧
    (∀ i row, rows d !! i = Some row →
       ∃ r, Overlap._compiled_rows σ !! i = Some r ∧
         Overlap.row_index r = i ∧
         Overlap.disease r = row_get row "Disease" PNone ∧
         Overlap.medicine r = Py.strip (py_str
           (row_get row "Medicine Recommendation" (PStr EmptyString))) ∧
         Overlap.diet r = Py.strip (py_str
           (row_get row "Diet Recommendation" (PStr EmptyString))) ∧
         ∀ t, t ∈ Overlap.symptoms r ↔
           t ≠ EmptyString ∧
           ∃ col p, col ∈ columns d ∧ String.prefix "Symptom_" col = true ∧
             p ∈ Py.split ","%char (py_str (row_get row col PNone)) ∧
             t = norm p) ∧
    (∀ t, t ∈ Overlap.available_symptoms σ ↔
       ∃ r, r ∈ Overlap._compiled_rows σ ∧ t ∈ Overlap.symptoms r).
Proof.
  destruct (OverlapPrepare.init_run d thr)
    as (σ & Hinit & Hc & Hdf & Hthr & Hcols & Hrows & Hav).
  exists σ. split_and!; try done.
  - rewrite Hrows, length_fmap. unfold iterrows.
    rewrite length_zip_with, length_seq. lia.
  - intros i row Hrow. eexists. split.
    { rewrite Hrows, list_lookup_fmap, (iterrows_lookup _ _ _ Hrow). done. }
    split_and!; try done. intros t. simpl.
    rewrite OverlapPrepare.ov_elem_of_row_symptoms. split.
    + intros (col & Hcol & Ht).
      apply OverlapPrepare.ov_elem_of_cell_tokens in Ht as (Hne & p & Hp & ->).
      split; [done|]. exists col, p. rewrite Hcols in Hcol.
      apply list_elem_of_filter in Hcol as [Hpre Hcol].
      split_and!; try done. by apply Is_true_true.
    + intros (Hne & col & p & Hcol & Hpre & Hp & ->).
      exists col. split.
      * rewrite Hcols. apply list_elem_of_filter. split; [|done].
        by apply Is_true_true.
      * apply OverlapPrepare.ov_elem_of_cell_tokens. split; [done|]. by exists p.
  - intros t. by rewrite Hav, elem_of_py_sorted, OverlapPrepare.elem_of_all_symptoms.
Qed.

Lemma X4_overlap_init_rows_witness :
  ∃ σ r, Overlap.init Demo.overlap_df Overlap.default_min_threshold = inr σ ∧
    Overlap._compiled_rows σ !! 1 = Some r ∧
    Overlap.row_index r = 1 ∧ Overlap.disease r = PStr "Cold".
Proof.
  destruct (X4_overlap_init_rows Demo.overlap_df Overlap.default_min_threshold)
    as (σ & Hinit & _ & _ & _ & _ & Hrows & _).
  destruct (Hrows 1 (Demo.overlap_row "Cold" "cough" "Sneezing"))
    as (r & Hr & Hidx & Hdis & _); [done|].
  exists σ, r. by split_and!.
Defined.

(** X5.  A symptom cell left blank in the file reaches the overlap engine as
    NaN, is read through [str], and adds the token nan to the vocabulary
    (a cell holding [None] adds none); the token is then matched like any
    symptom. *)
Theorem X5_overlap_blank_cell_token (d : DataFrame) (thr : Q) (σ : Overlap.Engine)
    (row : gmap string pyval) (col : string) :
  Overlap.init d thr = inr σ →
  row ∈ rows d → col ∈ columns d → String.prefix "Symptom_" col = true →
  (row !! col = Some PNaN → "nan" ∈ Overlap.available_symptoms σ) ∧
  (row !! col = Some PNone → "none" ∈ Overlap.available_symptoms σ) ∧
  (row !! col = None → "none" ∈ Overlap.available_symptoms σ).
Proof.
  intros Hinit Hrow Hcol Hpre.
  split_and!; intros Hcell;
    apply (OverlapVocabulary.elem_of_available d thr σ _ Hinit);
    (split; [done|]); exists row, col; unfold row_get; rewrite Hcell; simpl.
  - exists "nan". split_and!; try done; by left.
  - exists "None". split_and!; try done; by left.
  - exists "None". split_and!; try done; by left.
Qed.

Lemma X5_overlap_blank_cell_token_witness :
  ∃ σ, Overlap.init Demo.gappy_df Overlap.default_min_threshold = inr σ ∧
       "nan" ∈ Overlap.available_symptoms σ.
Proof.
  destruct (OverlapPrepare.init_run Demo.gappy_df Overlap.default_min_threshold)
    as (σ & Hinit & _).
  exists σ. split; [done|].
  eapply (X5_overlap_blank_cell_token Demo.gappy_df _ σ
            (<["Symptom_2" := PNaN]> (Demo.overlap_row "Cold" "cough" "x"))
            "Symptom_2"); [done|by compute_done|by compute_done|done|done].
Defined.

(** ** Presence vectors are indicator vectors *)

Lemma set_one_lookup vec i vec' j :
  Np.set_one vec i = inr vec' →
  length vec' = length vec ∧
  vec' !! j = if decide (i = j) then Some 1%N else vec !! j.
Proof.
  unfold Np.set_one. case_decide as Hi; [|done]. intros [= <-].
  split; [by rewrite length_insert|].
  case_decide as Hj.
  - subst. by apply list_lookup_insert_eq.
  - by apply list_lookup_insert_ne.
Qed.

Lemma fold_vec_step_lookup index l vec vec' :
  fold_res (vec_step index) vec l = inr vec' →
  length vec' = length vec ∧
  ∀ j, j < length vec →
    ((∃ t, t ∈ l ∧ index !! t = Some j) → vec' !! j = Some 1%N) ∧
    ((∀ t, t ∈ l → index !! t ≠ Some j) → vec' !! j = vec !! j).
Proof.
  revert vec. induction l as [|t l IH]; intros vec; cbn [fold_res].
  - intros [= <-]. split; [done|]. intros j Hj. split; [|done].
    intros (t & Ht & _). by inversion Ht.
  - destruct (vec_step index vec t) as [e|vec1] eqn:Hstep; [done|]. simpl.
    intros Hrun. apply IH in Hrun as [Hlen Hrun].
    assert (H1 : length vec1 = length vec ∧
                 ∀ j, vec1 !! j = if decide (index !! t = Some j)
                                  then Some 1%N else vec !! j).
    { unfold vec_step in Hstep. destruct (index !! t) as [i|] eqn:Hi.
      - split; [by apply (set_one_lookup _ _ _ 0 Hstep)|]. intros j.
        destruct (set_one_lookup _ _ _ j Hstep) as [_ ->].
        repeat case_decide; congruence.
      - injection Hstep as <-. split; [done|]. intros j. by rewrite decide_False. }
    destruct H1 as [Hlen1 Hvec1]. split; [congruence|].
    intros j Hj. rewrite <- Hlen1 in Hj. destruct (Hrun j Hj) as [Hset Hkeep].
    split.
    + intros (t' & Ht' & Hidx).
      destruct (decide (Exists (λ t'', index !! t'' = Some j) l)) as [Hex|Hnex].
      { apply Hset. by apply Exists_exists. }
      rewrite Exists_exists in Hnex. rewrite Hkeep.
      * apply elem_of_cons in Ht' as [->|Ht']; [|destruct Hnex; eauto].
        by rewrite Hvec1, decide_True.
      * intros t'' Ht'' Hi''. apply Hnex. eauto.
    + intros Hall. rewrite Hkeep.
      * rewrite Hvec1, decide_False; [done|]. apply Hall. by left.
      * intros t' Ht'. apply Hall. by right.
Qed.

Lemma zeros_lookup n j : j < n → Np.zeros n !! j = Some 0%N.
Proof. intros Hj. unfold Np.zeros. by apply lookup_replicate_2. Qed.

Lemma sum_zero_iff vec : Np.sum vec = 0%N ↔ ∀ x, x ∈ vec → x = 0%N.
Proof.
  unfold Np.sum. induction vec as [|x vec IH]; simpl.
  - split; [|done]. intros _ x Hx. by inversion Hx.
  - split.
    + intros Hs y Hy. apply N.eq_add_0 in Hs as [Hx Hs].
      apply elem_of_cons in Hy as [->|Hy]; [done|]. by apply IH.
    + intros Hall. rewrite (Hall x) by left. simpl. apply IH.
      intros y Hy. apply Hall. by right.
Qed.

Lemma indicator_fold (index : gmap string nat) (vocab l : list string) :
  (∀ s i, index !! s = Some i ↔ vocab !! i = Some s) →
  ∃ vec, fold_res (vec_step index) (Np.zeros (length vocab)) l = inr vec ∧
    length vec = length vocab ∧
    ∀ i t, vocab !! i = Some t →
      vec !! i = Some (if decide (t ∈ l) then 1%N else 0%N).
Proof.
  intros Hidx.
  destruct (RFVocabulary.fold_vec_step_total index (Np.zeros (length vocab)) l)
    as (vec & Hrun & Hlen).
  { intros t i Hi. unfold Np.zeros. rewrite length_replicate.
    apply Hidx in Hi. by eapply lookup_lt_Some. }
  exists vec. split; [done|].
  apply fold_vec_step_lookup in Hrun as [_ Hrun].
  unfold Np.zeros in Hlen, Hrun. rewrite length_replicate in Hlen, Hrun.
  split; [done|]. intros i t Hit.
  assert (Hi : i < length vocab) by by eapply lookup_lt_Some.
  destruct (Hrun i Hi) as [Hset Hkeep]. case_decide as Ht.
  - apply Hset. exists t. split; [done|]. by apply Hidx.
  - rewrite Hkeep; [by apply lookup_replicate_2|].
    intros t' Ht' Hi'. apply Hidx in Hi'. congruence.
Qed.

Module RFVector.
Import RF RFSpec RFFacts RFCalls RFVocabulary.

Lemma row_vector_run σ sset :
  (∀ s i, symptom_index σ !! s = Some i ↔ symptom_vocab σ !! i = Some s) →
  ∃ vec, _row_vector sset σ = (inr vec, σ) ∧
    length vec = length (symptom_vocab σ) ∧
    ∀ i t, symptom_vocab σ !! i = Some t →
      vec !! i = Some (if decide (t ∈ sset) then 1%N else 0%N).
Proof.
  intros Hidx.
  destruct (indicator_fold _ _ (elements sset) Hidx) as (vec & Hrun & Hlen & Hvec).
  exists vec. split_and!; [|done|].
  - unfold _row_vector, mbind, M_bind, gets, lift. simpl.
    unfold vec_step in Hrun. by rewrite Hrun.
  - intros i t Hit. rewrite (Hvec i t Hit).
    repeat case_decide; try done; set_solver.
Qed.

Lemma sum_indicator vocab (vec : list N) (X : string → Prop) `{∀ t, Decision (X t)} :
  (∀ i t, vocab !! i = Some t →
     vec !! i = Some (if decide (X t) then 1%N else 0%N)) →
  length vec = length vocab →
  Np.sum vec = 0%N ↔ ∀ t, t ∈ vocab → ¬ X t.
Proof.
  intros Hvec Hlen. rewrite sum_zero_iff. split.
  - intros Hall t Ht HX. apply list_elem_of_lookup in Ht as [i Hi].
    specialize (Hvec i t Hi). rewrite decide_True in Hvec by done.
    apply list_elem_of_lookup_2 in Hvec. by apply Hall in Hvec.
  - intros Hall x Hx. apply list_elem_of_lookup in Hx as [i Hi].
    assert (Hlt : i < length vocab).
    { rewrite <- Hlen. by eapply lookup_lt_Some. }
    apply lookup_lt_is_Some in Hlt as [t Ht].
    rewrite (Hvec i t Ht) in Hi. rewrite decide_False in Hi; [congruence|].
    apply Hall. by eapply list_elem_of_lookup_2.
Qed.

End RFVector.

Lemma vectorize_indicator_run (σ : RF.Engine) (symptoms : list string) :
  RFSpec.wf σ →
  ∃ vec c', RF._vectorize symptoms σ = (inr vec, RF.with_cache c' σ) ∧
    length vec = length (RF.symptom_vocab σ) ∧
    ∀ i t, RF.symptom_vocab σ !! i = Some t →
      vec !! i = Some (if decide (t ∈ norm <$> symptoms) then 1%N else 0%N).
Proof.
  intros Hwf. pose proof Hwf as (Hc & _).
  destruct (RFFacts.vectorize_run symptoms σ Hc) as (c' & _ & _ & Hrun).
  destruct (indicator_fold (RF.symptom_index σ) (RF.symptom_vocab σ)
              (norm <$> symptoms)) as (vec & Hfold & Hlen & Hvec).
  { apply Hwf. }
  exists vec, c'. rewrite Hrun, Hfold. done.
Qed.

(** X12.  [_vectorize] on a well-formed engine returns the indicator vector of
    the input: as long as the vocabulary, with 1 at the position of each
    vocabulary token that some input symptom normalises to, and 0
    elsewhere. *)
Theorem X12_rf_vectorize_indicator (σ : RF.Engine) (symptoms : list string) :
  RFSpec.wf σ →
  ∃ vec c', RF._vectorize symptoms σ = (inr vec, RF.with_cache c' σ) ∧
    length vec = length (RF.symptom_vocab σ) ∧
    ∀ i t, RF.symptom_vocab σ !! i = Some t →
      vec !! i = Some (if decide (t ∈ norm <$> symptoms) then 1%N else 0%N).
Proof.
  intros Hwf. pose proof Hwf as (Hc & _).
  destruct (RFFacts.vectorize_run symptoms σ Hc) as (c' & _ & _ & Hrun).
  destruct (indicator_fold (RF.symptom_index σ) (RF.symptom_vocab σ)
              (norm <$> symptoms)) as (vec & Hfold & Hlen & Hvec).
  { apply Hwf. }
  exists vec, c'. rewrite Hrun, Hfold. done.
Qed.


Lemma X12_rf_vectorize_indicator_witness :
  ∃ vec c', RF._vectorize [" Fever"; "COUGH"; "itch"] Demo.rf_engine
              = (inr vec, RF.with_cache c' Demo.rf_engine) ∧
            vec !! 0 = Some 1%N ∧ vec !! 1 = Some 0%N.
Proof.
  destruct (X12_rf_vectorize_indicator Demo.rf_engine [" Fever"; "COUGH"; "itch"])
    as (vec & c' & Hrun & Hlen & Hvec).
  - apply (RFCalls.init_wf Demo.fit Demo.rf_df). by vm_compute.
  - exists vec, c'. split; [exact Hrun|]. split.
    + rewrite (Hvec 0 "cough"); [|by vm_compute]. by vm_compute.
    + rewrite (Hvec 1 "fatigue"); [|by vm_compute]. by vm_compute.
Defined.

(** X13.  [_row_vector] on an engine whose index mirrors its vocabulary returns
    the indicator vector of the symptom set and leaves the object as it
    was. *)
Theorem X13_rf_row_vector_indicator (σ : RF.Engine) (sset : gset string) :
  (∀ s i, RF.symptom_index σ !! s = Some i ↔ RF.symptom_vocab σ !! i = Some s) →
  ∃ vec, RF._row_vector sset σ = (inr vec, σ) ∧
    length vec = length (RF.symptom_vocab σ) ∧
    (∀ i t, RF.symptom_vocab σ !! i = Some t →
       vec !! i = Some (if decide (t ∈ sset) then 1%N else 0%N)) ∧
    (Np.sum vec = 0%N ↔ ∀ t, t ∈ RF.symptom_vocab σ → t ∉ sset).
Proof.
  intros Hidx.
  destruct (RFVector.row_vector_run σ sset Hidx) as (vec & Hrun & Hlen & Hvec).
  exists vec. split_and!; try done.
  by apply (RFVector.sum_indicator _ _ (λ t, t ∈ sset)).
Qed.

Lemma X13_rf_row_vector_indicator_witness :
  ∃ vec, RF._row_vector {["fever"; "sneezing"]} Demo.rf_engine
           = (inr vec, Demo.rf_engine) ∧
         vec !! 2 = Some 1%N ∧ vec !! 0 = Some 0%N.
Proof.
  assert (Hwf : RFSpec.wf Demo.rf_engine).
  { apply (RFCalls.init_wf Demo.fit Demo.rf_df). by vm_compute. }
  destruct Hwf as (_ & _ & Hidx & _).
  destruct (X13_rf_row_vector_indicator Demo.rf_engine {["fever"; "sneezing"]} Hidx)
    as (vec & Hrun & _ & Hvec & _).
  exists vec. split; [exact Hrun|]. split.
  - rewrite (Hvec 2 "fever"); [|by vm_compute]. by vm_compute.
  - rewrite (Hvec 0 "cough"); [|by vm_compute]. by vm_compute.
Defined.

(** X14.  On an initialised random-forest engine a non-empty input is answered
    [unrecognized] exactly when no symptom normalises to a vocabulary
    token; when one does, the classifier is consulted and an answer, if
    [predict] returns one, is a [success]: the status [error] is out of
    reach. *)
Theorem X14_rf_unrecognized_iff (σ : RF.Engine) (symptoms : list string) :
  RFSpec.wf σ → symptoms ≠ [] →
  ((∀ s, s ∈ symptoms → norm s ∉ RF.symptom_vocab σ) →
   ∃ c', RF.predict symptoms σ =
           (inr RF.unrecognized_result, RF.with_cache c' σ)) ∧
  ((∃ s, s ∈ symptoms ∧ norm s ∈ RF.symptom_vocab σ) →
   ∀ r σ', RF.predict symptoms σ = (inr r, σ') → RF.status r = "success").
Proof.
  intros Hwf Hne. pose proof Hwf as (Hc & _ & Hidx & [m Hm]). split.
  - intros Hout.
    destruct (RFCalls.predict_unrecognized σ m symptoms Hc Hm Hne)
      as (c' & _ & _ & Hrun).
    + intros s Hs. apply RFCalls.wf_index_none; [done|]. by apply Hout.
    + by exists c'.
  - intros (s & Hs & Hin) r σ' Hrun.
    destruct (vectorize_indicator_run σ symptoms Hwf)
      as (vec & c' & Hv & Hlen & Hvec).
    destruct symptoms as [|s0 l]; [done|].
    unfold RF.predict in Hrun.
    unfold mbind at 1, M_bind at 1, gets at 1 in Hrun. rewrite Hm in Hrun.
    rewrite (bind_run _ _ _ _ _ Hv) in Hrun.
    rewrite decide_False in Hrun.
    2:{ rewrite (RFVector.sum_indicator _ _ (λ t, t ∈ norm <$> s0 :: l) Hvec Hlen).
        intros Hall. apply (Hall (norm s)); [done|].
        apply list_elem_of_fmap. by exists s. }
    apply RFCalls.bind_inr_inv in Hrun as (top_idx & σ2 & _ & Hrun).
    apply RFCalls.bind_inr_inv in Hrun as (top_disease & σ3 & _ & Hrun).
    apply RFCalls.bind_inr_inv in Hrun as (p & σ4 & Hp & Hrun).
    apply RFCalls.bind_inr_inv in Hrun as (cands & σ5 & _ & Hrun).
    apply RFCalls.bind_inr_inv in Hrun as (recs & σ6 & _ & Hrun).
    by injection Hrun as <- _.
Qed.

Lemma X14_rf_unrecognized_iff_witness :
  (∃ c', RF.predict ["itch"; " "] Demo.rf_engine =
           (inr RF.unrecognized_result, RF.with_cache c' Demo.rf_engine)) ∧
  (∀ r σ', RF.predict ["itch"; "Fever"] Demo.rf_engine = (inr r, σ') →
           RF.status r = "success").
Proof.
  assert (Hwf : RFSpec.wf Demo.rf_engine).
  { apply (RFCalls.init_wf Demo.fit Demo.rf_df). by vm_compute. }
  split.
  - destruct (X14_rf_unrecognized_iff Demo.rf_engine ["itch"; " "] Hwf) as [Hout _];
      [done|].
    apply Hout. intros s Hs.
    repeat (apply elem_of_cons in Hs as [->|Hs]; [by compute_done|]).
    by inversion Hs.
  - destruct (X14_rf_unrecognized_iff Demo.rf_engine ["itch"; "Fever"] Hwf) as [_ Hin];
      [done|].
    apply Hin. exists "Fever". split; [by compute_done|by compute_done].
Defined.

Module RFTrainingFacts.
Import RF RFSpec RFFacts RFPrepare RFCalls RFVector RFTraining.

Section training.
Variable fit : Fitting.

Lemma train_loop σ zs (xy : list (list N) * list pyval) r σ' :
  (∀ s i, symptom_index σ !! s = Some i ↔ symptom_vocab σ !! i = Some s) →
  length xy.1 = length xy.2 →
  foldM (λ (xy : list (list N) * list pyval)
           (rs : nat * gmap string pyval * gset string),
      if decide (rs.2 = (∅ : gset string)) then mret xy
      else
        x ← _row_vector rs.2;
        y ← lift (row_item rs.1.2 (disease_col (df σ)));
        mret (xy.1 ++ [x], xy.2 ++ [y])) xy zs σ = (r, σ') →
  σ' = σ ∧
  ∀ xy', r = inr xy' →
    ∃ Xs ys, xy' = (xy.1 ++ Xs, xy.2 ++ ys) ∧ length Xs = length ys ∧
      Forall2 (sample_of σ) (filter (λ z, z.2 ≠ ∅) zs) (zip Xs ys).
Proof.
  intros Hidx. revert xy.
  induction zs as [|z zs IH]; intros xy Hlen; cbn [foldM].
  - intros [= <- <-]. split; [done|]. intros xy' [= <-].
    exists [], []. rewrite !app_nil_r. split_and!; [by destruct xy|done|constructor].
  - rewrite filter_cons. case_decide as Hz.
    + rewrite decide_False by (intros ?; by destruct Hz).
      unfold mbind at 1, M_bind at 1. simpl. apply IH, Hlen.
    + rewrite decide_True by done.
      destruct (row_vector_run σ z.2 Hidx) as (x & Hx & Hxlen & Hxvec).
      unfold mbind at 1, M_bind at 1.
      unfold mbind at 1, M_bind at 1. rewrite Hx.
      unfold mbind at 1, M_bind at 1, lift at 1, row_item.
      destruct (z.1.2 !! disease_col (df σ)) as [y|] eqn:Hy.
      2:{ intros [= <- <-]. split; [done|]. by intros xy'. }
      unfold mret at 1, M_ret at 1.
      intros Hrun. apply IH in Hrun as [-> Hrun].
      2:{ simpl. rewrite !length_app. simpl. lia. }
      split; [done|]. intros xy' Hr.
      destruct (Hrun xy' Hr) as (Xs & ys & -> & Hl & HF).
      exists (x :: Xs), (y :: ys). simpl. rewrite <- !app_assoc. simpl.
      split_and!; [done|by rewrite Hl|].
      constructor; [|done]. by split_and!.
Qed.

Lemma train_run σ r σ' :
  (∀ s i, symptom_index σ !! s = Some i ↔ symptom_vocab σ !! i = Some s) →
  _train fit σ = (r, σ') →
  match r with
  | inr _ =>
      ∃ X y X_train X_test y_train y_test m acc,
        train_test_split fit (25 # 100) (random_state σ) X y
          = inr (X_train, X_test, y_train, y_test) ∧
        fit_forest fit (n_estimators σ) (random_state σ) X_train y_train
          = inr m ∧
        accuracy_score fit m X_test y_test = inr acc ∧
        σ' = with_model (Some m) σ ∧ X ≠ [] ∧ length X = length y ∧
        Forall2 (sample_of σ) (kept_rows σ) (zip X y)
  | inl e => True
  end.
Proof.
  intros Hidx. unfold _train.
  unfold mbind at 1, M_bind at 1, gets at 1.
  unfold mbind at 1, M_bind at 1, gets at 1.
  unfold mbind at 1, M_bind at 1.
  match goal with |- context [foldM ?f ?b ?l σ] =>
    destruct (foldM f b l σ) as [r1 σ1] eqn:Hloop
  end.
  apply train_loop in Hloop as [-> Hloop]; [|done..].
  destruct r1 as [e|xy]; [by intros [= <- <-]|].
  destruct (Hloop xy eq_refl) as (Xs & ys & -> & Hlen & HF). simpl.
  case_decide as Hz; [by intros [= <- <-]|].
  unfold mbind, M_bind, gets, lift, modify, mret, M_ret. simpl.
  destruct (train_test_split fit _ _ _ _)
    as [e|[[[X_train X_test] y_train] y_test]] eqn:Hsplit; simpl;
    [by intros [= <- <-]|].
  destruct (fit_forest fit _ _ _ _) as [e|m] eqn:Hfit; simpl;
    [by intros [= <- <-]|].
  destruct (accuracy_score fit _ _ _) as [e|acc] eqn:Hacc; intros [= <- <-];
    [done|].
  exists Xs, ys, X_train, X_test, y_train, y_test, m, acc.
  split_and!; try done. intros ->. done.
Qed.

Lemma train_empty σ :
  (∀ sset, sset ∈ _row_symptom_sets σ → sset = ∅) →
  _train fit σ = (inl ValueError, σ).
Proof.
  intros Hall. unfold _train.
  unfold mbind at 1, M_bind at 1, gets at 1.
  unfold mbind at 1, M_bind at 1, gets at 1.
  unfold mbind at 1, M_bind at 1.
  assert (Hloop : ∀ zs xy, (∀ z, z ∈ zs → z.2 = (∅ : gset string)) →
    foldM (λ (xy : list (list N) * list pyval)
             (rs : nat * gmap string pyval * gset string),
        if decide (rs.2 = (∅ : gset string)) then mret xy
        else
          x ← _row_vector rs.2;
          y ← lift (row_item rs.1.2 (disease_col (df σ)));
          mret (xy.1 ++ [x], xy.2 ++ [y])) xy zs σ = (inr xy, σ)).
  { induction zs as [|z zs IH]; intros xy Hz; cbn [foldM]; [done|].
    rewrite decide_True by (apply Hz; by left).
    unfold mbind at 1, M_bind at 1. simpl. apply IH.
    intros z' Hz'. apply Hz. by right. }
  rewrite Hloop; [done|].
  intros [ir sset] Hz. simpl. apply Hall.
  apply elem_of_zip_r in Hz. done.
Qed.

(** [__init__], with what [_train] handed to the split and to the
    fit. *)
Lemma rf_init_training d σ :
  init fit d = inr σ →
  let cols := filter (λ c, String.prefix _SYM_COL_PREFIX c) (columns d) in
  let acc := collect cols (∅, []) (iterrows d) in
  symptom_vocab σ = py_sorted acc.1 ∧
  _row_symptom_sets σ = acc.2 ∧
  ∃ X y X_train X_test y_train y_test m score,
    train_test_split fit (25 # 100) 42%Z X y
      = inr (X_train, X_test, y_train, y_test) ∧
    fit_forest fit 300%Z 42%Z X_train y_train = inr m ∧
    accuracy_score fit m X_test y_test = inr score ∧
    model σ = Some m ∧
    X ≠ [] ∧ length X = length y ∧
    Forall2 (sample_of σ) (kept_rows σ) (zip X y).
Proof.
  unfold init. set (σ0 := blank d).
  destruct (prepare_run σ0) as (c' & _ & Hok & Hprep); [apply cache_ok_empty|].
  cbv zeta in Hprep. rewrite (bind_run _ _ _ _ _ Hprep).
  destruct (_train fit _) as [r σ'] eqn:Htrain.
  apply train_run in Htrain.
  2:{ intros s i. simpl. apply enumerate_index_spec, NoDup_py_sorted. }
  destruct r as [e|[]]; [done|].
  destruct Htrain
    as (X & y & X_train & X_test & y_train & y_test & m & score &
        Hsplit & Hfit & Hacc & -> & HX & Hlen & HF).
  intros [= <-]. simpl. split_and!; [done..|].
  by exists X, y, X_train, X_test, y_train, y_test, m, score.
Qed.

Lemma init_empty d :
  (∀ row, row ∈ rows d →
     row_symptoms (filter (λ c, String.prefix _SYM_COL_PREFIX c) (columns d)) row
       = ∅) →
  init fit d = inl ValueError.
Proof.
  intros Hall. unfold init. set (σ0 := blank d).
  destruct (prepare_run σ0) as (c' & _ & Hok & Hprep); [apply cache_ok_empty|].
  cbv zeta in Hprep. rewrite (bind_run _ _ _ _ _ Hprep).
  rewrite train_empty; [done|].
  intros sset. simpl. rewrite collect_snd. simpl.
  intros (row & -> & Hrow)%list_elem_of_fmap.
  apply Hall. by rewrite iterrows_snd in Hrow.
Qed.

End training.

Lemma row_symptoms_absent cols row :
  (∀ col, col ∈ cols → absent (row_get row col PNone) = true) →
  row_symptoms cols row = ∅.
Proof.
  intros Hall. apply leibniz_equiv, elem_of_equiv_empty. intros t Ht.
  apply rf_elem_of_row_symptoms in Ht as (_ & col & Hcol & Ht).
  unfold cell_tokens in Ht. rewrite (Hall col Hcol) in Ht. by inversion Ht.
Qed.

End RFTrainingFacts.

(** X10.  What [__init__] of the random-forest engine hands to scikit-learn
    when it succeeds.  It builds one sample per row of the frame that has
    a non-empty symptom set, in row order, labelled with the row's disease
    cell and featured by the indicator vector of the set over the
    vocabulary; there is at least one sample, no sample is the zero
    vector, and so the vocabulary is not empty.  These samples go to
    [train_test_split] with test size 0.25 and random state 42.  The
    forest is fitted, with 300 estimators and random state 42, on the
    training part the split returned, not on all the samples; the
    accuracy is computed on the holdout part; and the model the engine
    keeps is the fitted forest. *)
Theorem X10_rf_training_set (fit : RF.Fitting) (d : DataFrame) (σ : RF.Engine) :
  RF.init fit d = inr σ →
  ∃ X y X_train X_test y_train y_test m score,
    RF.train_test_split fit (25 # 100) 42%Z X y
      = inr (X_train, X_test, y_train, y_test) ∧
    RF.fit_forest fit 300%Z 42%Z X_train y_train = inr m ∧
    RF.accuracy_score fit m X_test y_test = inr score ∧
    RF.model σ = Some m ∧
    X ≠ [] ∧ length X = length y ∧
    Forall2 (RFTraining.sample_of σ) (RFTraining.kept_rows σ) (zip X y) ∧
    (∀ x, x ∈ X → Np.sum x ≠ 0%N) ∧
    RF.symptom_vocab σ ≠ [].
Proof.
  intros Hinit.
  destruct (RFTrainingFacts.rf_init_training fit d σ Hinit)
    as (Hvocab & Hsets & X & y & X_train & X_test & y_train & y_test & m &
        score & Hsplit & Hfit & Hacc & Hm & HX & Hlen & HF).
  assert (Hsum : ∀ x, x ∈ X → Np.sum x ≠ 0%N).
  { intros x Hx.
    apply list_elem_of_lookup in Hx as [k Hk].
    assert (Hky : is_Some (y !! k)).
    { apply lookup_lt_is_Some. rewrite <- Hlen. by eapply lookup_lt_Some. }
    destruct Hky as [l Hl].
    assert (Hzip : zip X y !! k = Some (x, l)).
    { apply lookup_zip_with_Some. by exists x, l. }
    destruct (Forall2_lookup_r _ _ _ _ _ HF Hzip) as (z & Hz & _ & Hxl & Hvec).
    apply list_elem_of_lookup_2, list_elem_of_filter in Hz as [Hne Hz].
    destruct z as [ir sset]. apply elem_of_zip_r in Hz.
    simpl in *.
    assert (Hex : ∃ t, t ∈ sset).
    { apply set_choose_L. done. }
    destruct Hex as [t Ht].
    rewrite (RFVector.sum_indicator _ _ (λ t, t ∈ sset) Hvec Hxl).
    intros Hall. apply (Hall t); [|done].
    rewrite Hvocab, elem_of_py_sorted. rewrite Hsets in Hz.
    rewrite RFPrepare.collect_snd in Hz. simpl in Hz.
    apply list_elem_of_fmap in Hz as (row & -> & Hrow).
    apply list_elem_of_fmap in Hrow as (ir' & -> & Hir).
    apply RFPrepare.elem_of_collect_fst. right. by exists ir'. }
  exists X, y, X_train, X_test, y_train, y_test, m, score.
  split_and!; try done.
  intros Hnil. destruct X as [|x X]; [done|].
  apply (Hsum x); [by left|].
  assert (Hl : length x = 0).
  { destruct y as [|l y]; [done|]. simpl in HF.
    apply Forall2_cons_inv_r in HF as (z & zs & (_ & Hxl & _) & _ & _).
    simpl in Hxl. by rewrite Hxl, Hnil. }
  by destruct x.
Qed.

Lemma X10_rf_training_set_witness :
  ∃ X y X_train y_train,
    RF.train_test_split Demo.fit (25 # 100) 42%Z X y
      = inr (X_train, [], y_train, []) ∧
    RF.fit_forest Demo.fit 300%Z 42%Z X_train y_train = inr Demo.forest ∧
    RF.model Demo.rf_engine = Some Demo.forest ∧ length X = length y ∧
    RF.symptom_vocab Demo.rf_engine ≠ [].
Proof.
  assert (Hinit : RF.init Demo.fit Demo.rf_df = inr Demo.rf_engine)
    by (vm_compute; reflexivity).
  destruct (X10_rf_training_set Demo.fit Demo.rf_df Demo.rf_engine Hinit)
    as (X & y & X_train & X_test & y_train & y_test & m & score &
        Hsplit & Hfit & _ & Hm & _ & Hlen & _ & _ & Hv).
  exists X, y, X. exists y.
  split; [reflexivity|]. split; [reflexivity|].
  split; [reflexivity|]. split; [exact Hlen|exact Hv].
Defined.

(** X11.  A frame without symptoms cannot initialise the random-forest engine:
    when every cell of every column whose label starts with the symptom
    prefix is absent (in particular when no column carries the prefix, as
    in a file laid out for the overlap engine), [__init__] raises
    [ValueError] before any fit. *)
Theorem X11_rf_init_no_training_data (fit : RF.Fitting) (d : DataFrame) :
  (∀ row col, row ∈ rows d → col ∈ columns d →
     String.prefix RF._SYM_COL_PREFIX col = true →
     RF.absent (row_get row col PNone) = true) →
  RF.init fit d = inl ValueError.
Proof.
  intros Hall. apply RFTrainingFacts.init_empty. intros row Hrow.
  apply RFTrainingFacts.row_symptoms_absent. intros col Hcol.
  apply list_elem_of_filter in Hcol as [Hpre Hcol].
  apply Hall; [done..|]. by apply Is_true_true.
Qed.

Lemma X11_rf_init_no_training_data_witness :
  RF.init Demo.fit Demo.overlap_df = inl ValueError.
Proof.
  apply (X11_rf_init_no_training_data Demo.fit Demo.overlap_df).
  intros row col _ Hcol Hpre. exfalso.
  repeat (apply elem_of_cons in Hcol as [->|Hcol]; [by vm_compute in Hpre|]).
  by inversion Hcol.
Defined.

Module RFChoiceFacts.
Import RF RFSpec RFFacts RFCalls RFChoice.

Lemma best_row_step_inv d_col disease input_norm pre acc z acc' :
  best_inv d_col disease input_norm pre acc →
  best_row_step d_col disease input_norm acc z = inr acc' →
  best_inv d_col disease input_norm (pre ++ [z]) acc'.
Proof.
  intros Hinv. unfold best_row_step, row_item.
  destruct (z.1.2 !! d_col) as [label|] eqn:Hlabel; [|done]. simpl.
  destruct (py_ne label disease) eqn:Hne.
  - (* the row is of another disease *)
    intros [= <-]. unfold best_inv in *. destruct acc.1 as [row|].
    + destruct Hinv as (k & z0 & (z1 & Hk1 & Hlab & Hmax) & Hk & Hrow & Hw).
      exists k, z0. split_and!; [|by apply lookup_app_l_Some|done..].
      exists z1. split_and!; [by apply lookup_app_l_Some|done|].
      intros j z' Hj Hl'. apply lookup_app_Some in Hj as [Hj|[_ Hj]].
      { by apply Hmax. }
      apply list_lookup_singleton_Some in Hj as [_ <-].
      destruct Hl' as (l' & Hl' & Hne'). congruence.
    + destruct Hinv as [H1 Hnone]. split; [done|].
      intros z' [Hz'|Hz']%elem_of_app; [by apply Hnone|].
      apply list_elem_of_singleton in Hz' as ->.
      intros (l' & Hl' & Hne'). congruence.
  - assert (Hz : labelled d_col disease z.1.2) by by exists label.
    destruct (acc.2 <? _)%Z eqn:Hlt; intros [= <-].
    + (* a strictly larger overlap: the row is taken *)
      apply Z.ltb_lt in Hlt. unfold best_inv in *. cbn [fst snd].
      exists (length pre), z.
      assert (Hlast : (pre ++ [z]) !! length pre = Some z).
      { rewrite lookup_app_r by done. by rewrite Nat.sub_diag. }
      split_and!; [|done..].
      exists z. split_and!; [done..|].
      intros j z' Hj Hl'. apply lookup_app_Some in Hj as [Hj|[Hge Hj]].
      * assert (size (input_norm ∩ z'.2) < size (input_norm ∩ z.2)); [|lia].
        destruct acc.1 as [row|].
        -- destruct Hinv as (k & z0 & (z1 & Hk1 & _ & Hmax) & Hk & _ & Hw).
           rewrite Hk in Hk1. injection Hk1 as <-.
           destruct (Hmax j z' Hj Hl') as [Hle _]. lia.
        -- destruct Hinv as [_ Hnone]. destruct (Hnone z'); [|done].
           by eapply list_elem_of_lookup_2.
      * apply list_lookup_singleton_Some in Hj as [Hj0 <-]. split; [done|]. lia.
    + (* no larger: the earlier row stays *)
      apply Z.ltb_ge in Hlt. unfold best_inv in *. destruct acc.1 as [row|].
      * destruct Hinv as (k & z0 & (z1 & Hk1 & Hlab & Hmax) & Hk & Hrow & Hw).
        rewrite Hk in Hk1. injection Hk1 as <-.
        exists k, z0. split_and!; [|by apply lookup_app_l_Some|done..].
        exists z0. split_and!; [by apply lookup_app_l_Some|done|].
        intros j z' Hj Hl'. apply lookup_app_Some in Hj as [Hj|[Hge Hj]].
        { by apply Hmax. }
        apply list_lookup_singleton_Some in Hj as [Hj0 <-].
        split; [lia|]. intros Hjk. apply lookup_lt_Some in Hk. lia.
      * destruct Hinv as [H1 _]. lia.
Qed.

Lemma best_rows_inv d_col disease input_norm zs pre acc found :
  best_inv d_col disease input_norm pre acc →
  fold_res (best_row_step d_col disease input_norm) acc zs = inr found →
  best_inv d_col disease input_norm (pre ++ zs) found.
Proof.
  revert pre acc. induction zs as [|z zs IH]; intros pre acc Hinv; cbn [fold_res].
  - intros [= <-]. by rewrite app_nil_r.
  - destruct (best_row_step _ _ _ acc z) as [e|acc'] eqn:Hstep; [done|]. simpl.
    intros Hrun. replace (pre ++ z :: zs) with ((pre ++ [z]) ++ zs)
      by by rewrite <- app_assoc.
    eapply IH; [|done]. by eapply best_row_step_inv.
Qed.

Lemma best_recommendations_inv σ disease symptoms recs σ' :
  cache_ok (get_cache σ) →
  _best_recommendations disease symptoms σ = (inr recs, σ') →
  ∃ k z,
    chosen (disease_col (df σ)) disease (OverlapSpec.input_set symptoms)
      (zip (iterrows (df σ)) (_row_symptom_sets σ)) k ∧
    zip (iterrows (df σ)) (_row_symptom_sets σ) !! k = Some z ∧
    recs = recommendations z.1.2.
Proof.
  intros Hc.
  pose proof (mapM_norm_run (filter (λ s, Py.nonempty s) symptoms) σ Hc) as Hrun.
  unfold _best_recommendations, _norm. rewrite (bind_run _ _ _ _ _ Hrun).
  fold (OverlapSpec.input_set symptoms).
  unfold mbind, M_bind, gets, lift. simpl.
  destruct (fold_res _ _ _) as [e|found] eqn:Hfold; [done|].
  apply (best_rows_inv _ _ _ _ []) in Hfold.
  2:{ split; [done|]. intros z Hz. by inversion Hz. }
  unfold best_inv in Hfold. simpl in Hfold.
  destruct found.1 as [row|].
  - destruct Hfold as (k & z & Hch & Hk & <- & _). intros [= <- _]. by exists k, z.
  - by case_bool_decide.
Qed.

Lemma recommendation_cases row col fallback :
  recommendation row col fallback = fallback ∨
  ∃ s, row !! col = Some (PStr s) ∧
    recommendation row col fallback = Py.strip s ∧
    Py.strip s ≠ EmptyString ∧
    Py.lower (Py.strip s) ≠ "nan" ∧ Py.lower (Py.strip s) ≠ "none".
Proof.
  unfold recommendation, row_get.
  destruct (row !! col) as [[| |s]|] eqn:Hcell; simpl; [by left..| |by left].
  destruct (Py.nonempty (Py.strip s)) eqn:Hne; simpl; [|by left].
  case_bool_decide as Hin; [by left|]. right. exists s.
  split_and!; [done..| | |].
  - by destruct (Py.strip s).
  - intros Heq. apply Hin. rewrite Heq. by left.
  - intros Heq. apply Hin. rewrite Heq. right. by left.
Qed.

End RFChoiceFacts.

(** X16.  [_best_recommendations] answers from the first row of the predicted
    disease among those whose symptom set shares the most symptoms with
    the normalised input.  When no row carries the disease label it does
    not answer at all: the lookup after the loop raises. *)
Theorem X16_rf_best_recommendations (σ : RF.Engine) (disease : pyval)
    (symptoms : list string) (recs : string * string * string) (σ' : RF.Engine) :
  cache_ok (get_cache σ) →
  RF._best_recommendations disease symptoms σ = (inr recs, σ') →
  ∃ k z,
    RFChoice.chosen (RF.disease_col (RF.df σ)) disease
      (OverlapSpec.input_set symptoms)
      (zip (iterrows (RF.df σ)) (RF._row_symptom_sets σ)) k ∧
    zip (iterrows (RF.df σ)) (RF._row_symptom_sets σ) !! k = Some z ∧
    z.1.1 = k ∧ rows (RF.df σ) !! k = Some z.1.2 ∧
    recs = RF.recommendations z.1.2.
Proof.
  intros Hc Hrun.
  destruct (RFChoiceFacts.best_recommendations_inv _ _ _ _ _ Hc Hrun)
    as (k & z & Hch & Hk & Hrecs).
  exists k, z. split_and!; try done.
  - apply lookup_zip_with_Some in Hk as (ir & sset & -> & Hir & _).
    apply lookup_zip_with_Some in Hir as (i & row & -> & Hi & _).
    apply lookup_seq in Hi as [-> _]. done.
  - apply lookup_zip_with_Some in Hk as (ir & sset & -> & Hir & _).
    apply lookup_zip_with_Some in Hir as (i & row & -> & _ & Hrow). done.
Qed.

Lemma X16_rf_best_recommendations_witness :
  ∃ recs σ' k (z : nat * gmap string pyval * gset string),
    RF._best_recommendations (PStr "Cold") ["cough"] Demo.rf_engine = (inr recs, σ') ∧
    rows (RF.df Demo.rf_engine) !! k = Some z.1.2 ∧
    RFChoice.labelled "Disease" (PStr "Cold") z.1.2 ∧
    recs = RF.recommendations z.1.2.
Proof.
  pose (res := RF._best_recommendations (PStr "Cold") ["cough"] Demo.rf_engine).
  assert (Hres : ∃ recs σ', res = (inr recs, σ')).
  { eexists _, _. by vm_compute. }
  destruct Hres as (recs & σ' & Hrun).
  destruct (X16_rf_best_recommendations Demo.rf_engine (PStr "Cold") ["cough"] recs σ')
    as (k & z & Hch & Hk & Hidx & Hrow & Hrecs).
  - by compute_done.
  - exact Hrun.
  - exists recs, σ', k, z.
    split; [exact Hrun|]. split; [exact Hrow|]. split; [|exact Hrecs].
    destruct Hch as (z' & Hk' & Hlab & _).
    rewrite Hk in Hk'. injection Hk' as <-. exact Hlab.
Defined.

Module RFSuccess.
Import RF RFSpec RFFacts RFCalls.

(** The path of [predict] to a [success], step by step. *)
Lemma predict_success_inv σ symptoms r σ' :
  cache_ok (get_cache σ) →
  predict symptoms σ = (inr r, σ') → status r = "success" →
  ∃ m vec c1 top top_disease p cands recs,
    model σ = Some m ∧
    _vectorize symptoms σ = (inr vec, with_cache c1 σ) ∧ cache_ok c1 ∧
    Np.argmax (predict_proba m vec) = inr top ∧
    Np.item (classes_ m) top = inr top_disease ∧
    Np.item (predict_proba m vec) top = inr p ∧
    fold_res (λ acc i,
        c ← Np.item (classes_ m) i;
        q ← Np.item (predict_proba m vec) i;
        inr (acc ++ [(c, percent q)])) []
      (take 3 (reverse (Np.argsort (predict_proba m vec)))) = inr cands ∧
    _best_recommendations top_disease symptoms (with_cache c1 σ) = (inr recs, σ') ∧
    r = {| predicted_disease := top_disease;
           confidence := percent p;
           medicine_recommendation := recs.1.1;
           diet_recommendation := recs.1.2;
           foods_to_avoid := recs.2;
           status := "success";
           candidates := Some cands |}.
Proof.
  intros Hc Hrun Hst. destruct symptoms as [|s0 l].
  { injection Hrun as <- _. done. }
  destruct (vectorize_run (s0 :: l) σ Hc) as (c1 & _ & Hok1 & Hv).
  unfold predict in Hrun.
  unfold mbind at 1, M_bind at 1, gets at 1 in Hrun.
  destruct (model σ) as [m|] eqn:Hmodel; [|by injection Hrun as <- _].
  destruct (fold_res _ _ _) as [e|vec] eqn:Hfold in Hv.
  { by rewrite (bind_raise _ _ _ _ _ Hv) in Hrun. }
  rewrite (bind_run _ _ _ _ _ Hv) in Hrun.
  case_decide; [by injection Hrun as <- _|].
  unfold mbind at 1, M_bind at 1, lift at 1 in Hrun.
  destruct (Np.argmax _) as [e|top] eqn:Htop; [done|].
  unfold mbind at 1, M_bind at 1, lift at 1 in Hrun.
  destruct (Np.item (classes_ m) top) as [e|top_disease] eqn:Hd; [done|].
  unfold mbind at 1, M_bind at 1, lift at 1 in Hrun.
  destruct (Np.item (predict_proba m _) top) as [e|p] eqn:Hp; [done|].
  unfold mbind at 1, M_bind at 1, lift at 1 in Hrun.
  destruct (fold_res _ _ _) as [e|cands] eqn:Hcands; [done|].
  unfold mbind at 1, M_bind at 1 in Hrun.
  destruct (_best_recommendations _ _ _) as [[e|recs] σ6] eqn:Hrecs; [done|].
  injection Hrun as <- <-.
  eexists m, _, c1, top, top_disease, p, cands, recs.
  split_and!; try done.
Qed.

End RFSuccess.

(** X17.  A recommendation of the random-forest engine is either the stock
    sentence or the trimmed text of a string cell that is not empty and
    does not read nan or none in any letter case; so a [success] never
    shows an empty, nan or none recommendation. *)
Theorem X17_rf_recommendation_text :
  (∀ row col fallback,
     RF.recommendation row col fallback = fallback ∨
     ∃ s, row !! col = Some (PStr s) ∧
       RF.recommendation row col fallback = Py.strip s ∧
       Py.strip s ≠ EmptyString ∧
       Py.lower (Py.strip s) ≠ "nan" ∧ Py.lower (Py.strip s) ≠ "none") ∧
  (∀ (σ : RF.Engine) symptoms r σ',
     cache_ok (get_cache σ) →
     RF.predict symptoms σ = (inr r, σ') → RF.status r = "success" →
     ∀ v, v = RF.medicine_recommendation r ∨ v = RF.diet_recommendation r
          ∨ v = RF.foods_to_avoid r →
       v ≠ EmptyString ∧ Py.lower v ≠ "nan" ∧ Py.lower v ≠ "none").
Proof.
  split; [apply RFChoiceFacts.recommendation_cases|].
  intros σ symptoms r σ' Hc Hrun Hst v Hv.
  destruct (RFSuccess.predict_success_inv σ symptoms r σ' Hc Hrun Hst)
    as (m & vec & c1 & top & d & p & cands & recs & _ & _ & Hok & _ & _ & _ & _
        & Hrecs & ->).
  apply RFChoiceFacts.best_recommendations_inv in Hrecs
    as (k & z & _ & _ & ->); [|done].
  unfold RF.recommendations in Hv. simpl in Hv.
  destruct Hv as [-> | [-> | ->]];
    match goal with |- context [RF.recommendation ?row ?col ?fb] =>
      destruct (RFChoiceFacts.recommendation_cases row col fb)
        as [-> | (s & _ & -> & ? & ? & ?)]
    end; done.
Qed.

Lemma X17_rf_recommendation_text_witness :
  RF.recommendation (Demo.rf_row "Flu" "Fever, cough" "fatigue")
    "Foods To Avoid" "No specific foods to avoid mentioned"
  = "No specific foods to avoid mentioned" ∧
  ∃ r σ', RF.predict ["fever"] Demo.rf_engine = (inr r, σ') ∧
          RF.foods_to_avoid r ≠ EmptyString ∧
          Py.lower (RF.foods_to_avoid r) ≠ "nan".
Proof.
  split; [by vm_compute|].
  pose (res := RF.predict ["fever"] Demo.rf_engine).
  assert (Hres : ∃ r σ', res = (inr r, σ') ∧ RF.status r = "success").
  { eexists _, _. by vm_compute. }
  destruct Hres as (r & σ' & Hrun & Hst). exists r, σ'. split; [exact Hrun|].
  assert (Hc : cache_ok (get_cache Demo.rf_engine)) by by compute_done.
  destruct X17_rf_recommendation_text as [_ Hclean].
  destruct (Hclean Demo.rf_engine ["fever"] r σ' Hc Hrun Hst
              (RF.foods_to_avoid r) (or_intror (or_intror eq_refl)))
    as (H1 & H2 & _).
  split; [exact H1|exact H2].
Defined.

(** ** The percentage is monotone *)

Lemma percent_mono p1 p2 : (p1 <= p2)%Q → (RF.percent p1 <= RF.percent p2)%Q.
Proof.
  intros Hle. unfold RF.percent. apply round1_mono.
  by apply fmul_mono_l.
Qed.

Lemma percent_proper p1 p2 : p1 == p2 → RF.percent p1 = RF.percent p2.
Proof. intros Heq. unfold RF.percent. by rewrite (fmul_proper p1 p2). Qed.

(** ** [argmax] and [argsort] *)

Lemma argmax_from_spec l pre best_i best :
  pre !! best_i = Some best →
  (∀ q, q ∈ pre → (q <= best)%Q) →
  (∀ j q, j < best_i → pre !! j = Some q → (q < best)%Q) →
  ∃ p, (pre ++ l) !! Np.argmax_from (length pre) best_i best l = Some p ∧
    (∀ q, q ∈ pre ++ l → (q <= p)%Q) ∧
    (∀ j q, j < Np.argmax_from (length pre) best_i best l →
       (pre ++ l) !! j = Some q → (q < p)%Q).
Proof.
  revert pre best_i best. induction l as [|x l IH]; intros pre best_i best Hb Hmax Hfirst.
  - simpl. rewrite app_nil_r. by exists best.
  - cbn [Np.argmax_from].
    replace (pre ++ x :: l) with ((pre ++ [x]) ++ l) by by rewrite <- app_assoc.
    replace (S (length pre)) with (length (pre ++ [x]))
      by (rewrite length_app; simpl; lia).
    destruct (Qltb best x) eqn:Hlt.
    + apply Qltb_lt in Hlt. apply IH.
      * rewrite lookup_app_r by done. by rewrite Nat.sub_diag.
      * intros q [Hq|Hq]%elem_of_app.
        -- specialize (Hmax q Hq). lra.
        -- apply list_elem_of_singleton in Hq as ->. lra.
      * intros j q Hj Hq. rewrite lookup_app_l in Hq by done.
        apply list_elem_of_lookup_2 in Hq. specialize (Hmax q Hq). lra.
    + apply Qltb_ge in Hlt. apply IH.
      * by apply lookup_app_l_Some.
      * intros q [Hq|Hq]%elem_of_app; [by apply Hmax|].
        by apply list_elem_of_singleton in Hq as ->.
      * intros j q Hj Hq. apply (Hfirst j q Hj).
        rewrite lookup_app_l in Hq; [done|].
        apply lookup_lt_Some in Hb. lia.
Qed.

(** [np.argmax]: the first index of a largest entry. *)
Lemma argmax_spec a i :
  Np.argmax a = inr i →
  ∃ p, a !! i = Some p ∧ (∀ q, q ∈ a → (q <= p)%Q) ∧
       (∀ j q, j < i → a !! j = Some q → (q < p)%Q).
Proof.
  unfold Np.argmax. destruct a as [|x l]; [done|]. intros [= <-].
  apply (argmax_from_spec l [x] 0 x); [done| |].
  - intros q Hq. apply list_elem_of_singleton in Hq as ->. lra.
  - intros j q Hj. lia.
Qed.

Global Instance Qle_fst_total : Total (λ x y : Q * nat, (x.1 <= y.1)%Q).
Proof. intros x y. destruct (Qlt_le_dec y.1 x.1); [right; lra|by left]. Qed.

Global Instance Qle_fst_trans : Transitive (λ x y : Q * nat, (x.1 <= y.1)%Q).
Proof. intros x y z ??. by eapply Qle_trans. Qed.

Lemma StronglySorted_lookup_le {A} (R : relation A) l i j x y :
  StronglySorted R l → i < j → l !! i = Some x → l !! j = Some y → R x y.
Proof.
  intros Hs. revert i j. induction Hs as [|z l Hs IH Hall]; intros i j Hij Hi Hj.
  - done.
  - destruct j as [|j]; [lia|]. simpl in Hj. destruct i as [|i].
    + injection Hi as <-. rewrite Forall_forall in Hall. apply Hall.
      by eapply list_elem_of_lookup_2.
    + simpl in Hi. apply (IH i j); [lia|done..].
Qed.

(** The entries of an array paired with their indices, largest first, as
    [np.argsort(a)[::-1]] lists them. *)
Lemma argsort_desc a :
  ∃ desc : list (Q * nat),
    reverse (Np.argsort a) = desc.*2 ∧
    desc ≡ₚ zip a (seq 0 (length a)) ∧
    ∀ k1 k2 x y, k1 < k2 → desc !! k1 = Some x → desc !! k2 = Some y →
      (y.1 <= x.1)%Q.
Proof.
  set (R := λ x y : Q * nat, (x.1 <= y.1)%Q).
  set (l := zip a (seq 0 (length a))).
  exists (reverse (merge_sort R l)). split_and!.
  - unfold Np.argsort. by rewrite fmap_reverse.
  - rewrite reverse_Permutation. apply merge_sort_Permutation.
  - intros k1 k2 x y Hk H1 H2.
    pose proof (StronglySorted_merge_sort R l) as Hs.
    apply reverse_lookup_Some in H1 as [H1 Hl1].
    apply reverse_lookup_Some in H2 as [H2 Hl2].
    apply (StronglySorted_lookup_le R _ _ _ _ _ Hs) with (3 := H1) (2 := H2). lia.
Qed.

Lemma zip_seq_lookup {A} (a : list A) q i :
  (q, i) ∈ zip a (seq 0 (length a)) ↔ a !! i = Some q.
Proof.
  rewrite list_elem_of_lookup. split.
  - intros (k & Hk). apply lookup_zip_with_Some in Hk as (q' & i' & [= <- <-] & Hq & Hi).
    apply lookup_seq in Hi as [Hi _]. simpl in Hi. by subst.
  - intros Hq. exists i. apply lookup_zip_with_Some. exists q, i.
    split_and!; [done..|]. apply lookup_seq. split; [done|].
    by eapply lookup_lt_Some.
Qed.

Lemma candidates_run (classes : list pyval) (proba : list Q) order acc cands :
  fold_res (λ acc i,
      c ← Np.item classes i;
      q ← Np.item proba i;
      inr (acc ++ [(c, RF.percent q)])) acc order = inr cands →
  ∃ new, cands = acc ++ new ∧
    Forall2 (λ i (c : pyval * Q), classes !! i = Some c.1 ∧
               ∃ q, proba !! i = Some q ∧ c.2 = RF.percent q) order new.
Proof.
  revert acc. induction order as [|i order IH]; intros acc; cbn [fold_res].
  - intros [= <-]. exists []. by rewrite app_nil_r.
  - unfold Np.item, mbind, res_bind.
    destruct (classes !! i) as [c|] eqn:Hc; [|done].
    destruct (proba !! i) as [q|] eqn:Hq; [|done].
    intros Hrun. apply IH in Hrun as (new & -> & HF).
    exists ((c, RF.percent q) :: new). rewrite <- app_assoc. split; [done|].
    constructor; [|done]. split; [done|]. by exists q.
Qed.

Module RFRanking.
Import RF.

(** The ranking [predict] builds from the probabilities [proba]: the
    indices of the (up to) three largest entries, largest first. *)
Lemma order_spec (proba : list Q) :
  let order := take 3 (reverse (Np.argsort proba)) in
  NoDup order ∧ length order = min 3 (length proba) ∧
  (∀ i, i ∈ order → is_Some (proba !! i)) ∧
  (∀ i j qi qj, i ∈ order → j ∉ order →
     proba !! i = Some qi → proba !! j = Some qj → (qj <= qi)%Q) ∧
  (∀ k1 k2 i1 i2 q1 q2, k1 ≤ k2 →
     order !! k1 = Some i1 → order !! k2 = Some i2 →
     proba !! i1 = Some q1 → proba !! i2 = Some q2 → (q2 <= q1)%Q) ∧
  (∀ i0 q0 q, order !! 0 = Some i0 → proba !! i0 = Some q0 →
     q ∈ proba → (q <= q0)%Q).
Proof.
  intros order. destruct (argsort_desc proba) as (desc & Hrev & Hperm & Hdesc).
  assert (Hin : ∀ q i, (q, i) ∈ desc ↔ proba !! i = Some q).
  { intros q i. rewrite Hperm. apply zip_seq_lookup. }
  assert (Hlen : length desc = length proba).
  { rewrite Hperm, length_zip_with, length_seq. lia. }
  assert (Hnd : NoDup desc.*2).
  { rewrite Hperm, snd_zip by (rewrite length_seq; lia). apply NoDup_seq. }
  assert (Hord : ∀ k i, order !! k = Some i ↔
            k < 3 ∧ ∃ q, desc !! k = Some (q, i)).
  { intros k i. unfold order. rewrite Hrev, lookup_take_Some, list_lookup_fmap.
    split.
    - intros [Hk Hlt]. split; [done|].
      destruct (desc !! k) as [[q i']|]; [|done]. injection Hk as <-. by exists q.
    - intros [Hlt (q & ->)]. done. }
  assert (Hq : ∀ k q i, desc !! k = Some (q, i) → proba !! i = Some q).
  { intros k q i Hk. apply Hin. by eapply list_elem_of_lookup_2. }
  split_and!.
  - unfold order. rewrite Hrev.
    rewrite <- (take_drop 3 desc.*2) in Hnd. by apply NoDup_app in Hnd as [? _].
  - unfold order. rewrite Hrev, length_take, length_fmap, Hlen. done.
  - intros i (k & Hk)%list_elem_of_lookup. apply Hord in Hk as [_ (q & Hk)].
    exists q. by eapply Hq.
  - intros i j qi qj (k & Hk)%list_elem_of_lookup Hj Hi Hqj.
    apply Hord in Hk as [Hk3 (q & Hk)].
    pose proof (Hq _ _ _ Hk) as Hqi. rewrite Hi in Hqi. injection Hqi as <-.
    apply Hin, list_elem_of_lookup in Hqj as [k' Hk'].
    destruct (decide (k' < 3)) as [Hlt|Hge].
    { destruct Hj. apply list_elem_of_lookup. exists k'. apply Hord. eauto. }
    apply (Hdesc k k' (qi, i) (qj, j)); [lia|done..].
  - intros k1 k2 i1 i2 q1 q2 Hle H1 H2 Hq1 Hq2.
    apply Hord in H1 as [_ (q1' & H1)]. apply Hord in H2 as [_ (q2' & H2)].
    pose proof (Hq _ _ _ H1) as E1. rewrite Hq1 in E1. injection E1 as <-.
    pose proof (Hq _ _ _ H2) as E2. rewrite Hq2 in E2. injection E2 as <-.
    destruct (decide (k1 = k2)) as [->|Hne].
    + rewrite H1 in H2. injection H2 as <- _. apply Qle_refl.
    + apply (Hdesc k1 k2 (q1, i1) (q2, i2)); [lia|done..].
  - intros i0 q0 q H0 Hq0 Hqin.
    apply Hord in H0 as [_ (q0' & H0)].
    pose proof (Hq _ _ _ H0) as E. rewrite Hq0 in E. injection E as <-.
    apply list_elem_of_lookup in Hqin as [j Hj].
    apply Hin, list_elem_of_lookup in Hj as [k Hk].
    destruct k as [|k].
    + rewrite H0 in Hk. injection Hk as <- _. apply Qle_refl.
    + apply (Hdesc 0 (S k) (q0, i0) (q, j)); [lia|done..].
Qed.

End RFRanking.

(** X15.  What a [success] of the random-forest engine reports.  The predicted
    disease is the class at the first index of a largest probability, and
    the confidence is the percentage of that probability: the probability
    times 100 as a float, rounded to one decimal.  The candidates are the
    classes at the indices of the three largest probabilities (all of them
    when there are fewer), each with its percentage computed the same
    way, no class index twice, in order of non-increasing confidence, and
    the first candidate has the confidence of the result. *)
Theorem X15_rf_success_ranking (σ : RF.Engine) (symptoms : list string)
    (r : RF.Result) (σ' : RF.Engine) :
  cache_ok (get_cache σ) →
  RF.predict symptoms σ = (inr r, σ') → RF.status r = "success" →
  ∃ m vec top p order cands,
    RF.model σ = Some m ∧ (RF._vectorize symptoms σ).1 = inr vec ∧
    let proba := RF.predict_proba m vec in
    let classes := RF.classes_ m in
    proba !! top = Some p ∧ classes !! top = Some (RF.predicted_disease r) ∧
    RF.confidence r = RF.percent p ∧
    (∀ q, q ∈ proba → (q <= p)%Q) ∧
    (∀ j q, j < top → proba !! j = Some q → (q < p)%Q) ∧
    RF.candidates r = Some cands ∧
    NoDup order ∧ length order = min 3 (length proba) ∧
    Forall2 (λ i (c : pyval * Q), classes !! i = Some c.1 ∧
               ∃ q, proba !! i = Some q ∧ c.2 = RF.percent q) order cands ∧
    (∀ i j qi qj, i ∈ order → j ∉ order →
       proba !! i = Some qi → proba !! j = Some qj → (qj <= qi)%Q) ∧
    (∀ k1 k2 c1 c2, k1 ≤ k2 → cands !! k1 = Some c1 → cands !! k2 = Some c2 →
       (c2.2 <= c1.2)%Q) ∧
    (∀ c, cands !! 0 = Some c → c.2 = RF.confidence r).
Proof.
  intros Hc Hrun Hst.
  destruct (RFSuccess.predict_success_inv σ symptoms r σ' Hc Hrun Hst)
    as (m & vec & c1 & top & d & p & cands & recs & Hm & Hv & _ & Htop & Hd & Hp
        & Hcands & _ & ->).
  set (proba := RF.predict_proba m vec) in *.
  destruct (argmax_spec _ _ Htop) as (p' & Hp' & Hmax & Hfirst).
  unfold Np.item in Hd, Hp.
  destruct (RF.classes_ m !! top) as [d'|] eqn:Hd'; [|done]. injection Hd as ->.
  destruct (proba !! top) as [p''|] eqn:Hp''; [|done]. injection Hp as ->.
  injection Hp' as <-.
  destruct (RFRanking.order_spec proba) as (Hnd & Hlen & Hsome & Htop3 & Hdesc & Hhd).
  apply candidates_run in Hcands as (new & -> & HF). simpl in HF |- *.
  exists m, vec, top, p, (take 3 (reverse (Np.argsort proba))), new.
  rewrite Hv. split_and!; try done.
  - intros k1 k2 c1' c2' Hle H1 H2.
    destruct (Forall2_lookup_r _ _ _ _ _ HF H1) as (i1 & Hi1 & _ & q1 & Hq1 & ->).
    destruct (Forall2_lookup_r _ _ _ _ _ HF H2) as (i2 & Hi2 & _ & q2 & Hq2 & ->).
    apply percent_mono. by eapply (Hdesc k1 k2).
  - intros c H0.
    destruct (Forall2_lookup_r _ _ _ _ _ HF H0) as (i0 & Hi0 & _ & q0 & Hq0 & ->).
    apply percent_proper. apply Qle_antisym.
    + apply Hmax. by eapply list_elem_of_lookup_2.
    + eapply Hhd; [done..|]. by eapply list_elem_of_lookup_2.
Qed.

Lemma X15_rf_success_ranking_witness :
  ∃ r σ' cands,
    RF.predict ["fever"; "cough"] Demo.rf_engine = (inr r, σ') ∧
    RF.candidates r = Some cands ∧
    (∀ c, cands !! 0 = Some c → c.2 = RF.confidence r).
Proof.
  pose (res := RF.predict ["fever"; "cough"] Demo.rf_engine).
  assert (Hres : ∃ r σ', res = (inr r, σ') ∧ RF.status r = "success").
  { eexists _, _. by vm_compute. }
  destruct Hres as (r & σ' & Hrun & Hst).
  assert (Hc : cache_ok (get_cache Demo.rf_engine)) by by compute_done.
  destruct (X15_rf_success_ranking Demo.rf_engine ["fever"; "cough"] r σ' Hc Hrun Hst)
    as (m & vec & top & p & order & cands & _ & _ & _ & _ & _ & _ & _ & Hcands
        & _ & _ & _ & _ & _ & Hhd).
  exists r, σ', cands. split; [exact Hrun|]. split; [exact Hcands|exact Hhd].
Defined.

Section cache_frame.
Context {St : Type} `{!HasCache St}.

(** One call of [_norm] on any cache, stale entries included. *)
Lemma norm_cached_frame (s : string) (σ : St) :
  ∃ v c', norm_cached s σ = (inr v, set_cache c' σ) ∧
    (∀ k, k ≠ s → c' !! k = get_cache σ !! k) ∧
    (s ≠ EmptyString → ∀ w, get_cache σ !! s = Some w →
       v = w ∧ c' = get_cache σ) ∧
    (s = EmptyString → v = EmptyString ∧ c' = get_cache σ) ∧
    (s ≠ EmptyString → c' !! s = Some v) ∧
    (s ≠ EmptyString → get_cache σ !! s = None → v = norm_compute s) ∧
    norm_cached s (set_cache c' σ) = (inr v, set_cache c' σ).
Proof.
  unfold norm_cached. destruct s as [|a s]; simpl.
  { exists EmptyString, (get_cache σ). rewrite set_get_cache. by split_and!. }
  unfold mbind, M_bind, gets, modify; simpl.
  destruct (get_cache σ !! String a s) as [w|] eqn:Hs; simpl.
  - exists w, (get_cache σ). rewrite set_get_cache, Hs.
    split_and!; try done. by intros _ w' [= <-].
  - eexists _, _. split; [done|]. rewrite get_set_cache, lookup_insert_eq.
    split_and!; try done. intros k Hk. by rewrite lookup_insert_ne.
Qed.

End cache_frame.

Lemma norm_vocab_token t : (∃ p, t = norm p) → token t.
Proof. intros (p & ->). apply token_norm. Qed.

(** X3.  One call of [_norm] of either engine, whatever the cache holds.  It
    never raises and changes no attribute but the cache, and of the cache
    at most the entry of its argument; an entry already there is returned
    as it is and left alone; the empty string is answered by the empty
    string without a look at the cache; any other string is in the cache
    afterwards, with the value returned, so that a second call is a hit
    that returns the same value and writes nothing. *)
Theorem X3_norm_cache_entry :
  (∀ (σ : Overlap.Engine) s,
     ∃ v c', Overlap._norm (PStr s) σ = (inr v, Overlap.with_cache c' σ) ∧
       (∀ k, k ≠ s → c' !! k = Overlap._normalize_cache σ !! k) ∧
       (s ≠ EmptyString → ∀ w, Overlap._normalize_cache σ !! s = Some w →
          v = w ∧ c' = Overlap._normalize_cache σ) ∧
       (s = EmptyString → v = EmptyString ∧ c' = Overlap._normalize_cache σ) ∧
       (s ≠ EmptyString → c' !! s = Some v) ∧
       (s ≠ EmptyString → Overlap._normalize_cache σ !! s = None →
          v = norm_compute s) ∧
       Overlap._norm (PStr s) (Overlap.with_cache c' σ)
         = (inr v, Overlap.with_cache c' σ)) ∧
  (∀ (σ : RF.Engine) s,
     ∃ v c', RF._norm (PStr s) σ = (inr v, RF.with_cache c' σ) ∧
       (∀ k, k ≠ s → c' !! k = RF._normalize_cache σ !! k) ∧
       (s ≠ EmptyString → ∀ w, RF._normalize_cache σ !! s = Some w →
          v = w ∧ c' = RF._normalize_cache σ) ∧
       (s = EmptyString → v = EmptyString ∧ c' = RF._normalize_cache σ) ∧
       (s ≠ EmptyString → c' !! s = Some v) ∧
       (s ≠ EmptyString → RF._normalize_cache σ !! s = None →
          v = norm_compute s) ∧
       RF._norm (PStr s) (RF.with_cache c' σ) = (inr v, RF.with_cache c' σ)).
Proof.
  split; intros σ s;
    destruct (norm_cached_frame s σ) as (v & c' & H1 & H2 & H3 & H4 & H5 & H6 & H7);
    exists v, c'; by split_and!.
Qed.

Lemma X3_norm_cache_entry_witness :
  ∃ v c', RF._norm (PStr " Fever") Demo.rf_engine
            = (inr v, RF.with_cache c' Demo.rf_engine) ∧
          c' !! " Fever" = Some v ∧ v = "fever".
Proof.
  destruct X3_norm_cache_entry as [_ Hrf].
  destruct (Hrf Demo.rf_engine " Fever")
    as (v & c' & Hrun & _ & _ & _ & Hin & Hnew & _).
  exists v, c'. split; [exact Hrun|]. split; [by apply Hin|].
  rewrite Hnew; [by vm_compute|done|by vm_compute].
Defined.

(** X1.  The normal form of a symptom.  Every value [_norm] computes is a
    token: lower case, free of whitespace, with single underscores that
    neither start nor end it; and the tokens are exactly the strings the
    computation leaves unchanged.  Every entry of the vocabulary of an
    initialised engine is such a token. *)
Theorem X1_norm_token :
  (∀ s, token (norm s)) ∧
  (∀ t, norm t = t ↔ token t) ∧
  (∀ d thr σ t, Overlap.init d thr = inr σ →
     t ∈ Overlap.available_symptoms σ → token t ∧ t ≠ EmptyString) ∧
  (∀ fit d σ t, RF.init fit d = inr σ →
     t ∈ RF.symptom_vocab σ → token t ∧ t ≠ EmptyString).
Proof.
  split_and!.
  - apply token_norm.
  - intros t. split; [intros <-; apply token_norm|apply norm_token].
  - intros d thr σ t Hinit Ht.
    apply (OverlapVocabulary.elem_of_available d thr σ t Hinit) in Ht
      as (Hne & row & col & p & _ & _ & _ & _ & ->).
    split; [apply token_norm|done].
  - intros fit d σ t Hinit Ht.
    apply (RFVocabulary.elem_of_vocab fit d σ t Hinit) in Ht
      as (Hne & row & col & s & p & _ & _ & _ & _ & _ & _ & ->).
    split; [apply token_norm|done].
Qed.

Lemma X1_norm_token_witness :
  norm "skin_rash" = "skin_rash" ∧ token "skin_rash" ∧
  ∀ t, t ∈ RF.symptom_vocab Demo.rf_engine → token t ∧ t ≠ EmptyString.
Proof.
  destruct X1_norm_token as (_ & Hfix & _ & Hrf).
  assert (Ht : token "skin_rash").
  { apply Hfix. by vm_compute. }
  split; [by apply Hfix|]. split; [exact Ht|].
  intros t. apply (Hrf Demo.fit Demo.rf_df). by vm_compute.
Defined.

(** X2.  Normalisation does not see letter case, surrounding whitespace, or
    the difference between spaces and underscores: two raw symptoms that
    differ only in these normalise to the same token, and so set the same
    entries of the presence vector. *)
Theorem X2_norm_insensitive :
  (∀ s, norm (Py.lower s) = norm s) ∧
  (∀ s, norm (Py.strip s) = norm s) ∧
  (∀ s, norm (Py.replace "_"%char " "%char s) = norm s) ∧
  (∀ s, norm (Py.replace " "%char "_"%char s) = norm s) ∧
  (∀ s1 s2, Py.lower s1 = Py.lower s2 → norm s1 = norm s2) ∧
  (∀ (σ : RF.Engine) l1 l2, cache_ok (get_cache σ) →
     norm <$> l1 = norm <$> l2 →
     (RF._vectorize l1 σ).1 = (RF._vectorize l2 σ).1).
Proof.
  split_and!.
  - apply norm_lower.
  - apply norm_strip.
  - apply norm_replace_us.
  - apply norm_replace_sp.
  - apply norm_lower_eq.
  - intros σ l1 l2 Hc Heq. apply RFVocabulary.vectorize_set; [done|].
    by rewrite Heq.
Qed.

Lemma X2_norm_insensitive_witness :
  norm "High_Fever" = norm "high fever" ∧
  (RF._vectorize ["  FEVER "] Demo.rf_engine).1
    = (RF._vectorize ["fever"] Demo.rf_engine).1.
Proof.
  destruct X2_norm_insensitive as (_ & _ & _ & _ & Hlow & Hvec).
  split.
  - transitivity (norm "high_fever").
    + apply Hlow. by vm_compute.
    + destruct X2_norm_insensitive as (_ & _ & Hus & _).
      rewrite <- (Hus "high_fever"). by vm_compute.
  - apply Hvec; [by compute_done|by vm_compute].
Defined.

(** X18.  [get_available_symptoms] lists one display name per vocabulary entry,
    in vocabulary order, and leaves the object as it was.  Replacing the
    underscores of an entry by spaces is undone by normalisation; and when
    title-casing changes nothing but the letter case of a display name (as
    it does for text in ASCII), the display name normalises back to the
    entry it was made from, so that a symptom picked from the list is
    found at the position of that entry. *)
Theorem X18_display_round_trip (title : string → string) :
  (∀ fit d σ, RF.init fit d = inr σ →
     ∃ names, RF.get_available_symptoms title σ = (inr names, σ) ∧
       length names = length (RF.symptom_vocab σ) ∧
       ∀ i t, RF.symptom_vocab σ !! i = Some t →
         let shown := Py.replace "_"%char " "%char t in
         names !! i = Some (title shown) ∧ norm shown = t ∧
         (Py.lower (title shown) = Py.lower shown →
          norm (title shown) = t ∧
          RF.symptom_index σ !! norm (title shown) = Some i)) ∧
  (∀ d thr σ, Overlap.init d thr = inr σ →
     ∃ names, Overlap.get_available_symptoms title σ = (inr names, σ) ∧
       length names = length (Overlap.available_symptoms σ) ∧
       ∀ i t, Overlap.available_symptoms σ !! i = Some t →
         let shown := Py.replace "_"%char " "%char t in
         names !! i = Some (title shown) ∧ norm shown = t ∧
         (Py.lower (title shown) = Py.lower shown →
          norm (title shown) = t ∧
          norm (title shown) ∈ Overlap.available_symptoms σ)).
Proof.
  split.
  - intros fit d σ Hinit. eexists. split; [done|].
    split; [by rewrite length_fmap|]. intros i t Hit shown.
    assert (Ht : norm shown = t).
    { unfold shown. rewrite norm_replace_us. apply norm_token.
      apply list_elem_of_lookup_2 in Hit.
      apply (RFVocabulary.elem_of_vocab fit d σ t Hinit) in Hit
        as (_ & row & col & s & p & _ & _ & _ & _ & _ & _ & ->).
      apply token_norm. }
    split_and!; [by rewrite list_lookup_fmap, Hit|done|].
    intros Hlow. rewrite (norm_lower_eq _ _ Hlow), Ht. split; [done|].
    by apply (RFCalls.init_wf fit d σ Hinit).
  - intros d thr σ Hinit. eexists. split; [done|].
    split; [by rewrite length_fmap|]. intros i t Hit shown.
    assert (Ht : norm shown = t).
    { unfold shown. rewrite norm_replace_us. apply norm_token.
      apply list_elem_of_lookup_2 in Hit.
      apply (OverlapVocabulary.elem_of_available d thr σ t Hinit) in Hit
        as (_ & row & col & p & _ & _ & _ & _ & ->).
      apply token_norm. }
    split_and!; [by rewrite list_lookup_fmap, Hit|done|].
    intros Hlow. rewrite (norm_lower_eq _ _ Hlow), Ht. split; [done|].
    by eapply list_elem_of_lookup_2.
Qed.

Lemma X18_display_round_trip_witness :
  ∃ names, RF.get_available_symptoms Demo.title Demo.rf_engine
             = (inr names, Demo.rf_engine) ∧
    names !! 2 = Some "fever" ∧
    RF.symptom_index Demo.rf_engine !! norm "fever" = Some 2.
Proof.
  destruct (X18_display_round_trip Demo.title) as [Hrf _].
  destruct (Hrf Demo.fit Demo.rf_df Demo.rf_engine) as (names & Hrun & _ & Hall).
  - by vm_compute.
  - destruct (Hall 2 "fever") as (Hname & _ & Hback); [by vm_compute|].
    exists names. split; [exact Hrun|]. split; [exact Hname|].
    destruct Hback as [_ Hidx]; [reflexivity|exact Hidx].
Defined.

Module ApiFacts.
Import Api.

Lemma eqb_post method : String.eqb method "POST" = true ↔ method = "POST".
Proof. apply String.eqb_eq. Qed.

Lemma predict_api_cases construct method body st :
  predict_disease_api construct method body st =
  if String.eqb method "POST" then
    match body with
    | inl e => (inr {| content := ErrorOf e; status_code := 500 |}, st)
    | inr data =>
        match default [] data with
        | [] => (inr {| content := Error "No symptoms provided";
                        status_code := 400 |}, st)
        | s :: l =>
            match get_engine construct st with
            | (inl x, st') =>
                (inr {| content := ErrorOf x; status_code := 500 |}, st')
            | (inr engine, _) =>
                match RF.predict (s :: l) engine with
                | (inr r, e') =>
                    (inr {| content := Prediction r; status_code := 200 |},
                     Some e')
                | (inl x, e') =>
                    (inr {| content := ErrorOf x; status_code := 500 |},
                     Some e')
                end
            end
        end
    end
  else (inr {| content := Error "Method not allowed"; status_code := 405 |}, st).
Proof.
  unfold predict_disease_api. destruct (String.eqb method "POST"); [|done].
  unfold catch, mbind, M_bind, lift. destruct body as [e|data]; [done|].
  destruct (default [] data) as [|s l]; [done|].
  destruct (get_engine construct st) as [[x|engine] st']; [done|].
  unfold invoke.
  by destruct (RF.predict (s :: l) engine) as [[x|r] e'].
Qed.

Lemma predict_status (symptoms : list string) σ r σ' :
  RF.predict symptoms σ = (inr r, σ') →
  RF.status r ∈ ["no_symptoms"; "error"; "unrecognized"; "success"] ∧
  (symptoms ≠ [] → RF.status r ≠ "no_symptoms").
Proof.
  intros Hrun. destruct symptoms as [|s0 l].
  { injection Hrun as <- _. split; [by compute_done|done]. }
  unfold RF.predict in Hrun.
  unfold mbind at 1, M_bind at 1, gets at 1 in Hrun.
  destruct (RF.model σ) as [m|].
  2:{ injection Hrun as <- _. split; [by compute_done|done]. }
  apply RFCalls.bind_inr_inv in Hrun as (vec & σ1 & _ & Hrun).
  case_decide.
  { injection Hrun as <- _. split; [by compute_done|done]. }
  apply RFCalls.bind_inr_inv in Hrun as (top_idx & σ2 & _ & Hrun).
  apply RFCalls.bind_inr_inv in Hrun as (top_disease & σ3 & _ & Hrun).
  apply RFCalls.bind_inr_inv in Hrun as (p & σ4 & Hp & Hrun).
  apply RFCalls.bind_inr_inv in Hrun as (cands & σ5 & _ & Hrun).
  apply RFCalls.bind_inr_inv in Hrun as (recs & σ6 & _ & Hrun).
  injection Hrun as <- _. split; [by compute_done|done].
Qed.

(** A request on a built singleton whose cache is a memo table leaves the
    same engine there, with the cache grown. *)
Lemma serve_built construct title q e :
  cache_ok (get_cache e) →
  ∃ c', (serve construct title q (Some e)).2 = Some (RF.with_cache c' e) ∧
        RF._normalize_cache e ⊆ c' ∧ cache_ok c'.
Proof.
  intros Hc.
  assert (Hsame : ∃ c', Some e = Some (RF.with_cache c' e) ∧
            RF._normalize_cache e ⊆ c' ∧ cache_ok c').
  { exists (RF._normalize_cache e). by destruct e. }
  destruct q as [|method body]; simpl.
  - unfold get_symptoms_api, mbind, M_bind, get_engine, invoke. simpl. done.
  - rewrite predict_api_cases. destruct (String.eqb method "POST"); [|done].
    destruct body as [x|data]; [done|].
    destruct (default [] data) as [|s l]; [done|]. cbn [get_engine].
    destruct (RFCalls.rf_predict_stable (s :: l) e Hc) as [(c' & Heq & Hsub & Hok) _].
    destruct (RF.predict (s :: l) e) as [[x|r] e']; cbn [snd] in *; subst e';
      exists c'; by split_and!.
Qed.

Lemma serve_all_built construct title qs e :
  cache_ok (get_cache e) →
  ∃ c', run_all (serve construct title <$> qs) (Some e)
          = Some (RF.with_cache c' e) ∧
        RF._normalize_cache e ⊆ c' ∧ cache_ok c'.
Proof.
  intros Hc.
  assert (Hgen : ∀ c, RF._normalize_cache e ⊆ c → cache_ok c →
    ∃ c', run_all (serve construct title <$> qs) (Some (RF.with_cache c e))
            = Some (RF.with_cache c' e) ∧
          RF._normalize_cache e ⊆ c' ∧ cache_ok c').
  { induction qs as [|q qs IH]; intros c Hsub Hok.
    - by exists c.
    - rewrite fmap_cons. cbn [run_all].
      destruct (serve_built construct title q (RF.with_cache c e) Hok)
        as (c1 & Heq & Hsub1 & Hok1).
      destruct (serve construct title q (Some (RF.with_cache c e))) as [r st1].
      cbn [snd] in Heq |- *. subst st1.
      simpl in Hsub1. destruct (IH c1) as (c' & Hrun & ? & ?);
        [by etrans|done|].
      exists c'. by rewrite <- Hrun. }
  destruct (Hgen (RF._normalize_cache e)) as (c' & Hrun & ? & ?); [done..|].
  exists c'. split_and!; [|done..]. rewrite <- Hrun. by destruct e.
Qed.

End ApiFacts.

(** X19.  The prediction view never raises, and this is its answer in each
    case.  It answers 405 to any method but POST, 500 with the exception
    when decoding the body raises, and 400 to a body without symptoms, in
    the three cases without a look at the engine, which is not even
    built.  On a POST with symptoms it asks [get_engine] for the engine:
    when building it raises, the answer is 500 with that exception; when
    [predict] returns a result, the answer is 200 with that result; when
    [predict] raises, the answer is 500 with its exception; in the last
    two cases the singleton holds the engine as [predict] left it.
    Conversely an answer of 200 carries the result of [predict] on a
    non-empty list, so no answer of the view carries the status
    [no_symptoms]. *)
Theorem X19_api_predict_responses (construct : exn + RF.Engine) (method : string)
    (body : exn + option (list string)) (st : Api.Singleton) :
  ∃ resp st',
    Api.predict_disease_api construct method body st = (inr resp, st') ∧
    Api.status_code resp ∈ [200; 400; 405; 500] ∧
    (method ≠ "POST" →
     resp = {| Api.content := Api.Error "Method not allowed";
               Api.status_code := 405 |} ∧ st' = st) ∧
    (method = "POST" → ∀ e, body = inl e →
     resp = {| Api.content := Api.ErrorOf e; Api.status_code := 500 |} ∧
     st' = st) ∧
    (method = "POST" → body = inr None ∨ body = inr (Some []) →
     resp = {| Api.content := Api.Error "No symptoms provided";
               Api.status_code := 400 |} ∧ st' = st) ∧
    (method = "POST" → ∀ symptoms, body = inr (Some symptoms) →
     symptoms ≠ [] →
     (∀ x st1, Api.get_engine construct st = (inl x, st1) →
        resp = {| Api.content := Api.ErrorOf x; Api.status_code := 500 |} ∧
        st' = st1) ∧
     (∀ engine st1, Api.get_engine construct st = (inr engine, st1) →
        (∀ r engine', RF.predict symptoms engine = (inr r, engine') →
           resp = {| Api.content := Api.Prediction r;
                     Api.status_code := 200 |} ∧
           st' = Some engine') ∧
        (∀ x engine', RF.predict symptoms engine = (inl x, engine') →
           resp = {| Api.content := Api.ErrorOf x;
                     Api.status_code := 500 |} ∧
           st' = Some engine'))) ∧
    (Api.status_code resp = 200 →
     ∃ symptoms engine r engine',
       method = "POST" ∧ body = inr (Some symptoms) ∧ symptoms ≠ [] ∧
       Api.get_engine construct st = (inr engine, Some engine) ∧
       RF.predict symptoms engine = (inr r, engine') ∧
       Api.content resp = Api.Prediction r ∧ st' = Some engine' ∧
       RF.status r ≠ "no_symptoms").
Proof.
  rewrite ApiFacts.predict_api_cases.
  destruct (String.eqb method "POST") eqn:Hm.
  2:{ eexists _, _. split; [done|]. apply String.eqb_neq in Hm.
      split_and!; try done. by compute_done. }
  apply String.eqb_eq in Hm as ->.
  destruct body as [e|data].
  { eexists _, _. split; [done|]. split_and!; try done.
    - by compute_done.
    - by intros _ e' [= <-].
    - by intros _ [|]. }
  destruct (default [] data) as [|s l] eqn:Hdata.
  { eexists _, _. split; [done|]. split_and!; try done.
    - by compute_done.
    - intros _ symptoms [= ->] Hne. simpl in Hdata. done. }
  assert (Hbody : data = Some (s :: l)).
  { destruct data as [l'|]; simpl in Hdata; by subst. }
  subst data.
  destruct (Api.get_engine construct st) as [[x|engine] st1] eqn:Hget.
  { eexists _, _. split; [done|]. split_and!; try done.
    - by compute_done.
    - by intros _ [|].
    - intros _ symptoms [= <-] _. split.
      + by intros x' st1' [= <- <-].
      + by intros engine st1'. }
  assert (Hst1 : st1 = Some engine).
  { unfold Api.get_engine in Hget. destruct st as [e0|].
    - by injection Hget as <- <-.
    - destruct construct as [x|e0]; [done|]. by injection Hget as <- <-. }
  subst st1.
  destruct (RF.predict (s :: l) engine) as [[x|r] e'] eqn:Hp.
  { eexists _, _. split; [done|]. split_and!; try done.
    - by compute_done.
    - by intros _ [|].
    - intros _ symptoms [= <-] _. split; [by intros x' st1'|].
      intros engine0 st1' [= <- <-]. rewrite Hp. split.
      + by intros r engine'.
      + by intros x' engine' [= <- <-]. }
  eexists _, _. split; [done|]. split_and!; try done.
  - by compute_done.
  - by intros _ [|].
  - intros _ symptoms [= <-] _. split; [by intros x' st1'|].
    intros engine0 st1' [= <- <-]. rewrite Hp. split.
    + by intros r' engine' [= <- <-].
    + by intros x' engine'.
  - intros _. exists (s :: l), engine, r, e'. split_and!; try done.
    by apply (ApiFacts.predict_status (s :: l) engine r e').
Qed.

Lemma X19_api_predict_responses_witness :
  (∃ resp, Api.predict_disease_api (inr Demo.rf_engine) "GET"
             (inr (Some ["fever"])) None = (inr resp, None) ∧
           Api.status_code resp = 405) ∧
  (∃ resp st' r,
     Api.predict_disease_api (inr Demo.rf_engine) "POST"
       (inr (Some ["fever"])) None = (inr resp, st') ∧
     resp = {| Api.content := Api.Prediction r; Api.status_code := 200 |} ∧
     RF.predicted_disease r = PStr "Flu").
Proof.
  split.
  - destruct (X19_api_predict_responses (inr Demo.rf_engine) "GET"
                (inr (Some ["fever"])) None)
      as (resp & st' & Hrun & _ & Hget & _).
    destruct Hget as [-> ->]; [done|].
    eexists. split; [exact Hrun|reflexivity].
  - assert (Hp : ∃ r, (RF.predict ["fever"] Demo.rf_engine).1 = inr r ∧
                      RF.predicted_disease r = PStr "Flu").
    { eexists. split; [vm_compute; reflexivity|reflexivity]. }
    destruct Hp as (r & Hr & Hflu).
    destruct (X19_api_predict_responses (inr Demo.rf_engine) "POST"
                (inr (Some ["fever"])) None)
      as (resp & st' & Hrun & _ & _ & _ & _ & Hpost & _).
    destruct (Hpost eq_refl ["fever"] eq_refl) as [_ Hok]; [done|].
    destruct (Hok Demo.rf_engine (Some Demo.rf_engine) eq_refl) as [Hret _].
    destruct (Hret r (RF.predict ["fever"] Demo.rf_engine).2) as [Hresp _].
    { rewrite <- Hr. by destruct (RF.predict ["fever"] Demo.rf_engine). }
    exists resp, st', r. split; [exact Hrun|]. split; [exact Hresp|exact Hflu].
Defined.

(** X20.  The life of the engine singleton.  [get_engine] builds the engine on
    the first call and hands out that same object ever after, whatever a
    new construction would give; when the construction raises, nothing is
    kept, the symptoms view raises and the prediction view answers 500,
    and the next request tries again.  Once built on a memo cache, any
    sequence of requests to the two views leaves the same engine in the
    singleton, with nothing changed but a grown cache, and the symptoms
    view answers after the sequence what it answered before. *)
Theorem X20_api_singleton (construct : exn + RF.Engine) (title : string → string) :
  (∀ e, Api.get_engine construct (Some e) = (inr e, Some e)) ∧
  (∀ e, construct = inr e → Api.get_engine construct None = (inr e, Some e)) ∧
  (∀ x, construct = inl x →
     Api.get_engine construct None = (inl x, None) ∧
     Api.get_symptoms_api construct title None = (inl x, None) ∧
     ∀ s l, Api.predict_disease_api construct "POST" (inr (Some (s :: l))) None
            = (inr {| Api.content := Api.ErrorOf x; Api.status_code := 500 |},
               None)) ∧
  (∀ e requests, cache_ok (get_cache e) →
     ∃ c', run_all (Api.serve construct title <$> requests) (Some e)
             = Some (RF.with_cache c' e) ∧
       RF._normalize_cache e ⊆ c' ∧ cache_ok c' ∧
       (Api.get_symptoms_api construct title (Some (RF.with_cache c' e))).1
         = (Api.get_symptoms_api construct title (Some e)).1).
Proof.
  split_and!.
  - done.
  - by intros e ->.
  - intros x ->. by split_and!.
  - intros e requests Hc.
    destruct (ApiFacts.serve_all_built construct title requests e Hc)
      as (c' & Hrun & Hsub & Hok).
    exists c'. by split_and!.
Qed.

Lemma X20_api_singleton_witness :
  ∃ c', run_all (Api.serve (inl ValueError) Demo.title <$>
                   [Api.PostPredict "POST" (inr (Some ["Fever"]));
                    Api.GetSymptoms]) (Some Demo.rf_engine)
          = Some (RF.with_cache c' Demo.rf_engine) ∧
        cache_ok c'.
Proof.
  destruct (X20_api_singleton (inl ValueError) Demo.title) as (_ & _ & _ & Hseq).
  destruct (Hseq Demo.rf_engine
              [Api.PostPredict "POST" (inr (Some ["Fever"])); Api.GetSymptoms])
    as (c' & Hrun & _ & Hok & _).
  - by compute_done.
  - exists c'. split; [exact Hrun|exact Hok].
Defined.

(** ** The normaliser of the custom engine *)

Module CustomNorm.
Import Custom.

Lemma sub_space_spaced b v : spaced b v → Py.sub_space b v = v.
Proof.
  revert b. induction v as [|c v IH]; intros b; simpl; [done|].
  case_bool_decide as Hsp.
  - subst. intros [-> Hs]. simpl. by rewrite IH.
  - intros [Hc Hs]. rewrite Hc. by rewrite IH.
Qed.

Lemma lowered_replace_sp s : lowered s → lowered (Py.replace " "%char "_"%char s).
Proof.
  induction s as [|c s IH]; simpl; [done|]. intros [Hc Hs].
  split; [|by apply IH]. by case_bool_decide.
Qed.

Lemma normalize_eq s :
  s ≠ EmptyString → s ≠ "nan" →
  _normalize_symptom s =
    Py.replace " "%char "_"%char (Py.sub_space false (Py.lower (Py.strip s))).
Proof.
  intros Hs Hnan. unfold _normalize_symptom.
  destruct (String.eqb s "nan") eqn:Heq; [by apply String.eqb_eq in Heq|].
  by destruct s.
Qed.

Lemma normalize_shape s :
  lowered (_normalize_symptom s) ∧ no_space (_normalize_symptom s).
Proof.
  unfold _normalize_symptom.
  destruct (negb (Py.nonempty s) || String.eqb s "nan"); [by split|]. cbv zeta. split.
  - apply lowered_replace_sp, lowered_sub_space, lowered_lower.
  - eapply no_space_replace, spaced_sub_space.
Qed.

Lemma normalize_idem s :
  _normalize_symptom s ≠ "nan" →
  _normalize_symptom (_normalize_symptom s) = _normalize_symptom s.
Proof.
  intros Hnan. destruct (normalize_shape s) as [Hlo Hns].
  set (v := _normalize_symptom s) in *.
  destruct (decide (v = EmptyString)) as [->|Hne]; [done|].
  rewrite (normalize_eq v) by done.
  rewrite strip_id by auto using no_space_hd, no_space_last.
  rewrite lower_id by done.
  unfold v, _normalize_symptom in *.
  destruct (negb (Py.nonempty s) || String.eqb s "nan"); [done|]. cbv zeta in *.
  rewrite sub_space_replace by apply spaced_sub_space.
  done.
Qed.

Lemma norm_normalize s : s ≠ "nan" → norm (_normalize_symptom s) = norm s.
Proof.
  intros Hnan. destruct (decide (s = EmptyString)) as [->|Hne]; [done|].
  rewrite normalize_eq by done. rewrite norm_replace_sp.
  set (m := Py.sub_space false (Py.lower (Py.strip s))).
  rewrite !norm_eq. rewrite (norm_compute_alt m).
  rewrite lower_id by apply lowered_sub_space, lowered_lower.
  rewrite sub_space_spaced by apply spaced_sub_space.
  done.
Qed.

Lemma normalize_nonempty s :
  Py.nonempty (Py.strip s) = true → s ≠ "nan" → _normalize_symptom s ≠ EmptyString.
Proof.
  intros Hst Hnan.
  assert (Hs : s ≠ EmptyString) by (by intros ->).
  rewrite normalize_eq by done.
  destruct (Py.strip s) as [|c r]; [done|]. simpl.
  by destruct (Py.is_sep (Py.lower_char c)).
Qed.

End CustomNorm.

(** ** The feature vector of the custom engine is an indicator vector *)

Module CustomVector.
Import Custom CustomSpec.

Lemma custom_set_one_lookup vec i vec' j :
  set_one vec i = inr vec' →
  length vec' = length vec ∧
  vec' !! j = if decide (i = j) then Some 1%Q else vec !! j.
Proof.
  unfold set_one. case_decide as Hi; [|done]. intros [= <-].
  split; [by rewrite length_insert|].
  case_decide as Hj.
  - subst. by apply list_lookup_insert_eq.
  - by apply list_lookup_insert_ne.
Qed.

Lemma feature_step_lookup e vec t vec1 :
  feature_step e vec t = inr vec1 →
  length vec1 = length vec ∧
  ∀ j, vec1 !! j = if decide (symptom_to_encoded e !! t = Some j)
                   then Some 1%Q else vec !! j.
Proof.
  unfold feature_step. intros Hstep.
  destruct (symptom_to_encoded e !! t) as [i|] eqn:Hi.
  - split; [by apply (custom_set_one_lookup _ _ _ 0 Hstep)|]. intros j.
    destruct (custom_set_one_lookup _ _ _ j Hstep) as [_ ->].
    repeat case_decide; congruence.
  - injection Hstep as <-. split; [done|]. intros j. by rewrite decide_False.
Qed.

Lemma fold_feature_step_lookup e l vec vec' :
  fold_res (feature_step e) vec l = inr vec' →
  length vec' = length vec ∧
  ∀ j, j < length vec →
    ((∃ t, t ∈ l ∧ symptom_to_encoded e !! t = Some j) → vec' !! j = Some 1%Q) ∧
    ((∀ t, t ∈ l → symptom_to_encoded e !! t ≠ Some j) → vec' !! j = vec !! j).
Proof.
  revert vec. induction l as [|t l IH]; intros vec; cbn [fold_res].
  - intros [= <-]. split; [done|]. intros j Hj. split; [|done].
    intros (t & Ht & _). by inversion Ht.
  - destruct (feature_step e vec t) as [x|vec1] eqn:Hstep; [done|]. simpl.
    intros Hrun. apply IH in Hrun as [Hlen Hrun].
    destruct (feature_step_lookup _ _ _ _ Hstep) as [Hlen1 Hvec1].
    split; [congruence|].
    intros j Hj. rewrite <- Hlen1 in Hj. destruct (Hrun j Hj) as [Hset Hkeep].
    split.
    + intros (t' & Ht' & Hidx).
      destruct (decide (Exists (λ t'', symptom_to_encoded e !! t'' = Some j) l))
        as [Hex|Hnex].
      { apply Hset. by apply Exists_exists. }
      rewrite Exists_exists in Hnex. rewrite Hkeep.
      * apply elem_of_cons in Ht' as [->|Ht']; [|destruct Hnex; eauto].
        by rewrite Hvec1, decide_True.
      * intros t'' Ht'' Hi''. apply Hnex. eauto.
    + intros Hall. rewrite Hkeep.
      * rewrite Hvec1, decide_False; [done|]. apply Hall. by left.
      * intros t' Ht'. apply Hall. by right.
Qed.

(** The loop stops with [IndexError] at the first symptom whose index is
    not a position of the vector, and at nothing else. *)
Lemma fold_feature_step_cases e l vec :
  (Forall (λ t, ∀ i, symptom_to_encoded e !! t = Some i → i < length vec) l →
   ∃ vec', fold_res (feature_step e) vec l = inr vec') ∧
  (¬ Forall (λ t, ∀ i, symptom_to_encoded e !! t = Some i → i < length vec) l →
   fold_res (feature_step e) vec l = inl IndexError).
Proof.
  revert vec. induction l as [|t l IH]; intros vec; cbn [fold_res].
  - split; [by eexists|]. intros Hn. exfalso. apply Hn. constructor.
  - destruct (feature_step e vec t) as [x|vec1] eqn:Hstep; simpl.
    + unfold feature_step, set_one in Hstep.
      destruct (symptom_to_encoded e !! t) as [i|] eqn:Hi; [|done].
      case_decide as Hlt; [done|]. injection Hstep as <-.
      split; [|done]. intros Hall. apply Forall_cons in Hall as [Ht _].
      destruct Hlt. by apply Ht.
    + destruct (feature_step_lookup _ _ _ _ Hstep) as [Hlen _].
      destruct (IH vec1) as [Hok Hbad]. rewrite Hlen in Hok, Hbad.
      assert (Ht : ∀ i, symptom_to_encoded e !! t = Some i → i < length vec).
      { intros i Hi. unfold feature_step, set_one in Hstep. rewrite Hi in Hstep.
        by case_decide. }
      split.
      * intros Hall. apply Forall_cons in Hall as [_ Hall]. by apply Hok.
      * intros Hall. apply Hbad. intros Hl. apply Hall, Forall_cons. by split.
Qed.

Lemma create_feature_vector_run e l :
  in_range e →
  ∃ vec, _create_feature_vector e l = inr vec ∧
    length vec = length (symptoms_list e) ∧
    ∀ j, j < length (symptoms_list e) →
      vec !! j =
        Some (if decide (Exists (λ s, symptom_to_encoded e !! _normalize_symptom s
                                        = Some j) l)
              then 1%Q else 0%Q).
Proof.
  intros Hr. unfold _create_feature_vector. cbv zeta.
  destruct (fold_feature_step_cases e (_normalize_symptom <$> l)
              (replicate (length (symptoms_list e)) 0%Q)) as [Hok _].
  destruct Hok as [vec Hrun].
  { apply Forall_forall. intros t _ i Hi. rewrite length_replicate. by eapply Hr. }
  exists vec. split; [done|].
  apply fold_feature_step_lookup in Hrun as [Hlen Hrun].
  rewrite length_replicate in Hlen, Hrun. split; [done|].
  intros j Hj. destruct (Hrun j Hj) as [Hset Hkeep]. case_decide as Hex.
  - apply Hset. apply Exists_exists in Hex as (s & Hs & Hi).
    exists (_normalize_symptom s). split; [|done].
    apply list_elem_of_fmap. eauto.
  - rewrite Hkeep; [by apply lookup_replicate_2|].
    intros t Ht Hi. apply Hex, Exists_exists.
    apply list_elem_of_fmap in Ht as (s & -> & Hs). eauto.
Qed.

End CustomVector.

(** ** The vocabulary of the custom engine *)

Module CustomPrepare.
Import Custom CustomData CustomSpec CustomNorm CustomVector.

Lemma fold_cells_elem (l : list string) (acc : gset string) t :
  t ∈ foldl (λ acc symptom_row, acc ∪ list_to_set (cell_parts symptom_row)) acc l ↔
  t ∈ acc ∨ ∃ cell, cell ∈ l ∧ t ∈ cell_parts cell.
Proof.
  revert acc. induction l as [|c l IH]; intros acc; simpl.
  - split; [by left|]. intros [?|(? & Hc & _)]; [done|by inversion Hc].
  - rewrite IH, elem_of_union, elem_of_list_to_set. split.
    + intros [[?|?]|(cell & ? & ?)]; [by left|right..].
      * exists c. split; [by left|done].
      * exists cell. split; [by right|done].
    + intros [?|(cell & Hc & ?)]; [by left; left|].
      apply elem_of_cons in Hc as [->|Hc]; [by left; right|]. right. eauto.
Qed.

Lemma all_symptoms_elem d t :
  t ∈ all_symptoms d ↔
  ∃ col cell, col ∈ symptom_columns d ∧ cell ∈ column_text d col ∧
              t ∈ cell_parts cell.
Proof.
  unfold all_symptoms.
  assert (Hgen : ∀ cols (acc : gset string),
    t ∈ foldl (λ acc col,
          foldl (λ acc symptom_row, acc ∪ list_to_set (cell_parts symptom_row))
            acc (column_text d col)) acc cols ↔
    t ∈ acc ∨ ∃ col cell, col ∈ cols ∧ cell ∈ column_text d col ∧
                          t ∈ cell_parts cell).
  { induction cols as [|c cols IH]; intros acc; simpl.
    - split; [by left|]. intros [?|(? & ? & Hc & _)]; [done|by inversion Hc].
    - rewrite IH, fold_cells_elem. split.
      + intros [[?|(cell & ? & ?)]|(col & cell & ? & ? & ?)]; [by left|right..].
        * exists c, cell. split; [by left|done].
        * exists col, cell. split; [by right|done].
      + intros [?|(col & cell & Hc & ? & ?)]; [by left; left|].
        apply elem_of_cons in Hc as [->|Hc]; [left; right; eauto|].
        right. eauto. }
  rewrite Hgen. split; [|by right]. intros [H|H]; [|done]. by apply elem_of_empty in H.
Qed.

Lemma column_text_elem d col cell :
  cell ∈ column_text d col ↔ ∃ row, row ∈ rows d ∧ row_get row col PNaN = PStr cell.
Proof.
  unfold column_text. rewrite list_elem_of_omap. split.
  - intros (row & Hrow & Hget). exists row. split; [done|].
    destruct (row_get row col PNaN); congruence.
  - intros (row & Hrow & Hget). exists row. split; [done|]. by rewrite Hget.
Qed.

Lemma symptom_columns_elem d col :
  col ∈ symptom_columns d ↔ col ∈ columns d ∧ String.prefix "Symptom_" col = true.
Proof.
  unfold symptom_columns. rewrite list_elem_of_filter.
  split; intros [? ?]; split; try done; by apply Is_true_true.
Qed.

(** [{s: i for i, s in enumerate(l)}] when [l] may repeat a key: the last
    position wins. *)
Lemma enumerate_index_last l k m s i :
  RF.enumerate_index k l m !! s = Some i ↔
    (∃ j, l !! j = Some s ∧ i = (k + j)%nat ∧
          ∀ j', j < j' → l !! j' ≠ Some s) ∨
    ((s ∉ l) ∧ m !! s = Some i).
Proof.
  revert k m. induction l as [|x l IH]; intros k m; simpl.
  - split; [right; split; [apply not_elem_of_nil|done]|].
    intros [(j & Hj & _)|[_ ?]]; [by rewrite lookup_nil in Hj|done].
  - rewrite IH. split.
    + intros [(j & Hj & -> & Hlast)|[Hs Hm]].
      * left. exists (S j). split_and!; [done|lia|].
        intros [|j'] Hj'; [lia|]. simpl. apply Hlast. lia.
      * destruct (decide (x = s)) as [->|Hne].
        -- rewrite lookup_insert_eq in Hm. injection Hm as <-.
           left. exists 0. split_and!; [done|lia|].
           intros [|j'] Hj'; [lia|]. simpl. intros Hl.
           apply Hs. by eapply list_elem_of_lookup_2.
        -- rewrite lookup_insert_ne in Hm by done. right. split; [|done].
           intros [?|?]%elem_of_cons; congruence.
    + intros [(j & Hj & -> & Hlast)|[Hs Hm]].
      * destruct j as [|j]; simpl in Hj.
        -- injection Hj as ->. right. split.
           ++ intros Hin. apply list_elem_of_lookup in Hin as [j' Hj'].
              apply (Hlast (S j')); [lia|done].
           ++ rewrite lookup_insert_eq. f_equal. lia.
        -- left. exists j. split_and!; [done|lia|].
           intros j' Hj'. apply (Hlast (S j')). lia.
      * right. apply not_elem_of_cons in Hs as [Hne Hs]. split; [done|].
        by rewrite lookup_insert_ne.
Qed.

Lemma enumerate_index_last_spec l s i :
  RF.enumerate_index 0 l ∅ !! s = Some i ↔
    l !! i = Some s ∧ ∀ j, i < j → l !! j ≠ Some s.
Proof.
  rewrite enumerate_index_last. split.
  - intros [(j & Hj & -> & Hlast)|[_ Hm]]; [done|by rewrite lookup_empty in Hm].
  - intros [Hi Hlast]. left. by exists i.
Qed.

Lemma last_position (l : list string) u i :
  l !! i = Some u →
  ∃ j, i ≤ j ∧ l !! j = Some u ∧ ∀ j', j < j' → l !! j' ≠ Some u.
Proof.
  revert i. induction l as [|x l IH]; intros i Hi.
  - by rewrite lookup_nil in Hi.
  - destruct (decide (Exists (λ y, y = u) l)) as [Hex|Hnex].
    + apply Exists_exists in Hex as (y & Hy & ->).
      apply list_elem_of_lookup in Hy as [k Hk].
      destruct i as [|i].
      * destruct (IH k Hk) as (j & Hkj & Hj & Hlast).
        exists (S j). split_and!; [lia|done|]. intros [|j'] Hj'; [lia|].
        simpl. apply Hlast. lia.
      * destruct (IH i Hi) as (j2 & Hij & Hj2 & Hlast2).
        exists (S j2). split_and!; [lia|done|]. intros [|j'] Hj'; [lia|].
        simpl. apply Hlast2. lia.
    + destruct i as [|i].
      * simpl in Hi. injection Hi as ->. exists 0. split_and!; [lia|done|].
        intros [|j'] Hj'; [lia|]. simpl. intros Hl. apply Hnex, Exists_exists.
        exists u. split; [by eapply list_elem_of_lookup_2|done].
      * simpl in Hi. destruct Hnex. apply Exists_exists.
        exists u. split; [by eapply list_elem_of_lookup_2|done].
Qed.

Lemma prepare_data_inv d e ds :
  _prepare_data d = inr (e, ds) →
  symptoms_list e =
    merge_sort String.le
      (_normalize_symptom <$> filter (λ s, keeps s) (elements (all_symptoms d))) ∧
  symptom_to_encoded e = RF.enumerate_index 0 (symptoms_list e) ∅ ∧
  "Disease" ∈ columns d.
Proof.
  unfold _prepare_data, column. cbv zeta.
  case_bool_decide as Hcol; [|done]. simpl.
  destruct (sorted_values _) as [x|ds']; [done|]. simpl.
  intros [= <- <-]. done.
Qed.

Lemma prepare_data_in_range d e ds : _prepare_data d = inr (e, ds) → in_range e.
Proof.
  intros (_ & Hidx & _)%prepare_data_inv t i. rewrite Hidx.
  intros [Hi _]%enumerate_index_last_spec. by eapply lookup_lt_Some.
Qed.

Lemma keeps_spec part :
  keeps part = true ↔
  part ≠ EmptyString ∧ Py.strip part ≠ EmptyString ∧ part ≠ "nan".
Proof.
  unfold keeps. rewrite !andb_true_iff, negb_true_iff. split.
  - intros [[H1 H2] H3]. split_and!.
    + by intros ->.
    + intros Hs. by rewrite Hs in H2.
    + intros ->. done.
  - intros (H1 & H2 & H3). split_and!.
    + by destruct part.
    + by destruct (Py.strip part).
    + by apply String.eqb_neq.
Qed.

Lemma symptoms_list_elem d e ds t :
  _prepare_data d = inr (e, ds) →
  t ∈ symptoms_list e ↔
  ∃ part, part ∈ all_symptoms d ∧ keeps part = true ∧ t = _normalize_symptom part.
Proof.
  intros (Hl & _)%prepare_data_inv. rewrite Hl, merge_sort_Permutation.
  rewrite list_elem_of_fmap. split.
  - intros (part & -> & Hin). apply list_elem_of_filter in Hin as [Hk Hin].
    exists part. split_and!; [by apply elem_of_elements| by apply Is_true_true|done].
  - intros (part & Hin & Hk & ->). exists part. split; [done|].
    apply list_elem_of_filter. split; [by apply Is_true_true|by apply elem_of_elements].
Qed.

End CustomPrepare.

(** ** Training and initialisation of the custom engine *)

Module CustomTrainingFacts.
Import Custom CustomData CustomSpec CustomNorm CustomVector CustomPrepare.

Lemma training_loop e cols (irs : list (nat * gmap string pyval))
    (xy xy' : list (list Q) * list pyval) :
  in_range e →
  fold_res (λ (xy : list (list Q) * list pyval) (ir : nat * gmap string pyval),
      rs ← row_symptoms cols ir.2;
      match rs with
      | [] => inr xy
      | _ =>
          feature_vector ← _create_feature_vector e rs;
          label ← RF.row_item ir.2 "Disease";
          inr (xy.1 ++ [feature_vector], xy.2 ++ [label])
      end) xy irs = inr xy' →
  ∃ Xs ys, xy' = (xy.1 ++ Xs, xy.2 ++ ys) ∧ length Xs = length ys ∧
    Forall2 (sample_of e cols) (filter (λ row, kept cols row) irs.*2) (zip Xs ys).
Proof.
  intros Hr. revert xy.
  induction irs as [|ir irs IH]; intros xy; cbn [fold_res].
  - intros [= <-]. exists [], []. rewrite !app_nil_r.
    split_and!; [by destruct xy|done|constructor].
  - destruct (row_symptoms cols ir.2) as [x|rs] eqn:Hrs; [done|].
    rewrite fmap_cons, filter_cons.
    destruct rs as [|r0 rs].
    + rewrite decide_False by (unfold kept; rewrite Hrs; intros []). apply IH.
    + rewrite decide_True by (unfold kept; rewrite Hrs; exact I).
      destruct (create_feature_vector_run e (r0 :: rs) Hr) as (vec & Hvec & Hlen & Hind).
      cbn [mbind res_bind]. unfold mbind at 1, res_bind at 1. rewrite Hvec.
      unfold RF.row_item.
      destruct (ir.2 !! "Disease") as [label|] eqn:Hlabel; [|done].
      cbn [mbind res_bind]. intros Hrun.
      apply IH in Hrun as (Xs & ys & -> & Hlens & HF).
      exists (vec :: Xs), (label :: ys). cbn [fst snd].
      rewrite <- !app_assoc. split_and!; [done|simpl; lia|].
      simpl. constructor; [|done].
      split_and!; [done|done|]. cbn [fst]. by exists (r0 :: rs).
Qed.

Lemma prepare_training_data_run e d X y :
  in_range e →
  _prepare_training_data e d = inr (X, y) →
  length X = length y ∧
  Forall2 (sample_of e (symptom_columns d)) (kept_rows d) (zip X y).
Proof.
  intros Hr Hrun. unfold _prepare_training_data in Hrun.
  apply training_loop in Hrun as (Xs & ys & [= -> ->] & Hlen & HF); [|done].
  split; [done|]. unfold kept_rows.
  replace (rows d) with ((iterrows d).*2); [done|].
  unfold iterrows. apply snd_zip. by rewrite length_seq.
Qed.

Section training.
Variable fit : Fitting.

Lemma custom_init_inv d t :
  init fit d = inr t →
  _prepare_data d = inr (base t, diseases_list t) ∧ df t = d ∧
  ∃ X y X_train X_test y_train y_test score,
    _prepare_training_data (base t) d = inr (X, y) ∧ X ≠ [] ∧
    train_test_split fit (2 # 10) 42 X y
      = inr (X_train, X_test, y_train, y_test) ∧
    fit_forest fit 100 42 X_train y_train = inr (model t) ∧
    accuracy_score fit (model t) X_test y_test = inr score.
Proof.
  unfold init.
  destruct (_prepare_data d) as [x|[e ds]] eqn:Hprep; [done|]. cbn [mbind raised_bind fst snd].
  unfold _train_model.
  destruct (_prepare_training_data e d) as [x|[X y]] eqn:Htrain; [done|].
  cbn [mbind res_bind fst snd]. case_decide as Hlen; [done|].
  destruct (train_test_split fit _ _ X y)
    as [x|[[[X_train X_test] y_train] y_test]] eqn:Hsplit; [done|].
  cbn [mbind res_bind].
  destruct (fit_forest fit _ _ X_train y_train) as [x|m] eqn:Hfit; [done|].
  cbn [mbind res_bind].
  destruct (accuracy_score fit m X_test y_test) as [x|score] eqn:Hacc; [done|].
  simpl. intros [= <-]. simpl. split_and!; [done|done|].
  exists X, y, X_train, X_test, y_train, y_test, score.
  split_and!; [done| |done..]. by intros ->.
Qed.

End training.

End CustomTrainingFacts.

(** ** Prediction with the custom engine *)

Module CustomPredict.
Import Custom CustomData CustomNorm CustomVector CustomPrepare CustomSpec
  CustomTrainingFacts.

Lemma filter_head {A} (P : A → Prop) `{∀ x, Decision (P x)} (l : list A) :
  match filter P l with
  | x :: _ => ∃ k, l !! k = Some x ∧ P x ∧ ∀ j y, j < k → l !! j = Some y → ¬ P y
  | [] => ∀ y, y ∈ l → ¬ P y
  end.
Proof.
  induction l as [|a l IH]; [by intros y Hy; inversion Hy|].
  rewrite filter_cons. case_decide as Ha.
  - exists 0. split_and!; [done|done|]. intros j y Hj. lia.
  - destruct (filter P l) as [|x rest].
    + intros y [->|Hy]%elem_of_cons; [done|by apply IH].
    + destruct IH as (k & Hk & Hx & Hfirst). exists (S k). split_and!; [done|done|].
      intros [|j] y Hj; simpl.
      * by intros [= <-].
      * apply Hfirst. lia.
Qed.

Lemma get_recommendations_cases t label :
  "Disease" ∈ columns (df t) →
  ∃ recs, _get_recommendations t label = inr recs ∧
    (∀ k row, first_match (df t) label k row →
       recs = (py_str (row_get row "Medicine Recommendation" (PStr default_medicine)),
               py_str (row_get row "Diet Recommendation" (PStr default_diet)))) ∧
    ((∀ row, row ∈ rows (df t) →
        cell_eq (row_get row "Disease" PNaN) label = false) →
     recs = (default_medicine, default_diet)).
Proof.
  intros Hcol. unfold _get_recommendations, column.
  rewrite bool_decide_eq_true_2 by done. cbn [mbind res_bind].
  pose proof (filter_head
    (λ row : gmap string pyval, cell_eq (row_get row "Disease" PNaN) label)
    (rows (df t))) as Hhead.
  destruct (filter _ (rows (df t))) as [|row rest].
  - eexists. split; [done|]. split; [|done].
    intros k row (Hk & Heq & _). exfalso.
    apply (Hhead row); [by eapply list_elem_of_lookup_2|by apply Is_true_true].
  - destruct Hhead as (k & Hk & Hrow & Hfirst).
    eexists. split; [done|]. split.
    + intros k' row' (Hk' & Heq' & Hfirst').
      destruct (Nat.lt_trichotomy k k') as [Hlt|[->|Hlt]].
      * specialize (Hfirst' _ _ Hlt Hk). apply Is_true_true in Hrow. congruence.
      * congruence.
      * apply Is_true_true in Heq'. by destruct (Hfirst _ _ Hlt Hk').
    + intros Hall. apply Is_true_true in Hrow.
      rewrite (Hall row) in Hrow; [done|]. by eapply list_elem_of_lookup_2.
Qed.

Lemma predict_disease_run t s0 l :
  in_range (base t) → "Disease" ∈ columns (df t) →
  (∀ vec, length (predict_proba (model t) vec) = length (classes_ (model t))) →
  classes_ (model t) ≠ [] →
  ∃ vec k p label recs,
    _create_feature_vector (base t) (_normalize_symptom <$> s0 :: l) = inr vec ∧
    Np.argmax (predict_proba (model t) vec) = inr k ∧
    predict_proba (model t) vec !! k = Some p ∧
    classes_ (model t) !! k = Some label ∧
    _get_recommendations t label = inr recs ∧
    predict_disease t (s0 :: l) =
      inr {| disease := label; confidence := np_round1 (fmul p 100);
             medicines := recs.1; diet := recs.2 |}.
Proof.
  intros Hr Hcol Hlen Hcl.
  destruct (create_feature_vector_run (base t) (_normalize_symptom <$> s0 :: l) Hr)
    as (vec & Hvec & _).
  destruct (Np.argmax (predict_proba (model t) vec)) as [x|k] eqn:Harg.
  { unfold Np.argmax in Harg. specialize (Hlen vec).
    destruct (predict_proba (model t) vec); [|done].
    destruct (classes_ (model t)); done. }
  destruct (argmax_spec _ _ Harg) as (p & Hp & _).
  assert (Hk : is_Some (classes_ (model t) !! k)).
  { apply lookup_lt_is_Some. rewrite <- (Hlen vec). by eapply lookup_lt_Some. }
  destruct Hk as [label Hlabel].
  destruct (get_recommendations_cases t label Hcol) as (recs & Hrecs & _).
  exists vec, k, p, label, recs. split_and!; try done.
  unfold predict_disease. rewrite Hvec. cbn [mbind res_bind]. rewrite Harg.
  cbn [mbind res_bind]. unfold Np.item. rewrite Hlabel, Hp.
  cbn [mbind res_bind]. by rewrite Hrecs.
Qed.

End CustomPredict.

Module CustomInit.
Import Custom CustomData CustomSpec CustomNorm CustomVector CustomPrepare
  CustomTrainingFacts CustomPredict.

Lemma fold_feature_step_none e l vec :
  (∀ t, t ∈ l → symptom_to_encoded e !! t = None) →
  fold_res (feature_step e) vec l = inr vec.
Proof.
  induction l as [|t l IH]; intros Hall; cbn [fold_res]; [done|].
  assert (feature_step e vec t = inr vec) as ->.
  { unfold feature_step. by rewrite (Hall t) by left. }
  simpl. apply IH. intros t' Ht'. apply Hall. by right.
Qed.

Lemma elem_of_unique_from seen l v :
  v ∈ unique_from seen l ↔ v ∈ l ∧ v ∉ seen.
Proof.
  revert seen. induction l as [|x l IH]; intros seen; simpl.
  - split; [by intros H; inversion H|]. by intros [H _]; inversion H.
  - case_bool_decide as Hx.
    + rewrite IH. split.
      * intros [? ?]. split; [by right|done].
      * intros [[->|?]%elem_of_cons ?]; [done|by split].
    + rewrite elem_of_cons, IH. split.
      * intros [->|[? Hs]]; [split; [by left|done]|].
        split; [by right|]. intros ?. apply Hs. by right.
      * intros [[->|?]%elem_of_cons Hs]; [by left|].
        destruct (decide (v = x)) as [->|Hne]; [by left|]. right. split; [done|].
        by intros [?|?]%elem_of_cons.
Qed.

Lemma sorted_values_type_error l v w :
  v ∈ l → w ∈ l → v ≠ w → as_str v = None →
  sorted_values l = inl TypeError.
Proof.
  intros Hv Hw Hne Hstr. unfold sorted_values.
  assert (Hall : forallb (λ v, bool_decide (is_Some (as_str v))) l = false).
  { apply not_true_is_false. intros Hall.
    rewrite forallb_forall in Hall. specialize (Hall v).
    rewrite <- list_elem_of_In in Hall. specialize (Hall Hv).
    apply bool_decide_eq_true in Hall as [? ?]. congruence. }
  destruct l as [|a [|b l]].
  - by inversion Hv.
  - apply list_elem_of_singleton in Hv, Hw. congruence.
  - by rewrite Hall.
Qed.

Lemma row_symptoms_blank cols row :
  (∀ col, col ∈ cols → ∃ cell, row !! col = Some cell ∧ blank cell) →
  row_symptoms cols row = inr [].
Proof.
  unfold row_symptoms. generalize (@nil string) as acc.
  induction cols as [|col cols IH]; intros acc Hall; cbn [fold_res]; [done|].
  destruct (Hall col) as (cell & Hcell & Hb); [by left|].
  unfold RF.row_item. rewrite Hcell. cbn [mbind res_bind].
  assert (Hrest : ∀ col', col' ∈ cols → ∃ cell', row !! col' = Some cell' ∧ blank cell').
  { intros col' Hc. apply Hall. by right. }
  destruct cell as [| |s]; [by apply IH..|]. cbv zeta. simpl in Hb.
  destruct Hb as [Hb|Hb]; rewrite Hb.
  - by apply IH.
  - by apply IH.
Qed.


Lemma prepare_training_data_blank e d :
  (∀ row col, row ∈ rows d → col ∈ symptom_columns d →
     ∃ cell, row !! col = Some cell ∧ blank cell) →
  _prepare_training_data e d = inr ([], []).
Proof.
  intros Hall. unfold _prepare_training_data.
  assert (Hrows : ∀ ir, ir ∈ iterrows d → ir.2 ∈ rows d).
  { intros [i row] Hir. unfold iterrows in Hir. by apply elem_of_zip_r in Hir. }
  revert Hrows. generalize (iterrows d) as irs.
  induction irs as [|ir irs IH]; intros Hrows; cbn [fold_res]; [done|].
  rewrite (row_symptoms_blank (symptom_columns d) ir.2).
  - cbn [mbind res_bind]. apply IH. intros ir' Hir'. apply Hrows. by right.
  - intros col Hcol. apply Hall; [|done]. apply Hrows. by left.
Qed.

Section init.
Variable fit : Fitting.

Lemma init_no_disease_column d :
  "Disease" ∉ columns d → init fit d = inl (Builtin KeyError).
Proof.
  intros Hcol. unfold init, _prepare_data, column. cbv zeta.
  by rewrite bool_decide_eq_false_2.
Qed.

Lemma init_mixed_labels d row row' :
  "Disease" ∈ columns d →
  row ∈ rows d → row' ∈ rows d →
  as_str (row_get row "Disease" PNaN) = None →
  row_get row' "Disease" PNaN ≠ row_get row "Disease" PNaN →
  init fit d = inl TypeError.
Proof.
  intros Hcol Hrow Hrow' Hstr Hne. unfold init, _prepare_data, column. cbv zeta.
  rewrite bool_decide_eq_true_2 by done. cbn [builtin mbind raised_bind].
  rewrite (sorted_values_type_error _ (row_get row "Disease" PNaN)
             (row_get row' "Disease" PNaN)); [done| | |congruence|done].
  - apply elem_of_unique_from. split; [|apply not_elem_of_nil].
    apply list_elem_of_fmap. eauto.
  - apply elem_of_unique_from. split; [|apply not_elem_of_nil].
    apply list_elem_of_fmap. eauto.
Qed.

Lemma init_no_symptoms d e ds :
  _prepare_data d = inr (e, ds) →
  (∀ row col, row ∈ rows d → col ∈ symptom_columns d →
     ∃ cell, row !! col = Some cell ∧ blank cell) →
  init fit d = inl (Builtin ValueError).
Proof.
  intros Hprep Hall. unfold init. rewrite Hprep. cbn [mbind raised_bind fst snd].
  unfold _train_model. rewrite prepare_training_data_blank by done.
  done.
Qed.

End init.

End CustomInit.

(** X21.  The normaliser of the custom engine.  Its result is in lower case and
    holds no whitespace.  On every text but the marker nan it differs from
    [_norm] of the other two engines at most by underscores it keeps at the
    two ends: [_norm] of its result is [_norm] of the text, and the two
    results are equal as soon as the custom one is a token.  Normalising
    twice, as [predict_disease] does, gives the same as once, unless the
    first result reads nan, which the second pass turns into the empty
    string. *)
Theorem X21_custom_normalize (s : string) :
  lowered (Custom._normalize_symptom s) ∧
  no_space (Custom._normalize_symptom s) ∧
  (s ≠ "nan" → norm (Custom._normalize_symptom s) = norm s) ∧
  (s ≠ "nan" → token (Custom._normalize_symptom s) →
   Custom._normalize_symptom s = norm s) ∧
  (Custom._normalize_symptom s ≠ "nan" →
   Custom._normalize_symptom (Custom._normalize_symptom s) =
     Custom._normalize_symptom s) ∧
  (Custom._normalize_symptom s = "nan" →
   Custom._normalize_symptom (Custom._normalize_symptom s) = EmptyString).
Proof.
  destruct (CustomNorm.normalize_shape s) as [Hlo Hns]. split_and!; try done.
  - apply CustomNorm.norm_normalize.
  - intros Hnan Htok. rewrite <- (CustomNorm.norm_normalize s Hnan).
    symmetry. by apply norm_token.
  - apply CustomNorm.normalize_idem.
  - by intros ->.
Qed.

Lemma X21_custom_normalize_witness :
  norm (Custom._normalize_symptom " Skin  Rash_") = norm " Skin  Rash_" ∧
  Custom._normalize_symptom (Custom._normalize_symptom "NaN") = EmptyString.
Proof.
  split.
  - destruct (X21_custom_normalize " Skin  Rash_") as (_ & _ & H & _).
    apply H. by intros [=].
  - destruct (X21_custom_normalize "NaN") as (_ & _ & _ & _ & _ & H).
    apply H. by vm_compute.
Defined.

(** X22.  The feature vector of a custom engine whose vocabulary and mapping
    [_prepare_data] built.  [_create_feature_vector] never raises and
    returns a vector as long as the vocabulary, of ones and zeros.  The
    entry at a position is one exactly when the token at that position is
    the normal form of a requested symptom and the vocabulary does not
    hold the same token again at a later position: of a token that occurs
    more than once, only the last position is ever set. *)
Theorem X22_custom_feature_vector (d : DataFrame) (e : Custom.Engine)
    (ds : list pyval) (l : list string) :
  CustomData._prepare_data d = inr (e, ds) →
  ∃ vec, Custom._create_feature_vector e l = inr vec ∧
    length vec = length (Custom.symptoms_list e) ∧
    ∀ j t, Custom.symptoms_list e !! j = Some t →
      (vec !! j = Some 1%Q ∨ vec !! j = Some 0%Q) ∧
      (vec !! j = Some 1%Q ↔
         t ∈ Custom._normalize_symptom <$> l ∧
         ∀ j', j < j' → Custom.symptoms_list e !! j' ≠ Some t).
Proof.
  intros Hprep.
  pose proof (CustomPrepare.prepare_data_in_range _ _ _ Hprep) as Hr.
  destruct (CustomPrepare.prepare_data_inv _ _ _ Hprep) as (_ & Hidx & _).
  destruct (CustomVector.create_feature_vector_run e l Hr) as (vec & Hvec & Hlen & Hind).
  exists vec. split_and!; [done|done|]. intros j t Hjt.
  assert (Hj : j < length (Custom.symptoms_list e)) by by eapply lookup_lt_Some.
  rewrite (Hind j Hj).
  assert (Hex : Exists (λ s, Custom.symptom_to_encoded e !! Custom._normalize_symptom s
                               = Some j) l ↔
                t ∈ Custom._normalize_symptom <$> l ∧
                ∀ j', j < j' → Custom.symptoms_list e !! j' ≠ Some t).
  { rewrite Exists_exists. split.
    - intros (s & Hs & Hi). rewrite Hidx in Hi.
      apply CustomPrepare.enumerate_index_last_spec in Hi as [Hi Hlast].
      assert (t = Custom._normalize_symptom s) as -> by congruence.
      split; [|done]. apply list_elem_of_fmap. eauto.
    - intros [Ht Hlast]. apply list_elem_of_fmap in Ht as (s & -> & Hs).
      exists s. split; [done|]. rewrite Hidx.
      by apply CustomPrepare.enumerate_index_last_spec. }
  case_decide as Hd.
  - split; [by left|]. split; [by intros _; apply Hex|done].
  - split; [by right|]. split; [by intros [=]|]. intros H. by apply Hex in H.
Qed.

Lemma X22_custom_feature_vector_witness :
  ∃ e ds vec,
    CustomData._prepare_data CustomSamples.twice_df = inr (e, ds) ∧
    Custom.symptoms_list e = ["cough"; "fever"; "fever"; "sneezing"] ∧
    Custom._create_feature_vector e ["Fever"] = inr vec ∧
    vec !! 1 = Some 0%Q ∧ vec !! 2 = Some 1%Q.
Proof.
  assert (Hprep : ∃ e ds,
    CustomData._prepare_data CustomSamples.twice_df = inr (e, ds) ∧
    Custom.symptoms_list e = ["cough"; "fever"; "fever"; "sneezing"]).
  { eexists _, _. split; by vm_compute. }
  destruct Hprep as (e & ds & Hprep & Hl).
  destruct (X22_custom_feature_vector CustomSamples.twice_df e ds ["Fever"] Hprep)
    as (vec & Hvec & _ & Hind).
  exists e, ds, vec. split; [exact Hprep|]. split; [exact Hl|].
  split; [exact Hvec|]. split.
  - destruct (Hind 1 "fever") as [[H1|H0] Hiff].
    + rewrite Hl. reflexivity.
    + exfalso. apply (proj1 Hiff) in H1 as [_ Hlast].
      apply (Hlast 2); [lia|]. rewrite Hl. reflexivity.
    + exact H0.
  - destruct (Hind 2 "fever") as [_ Hiff].
    + rewrite Hl. reflexivity.
    + apply (proj2 Hiff). split.
      * apply list_elem_of_fmap. exists "Fever". split; [by vm_compute|left].
      * rewrite Hl. intros [|[|[|[|j']]]] Hj'; try lia; by intros [=].
Defined.

(** X23.  The vocabulary [_prepare_data] builds.  Its entries are the normal
    forms of the parts (a cell split at commas when it holds one, each part
    stripped) of the string cells in the columns whose label starts with
    Symptom_, leaving out the parts that are empty or read nan.  Every
    entry is non-empty, in lower case and free of whitespace, and the list
    is in ascending order.  It has one entry for each kept spelling, not
    for each token, so a token can occur more than once; the mapping sends
    a token to the last position that holds it. *)
Theorem X23_custom_vocabulary (d : DataFrame) (e : Custom.Engine) (ds : list pyval) :
  CustomData._prepare_data d = inr (e, ds) →
  (∀ t, t ∈ Custom.symptoms_list e ↔
     ∃ col row cell part,
       col ∈ columns d ∧ String.prefix "Symptom_" col = true ∧
       row ∈ rows d ∧ row_get row col PNaN = PStr cell ∧
       part ∈ CustomData.cell_parts cell ∧
       part ≠ EmptyString ∧ part ≠ "nan" ∧
       t = Custom._normalize_symptom part) ∧
  (∀ t, t ∈ Custom.symptoms_list e → t ≠ EmptyString ∧ lowered t ∧ no_space t) ∧
  Sorted String.le (Custom.symptoms_list e) ∧
  length (Custom.symptoms_list e) =
    length (filter (λ s, CustomData.keeps s) (elements (CustomData.all_symptoms d))) ∧
  (∀ t i, Custom.symptom_to_encoded e !! t = Some i ↔
     Custom.symptoms_list e !! i = Some t ∧
     ∀ j, i < j → Custom.symptoms_list e !! j ≠ Some t).
Proof.
  intros Hprep.
  destruct (CustomPrepare.prepare_data_inv _ _ _ Hprep) as (Hl & Hidx & _).
  assert (Hparts : ∀ cell part, part ∈ CustomData.cell_parts cell → Py.strip part = part).
  { intros cell part. unfold CustomData.cell_parts.
    destruct (Py.contains _ cell).
    - intros (p & -> & _)%list_elem_of_fmap.
      apply strip_id; [apply hd_ok_lstrip|apply last_ok_lstrip, last_ok_rstrip].
    - intros ->%list_elem_of_singleton.
      apply strip_id; [apply hd_ok_lstrip|apply last_ok_lstrip, last_ok_rstrip]. }
  assert (Helem : ∀ t, t ∈ Custom.symptoms_list e ↔
     ∃ col row cell part,
       col ∈ columns d ∧ String.prefix "Symptom_" col = true ∧
       row ∈ rows d ∧ row_get row col PNaN = PStr cell ∧
       part ∈ CustomData.cell_parts cell ∧
       part ≠ EmptyString ∧ part ≠ "nan" ∧
       t = Custom._normalize_symptom part).
  { intros t. rewrite (CustomPrepare.symptoms_list_elem _ _ _ _ Hprep). split.
    - intros (part & Hin & Hk & ->).
      apply CustomPrepare.all_symptoms_elem in Hin as (col & cell & Hcol & Hcell & Hpart).
      apply CustomPrepare.symptom_columns_elem in Hcol as [Hcol Hpre].
      apply CustomPrepare.column_text_elem in Hcell as (row & Hrow & Hget).
      apply CustomPrepare.keeps_spec in Hk as (Hne & _ & Hnan).
      by exists col, row, cell, part.
    - intros (col & row & cell & part & Hcol & Hpre & Hrow & Hget & Hpart & Hne & Hnan & ->).
      exists part. split_and!; [|by apply CustomPrepare.keeps_spec;
                                    rewrite (Hparts cell part Hpart)|done].
      apply CustomPrepare.all_symptoms_elem. exists col, cell. split_and!; [|by
        apply CustomPrepare.column_text_elem; eauto|done].
      by apply CustomPrepare.symptom_columns_elem. }
  split_and!.
  - exact Helem.
  - intros t (col & row & cell & part & _ & _ & _ & _ & Hpart & Hne & Hnan & ->)%Helem.
    destruct (CustomNorm.normalize_shape part) as [Hlo Hns]. split_and!; [|done|done].
    apply CustomNorm.normalize_nonempty; [|done].
    rewrite (Hparts cell part Hpart). by destruct part.
  - rewrite Hl. apply Sorted_merge_sort. apply _.
  - by rewrite Hl, merge_sort_Permutation, length_fmap.
  - intros t i. rewrite Hidx. apply CustomPrepare.enumerate_index_last_spec.
Qed.

Lemma X23_custom_vocabulary_witness :
  ∃ e ds,
    CustomData._prepare_data CustomSamples.twice_df = inr (e, ds) ∧
    Custom.symptoms_list e = ["cough"; "fever"; "fever"; "sneezing"] ∧
    Sorted String.le (Custom.symptoms_list e) ∧
    (∀ i, Custom.symptom_to_encoded e !! "fever" = Some i → i = 2).
Proof.
  assert (Hprep : ∃ e ds,
    CustomData._prepare_data CustomSamples.twice_df = inr (e, ds) ∧
    Custom.symptoms_list e = ["cough"; "fever"; "fever"; "sneezing"]).
  { eexists _, _. split; by vm_compute. }
  destruct Hprep as (e & ds & Hprep & Hl).
  destruct (X23_custom_vocabulary CustomSamples.twice_df e ds Hprep)
    as (_ & _ & Hsorted & _ & Hidx).
  exists e, ds. split; [exact Hprep|]. split; [exact Hl|]. split; [exact Hsorted|].
  intros i Hi. apply (proj1 (Hidx "fever" i)) in Hi as [Hi Hlast].
  rewrite Hl in Hi, Hlast.
  destruct i as [|[|[|[|i]]]].
  - exfalso. by vm_compute in Hi.
  - exfalso. apply (Hlast 2); [lia|reflexivity].
  - reflexivity.
  - exfalso. by vm_compute in Hi.
  - exfalso. by vm_compute in Hi.
Defined.

(** X24.  What [__init__] of the custom engine hands to scikit-learn when it
    succeeds.  The engine keeps the frame, and the vocabulary, the mapping
    and the disease list of [_prepare_data].  It builds one sample per row
    off which at least one symptom is read, in row order; there is at
    least one.  The label of a sample is the disease cell of its row, and
    its features are as many as the vocabulary has entries and mark the
    positions that the mapping gives to the row's symptoms.  These
    samples go to [train_test_split] with test size 0.2 and random
    state 42.  The classifier the engine keeps is the forest fitted, with
    100 estimators and random state 42, on the training part the split
    returned, not on all the samples; the accuracy is computed on the
    holdout part. *)
Theorem X24_custom_training_set (fit : CustomData.Fitting)
    (d : DataFrame) (t : CustomData.Trained) :
  CustomData.init fit d = inr t →
  CustomData._prepare_data d = inr (CustomData.base t, CustomData.diseases_list t) ∧
  CustomData.df t = d ∧
  ∃ X y X_train X_test y_train y_test score,
    CustomData.train_test_split fit (2 # 10) 42%Z X y
      = inr (X_train, X_test, y_train, y_test) ∧
    CustomData.fit_forest fit 100%Z 42%Z X_train y_train
      = inr (CustomData.model t) ∧
    CustomData.accuracy_score fit (CustomData.model t) X_test y_test
      = inr score ∧
    X ≠ [] ∧ length X = length y ∧
    Forall2 (CustomSpec.sample_of (CustomData.base t) (CustomData.symptom_columns d))
      (CustomSpec.kept_rows d) (zip X y).
Proof.
  intros Hinit.
  destruct (CustomTrainingFacts.custom_init_inv fit d t Hinit)
    as (Hprep & Hdf & X & y & X_train & X_test & y_train & y_test & score &
        Htrain & HX & Hsplit & Hfit & Hacc).
  split_and!; [done|done|].
  exists X, y, X_train, X_test, y_train, y_test, score.
  destruct (CustomTrainingFacts.prepare_training_data_run _ _ _ _
              (CustomPrepare.prepare_data_in_range _ _ _ Hprep) Htrain)
    as [Hlen HF].
  by split_and!.
Qed.

Lemma X24_custom_training_set_witness :
  CustomData.init CustomSamples.fit Demo.overlap_df = inr CustomSamples.trained ∧
  ∃ X y X_train y_train,
    CustomData.train_test_split CustomSamples.fit (2 # 10) 42%Z X y
      = inr (X_train, [], y_train, []) ∧
    CustomData.fit_forest CustomSamples.fit 100%Z 42%Z X_train y_train
      = inr CustomSamples.forest ∧
    length X = 2 ∧ length X = length y ∧
    Forall2 (CustomSpec.sample_of Demo.custom_engine
               (CustomData.symptom_columns Demo.overlap_df))
      (CustomSpec.kept_rows Demo.overlap_df) (zip X y).
Proof.
  assert (Hinit : CustomData.init CustomSamples.fit Demo.overlap_df = inr CustomSamples.trained)
    by (vm_compute; reflexivity).
  split; [exact Hinit|].
  destruct (X24_custom_training_set CustomSamples.fit Demo.overlap_df CustomSamples.trained Hinit)
    as (_ & _ & X & y & X_train & X_test & y_train & y_test & score &
        _ & _ & _ & _ & Hlen & HF).
  exists X, y, X. exists y.
  split; [reflexivity|]. split; [reflexivity|].
  split; [|split; [exact Hlen|exact HF]].
  apply Forall2_length in HF. rewrite length_zip_with in HF.
  rewrite <- Hlen, Nat.min_id in HF. rewrite <- HF. by vm_compute.
Defined.

(** X25.  How [__init__] of the custom engine fails on a frame.  Without a
    column Disease it raises [KeyError].  With a missing disease label in
    one row and another label in another row it raises [TypeError], from
    sorting a string with a missing value.  When [_prepare_data] succeeds
    but every symptom cell of every row is missing, blank or reads nan, it
    raises [ValueError]: there is nothing to train on. *)
Theorem X25_custom_init_errors
    (fit : CustomData.Fitting)
    (d : DataFrame) :
  ("Disease" ∉ columns d →
   CustomData.init fit d = inl (CustomData.Builtin KeyError)) ∧
  ("Disease" ∈ columns d →
   (∃ row row', row ∈ rows d ∧ row' ∈ rows d ∧
      CustomData.as_str (row_get row "Disease" PNaN) = None ∧
      row_get row' "Disease" PNaN ≠ row_get row "Disease" PNaN) →
   CustomData.init fit d = inl CustomData.TypeError) ∧
  (∀ e ds, CustomData._prepare_data d = inr (e, ds) →
     (∀ row col, row ∈ rows d → col ∈ CustomData.symptom_columns d →
        ∃ cell, row !! col = Some cell ∧ CustomSpec.blank cell) →
     CustomData.init fit d = inl (CustomData.Builtin ValueError)).
Proof.
  split_and!.
  - apply CustomInit.init_no_disease_column.
  - intros Hcol (row & row' & Hrow & Hrow' & Hstr & Hne).
    exact (CustomInit.init_mixed_labels fit d row row' Hcol Hrow Hrow' Hstr Hne).
  - intros e ds. apply CustomInit.init_no_symptoms.
Qed.

Lemma X25_custom_init_errors_witness :
  CustomData.init CustomSamples.fit Demo.rf_df = inl (CustomData.Builtin ValueError) ∧
  CustomData.init CustomSamples.fit CustomSamples.unlabelled_df = inl CustomData.TypeError.
Proof.
  destruct (X25_custom_init_errors CustomSamples.fit Demo.rf_df) as (_ & _ & Hv).
  destruct (X25_custom_init_errors CustomSamples.fit CustomSamples.unlabelled_df) as (_ & Ht & _).
  split.
  - assert (Hprep : ∃ e ds, CustomData._prepare_data Demo.rf_df = inr (e, ds)).
    { eexists _, _. by vm_compute. }
    destruct Hprep as (e & ds & Hprep). apply (Hv e ds Hprep).
    intros row col _ Hcol. exfalso. vm_compute in Hcol. by inversion Hcol.
  - apply Ht.
    + left.
    + exists (<["Disease" := PNaN]> (Demo.overlap_row "Cold" "cough" "Sneezing")),
             (Demo.overlap_row "Flu" "Fever, cough" "fatigue").
      split; [right; left|]. split; [left|]. split; by vm_compute.
Defined.

(** X26.  What [predict_disease] of an initialised custom engine answers, for a
    classifier that returns one probability per class and has a class.
    With no symptom it answers Unknown at confidence 0 with the two stock
    recommendations, and asks the classifier nothing.  Otherwise it never
    raises: it normalises the symptoms, builds their feature vector (which
    normalises them again), and answers the class at the first index of a
    largest probability.  The confidence is that probability times 100 as
    a float, rounded to one decimal the way NumPy rounds a float (times
    10, to the nearest integer with ties to even, over 10); it is between
    0 and 100 when the probability is between 0 and 1.  The recommendations are the two cells, as text, of the first row
    of the frame whose disease cell equals the answer, and the stock ones
    when there is no such row.  There is no check that a symptom was
    recognised: when none is in the mapping the classifier is asked about
    the all-zero vector and its answer is reported all the same. *)
Theorem X26_custom_predict_disease
    (fit : CustomData.Fitting)
    (d : DataFrame) (t : CustomData.Trained) (l : list string) :
  CustomData.init fit d = inr t →
  (∀ vec, length (CustomData.predict_proba (CustomData.model t) vec) =
          length (CustomData.classes_ (CustomData.model t))) →
  CustomData.classes_ (CustomData.model t) ≠ [] →
  CustomData.predict_disease t [] =
    inr {| CustomData.disease := PStr "Unknown"; CustomData.confidence := 0;
           CustomData.medicines := CustomData.default_medicine;
           CustomData.diet := CustomData.default_diet |} ∧
  (l ≠ [] →
   ∃ vec k p r,
     Custom._create_feature_vector (CustomData.base t)
       (Custom._normalize_symptom <$> l) = inr vec ∧
     CustomData.predict_proba (CustomData.model t) vec !! k = Some p ∧
     (∀ q, q ∈ CustomData.predict_proba (CustomData.model t) vec → (q <= p)%Q) ∧
     (∀ j q, j < k →
        CustomData.predict_proba (CustomData.model t) vec !! j = Some q → (q < p)%Q) ∧
     CustomData.predict_disease t l = inr r ∧
     CustomData.classes_ (CustomData.model t) !! k = Some (CustomData.disease r) ∧
     CustomData.confidence r = np_round1 (fmul p 100) ∧
     ((0 <= p)%Q → (p <= 1)%Q →
      (0 <= CustomData.confidence r)%Q ∧ (CustomData.confidence r <= 100)%Q) ∧
     (∀ k' row, CustomSpec.first_match d (CustomData.disease r) k' row →
        CustomData.medicines r =
          py_str (row_get row "Medicine Recommendation"
                    (PStr CustomData.default_medicine)) ∧
        CustomData.diet r =
          py_str (row_get row "Diet Recommendation" (PStr CustomData.default_diet))) ∧
     ((∀ row, row ∈ rows d →
         CustomData.cell_eq (row_get row "Disease" PNaN) (CustomData.disease r) = false) →
      CustomData.medicines r = CustomData.default_medicine ∧
      CustomData.diet r = CustomData.default_diet) ∧
     ((∀ s, s ∈ l →
         Custom.symptom_to_encoded (CustomData.base t)
           !! Custom._normalize_symptom (Custom._normalize_symptom s) = None) →
      vec = replicate (length (Custom.symptoms_list (CustomData.base t))) 0%Q)).
Proof.
  intros Hinit Hlen Hcl. split; [done|]. intros Hl.
  destruct (CustomTrainingFacts.custom_init_inv fit d t Hinit) as (Hprep & Hdf & _).
  pose proof (CustomPrepare.prepare_data_in_range _ _ _ Hprep) as Hr.
  destruct (CustomPrepare.prepare_data_inv _ _ _ Hprep) as (_ & _ & Hcol).
  rewrite <- Hdf in Hcol.
  destruct l as [|s0 l]; [done|].
  destruct (CustomPredict.predict_disease_run t s0 l Hr Hcol Hlen Hcl)
    as (vec & k & p & label & recs & Hvec & Harg & Hp & Hlabel & Hrecs & Hrun).
  destruct (argmax_spec _ _ Harg) as (p' & Hp' & Hmax & Hfirst).
  assert (p' = p) as -> by congruence.
  destruct (CustomPredict.get_recommendations_cases t label Hcol)
    as (recs' & Hrecs' & Hmatch & Hnone).
  assert (recs' = recs) as -> by congruence.
  rewrite Hdf in Hmatch, Hnone.
  eexists vec, k, p, _. split_and!; [done|done|done|done|exact Hrun|done|done|..].
  - cbn [CustomData.confidence]. intros H0 H1. split.
    + by apply np_round1_range, fmul_100_range.
    + by apply np_round1_range, fmul_100_range.
  - cbn [CustomData.medicines CustomData.diet CustomData.disease].
    intros k' row Hfm. by rewrite (Hmatch k' row Hfm).
  - cbn [CustomData.medicines CustomData.diet CustomData.disease].
    intros Hall. by rewrite (Hnone Hall).
  - intros Hall. unfold Custom._create_feature_vector in Hvec. cbv zeta in Hvec.
    rewrite CustomInit.fold_feature_step_none in Hvec; [congruence|].
    intros u (u' & -> & (s & -> & Hs)%list_elem_of_fmap)%list_elem_of_fmap.
    by apply Hall.
Qed.

Lemma X26_custom_predict_disease_witness :
  ∃ k p r,
    CustomData.predict_disease CustomSamples.trained ["Fever"; "zzz"] = inr r ∧
    CustomData.classes_ CustomSamples.forest !! k = Some (CustomData.disease r) ∧
    CustomData.confidence r = np_round1 (fmul p 100).
Proof.
  assert (Hinit : CustomData.init CustomSamples.fit Demo.overlap_df = inr CustomSamples.trained)
    by by vm_compute.
  assert (Hlen : ∀ vec,
    length (CustomData.predict_proba (CustomData.model CustomSamples.trained) vec) =
    length (CustomData.classes_ (CustomData.model CustomSamples.trained))).
  { intros vec. cbn. destruct (vec !! 2) as [q|]; [|reflexivity].
    destruct (Qeq_bool q 1); reflexivity. }
  assert (Hcl : CustomData.classes_ (CustomData.model CustomSamples.trained) ≠ [])
    by by intros [=].
  destruct (X26_custom_predict_disease CustomSamples.fit Demo.overlap_df CustomSamples.trained
              ["Fever"; "zzz"] Hinit Hlen Hcl) as [_ Hrun].
  destruct Hrun as (vec & k & p & r & _ & _ & _ & _ & Hr & Hlabel & Hconf & _);
    [by intros [=]|].
  exists k, p, r. split; [exact Hr|]. split; [exact Hlabel|exact Hconf].
Defined.

Module CustomDisplay.
Import Custom CustomData CustomNorm.

Lemma lower_nonempty s : Py.lower s = EmptyString → s = EmptyString.
Proof. by destruct s. Qed.

Lemma normalize_display (title : string → string) u :
  token u → u ≠ EmptyString → u ≠ "nan" →
  Py.lower (title (Py.replace "_"%char " "%char u)) =
    Py.lower (Py.replace "_"%char " "%char u) →
  _normalize_symptom (title (Py.replace "_"%char " "%char u)) = u.
Proof.
  intros (Hlo & Hns & Hus) Hne Hnan Hlow.
  set (shown := Py.replace "_"%char " "%char u) in *.
  assert (Hback : Py.replace " "%char "_"%char shown = u) by by apply replace_back.
  assert (Hshown : Py.lower shown = shown) by by apply lower_id, lowered_replace_us.
  rewrite Hshown in Hlow.
  rewrite normalize_eq.
  - rewrite <- strip_lower, Hlow.
    rewrite strip_id by (by apply hd_ok_of_token || by eapply last_ok_of_token).
    rewrite sub_space_spaced by (by apply spaced_weaken, spaced_of_token).
    done.
  - intros Ht. rewrite Ht in Hlow. apply Hne. rewrite <- Hback, <- Hlow. done.
  - intros Ht. rewrite Ht in Hlow. apply Hnan. rewrite <- Hback, <- Hlow. done.
Qed.

End CustomDisplay.

(** X27.  [get_available_symptoms] of the custom engine lists one display name
    per vocabulary entry, in vocabulary order.  When the entry is a token
    (no underscore at either end) other than nan, and title-casing changes
    nothing but the letter case of the display name, normalising the
    display name once or twice, as [predict_disease] does, gives back the
    entry, which the mapping sends to a position that holds it. *)
Theorem X27_custom_display_round_trip (title : string → string)
    (fit : CustomData.Fitting)
    (d : DataFrame) (t : CustomData.Trained) :
  CustomData.init fit d = inr t →
  length (CustomData.get_available_symptoms title t) =
    length (Custom.symptoms_list (CustomData.base t)) ∧
  ∀ i u, Custom.symptoms_list (CustomData.base t) !! i = Some u →
    let shown := Py.replace "_"%char " "%char u in
    CustomData.get_available_symptoms title t !! i = Some (title shown) ∧
    (token u → u ≠ "nan" → Py.lower (title shown) = Py.lower shown →
     Custom._normalize_symptom (title shown) = u ∧
     Custom._normalize_symptom (Custom._normalize_symptom (title shown)) = u ∧
     ∃ j, Custom.symptom_to_encoded (CustomData.base t) !! u = Some j ∧
          i ≤ j ∧ Custom.symptoms_list (CustomData.base t) !! j = Some u).
Proof.
  intros Hinit.
  destruct (CustomTrainingFacts.custom_init_inv fit d t Hinit) as (Hprep & _ & _).
  destruct (CustomPrepare.prepare_data_inv _ _ _ Hprep) as (Hl & Hidx & _).
  split; [unfold CustomData.get_available_symptoms; by rewrite length_fmap|].
  intros i u Hiu shown.
  split; [unfold CustomData.get_available_symptoms;
          by rewrite list_lookup_fmap, Hiu|].
  intros Htok Hnan Hlow.
  assert (Hne : u ≠ EmptyString).
  { assert (Hin : u ∈ Custom.symptoms_list (CustomData.base t))
      by by eapply list_elem_of_lookup_2.
    apply (CustomPrepare.symptoms_list_elem _ _ _ _ Hprep) in Hin
      as (part & _ & Hk & ->).
    apply CustomPrepare.keeps_spec in Hk as (_ & Hs & Hn).
    apply CustomNorm.normalize_nonempty; [|done]. by destruct (Py.strip part). }
  pose proof (CustomDisplay.normalize_display title u Htok Hne Hnan Hlow) as Hback.
  fold shown in Hback. rewrite Hback. split; [done|]. split.
  - rewrite <- Hback at 1 2. apply CustomNorm.normalize_idem. by rewrite Hback.
  - destruct (CustomPrepare.last_position _ _ _ Hiu) as (j & Hij & Hj & Hlast).
    exists j. split_and!; [|done|done].
    rewrite Hidx. by apply CustomPrepare.enumerate_index_last_spec.
Qed.

Lemma X27_custom_display_round_trip_witness :
  let shown := Py.replace "_"%char " "%char "fever" in
  CustomData.get_available_symptoms Demo.title CustomSamples.trained !! 2
    = Some (Demo.title shown) ∧
  Custom._normalize_symptom (Custom._normalize_symptom (Demo.title shown)) = "fever" ∧
  ∃ j, Custom.symptom_to_encoded (CustomData.base CustomSamples.trained) !! "fever" = Some j ∧
       2 ≤ j.
Proof.
  assert (Htok : token "fever") by (vm_compute; repeat split).
  assert (Hnan : "fever" ≠ "nan") by (intros [=]).
  assert (Hinit : CustomData.init CustomSamples.fit Demo.overlap_df = inr CustomSamples.trained)
    by by vm_compute.
  destruct (X27_custom_display_round_trip Demo.title CustomSamples.fit Demo.overlap_df
              CustomSamples.trained Hinit) as [_ Hall].
  assert (Hfever : Custom.symptoms_list (CustomData.base CustomSamples.trained) !! 2
                   = Some "fever") by reflexivity.
  destruct (Hall 2 "fever" Hfever) as [Hname Hback].
  intros shown. split; [exact Hname|].
  destruct (Hback Htok Hnan eq_refl) as (_ & Htwice & j & Hj & Hle & _).
  split; [exact Htwice|]. exists j. split; [exact Hj|exact Hle].
Defined.

(** ** The two passes of the custom engine over the symptom cells *)

Module CustomPasses.
Import Custom CustomData CustomSpec CustomNorm CustomVector CustomPrepare
  CustomTrainingFacts CustomInfo.

Lemma split_cons_head ch s : ∃ h t, Py.split ch s = h :: t.
Proof.
  induction s as [|c s (h & t & IH)]; simpl; [by eexists _, _|].
  case_bool_decide; [by eexists _, _|]. rewrite IH. by eexists _, _.
Qed.

Lemma split_nil_inv ch s : Py.split ch s = [EmptyString] → s = EmptyString.
Proof.
  destruct s as [|c s]; [done|]. simpl. case_bool_decide.
  - destruct (split_cons_head ch s) as (h & t & ->). done.
  - destruct (split_cons_head ch s) as (h & t & ->). done.
Qed.

Lemma strip_lstrip s : Py.strip (Py.lstrip s) = Py.strip s.
Proof.
  induction s as [|c s IH]; [done|]. cbn [Py.lstrip].
  destruct (Py.isspace c) eqn:Hc; [|done]. by rewrite strip_cons_space.
Qed.

Lemma rstrip_rstrip s : Py.rstrip (Py.rstrip s) = Py.rstrip s.
Proof. apply rstrip_id, last_ok_rstrip. Qed.

Lemma strip_rstrip s : Py.strip (Py.rstrip s) = Py.strip s.
Proof. unfold Py.strip. by rewrite rstrip_rstrip. Qed.

Lemma fmap_strip_rstrip_last l : Py.strip <$> rstrip_last l = Py.strip <$> l.
Proof.
  induction l as [|x [|y l] IH]; [done| |].
  - simpl. by rewrite strip_rstrip.
  - cbn [rstrip_last fmap list_fmap] in *. by rewrite IH.
Qed.

Lemma split_lstrip ch s :
  Py.isspace ch = false →
  Py.strip <$> Py.split ch (Py.lstrip s) = Py.strip <$> Py.split ch s.
Proof.
  intros Hch. induction s as [|c s IH]; [done|]. cbn [Py.lstrip].
  destruct (Py.isspace c) eqn:Hc; [|done].
  rewrite IH. cbn [Py.split]. rewrite bool_decide_eq_false_2 by congruence.
  destruct (split_cons_head ch s) as (h & t & ->). simpl.
  by rewrite strip_cons_space.
Qed.

Lemma rstrip_cons c s :
  Py.rstrip (String c s) =
    match Py.rstrip s with
    | EmptyString => if Py.isspace c then EmptyString else String c EmptyString
    | r => String c r
    end.
Proof. done. Qed.

Lemma split_cons ch c s :
  Py.split ch (String c s) =
    if bool_decide (c = ch) then EmptyString :: Py.split ch s
    else match Py.split ch s with
         | h :: t => String c h :: t
         | [] => [String c EmptyString]
         end.
Proof. done. Qed.

Lemma rstrip_last_cons x y l : rstrip_last (x :: y :: l) = x :: rstrip_last (y :: l).
Proof. done. Qed.

Lemma split_rstrip ch s :
  Py.isspace ch = false →
  Py.split ch (Py.rstrip s) = rstrip_last (Py.split ch s).
Proof.
  intros Hch. induction s as [|c s IH]; [done|].
  rewrite rstrip_cons, (split_cons ch c s).
  destruct (split_cons_head ch s) as (h & t & Hs). rewrite Hs in IH |- *.
  case_bool_decide as Hc.
  - subst c. rewrite rstrip_last_cons, <- IH.
    destruct (Py.rstrip s) as [|c' r].
    + rewrite Hch, split_cons. by rewrite bool_decide_eq_true_2.
    + rewrite split_cons. by rewrite bool_decide_eq_true_2.
  - destruct (Py.rstrip s) as [|c' r] eqn:Hr.
    + destruct t as [|y t].
      * injection IH as IH. cbn [rstrip_last]. rewrite rstrip_cons, <- IH.
        destruct (Py.isspace c); [done|].
        rewrite split_cons. by rewrite bool_decide_eq_false_2.
      * exfalso. rewrite rstrip_last_cons in IH. injection IH as _ IH.
        destruct t; done.
    + rewrite split_cons, bool_decide_eq_false_2 by done. rewrite IH.
      destruct t as [|y t].
      * cbn [rstrip_last]. rewrite rstrip_cons.
        destruct (Py.rstrip h) eqn:Hh; [|done].
        exfalso. cbn [rstrip_last] in IH. rewrite Hh in IH.
        by apply split_nil_inv in IH.
      * by rewrite !rstrip_last_cons.
Qed.

Lemma split_strip ch s :
  Py.isspace ch = false →
  Py.strip <$> Py.split ch (Py.strip s) = Py.strip <$> Py.split ch s.
Proof.
  intros Hch. unfold Py.strip at 2.
  by rewrite split_lstrip, split_rstrip, fmap_strip_rstrip_last.
Qed.

Lemma contains_lstrip ch s :
  Py.isspace ch = false → Py.contains ch (Py.lstrip s) = Py.contains ch s.
Proof.
  intros Hch. induction s as [|c s IH]; [done|]. cbn [Py.lstrip].
  destruct (Py.isspace c) eqn:Hc; [|done]. rewrite IH. simpl.
  by rewrite bool_decide_eq_false_2 by congruence.
Qed.

Lemma contains_rstrip ch s :
  Py.isspace ch = false → Py.contains ch (Py.rstrip s) = Py.contains ch s.
Proof.
  intros Hch. induction s as [|c s IH]; [done|]. cbn [Py.rstrip Py.contains].
  rewrite <- IH. destruct (Py.rstrip s) as [|c' r]; [|done].
  destruct (Py.isspace c) eqn:Hc; [|done]. simpl.
  by rewrite bool_decide_eq_false_2 by congruence.
Qed.

Lemma contains_strip ch s :
  Py.isspace ch = false → Py.contains ch (Py.strip s) = Py.contains ch s.
Proof. intros. unfold Py.strip. by rewrite contains_lstrip, contains_rstrip. Qed.

Lemma isspace_comma : Py.isspace ","%char = false.
Proof. done. Qed.

(** What the loop over the symptom columns of a row adds for one string
    cell is what [_prepare_data] adds for it. *)
Lemma read_cell_parts s :
  (if Py.contains ","%char (Py.strip s)
   then Py.strip <$> Py.split ","%char (Py.strip s)
   else [Py.strip s]) = cell_parts s.
Proof.
  unfold cell_parts. rewrite contains_strip by apply isspace_comma.
  destruct (Py.contains _ s); [|done]. apply split_strip, isspace_comma.
Qed.

Lemma elem_step (P : string → string → Prop) (acc parts : list string) col cols p :
  ((∃ s, P col s) ↔ p ∈ parts) →
  (p ∈ acc ++ parts ∨ ∃ col' s, col' ∈ cols ∧ P col' s) ↔
  (p ∈ acc ∨ ∃ col' s, col' ∈ col :: cols ∧ P col' s).
Proof.
  intros HP. rewrite elem_of_app. split.
  - intros [[?|Hp]|(col' & s & ? & ?)]; [by left|right..].
    + apply HP in Hp as [s Hs]. exists col, s. split; [by left|done].
    + exists col', s. split; [by right|done].
  - intros [?|(col' & s & Hc & Hs)]; [by left; left|].
    apply elem_of_cons in Hc as [->|Hc].
    + left; right. apply HP. eauto.
    + right. eauto.
Qed.

Lemma elem_skip (P : string → string → Prop) (acc : list string) col cols p :
  (∀ s, ¬ P col s) →
  (p ∈ acc ∨ ∃ col' s, col' ∈ cols ∧ P col' s) ↔
  (p ∈ acc ∨ ∃ col' s, col' ∈ col :: cols ∧ P col' s).
Proof.
  intros HP. rewrite <- (elem_step P acc [] col cols p).
  - by rewrite app_nil_r.
  - split; [by intros [s Hs]; destruct (HP s)|by intros H; inversion H].
Qed.

Lemma row_symptoms_fold cols row (acc rs : list string) p :
  fold_res (λ acc col,
      cell ← RF.row_item row col;
      match cell with
      | PStr s =>
          let symptom_value := Py.strip s in
          if Py.nonempty symptom_value && negb (String.eqb symptom_value "nan")
          then if Py.contains ","%char symptom_value
               then inr (acc ++ (Py.strip <$> Py.split ","%char symptom_value))
               else inr (acc ++ [symptom_value])
          else inr acc
      | _ => inr acc
      end) acc cols = inr rs →
  p ∈ rs ↔
  p ∈ acc ∨ ∃ col s, col ∈ cols ∧
    (row !! col = Some (PStr s) ∧
     Py.strip s ≠ EmptyString ∧ Py.strip s ≠ "nan" ∧ p ∈ cell_parts s).
Proof.
  revert acc. induction cols as [|col cols IH]; intros acc; cbn [fold_res].
  - intros [= <-]. split; [by left|].
    intros [?|(? & ? & Hc & _)]; [done|by inversion Hc].
  - destruct (RF.row_item row col) as [x|cell] eqn:Hitem; [done|].
    assert (Hcell : row !! col = Some cell).
    { unfold RF.row_item in Hitem. destruct (row !! col); congruence. }
    cbn [mbind res_bind].
    destruct cell as [| |s].
    + intros Hrun. rewrite (IH _ Hrun).
      apply (elem_skip (λ col s, row !! col = Some (PStr s) ∧
        Py.strip s ≠ EmptyString ∧ Py.strip s ≠ "nan" ∧ p ∈ cell_parts s)).
      intros s [Hs _]. congruence.
    + intros Hrun. rewrite (IH _ Hrun).
      apply (elem_skip (λ col s, row !! col = Some (PStr s) ∧
        Py.strip s ≠ EmptyString ∧ Py.strip s ≠ "nan" ∧ p ∈ cell_parts s)).
      intros s [Hs _]. congruence.
    + cbv zeta.
      destruct (Py.nonempty (Py.strip s)) eqn:Hne; cbn [andb].
      2:{ intros Hrun. rewrite (IH _ Hrun).
          apply (elem_skip (λ col s, row !! col = Some (PStr s) ∧
            Py.strip s ≠ EmptyString ∧ Py.strip s ≠ "nan" ∧ p ∈ cell_parts s)).
          intros s' (Hs & Hb & _). rewrite Hcell in Hs. injection Hs as <-.
          by destruct (Py.strip s). }
      destruct (String.eqb (Py.strip s) "nan") eqn:Hnan; cbn [negb].
      { intros Hrun. rewrite (IH _ Hrun).
        apply (elem_skip (λ col s, row !! col = Some (PStr s) ∧
          Py.strip s ≠ EmptyString ∧ Py.strip s ≠ "nan" ∧ p ∈ cell_parts s)).
        intros s' (Hs & _ & Hb & _). rewrite Hcell in Hs. injection Hs as <-.
        by apply String.eqb_eq in Hnan. }
      apply String.eqb_neq in Hnan.
      assert (Hstrip : Py.strip s ≠ EmptyString) by (intros Heq; by rewrite Heq in Hne).
      pose proof (read_cell_parts s) as Hparts.
      assert (HP : (∃ s', row !! col = Some (PStr s') ∧
                     Py.strip s' ≠ EmptyString ∧ Py.strip s' ≠ "nan" ∧
                     p ∈ cell_parts s') ↔ p ∈ cell_parts s).
      { split; [|by exists s].
        intros (s' & Hs & _ & _ & Hp). rewrite Hcell in Hs. by injection Hs as <-. }
      destruct (Py.contains ","%char (Py.strip s)); rewrite Hparts;
        intros Hrun; rewrite (IH _ Hrun);
        exact (elem_step (λ col s, row !! col = Some (PStr s) ∧
          Py.strip s ≠ EmptyString ∧ Py.strip s ≠ "nan" ∧ p ∈ cell_parts s)
          acc (cell_parts s) col cols p HP).
Qed.

Lemma row_symptoms_elem cols row rs p :
  row_symptoms cols row = inr rs →
  p ∈ rs ↔
  ∃ col s, col ∈ cols ∧ row !! col = Some (PStr s) ∧
           Py.strip s ≠ EmptyString ∧ Py.strip s ≠ "nan" ∧ p ∈ cell_parts s.
Proof.
  intros Hrun. rewrite (row_symptoms_fold _ _ _ _ p Hrun). split; [|by right].
  intros [H|H]; [by inversion H|done].
Qed.

Lemma cell_parts_stripped cell part : part ∈ cell_parts cell → Py.strip part = part.
Proof.
  unfold cell_parts. destruct (Py.contains _ cell).
  - intros (p & -> & _)%list_elem_of_fmap.
    apply strip_id; [apply hd_ok_lstrip|apply last_ok_lstrip, last_ok_rstrip].
  - intros ->%list_elem_of_singleton.
    apply strip_id; [apply hd_ok_lstrip|apply last_ok_lstrip, last_ok_rstrip].
Qed.

(** A kept part comes from a cell that is neither blank nor reads nan. *)
Lemma cell_parts_kept cell part :
  part ∈ cell_parts cell → part ≠ EmptyString → part ≠ "nan" →
  Py.strip cell ≠ EmptyString ∧ Py.strip cell ≠ "nan".
Proof.
  unfold cell_parts.
  destruct (Py.contains ","%char cell) eqn:Hc.
  - intros _ _ _. rewrite <- (contains_strip _ _ isspace_comma) in Hc.
    split; intros Heq; by rewrite Heq in Hc.
  - intros ->%list_elem_of_singleton. done.
Qed.

Lemma training_rows_ok e cols (irs : list (nat * gmap string pyval))
    (xy xy' : list (list Q) * list pyval) :
  fold_res (λ (xy : list (list Q) * list pyval) (ir : nat * gmap string pyval),
      rs ← row_symptoms cols ir.2;
      match rs with
      | [] => inr xy
      | _ =>
          feature_vector ← _create_feature_vector e rs;
          label ← RF.row_item ir.2 "Disease";
          inr (xy.1 ++ [feature_vector], xy.2 ++ [label])
      end) xy irs = inr xy' →
  ∀ ir, ir ∈ irs → ∃ rs, row_symptoms cols ir.2 = inr rs.
Proof.
  revert xy. induction irs as [|ir0 irs IH]; intros xy; cbn [fold_res].
  - intros _ ir Hir. by inversion Hir.
  - destruct (row_symptoms cols ir0.2) as [x|rs] eqn:Hrs; [done|].
    cbn [mbind res_bind].
    destruct (match rs with
              | [] => inr xy
              | _ :: _ =>
                  _create_feature_vector e rs ≫= λ feature_vector,
                    RF.row_item ir0.2 "Disease" ≫= λ label,
                      inr (xy.1 ++ [feature_vector], xy.2 ++ [label])
              end) as [x|xy1]; [done|].
    cbn [mbind res_bind]. intros Hrun ir [->|Hir]%elem_of_cons; [by eexists|].
    by eapply IH.
Qed.

Lemma init_rows_ok fit d t :
  init fit d = inr t →
  ∀ row, row ∈ rows d → ∃ rs, row_symptoms (symptom_columns d) row = inr rs.
Proof.
  intros Hinit row Hrow.
  destruct (custom_init_inv fit d t Hinit)
    as (_ & _ & X & y & _ & _ & _ & _ & _ & Htrain & _).
  unfold _prepare_training_data in Htrain.
  apply list_elem_of_lookup in Hrow as [k Hk].
  assert (Hir : (k, row) ∈ iterrows d).
  { unfold iterrows. apply list_elem_of_lookup. exists k.
    apply lookup_zip_with_Some. exists k, row. split_and!; [done| |done].
    apply lookup_seq. split; [done|]. by eapply lookup_lt_Some. }
  apply (training_rows_ok _ _ _ _ _ Htrain (k, row) Hir).
Qed.

Lemma vocabulary_read d e ds u :
  _prepare_data d = inr (e, ds) →
  (∀ row, row ∈ rows d → ∃ rs, row_symptoms (symptom_columns d) row = inr rs) →
  u ∈ symptoms_list e ↔
  ∃ row rs p, row ∈ rows d ∧ row_symptoms (symptom_columns d) row = inr rs ∧
              p ∈ rs ∧ p ≠ EmptyString ∧ p ≠ "nan" ∧ u = _normalize_symptom p.
Proof.
  intros Hprep Hok. rewrite (symptoms_list_elem _ _ _ _ Hprep). split.
  - intros (part & Hin & Hk & ->).
    apply all_symptoms_elem in Hin as (col & cell & Hcol & Hcell & Hpart).
    apply column_text_elem in Hcell as (row & Hrow & Hget).
    apply keeps_spec in Hk as (Hne & _ & Hnan).
    destruct (Hok row Hrow) as [rs Hrs].
    destruct (cell_parts_kept _ _ Hpart Hne Hnan) as [Hc1 Hc2].
    exists row, rs, part. split_and!; try done.
    apply (row_symptoms_elem _ _ _ _ Hrs). exists col, cell. split_and!; try done.
    unfold row_get in Hget. destruct (row !! col) as [v|]; simpl in Hget; congruence.
  - intros (row & rs & p & Hrow & Hrs & Hp & Hne & Hnan & ->).
    apply (row_symptoms_elem _ _ _ _ Hrs) in Hp as (col & s & Hcol & Hcell & _ & _ & Hpart).
    exists p. split_and!; [| |done].
    + apply all_symptoms_elem. exists col, s. split_and!; [done| |done].
      apply column_text_elem. exists row. split; [done|].
      unfold row_get. by rewrite Hcell.
    + apply keeps_spec. by rewrite (cell_parts_stripped _ _ Hpart).
Qed.

End CustomPasses.

(** X28.  The two passes of the custom engine over the symptom cells agree.
    When [__init__] succeeds, the loop of [_prepare_training_data] reads
    the symptoms of every row without raising, and the vocabulary built by
    [_prepare_data] holds exactly the normal forms of the symptoms so
    read, leaving out the empty ones and those reading nan.  Hence every
    such symptom of a row has a position in the mapping, which the
    training vector of the row marks. *)
Theorem X28_custom_two_passes
    (fit : CustomData.Fitting)
    (d : DataFrame) (t : CustomData.Trained) :
  CustomData.init fit d = inr t →
  (∀ row, row ∈ rows d →
     ∃ rs, CustomData.row_symptoms (CustomData.symptom_columns d) row = inr rs) ∧
  (∀ u, u ∈ Custom.symptoms_list (CustomData.base t) ↔
     ∃ row rs p, row ∈ rows d ∧
       CustomData.row_symptoms (CustomData.symptom_columns d) row = inr rs ∧
       p ∈ rs ∧ p ≠ EmptyString ∧ p ≠ "nan" ∧ u = Custom._normalize_symptom p) ∧
  (∀ row rs p, row ∈ rows d →
     CustomData.row_symptoms (CustomData.symptom_columns d) row = inr rs →
     p ∈ rs → p ≠ EmptyString → p ≠ "nan" →
     ∃ j, Custom.symptom_to_encoded (CustomData.base t) !! Custom._normalize_symptom p
            = Some j ∧
          Custom.symptoms_list (CustomData.base t) !! j
            = Some (Custom._normalize_symptom p)).
Proof.
  intros Hinit.
  pose proof (CustomPasses.init_rows_ok fit d t Hinit) as Hok.
  destruct (CustomTrainingFacts.custom_init_inv fit d t Hinit) as (Hprep & _ & _).
  destruct (CustomPrepare.prepare_data_inv _ _ _ Hprep) as (_ & Hidx & _).
  split_and!; [done| |].
  - intros u. apply (CustomPasses.vocabulary_read _ _ _ u Hprep Hok).
  - intros row rs p Hrow Hrs Hp Hne Hnan.
    assert (Hin : Custom._normalize_symptom p ∈ Custom.symptoms_list (CustomData.base t)).
    { apply (CustomPasses.vocabulary_read _ _ _ _ Hprep Hok).
      by exists row, rs, p. }
    apply list_elem_of_lookup in Hin as [i Hi].
    destruct (CustomPrepare.last_position _ _ _ Hi) as (j & _ & Hj & Hlast).
    exists j. split; [|done]. rewrite Hidx.
    by apply CustomPrepare.enumerate_index_last_spec.
Qed.

Lemma X28_custom_two_passes_witness :
  ∃ rs j,
    CustomData.row_symptoms (CustomData.symptom_columns Demo.overlap_df)
      (Demo.overlap_row "Flu" "Fever, cough" "fatigue") = inr rs ∧
    "Fever" ∈ rs ∧
    Custom.symptom_to_encoded Demo.custom_engine !! Custom._normalize_symptom "Fever"
      = Some j.
Proof.
  assert (Hrs : CustomData.row_symptoms (CustomData.symptom_columns Demo.overlap_df)
                  (Demo.overlap_row "Flu" "Fever, cough" "fatigue")
                = inr ["Fever"; "cough"; "fatigue"]) by (vm_compute; reflexivity).
  assert (Hinit : CustomData.init CustomSamples.fit Demo.overlap_df
                  = inr CustomSamples.trained) by (vm_compute; reflexivity).
  assert (Hne : "Fever" ≠ EmptyString) by (intros [=]).
  assert (Hnan : "Fever" ≠ "nan") by (intros [=]).
  destruct (X28_custom_two_passes CustomSamples.fit Demo.overlap_df CustomSamples.trained
              Hinit) as (_ & _ & Hpos).
  destruct (Hpos (Demo.overlap_row "Flu" "Fever, cough" "fatigue")
              ["Fever"; "cough"; "fatigue"] "Fever"
              (list_elem_of_here _ _) Hrs (list_elem_of_here _ _) Hne Hnan)
    as (j & Hj & _).
  exists ["Fever"; "cough"; "fatigue"], j.
  split; [exact Hrs|]. split; [apply list_elem_of_here|exact Hj].
Defined.

Module CustomInfoFacts.
Import Custom CustomData CustomSpec CustomPredict CustomInfo.

Lemma get_disease_info_cases t label :
  "Disease" ∈ columns (df t) →
  (∀ row, row ∈ rows (df t) →
     ∃ rs, row_symptoms (symptom_columns (df t)) row = inr rs) →
  ∃ info recs, get_disease_info t label = inr info ∧
    disease info = label ∧
    _get_recommendations t label = inr recs ∧
    medicines info = recs.1 ∧ diet info = recs.2 ∧
    (∀ k row, first_match (df t) label k row →
       row_symptoms (symptom_columns (df t)) row = inr (symptoms info)) ∧
    ((∀ row, row ∈ rows (df t) →
        cell_eq (row_get row "Disease" PNaN) label = false) →
     symptoms info = []).
Proof.
  intros Hcol Hok. unfold get_disease_info, _get_recommendations, column.
  rewrite bool_decide_eq_true_2 by done. cbn [mbind res_bind].
  pose proof (filter_head
    (λ row : gmap string pyval, cell_eq (row_get row "Disease" PNaN) label)
    (rows (df t))) as Hhead.
  destruct (filter _ (rows (df t))) as [|row rest].
  - eexists _, _. split_and!; try done.
    intros k row (Hk & Heq & _). exfalso.
    apply (Hhead row); [by eapply list_elem_of_lookup_2|by apply Is_true_true].
  - destruct Hhead as (k & Hk & Hrow & Hfirst).
    destruct (Hok row) as [rs Hrs]; [by eapply list_elem_of_lookup_2|].
    rewrite Hrs. cbn [mbind res_bind].
    eexists _, _. split_and!; try done; cbn [symptoms].
    + intros k' row' (Hk' & Heq' & Hfirst').
      destruct (Nat.lt_trichotomy k k') as [Hlt|[->|Hlt]].
      * specialize (Hfirst' _ _ Hlt Hk). apply Is_true_true in Hrow. congruence.
      * congruence.
      * apply Is_true_true in Heq'. by destruct (Hfirst _ _ Hlt Hk').
    + intros Hall. apply Is_true_true in Hrow.
      rewrite (Hall row) in Hrow; [done|]. by eapply list_elem_of_lookup_2.
Qed.

End CustomInfoFacts.

(** X29.  [get_disease_info] of an initialised custom engine never raises.  It
    repeats the disease it was asked about and gives the recommendations
    that [_get_recommendations], and so [predict_disease], gives for it.
    The symptoms it lists are those the training loop reads off the first
    row of the frame whose disease cell equals the disease, and none when
    there is no such row; each listed symptom that is not empty and does
    not read nan has its normal form in the vocabulary. *)
Theorem X29_custom_disease_info
    (fit : CustomData.Fitting)
    (d : DataFrame) (t : CustomData.Trained) (label : pyval) :
  CustomData.init fit d = inr t →
  ∃ info recs,
    CustomInfo.get_disease_info t label = inr info ∧
    CustomInfo.disease info = label ∧
    CustomData._get_recommendations t label = inr recs ∧
    CustomInfo.medicines info = recs.1 ∧ CustomInfo.diet info = recs.2 ∧
    (∀ k row, CustomSpec.first_match d label k row →
       CustomData.row_symptoms (CustomData.symptom_columns d) row
         = inr (CustomInfo.symptoms info)) ∧
    ((∀ row, row ∈ rows d →
        CustomData.cell_eq (row_get row "Disease" PNaN) label = false) →
     CustomInfo.symptoms info = []) ∧
    (∀ p, p ∈ CustomInfo.symptoms info → p ≠ EmptyString → p ≠ "nan" →
       Custom._normalize_symptom p ∈ Custom.symptoms_list (CustomData.base t)).
Proof.
  intros Hinit.
  pose proof (CustomPasses.init_rows_ok fit d t Hinit) as Hok.
  destruct (CustomTrainingFacts.custom_init_inv fit d t Hinit) as (Hprep & Hdf & _).
  destruct (CustomPrepare.prepare_data_inv _ _ _ Hprep) as (_ & _ & Hcol).
  rewrite <- Hdf in Hcol, Hok.
  destruct (CustomInfoFacts.get_disease_info_cases t label Hcol Hok)
    as (info & recs & Hrun & Hd & Hrecs & Hm & Hdiet & Hmatch & Hnone).
  rewrite Hdf in Hmatch, Hnone, Hok.
  exists info, recs. split_and!; try done.
  intros p Hp Hne Hnan.
  destruct (decide (Exists (λ row, CustomData.cell_eq (row_get row "Disease" PNaN) label
                                   = true) (rows d))) as [Hex|Hnex].
  - assert (Hfm : ∃ k row, CustomSpec.first_match d label k row).
    { pose proof (CustomPredict.filter_head
        (λ row : gmap string pyval,
           CustomData.cell_eq (row_get row "Disease" PNaN) label) (rows d)) as Hhead.
      destruct (filter _ (rows d)) as [|row rest].
      - apply Exists_exists in Hex as (row & Hrow & Heq).
        destruct (Hhead row Hrow). by apply Is_true_true.
      - destruct Hhead as (k & Hk & Hrow & Hfirst). exists k, row.
        split_and!; [done|by apply Is_true_true|].
        intros j r Hj Hr. apply not_true_is_false. intros Heq.
        apply (Hfirst j r Hj Hr). by apply Is_true_true. }
    destruct Hfm as (k & row & Hfm).
    apply (CustomPasses.vocabulary_read _ _ _ _ Hprep Hok).
    exists row, (CustomInfo.symptoms info), p. split_and!; try done.
    + destruct Hfm as (Hk & _). by eapply list_elem_of_lookup_2.
    + by eapply Hmatch.
  - rewrite Hnone in Hp; [by inversion Hp|].
    intros row Hrow. apply not_true_is_false. intros Heq.
    apply Hnex, Exists_exists. eauto.
Qed.

Lemma X29_custom_disease_info_witness :
  ∃ info,
    CustomInfo.get_disease_info CustomSamples.trained (PStr "Flu") = inr info ∧
    CustomInfo.disease info = PStr "Flu" ∧
    (∀ p, p ∈ CustomInfo.symptoms info → p ≠ EmptyString → p ≠ "nan" →
       Custom._normalize_symptom p ∈ Custom.symptoms_list Demo.custom_engine).
Proof.
  assert (Hinit : CustomData.init CustomSamples.fit Demo.overlap_df
                  = inr CustomSamples.trained) by (vm_compute; reflexivity).
  destruct (X29_custom_disease_info CustomSamples.fit Demo.overlap_df
              CustomSamples.trained (PStr "Flu") Hinit)
    as (info & recs & Hrun & Hd & _ & _ & _ & _ & _ & Hvoc).
  exists info. split; [exact Hrun|]. split; [exact Hd|exact Hvoc].
Defined.
